(** * riscvVM: virtual memory, TLB and PMP of the RISC-V processor model

    A shallow embedding of [riscv-ovpsim/source/riscvVM.c].  Machine integers
    are [Z] with their wrap-around written out, C bit-fields are decoded with
    shifts and masks, the processor structure is a record threaded through a
    small state monad in which [None] stands for [VMI_ABORT]/[VMI_ASSERT], and
    every call into the simulator API (memory reads and writes, alias and
    protection updates, messages, exception delivery) is logged in a trace. *)

From Stdlib Require Import String Ascii.
From Stdlib Require Import ZArith List Bool Lia.
Import ListNotations.
Local Open Scope Z_scope.

(* ------------------------------------------------------------------------- *)
(** ** Fixed-width integers and bit-fields *)

Definition Uns8  (x : Z) : Z := x mod 2^8.
Definition Uns16 (x : Z) : Z := x mod 2^16.
Definition Uns32 (x : Z) : Z := x mod 2^32.
Definition Uns64 (x : Z) : Z := x mod 2^64.

(** [~x] and [-x] on an [Uns64]. *)
Definition not64 (x : Z) : Z := Uns64 (Z.lnot x).
Definition neg64 (x : Z) : Z := Uns64 (- x).
Definition neg32 (x : Z) : Z := Uns32 (- x).

(** An unsigned, respectively signed, bit-field of [width] bits at [lsb]. *)
Definition bitsU (raw lsb width : Z) : Z :=
  Z.land (Z.shiftr raw lsb) (Z.ones width).

Definition bitsS (raw lsb width : Z) : Z :=
  let u := bitsU raw lsb width in
  if Z.testbit u (width - 1) then u - 2^width else u.

Definition b2z (b : bool) : Z := if b then 1 else 0.
Definition z2b (x : Z) : bool := negb (x =? 0).

(** This is the highest possible address *)
Definition RISCV_MAX_ADDR : Z := Uns64 (-1).

Definition RISCV_PAGE_SHIFT : Z := 12.

(* ------------------------------------------------------------------------- *)
(** ** Types of the simulator interface *)

(** Modelled from the spec: the access privileges ([memPriv]) are declared by
    the simulator interface, outside these sources; they are a bit mask of
    R, W and X, as the table in [privName] lists them. *)
Definition memPriv := Z.
Definition MEM_PRIV_NONE : memPriv := 0.
Definition MEM_PRIV_R    : memPriv := 1.
Definition MEM_PRIV_W    : memPriv := 2.
Definition MEM_PRIV_RW   : memPriv := 3.
Definition MEM_PRIV_X    : memPriv := 4.
Definition MEM_PRIV_RWX  : memPriv := 7.

(** Modelled from the spec: the access attributes are declared by the
    simulator interface, outside these sources; this file only asks whether
    an access is an artifact access. *)
Record memAccessAttrs := { MEM_AA_IS_ARTIFACT_ACCESS : bool }.

(** Memory domain handles; [0] is the null handle. *)
Definition memDomainP := nat.

(** Modelled from the spec: the processor modes are declared in a header
    outside these sources; the enumerators used by this file are the base
    modes U, S, H and M and the virtual modes VU and VS ([RISCV_MODE_V] or-ed
    onto a base mode). *)
Inductive riscvMode :=
| RISCV_MODE_U | RISCV_MODE_S | RISCV_MODE_H | RISCV_MODE_M
| RISCV_MODE_VU | RISCV_MODE_VS.

Definition riscvMode_eqb (a b : riscvMode) : bool :=
  match a, b with
  | RISCV_MODE_U, RISCV_MODE_U | RISCV_MODE_S, RISCV_MODE_S
  | RISCV_MODE_H, RISCV_MODE_H | RISCV_MODE_M, RISCV_MODE_M
  | RISCV_MODE_VU, RISCV_MODE_VU | RISCV_MODE_VS, RISCV_MODE_VS => true
  | _, _ => false
  end.

(** Modelled from the spec: the base mode of a mode and whether it is
    virtual, both from the same header. *)
Definition getBaseMode (mode : riscvMode) : riscvMode :=
  match mode with
  | RISCV_MODE_VU => RISCV_MODE_U
  | RISCV_MODE_VS => RISCV_MODE_S
  | m => m
  end.

Definition modeIsVirtual (mode : riscvMode) : bool :=
  match mode with
  | RISCV_MODE_VU | RISCV_MODE_VS => true
  | _ => false
  end.

(** Numeric value of a base mode, as used by [1<<getBaseMode(mode)]. *)
Definition baseModeIndex (mode : riscvMode) : Z :=
  match getBaseMode mode with
  | RISCV_MODE_U => 0
  | RISCV_MODE_S => 1
  | RISCV_MODE_H => 2
  | _ => 3
  end.

(** Modelled from the spec: the TLB identities (HS, VS stage 1, VS stage 2)
    are declared in the header of the processor structure. *)
Inductive riscvTLBId :=
| RISCV_TLB_HS | RISCV_TLB_VS1 | RISCV_TLB_VS2 | RISCV_TLB_LAST.

Definition riscvTLBId_eqb (a b : riscvTLBId) : bool :=
  match a, b with
  | RISCV_TLB_HS, RISCV_TLB_HS | RISCV_TLB_VS1, RISCV_TLB_VS1
  | RISCV_TLB_VS2, RISCV_TLB_VS2 | RISCV_TLB_LAST, RISCV_TLB_LAST => true
  | _, _ => false
  end.

(** Modelled from the spec: the exceptions raised by this file, declared in
    a header outside these sources. *)
Inductive riscvException :=
| riscv_E_InstructionAccessFault
| riscv_E_LoadAccessFault
| riscv_E_StoreAMOAccessFault
| riscv_E_InstructionPageFault
| riscv_E_LoadPageFault
| riscv_E_StoreAMOPageFault
| riscv_E_InstructionGuestPageFault
| riscv_E_LoadGuestPageFault
| riscv_E_StoreAMOGuestPageFault.

Definition isPageFault (e : riscvException) : bool :=
  match e with
  | riscv_E_InstructionAccessFault
  | riscv_E_LoadAccessFault
  | riscv_E_StoreAMOAccessFault => false
  | _ => true
  end.

(** Modelled from the spec: the access fault causes, declared in a header
    outside these sources. *)
Inductive riscvAccessFault :=
| riscv_AFault_None | riscv_AFault_Bus | riscv_AFault_PMP | riscv_AFault_PMA.

(** Enumeration of supported translation modes *)
Definition VAM_Sv32 : Z := 1.
Definition VAM_Sv39 : Z := 8.
Definition VAM_Sv48 : Z := 9.

(** Modelled from the spec: the privileged architecture versions are
    declared in a header outside these sources and compared as integers;
    version 1.11 follows 1.10, the first enumerator. *)
Definition RVPV_1_11 : Z := 1.

(* ------------------------------------------------------------------------- *)
(** ** Simulated ASID *)

(** Field view of the union representing the simulated ASID (including bits
    depending on xstatus register settings and VMID if required). *)
Record riscvSimASID := {
  ASID_HS : Z;      (* HS-mode ASID, 16 bits *)
  ASID_VS : Z;      (* VS-mode ASID, 16 bits *)
  VMID    : Z;      (* VMID, 16 bits *)
  MXR_HS  : bool;   (* HS-mode make-executable-readable *)
  SUM_HS  : bool;   (* HS-mode supervisor-user-access *)
  MXR_VS  : bool;   (* VS-mode make-executable-readable *)
  SUM_VS  : bool;   (* VS-mode supervisor-user-access *)
  S1      : bool;   (* is virtual stage 1 enabled? *)
  S2      : bool;   (* is virtual stage 2 enabled? *)
}.

(** Full simulated ASID view ([u64]). *)
Definition u64 (a : riscvSimASID) : Z :=
  Uns16 (ASID_HS a)
  + Z.shiftl (Uns16 (ASID_VS a)) 16
  + Z.shiftl (Uns16 (VMID a)) 32
  + Z.shiftl (b2z (MXR_HS a)) 48
  + Z.shiftl (b2z (SUM_HS a)) 49
  + Z.shiftl (b2z (MXR_VS a)) 50
  + Z.shiftl (b2z (SUM_VS a)) 51
  + Z.shiftl (b2z (S1 a)) 52
  + Z.shiftl (b2z (S2 a)) 53.

Definition zeroSimASID : riscvSimASID :=
  {| ASID_HS := 0; ASID_VS := 0; VMID := 0; MXR_HS := false; SUM_HS := false;
     MXR_VS := false; SUM_VS := false; S1 := false; S2 := false |}.

(* ------------------------------------------------------------------------- *)
(** ** TLB entries and TLBs *)

(** Structure representing a single TLB entry *)
Record tlbEntry := {
  lowVA    : Z;             (* entry low virtual address *)
  highVA   : Z;             (* entry high virtual address *)
  PA       : Z;             (* entry low physical address *)
  simASID  : riscvSimASID;  (* simulated ASID when mapped *)
  tlb      : riscvTLBId;    (* containing TLB *)
  mapped   : Z;             (* TLB entry mapped (per base mode), 2 bits *)
  priv     : Z;             (* access privilege, 3 bits *)
  U        : bool;          (* user accessible? *)
  G        : bool;          (* global bit *)
  A        : bool;          (* accessed bit (read or written) *)
  D        : bool;          (* dirty bit (written) *)
  artifact : bool;          (* entry created by artifact lookup *)
}.

(** Entry structures live in the arena of their TLB and are named by their
    index in it. *)
Definition tlbEntryP := nat.

(** Structure representing a TLB: the entry structures allocated for it, the
    range table holding the live ones, and the free list. *)
Record riscvTLB := {
  entries : list tlbEntry;
  lut     : list tlbEntryP;
  free    : list tlbEntryP;
}.

(** Structure describing mapping constraints for TLB entry.  The field names
    carry a prefix because [tlbEntry] has fields of the same names. *)
Record tlbMapInfo := {
  mi_lowVA  : Z;        (* low virtual address mapped *)
  mi_highVA : Z;        (* high virtual address mapped *)
  mi_priv   : memPriv;  (* effective privilege *)
}.

(** This enumerates page table walk errors *)
Inductive pteError :=
| PTEE_VAEXTEND   (* page table entry VA has invalid extension *)
| PTEE_READ       (* page table entry load failed *)
| PTEE_WRITE      (* page table entry store failed *)
| PTEE_V0         (* page table entry V=0 *)
| PTEE_R0W1       (* page table entry R=0 W=1 *)
| PTEE_LEAF       (* page table entry must be leaf level *)
| PTEE_ALIGN      (* page table entry is a misaligned superpage *)
| PTEE_PRIV       (* page table entry does not allow access *)
| PTEE_A0         (* page table entry A=0 *)
| PTEE_D0.        (* page table entry D=0 *)

(* ------------------------------------------------------------------------- *)
(** ** Calls into the simulator, as logged in the trace *)

Inductive vmiEvent :=
| vmirtReadNByteDomain (domain : memDomainP) (addr bytes value : Z)
| vmirtWriteNByteDomain (domain : memDomainP) (addr bytes value : Z)
| vmiMessage (severity : string) (error : pteError) (VA PTEAddr : Z)
             (access : ascii)
| vmiPrintf (format : string) (args : list Z)
| riscvTakeMemoryException (exception : riscvException) (VA : Z)
                           (gva : bool) (gpa : Z)
| vmirtAliasMemoryVM (domainP domainV : memDomainP) (lowPA highPA lowVA : Z)
                     (p : memPriv) (ASIDMask ASID : Z)
| vmirtUnaliasMemoryVM (domain : memDomainP) (lowVA highVA : Z)
                       (ASIDMask ASID : Z)
| vmirtProtectMemory (domain : memDomainP) (lo hi : Z) (p : memPriv)
| PMACheck (mode : riscvMode) (requiredPriv : memPriv) (lowPA highPA : Z).

(* ------------------------------------------------------------------------- *)
(** ** The processor structure *)

(** Modelled from the spec: the CSRs are declared in a header outside these
    sources; these are the fields this file reads ([RD_CSR_FIELD]). *)
Record riscvCSRs := {
  satp_MODE  : Z;  satp_ASID  : Z;  satp_PPN  : Z;
  vsatp_MODE : Z;  vsatp_ASID : Z;  vsatp_PPN : Z;
  hgatp_MODE : Z;  hgatp_VMID : Z;  hgatp_PPN : Z;
  mstatus_MXR  : bool;  mstatus_SUM  : bool;
  vsstatus_MXR : bool;  vsstatus_SUM : bool;
}.

(** Modelled from the spec: the configuration ([riscv->configInfo]) is
    declared in a header outside these sources; these are the fields this
    file reads, and what the accessors of the other model files derive from
    it. *)
Record riscvConfig := {
  PMP_registers   : Z;
  PMP_grain       : Z;
  cfg_updatePTEA  : bool;
  cfg_updatePTED  : bool;
  unaligned       : bool;
  priv_version    : Z;      (* RISCV_PRIV_VERSION *)
  ASIDMask        : Z;      (* getASIDMask *)
  XlenArch        : Z;      (* riscvGetXlenArch *)
  FlenArch        : Z;      (* riscvGetFlenArch *)
  DEBUG_MMU       : bool;   (* RISCV_DEBUG_MMU *)
}.

(** Modelled from the spec: the processor structure is declared in a header
    outside these sources; these are the fields this file uses, together with
    the memory the page table walk reaches and the log of the calls made into
    the simulator. *)
Record riscv := {
  (* not written by this file after initialization *)
  csr            : riscvCSRs;
  configInfo     : riscvConfig;
  artifactAccess : bool;
  inVMode        : bool;
  extBits        : Z;
  pmpDomains     : riscvMode -> bool -> memDomainP;
  vmDomains      : riscvMode -> bool -> memDomainP;
  (* translation state *)
  activeTLB      : riscvTLBId;
  s2Offset       : Z;
  PTWActive      : bool;
  PTWBadAddr     : bool;
  s2Active       : bool;
  s1VA           : Z;
  GVA            : bool;
  GPA            : Z;
  AFErrorIn      : riscvAccessFault;
  riscv_tlb      : riscvTLBId -> option riscvTLB;
  (* PMP registers *)
  pmpcfg_u8      : list Z;
  pmpaddr        : list Z;
  (* memory reached through the page table walk domain: the word stored at an
     address ([None] when a read there fails) and whether a write succeeds *)
  ptwMem         : Z -> option Z;
  ptwWritable    : Z -> bool;
  (* calls made into the simulator, most recent first *)
  trace          : list vmiEvent;
}.

(** Field updates of the processor structure. *)

Definition set_activeTLB v (r : riscv) : riscv :=
  {| csr := csr r;
     configInfo := configInfo r;
     artifactAccess := artifactAccess r;
     inVMode := inVMode r;
     extBits := extBits r;
     pmpDomains := pmpDomains r;
     vmDomains := vmDomains r;
     activeTLB := v;
     s2Offset := s2Offset r;
     PTWActive := PTWActive r;
     PTWBadAddr := PTWBadAddr r;
     s2Active := s2Active r;
     s1VA := s1VA r;
     GVA := GVA r;
     GPA := GPA r;
     AFErrorIn := AFErrorIn r;
     riscv_tlb := riscv_tlb r;
     pmpcfg_u8 := pmpcfg_u8 r;
     pmpaddr := pmpaddr r;
     ptwMem := ptwMem r;
     ptwWritable := ptwWritable r;
     trace := trace r |}.

Definition set_s2Offset v (r : riscv) : riscv :=
  {| csr := csr r;
     configInfo := configInfo r;
     artifactAccess := artifactAccess r;
     inVMode := inVMode r;
     extBits := extBits r;
     pmpDomains := pmpDomains r;
     vmDomains := vmDomains r;
     activeTLB := activeTLB r;
     s2Offset := v;
     PTWActive := PTWActive r;
     PTWBadAddr := PTWBadAddr r;
     s2Active := s2Active r;
     s1VA := s1VA r;
     GVA := GVA r;
     GPA := GPA r;
     AFErrorIn := AFErrorIn r;
     riscv_tlb := riscv_tlb r;
     pmpcfg_u8 := pmpcfg_u8 r;
     pmpaddr := pmpaddr r;
     ptwMem := ptwMem r;
     ptwWritable := ptwWritable r;
     trace := trace r |}.

Definition set_PTWActive v (r : riscv) : riscv :=
  {| csr := csr r;
     configInfo := configInfo r;
     artifactAccess := artifactAccess r;
     inVMode := inVMode r;
     extBits := extBits r;
     pmpDomains := pmpDomains r;
     vmDomains := vmDomains r;
     activeTLB := activeTLB r;
     s2Offset := s2Offset r;
     PTWActive := v;
     PTWBadAddr := PTWBadAddr r;
     s2Active := s2Active r;
     s1VA := s1VA r;
     GVA := GVA r;
     GPA := GPA r;
     AFErrorIn := AFErrorIn r;
     riscv_tlb := riscv_tlb r;
     pmpcfg_u8 := pmpcfg_u8 r;
     pmpaddr := pmpaddr r;
     ptwMem := ptwMem r;
     ptwWritable := ptwWritable r;
     trace := trace r |}.

Definition set_PTWBadAddr v (r : riscv) : riscv :=
  {| csr := csr r;
     configInfo := configInfo r;
     artifactAccess := artifactAccess r;
     inVMode := inVMode r;
     extBits := extBits r;
     pmpDomains := pmpDomains r;
     vmDomains := vmDomains r;
     activeTLB := activeTLB r;
     s2Offset := s2Offset r;
     PTWActive := PTWActive r;
     PTWBadAddr := v;
     s2Active := s2Active r;
     s1VA := s1VA r;
     GVA := GVA r;
     GPA := GPA r;
     AFErrorIn := AFErrorIn r;
     riscv_tlb := riscv_tlb r;
     pmpcfg_u8 := pmpcfg_u8 r;
     pmpaddr := pmpaddr r;
     ptwMem := ptwMem r;
     ptwWritable := ptwWritable r;
     trace := trace r |}.

Definition set_s2Active v (r : riscv) : riscv :=
  {| csr := csr r;
     configInfo := configInfo r;
     artifactAccess := artifactAccess r;
     inVMode := inVMode r;
     extBits := extBits r;
     pmpDomains := pmpDomains r;
     vmDomains := vmDomains r;
     activeTLB := activeTLB r;
     s2Offset := s2Offset r;
     PTWActive := PTWActive r;
     PTWBadAddr := PTWBadAddr r;
     s2Active := v;
     s1VA := s1VA r;
     GVA := GVA r;
     GPA := GPA r;
     AFErrorIn := AFErrorIn r;
     riscv_tlb := riscv_tlb r;
     pmpcfg_u8 := pmpcfg_u8 r;
     pmpaddr := pmpaddr r;
     ptwMem := ptwMem r;
     ptwWritable := ptwWritable r;
     trace := trace r |}.

Definition set_s1VA v (r : riscv) : riscv :=
  {| csr := csr r;
     configInfo := configInfo r;
     artifactAccess := artifactAccess r;
     inVMode := inVMode r;
     extBits := extBits r;
     pmpDomains := pmpDomains r;
     vmDomains := vmDomains r;
     activeTLB := activeTLB r;
     s2Offset := s2Offset r;
     PTWActive := PTWActive r;
     PTWBadAddr := PTWBadAddr r;
     s2Active := s2Active r;
     s1VA := v;
     GVA := GVA r;
     GPA := GPA r;
     AFErrorIn := AFErrorIn r;
     riscv_tlb := riscv_tlb r;
     pmpcfg_u8 := pmpcfg_u8 r;
     pmpaddr := pmpaddr r;
     ptwMem := ptwMem r;
     ptwWritable := ptwWritable r;
     trace := trace r |}.

Definition set_GVA v (r : riscv) : riscv :=
  {| csr := csr r;
     configInfo := configInfo r;
     artifactAccess := artifactAccess r;
     inVMode := inVMode r;
     extBits := extBits r;
     pmpDomains := pmpDomains r;
     vmDomains := vmDomains r;
     activeTLB := activeTLB r;
     s2Offset := s2Offset r;
     PTWActive := PTWActive r;
     PTWBadAddr := PTWBadAddr r;
     s2Active := s2Active r;
     s1VA := s1VA r;
     GVA := v;
     GPA := GPA r;
     AFErrorIn := AFErrorIn r;
     riscv_tlb := riscv_tlb r;
     pmpcfg_u8 := pmpcfg_u8 r;
     pmpaddr := pmpaddr r;
     ptwMem := ptwMem r;
     ptwWritable := ptwWritable r;
     trace := trace r |}.

Definition set_GPA v (r : riscv) : riscv :=
  {| csr := csr r;
     configInfo := configInfo r;
     artifactAccess := artifactAccess r;
     inVMode := inVMode r;
     extBits := extBits r;
     pmpDomains := pmpDomains r;
     vmDomains := vmDomains r;
     activeTLB := activeTLB r;
     s2Offset := s2Offset r;
     PTWActive := PTWActive r;
     PTWBadAddr := PTWBadAddr r;
     s2Active := s2Active r;
     s1VA := s1VA r;
     GVA := GVA r;
     GPA := v;
     AFErrorIn := AFErrorIn r;
     riscv_tlb := riscv_tlb r;
     pmpcfg_u8 := pmpcfg_u8 r;
     pmpaddr := pmpaddr r;
     ptwMem := ptwMem r;
     ptwWritable := ptwWritable r;
     trace := trace r |}.

Definition set_AFErrorIn v (r : riscv) : riscv :=
  {| csr := csr r;
     configInfo := configInfo r;
     artifactAccess := artifactAccess r;
     inVMode := inVMode r;
     extBits := extBits r;
     pmpDomains := pmpDomains r;
     vmDomains := vmDomains r;
     activeTLB := activeTLB r;
     s2Offset := s2Offset r;
     PTWActive := PTWActive r;
     PTWBadAddr := PTWBadAddr r;
     s2Active := s2Active r;
     s1VA := s1VA r;
     GVA := GVA r;
     GPA := GPA r;
     AFErrorIn := v;
     riscv_tlb := riscv_tlb r;
     pmpcfg_u8 := pmpcfg_u8 r;
     pmpaddr := pmpaddr r;
     ptwMem := ptwMem r;
     ptwWritable := ptwWritable r;
     trace := trace r |}.

Definition set_riscv_tlb v (r : riscv) : riscv :=
  {| csr := csr r;
     configInfo := configInfo r;
     artifactAccess := artifactAccess r;
     inVMode := inVMode r;
     extBits := extBits r;
     pmpDomains := pmpDomains r;
     vmDomains := vmDomains r;
     activeTLB := activeTLB r;
     s2Offset := s2Offset r;
     PTWActive := PTWActive r;
     PTWBadAddr := PTWBadAddr r;
     s2Active := s2Active r;
     s1VA := s1VA r;
     GVA := GVA r;
     GPA := GPA r;
     AFErrorIn := AFErrorIn r;
     riscv_tlb := v;
     pmpcfg_u8 := pmpcfg_u8 r;
     pmpaddr := pmpaddr r;
     ptwMem := ptwMem r;
     ptwWritable := ptwWritable r;
     trace := trace r |}.

Definition set_pmpcfg_u8 v (r : riscv) : riscv :=
  {| csr := csr r;
     configInfo := configInfo r;
     artifactAccess := artifactAccess r;
     inVMode := inVMode r;
     extBits := extBits r;
     pmpDomains := pmpDomains r;
     vmDomains := vmDomains r;
     activeTLB := activeTLB r;
     s2Offset := s2Offset r;
     PTWActive := PTWActive r;
     PTWBadAddr := PTWBadAddr r;
     s2Active := s2Active r;
     s1VA := s1VA r;
     GVA := GVA r;
     GPA := GPA r;
     AFErrorIn := AFErrorIn r;
     riscv_tlb := riscv_tlb r;
     pmpcfg_u8 := v;
     pmpaddr := pmpaddr r;
     ptwMem := ptwMem r;
     ptwWritable := ptwWritable r;
     trace := trace r |}.

Definition set_pmpaddr v (r : riscv) : riscv :=
  {| csr := csr r;
     configInfo := configInfo r;
     artifactAccess := artifactAccess r;
     inVMode := inVMode r;
     extBits := extBits r;
     pmpDomains := pmpDomains r;
     vmDomains := vmDomains r;
     activeTLB := activeTLB r;
     s2Offset := s2Offset r;
     PTWActive := PTWActive r;
     PTWBadAddr := PTWBadAddr r;
     s2Active := s2Active r;
     s1VA := s1VA r;
     GVA := GVA r;
     GPA := GPA r;
     AFErrorIn := AFErrorIn r;
     riscv_tlb := riscv_tlb r;
     pmpcfg_u8 := pmpcfg_u8 r;
     pmpaddr := v;
     ptwMem := ptwMem r;
     ptwWritable := ptwWritable r;
     trace := trace r |}.

Definition set_ptwMem v (r : riscv) : riscv :=
  {| csr := csr r;
     configInfo := configInfo r;
     artifactAccess := artifactAccess r;
     inVMode := inVMode r;
     extBits := extBits r;
     pmpDomains := pmpDomains r;
     vmDomains := vmDomains r;
     activeTLB := activeTLB r;
     s2Offset := s2Offset r;
     PTWActive := PTWActive r;
     PTWBadAddr := PTWBadAddr r;
     s2Active := s2Active r;
     s1VA := s1VA r;
     GVA := GVA r;
     GPA := GPA r;
     AFErrorIn := AFErrorIn r;
     riscv_tlb := riscv_tlb r;
     pmpcfg_u8 := pmpcfg_u8 r;
     pmpaddr := pmpaddr r;
     ptwMem := v;
     ptwWritable := ptwWritable r;
     trace := trace r |}.

Definition set_trace v (r : riscv) : riscv :=
  {| csr := csr r;
     configInfo := configInfo r;
     artifactAccess := artifactAccess r;
     inVMode := inVMode r;
     extBits := extBits r;
     pmpDomains := pmpDomains r;
     vmDomains := vmDomains r;
     activeTLB := activeTLB r;
     s2Offset := s2Offset r;
     PTWActive := PTWActive r;
     PTWBadAddr := PTWBadAddr r;
     s2Active := s2Active r;
     s1VA := s1VA r;
     GVA := GVA r;
     GPA := GPA r;
     AFErrorIn := AFErrorIn r;
     riscv_tlb := riscv_tlb r;
     pmpcfg_u8 := pmpcfg_u8 r;
     pmpaddr := pmpaddr r;
     ptwMem := ptwMem r;
     ptwWritable := ptwWritable r;
     trace := v |}.

(** Field updates of a TLB entry and of the mapping constraints. *)
Definition entry_set_range (lo hi : Z) (e : tlbEntry) : tlbEntry :=
  {| lowVA := lo; highVA := hi; PA := PA e; simASID := simASID e;
     tlb := tlb e; mapped := mapped e; priv := priv e; U := U e; G := G e;
     A := A e; D := D e; artifact := artifact e |}.

Definition entry_set_lowVA (lo : Z) (e : tlbEntry) : tlbEntry :=
  entry_set_range lo (highVA e) e.

Definition entry_set_simASID (a : riscvSimASID) (e : tlbEntry) : tlbEntry :=
  {| lowVA := lowVA e; highVA := highVA e; PA := PA e; simASID := a;
     tlb := tlb e; mapped := mapped e; priv := priv e; U := U e; G := G e;
     A := A e; D := D e; artifact := artifact e |}.

Definition entry_set_mapped (m : Z) (e : tlbEntry) : tlbEntry :=
  {| lowVA := lowVA e; highVA := highVA e; PA := PA e; simASID := simASID e;
     tlb := tlb e; mapped := m; priv := priv e; U := U e; G := G e;
     A := A e; D := D e; artifact := artifact e |}.

Definition entry_set_A (a : bool) (e : tlbEntry) : tlbEntry :=
  {| lowVA := lowVA e; highVA := highVA e; PA := PA e; simASID := simASID e;
     tlb := tlb e; mapped := mapped e; priv := priv e; U := U e; G := G e;
     A := a; D := D e; artifact := artifact e |}.

Definition entry_set_D (d : bool) (e : tlbEntry) : tlbEntry :=
  {| lowVA := lowVA e; highVA := highVA e; PA := PA e; simASID := simASID e;
     tlb := tlb e; mapped := mapped e; priv := priv e; U := U e; G := G e;
     A := A e; D := d; artifact := artifact e |}.

Definition entry_set_artifact (a : bool) (e : tlbEntry) : tlbEntry :=
  {| lowVA := lowVA e; highVA := highVA e; PA := PA e; simASID := simASID e;
     tlb := tlb e; mapped := mapped e; priv := priv e; U := U e; G := G e;
     A := A e; D := D e; artifact := a |}.

Definition mi_set_priv (p : memPriv) (mi : tlbMapInfo) : tlbMapInfo :=
  {| mi_lowVA := mi_lowVA mi; mi_highVA := mi_highVA mi; mi_priv := p |}.

(* ------------------------------------------------------------------------- *)
(** ** The monad of the model

    A computation takes the processor structure and either aborts the
    simulation ([None]) or returns a value and the updated structure. *)

Definition M (T : Type) : Type := riscv -> option (T * riscv).

Definition ret {T} (x : T) : M T := fun r => Some (x, r).

Definition bind {T V} (c : M T) (k : T -> M V) : M V :=
  fun r => match c r with
           | Some (x, r') => k x r'
           | None => None
           end.

Definition VMI_ABORT {T} : M T := fun _ => None.

Definition VMI_ASSERT (b : bool) : M unit :=
  fun r => if b then Some (tt, r) else None.

Definition get : M riscv := fun r => Some (r, r).

Definition gets {T} (f : riscv -> T) : M T := fun r => Some (f r, r).

Definition modify (f : riscv -> riscv) : M unit := fun r => Some (tt, f r).

Definition emit (ev : vmiEvent) : M unit :=
  modify (fun r => set_trace (ev :: trace r) r).

Definition when (b : bool) (c : M unit) : M unit := if b then c else ret tt.

Declare Scope vm_scope.
Delimit Scope vm_scope with vm.
Notation "x <- c1 ;; c2" := (bind c1 (fun x => c2))
  (at level 61, c1 at next level, right associativity) : vm_scope.
Notation "' pat <- c1 ;; c2" := (bind c1 (fun x => match x with pat => c2 end))
  (at level 61, pat pattern, c1 at next level, right associativity) : vm_scope.
Notation "c1 ;; c2" := (bind c1 (fun _ => c2))
  (at level 61, right associativity) : vm_scope.
Local Open Scope vm_scope.

(* ------------------------------------------------------------------------- *)
(** ** Utilities *)

Fixpoint list_set {T} (l : list T) (n : nat) (x : T) : list T :=
  match l, n with
  | [], _ => []
  | _ :: l', O => x :: l'
  | y :: l', S n' => y :: list_set l' n' x
  end.

(** Replace the TLB structure [riscv->tlb[id]]. *)
Definition set_tlb (id : riscvTLBId) (t : riscvTLB) (r : riscv) : riscv :=
  set_riscv_tlb
    (fun id' => if riscvTLBId_eqb id' id then Some t else riscv_tlb r id') r.

(** [riscv->tlb[id]], which must have been created. *)
Definition getTLB (id : riscvTLBId) : M riscvTLB :=
  fun r => match riscv_tlb r id with
           | Some t => Some (t, r)
           | None => None
           end.

(** Read and write the entry structure behind a pointer of TLB [id]. *)
Definition derefEntry (id : riscvTLBId) (p : tlbEntryP) : M tlbEntry :=
  t <- getTLB id;;
  match nth_error (entries t) p with
  | Some e => ret e
  | None => VMI_ABORT
  end.

Definition storeEntry (id : riscvTLBId) (p : tlbEntryP) (e : tlbEntry)
  : M unit :=
  t <- getTLB id;;
  modify (set_tlb id {| entries := list_set (entries t) p e;
                        lut := lut t; free := free t |}).

(** Return the effective stage 1 TLB *)
Definition getS1TLBId (r : riscv) : riscvTLBId :=
  if inVMode r then RISCV_TLB_VS1 else RISCV_TLB_HS.

(** Determine the currently-active TLB *)
Definition getCurrentTLBId : M riscvTLBId :=
  r <- get;;
  let result :=
    if negb (inVMode r) then
      if z2b (satp_MODE (csr r)) then RISCV_TLB_HS else RISCV_TLB_LAST
    else
      if z2b (vsatp_MODE (csr r)) then RISCV_TLB_VS1
      else if z2b (hgatp_MODE (csr r)) then RISCV_TLB_VS2
      else RISCV_TLB_LAST in
  VMI_ASSERT (negb (riscvTLBId_eqb result RISCV_TLB_LAST));;
  ret result.

(** Activate the given TLB (and return the previous active TLB) *)
Definition activateTLB (id : riscvTLBId) : M riscvTLBId :=
  old <- gets activeTLB;;
  modify (set_activeTLB id);;
  ret old.

(** Deactivate the given TLB, restoring previous active state *)
Definition deactivateTLB (old : riscvTLBId) : M unit :=
  modify (set_activeTLB old).

(** Is a virtual TLB active? *)
Definition activeTLBIsVirtual (r : riscv) : bool :=
  negb (riscvTLBId_eqb (activeTLB r) RISCV_TLB_HS).

(** Is the VS stage 2 TLB active? *)
Definition activeTLBIsVS2 (r : riscv) : bool :=
  riscvTLBId_eqb (activeTLB r) RISCV_TLB_VS2.

(** Return the number of implemented PMP registers *)
Definition getNumPMPs (r : riscv) : Z := PMP_registers (configInfo r).

(** Modelled from the spec: getASIDMask is defined in another file of the
    model; it is the mask of the implemented ASID bits. *)
Definition getASIDMask (r : riscv) : Z := ASIDMask (configInfo r).

(** Return table entry implied global state *)
Definition getG (r : riscv) (g : bool) : bool :=
  g || activeTLBIsVS2 r || negb (z2b (getASIDMask r)).

(** Is hardware update of PTE A bit supported? *)
Definition updatePTEA (r : riscv) : bool := cfg_updatePTEA (configInfo r).

(** Is hardware update of PTE D bit supported? *)
Definition updatePTED (r : riscv) : bool := cfg_updatePTED (configInfo r).

(** Does the TLB entry have a VMID? *)
Definition entryHasVMID (entry : tlbEntry) : bool :=
  riscvTLBId_eqb (tlb entry) RISCV_TLB_VS1
  || riscvTLBId_eqb (tlb entry) RISCV_TLB_VS2.

(** Return TLB entry ASID *)
Definition getEntryASID (entry : tlbEntry) : Z :=
  match tlb entry with
  | RISCV_TLB_HS => Uns16 (ASID_HS (simASID entry))
  | RISCV_TLB_VS1 => Uns16 (ASID_VS (simASID entry))
  | _ => 0
  end.

(** Return TLB entry VMID *)
Definition getEntryVMID (entry : tlbEntry) : Z :=
  match tlb entry with
  | RISCV_TLB_VS1 | RISCV_TLB_VS2 => Uns16 (VMID (simASID entry))
  | _ => 0
  end.

(** Given a TLB entry, return the corresponding simulated ASID including
    xstatus bits that affect whether entries are used that were in force when
    the entry was created *)
Definition getEntrySimASID (entry : tlbEntry) : Z := u64 (simASID entry).

Definition getEntryLowVA (entry : tlbEntry) : Z := lowVA entry.
Definition getEntryHighVA (entry : tlbEntry) : Z := highVA entry.

(** Return TLB entry size *)
Definition getEntrySize (entry : tlbEntry) : Z :=
  Uns64 (highVA entry - lowVA entry + 1).

(** Return TLB entry low PA *)
Definition getEntryLowPA (entry : tlbEntry) : Z := PA entry.

(** Return TLB entry high PA *)
Definition getEntryHighPA (entry : tlbEntry) : Z :=
  Uns64 (PA entry + highVA entry - lowVA entry).

(** Return TLB entry VA-to-PA offset *)
Definition getEntryVAtoPA (entry : tlbEntry) : Z :=
  Uns64 (PA entry - lowVA entry).

(** Return TLB entry ASID mask *)
Definition getEntryASIDMask (entry : tlbEntry) (mode : riscvMode) : Z :=
  let V := modeIsVirtual mode in
  (* include U field only if this entry is user-accessible and in Supervisor
     mode; stage 2 entries are always treated as user mode *)
  let useSUM :=
    negb (riscvTLBId_eqb (tlb entry) RISCV_TLB_VS2)
    && U entry && riscvMode_eqb (getBaseMode mode) RISCV_MODE_S in
  u64 {| (* include ASID field only if this entry is not global *)
         ASID_HS := if G entry then 0 else if V then 0 else -1;
         ASID_VS := if G entry then 0 else if V then -1 else 0;
         MXR_HS  := true;
         SUM_HS  := useSUM && negb V;
         SUM_VS  := useSUM && V;
         (* include fields required only when V=1 *)
         VMID    := if V then -1 else 0;
         MXR_VS  := V;
         S1      := V;
         S2      := V |}.

(** Get ASID for the currently-active TLB *)
Definition getActiveASID (r : riscv) : Z :=
  match activeTLB r with
  | RISCV_TLB_HS => satp_ASID (csr r)
  | RISCV_TLB_VS1 => vsatp_ASID (csr r)
  | _ => 0
  end.

(** Get VMID for the currently-active TLB *)
Definition getActiveVMID (r : riscv) : Z :=
  match activeTLB r with
  | RISCV_TLB_VS1 | RISCV_TLB_VS2 => hgatp_VMID (csr r)
  | _ => 0
  end.

(** Is code domain required for the passed privilege? *)
Definition isFetch (p : memPriv) : bool := z2b (Z.land p MEM_PRIV_X).

(** Does the entry ASID match the given TLB VMID? *)
Definition matchVMID (vmid : Z) (entry : tlbEntry) : bool :=
  negb (entryHasVMID entry) || (vmid =? getEntryVMID entry).

(** Does the entry ASID match the given TLB ASID? (always true for global
    entries) *)
Definition matchASID (asid : Z) (entry : tlbEntry) : bool :=
  G entry || (asid =? getEntryASID entry).

(** Return the current simulated ASID, taking into account xstatus bits that
    affect whether entries are used *)
Definition getSimASID (r : riscv) : riscvSimASID :=
  {| ASID_HS := satp_ASID (csr r);
     ASID_VS := vsatp_ASID (csr r);
     VMID    := hgatp_VMID (csr r);
     MXR_HS  := mstatus_MXR (csr r);
     SUM_HS  := mstatus_SUM (csr r);
     MXR_VS  := vsstatus_MXR (csr r);
     SUM_VS  := vsstatus_SUM (csr r);
     S1      := z2b (vsatp_MODE (csr r));
     S2      := z2b (hgatp_MODE (csr r)) |}.

(** Get root page table address *)
Definition getPTETableAddress (PPN : Z) : Z := Uns64 (Z.shiftl PPN RISCV_PAGE_SHIFT).

(** Get root page table address *)
Definition getRootTableAddress : M Z :=
  r <- get;;
  match activeTLB r with
  | RISCV_TLB_HS => ret (getPTETableAddress (satp_PPN (csr r)))
  | RISCV_TLB_VS1 => ret (getPTETableAddress (vsatp_PPN (csr r)))
  | RISCV_TLB_VS2 =>
      ret (Uns64 (getPTETableAddress (hgatp_PPN (csr r)) + s2Offset r * 4096))
  | RISCV_TLB_LAST => VMI_ABORT
  end.

(** Validate entry access permissions *)
Definition checkEntryPermission (r : riscv) (mode : riscvMode)
    (entry : tlbEntry) (requiredPriv : memPriv) : memPriv :=
  let p0 := priv entry in
  let MXR0 := mstatus_MXR (csr r) in
  let SUM0 := mstatus_SUM (csr r) in
  let '(MXR, SUM, mode) :=
    match activeTLB r with
    | RISCV_TLB_VS1 =>
        (* modify MXR and SUM if this is a stage 1 virtual access *)
        (MXR0 || vsstatus_MXR (csr r), vsstatus_SUM (csr r), mode)
    | RISCV_TLB_VS2 =>
        (* stage 2 accesses are always taken to be U mode *)
        (MXR0, SUM0, RISCV_MODE_U)
    | _ => (MXR0, SUM0, mode)
    end in
  (* add read permission if executable and xstatus.MXR=1 *)
  let p1 := if z2b (Z.land p0 MEM_PRIV_X) && MXR
            then Z.lor p0 MEM_PRIV_R else p0 in
  let p2 :=
    if riscvMode_eqb (getBaseMode mode) RISCV_MODE_U then
      (* no access in user mode unless U=1 *)
      if negb (U entry) then MEM_PRIV_NONE else p1
    else if U entry then
      (* no access in supervisor mode if U=1 unless xstatus.SUM=1 *)
      if negb SUM then MEM_PRIV_NONE
      else if RVPV_1_11 <=? priv_version (configInfo r) then
        (* behavior from privileged architecture 1.11 only - never
           executable in Supervisor mode if U=1 *)
        Z.land p1 (Z.lnot MEM_PRIV_X)
      else p1
    else p1 in
  (* indicate whether permission is allowed *)
  if Z.land p2 requiredPriv =? requiredPriv then p2 else MEM_PRIV_NONE.

(** Is the VA valid? (VPNextend must extend VPN) *)
Definition validVA (VPN VPNextend : Z) : bool :=
  if 0 <=? VPN then VPNextend =? 0 else VPNextend =? -1.

(** Return the PMP memory domain to use for the passed code/data access *)
Definition getPMPDomainCorD (r : riscv) (mode : riscvMode) (isCode : bool)
  : memDomainP := pmpDomains r (getBaseMode mode) isCode.

(** Return the virtual memory domain to use for the passed code/data access;
    only the modes U, S, VU and VS have one. *)
Definition getVirtDomainCorD (r : riscv) (mode : riscvMode) (isCode : bool)
  : memDomainP :=
  match mode with
  | RISCV_MODE_U | RISCV_MODE_S | RISCV_MODE_VU | RISCV_MODE_VS =>
      vmDomains r mode isCode
  | _ => 0%nat
  end.

(** Return the PMP memory domain to use for the passed memory access type *)
Definition getPMPDomainPriv (r : riscv) (mode : riscvMode) (p : memPriv)
  : memDomainP := getPMPDomainCorD r mode (isFetch p).

(** Return the memory domain to use for page table walk accesses *)
Definition getPTWDomain (r : riscv) : memDomainP :=
  getPMPDomainPriv r RISCV_MODE_S MEM_PRIV_RW.

(** The simulator's word read: the word at the address, or zero with the
    bad-address flag raised when the read fails.  The value read is logged
    with the call. *)
Definition vmirtReadDomain (domain : memDomainP) (addr bytes : Z) : M Z :=
  m <- gets ptwMem;;
  match m addr with
  | Some v =>
      let v := v mod 2 ^ (8 * bytes) in
      emit (vmirtReadNByteDomain domain addr bytes v);;
      ret v
  | None =>
      emit (vmirtReadNByteDomain domain addr bytes 0);;
      modify (set_PTWBadAddr true);;
      ret 0
  end.

(** The simulator's word write: stores the word, or raises the bad-address
    flag when the write fails. *)
Definition vmirtWriteDomain (domain : memDomainP) (addr bytes value : Z)
  : M unit :=
  emit (vmirtWriteNByteDomain domain addr bytes value);;
  w <- gets ptwWritable;;
  if w addr then
    modify (fun r =>
      set_ptwMem (fun a => if a =? addr then Some value else ptwMem r a) r)
  else modify (set_PTWBadAddr true).

(** Read an entry from a page table (returning invalid all-zero entry if the
    lookup fails) *)
Definition readPageTableEntry (mode : riscvMode) (PTEAddr entryBytes : Z)
    (attrs : memAccessAttrs) : M Z :=
  domain <- gets getPTWDomain;;
  (* enter PTW context *)
  modify (set_PTWActive true);;
  modify (set_PTWBadAddr false);;
  (* read 4-byte or 8-byte entry *)
  result <- vmirtReadDomain domain PTEAddr (if entryBytes =? 4 then 4 else 8);;
  (* exit PTW context *)
  modify (set_PTWActive false);;
  ret result.

(** Write an entry in a page table *)
Definition writePageTableEntry (mode : riscvMode) (PTEAddr entryBytes : Z)
    (attrs : memAccessAttrs) (value : Z) : M unit :=
  domain <- gets getPTWDomain;;
  (* enter PTW context *)
  modify (set_PTWActive true);;
  modify (set_PTWBadAddr false);;
  (* write 4-byte or 8-byte entry; no action if an artifact access *)
  artifactAcc <- gets artifactAccess;;
  (if artifactAcc then ret tt
   else vmirtWriteDomain domain PTEAddr (if entryBytes =? 4 then 4 else 8)
          value);;
  (* exit PTW context *)
  modify (set_PTWActive false).

(* ------------------------------------------------------------------------- *)
(** ** Page table walk error handling and reporting *)

(** this enumerates generated exceptions *)
Inductive pteException :=
| PTX_LOAD_ACCESS     (* load access fault *)
| PTX_STORE_ACCESS    (* store access fault *)
| PTX_PAGE.           (* page fault *)

(** exception table: whether to generate warning (otherwise, info) and the
    exception description *)
Definition pteErrorDesc (error : pteError) : bool * pteException :=
  match error with
  | PTEE_VAEXTEND => (true,  PTX_PAGE)
  | PTEE_READ     => (true,  PTX_LOAD_ACCESS)
  | PTEE_WRITE    => (true,  PTX_STORE_ACCESS)
  | PTEE_V0       => (false, PTX_PAGE)
  | PTEE_R0W1     => (true,  PTX_PAGE)
  | PTEE_LEAF     => (true,  PTX_PAGE)
  | PTEE_ALIGN    => (true,  PTX_PAGE)
  | PTEE_PRIV     => (false, PTX_PAGE)
  | PTEE_A0       => (false, PTX_PAGE)
  | PTEE_D0       => (false, PTX_PAGE)
  end.

(** Return character corresponding to privilege *)
Definition getAccessChar (requiredPriv : memPriv) : M ascii :=
  if requiredPriv =? MEM_PRIV_R then ret "R"%char
  else if requiredPriv =? MEM_PRIV_W then ret "W"%char
  else if requiredPriv =? MEM_PRIV_X then ret "X"%char
  else VMI_ABORT.

(** Return fault type based on the original access on a page table walk *)
Definition originalAccessFault (requiredPriv : memPriv) : M riscvException :=
  if requiredPriv =? MEM_PRIV_R then ret riscv_E_LoadAccessFault
  else if requiredPriv =? MEM_PRIV_W then ret riscv_E_StoreAMOAccessFault
  else if requiredPriv =? MEM_PRIV_X then ret riscv_E_InstructionAccessFault
  else VMI_ABORT.

(** Handle a specific error arising during a page table walk *)
Definition handlePTWException (mode : riscvMode) (entry : tlbEntry)
    (requiredPriv : memPriv) (PTEAddr : Z) (error : pteError)
  : M riscvException :=
  let '(warn, exception) := pteErrorDesc error in
  debug <- gets (fun r => DEBUG_MMU (configInfo r));;
  (* determine whether PTW exception should be reported, and with what
     severity; generate message for error if required *)
  (if warn || debug then
     c <- getAccessChar requiredPriv;;
     emit (vmiMessage (if warn then "W" else "I") error (lowVA entry)
             PTEAddr c)
   else ret tt);;
  (* is this a stage 2 fault? *)
  S2 <- gets activeTLBIsVS2;;
  (* return appropriate exception *)
  match exception with
  | PTX_LOAD_ACCESS => originalAccessFault requiredPriv
  | PTX_STORE_ACCESS => originalAccessFault requiredPriv
  | PTX_PAGE =>
      if requiredPriv =? MEM_PRIV_R then
        ret (if S2 then riscv_E_LoadGuestPageFault else riscv_E_LoadPageFault)
      else if requiredPriv =? MEM_PRIV_W then
        ret (if S2 then riscv_E_StoreAMOGuestPageFault
             else riscv_E_StoreAMOPageFault)
      else
        ret (if S2 then riscv_E_InstructionGuestPageFault
             else riscv_E_InstructionPageFault)
  end.

(* ------------------------------------------------------------------------- *)
(** ** Page table walks

    The source has one copy of the walk per translation mode; the copies
    differ in the layout of the virtual address and of the table entry, which
    [svFormat] records, and in the Sv32 walk having no extension check. *)

Record svFormat := {
  svLevels     : nat;    (* levels walked: the loop starts at svLevels-1 *)
  svVPNShift   : Z;      (* SVnn_VPN_SHIFT: the VPN page size in bits *)
  svEntryBytes : Z;      (* size of a table entry *)
  svRawBits    : Z;      (* width of VA.raw *)
  svVPNBits    : Z;      (* width of VA.fields.VPN *)
  svVPNSigned  : bool;   (* is VA.fields.VPN a signed bit-field? *)
  svExtendBits : Z;      (* width of VA.fields.VPNextend, 0 if absent *)
  svPPNBits    : Z;      (* width of PTE.fields.PPN *)
}.

Definition Sv32 : svFormat :=
  {| svLevels := 2; svVPNShift := 10; svEntryBytes := 4; svRawBits := 32;
     svVPNBits := 20; svVPNSigned := false; svExtendBits := 0;
     svPPNBits := 22 |}.

Definition Sv39 : svFormat :=
  {| svLevels := 3; svVPNShift := 9; svEntryBytes := 8; svRawBits := 64;
     svVPNBits := 27; svVPNSigned := true; svExtendBits := 25;
     svPPNBits := 44 |}.

Definition Sv48 : svFormat :=
  {| svLevels := 4; svVPNShift := 9; svEntryBytes := 8; svRawBits := 64;
     svVPNBits := 36; svVPNSigned := true; svExtendBits := 16;
     svPPNBits := 44 |}.

(** Fields of a table entry (the same in every format but for the PPN). *)
Definition PTE_V (PTE : Z) : bool := Z.testbit PTE 0.
Definition PTE_priv (PTE : Z) : Z := bitsU PTE 1 3.
Definition PTE_U (PTE : Z) : bool := Z.testbit PTE 4.
Definition PTE_G (PTE : Z) : bool := Z.testbit PTE 5.
Definition PTE_A (PTE : Z) : bool := Z.testbit PTE 6.
Definition PTE_D (PTE : Z) : bool := Z.testbit PTE 7.
Definition PTE_set_A (PTE : Z) : Z := Z.lor PTE (2^6).
Definition PTE_set_D (PTE : Z) : Z := Z.lor PTE (2^7).

(** Result of the descent through the tables: an error at an entry, the leaf
    entry found at level [i], or no leaf down to level 0. *)
Inductive ptwOutcome :=
| PTW_Error (error : pteError) (PTEAddr : Z)
| PTW_Leaf (i : nat) (PTE PTEAddr : Z)
| PTW_NoLeaf (PTEAddr : Z).

Section Walk.

Variable f : svFormat.

Definition PTE_PPN (PTE : Z) : Z := bitsU PTE 10 (svPPNBits f).

Definition VA_raw (va : Z) : Z := va mod 2 ^ svRawBits f.

Definition VA_VPN (raw : Z) : Z :=
  if svVPNSigned f then bitsS raw 12 (svVPNBits f)
  else bitsU raw 12 (svVPNBits f).

Definition VA_VPNextend (raw : Z) : Z :=
  bitsS raw (12 + svVPNBits f) (svExtendBits f).

(** This is the VPN page mask *)
Definition SV_VPN_MASK : Z := Z.shiftl 1 (svVPNShift f) - 1.

(** Return VPN[level] *)
Definition getVPNi (raw : Z) (level : Z) : Z :=
  Uns32 (Z.land (Z.shiftr (VA_VPN raw) (level * svVPNShift f)) SV_VPN_MASK).

(** do table walk to find ultimate PTE: [n] is [i+1], [a] the table address
    and [PTEAddr0] the entry address of the previous iteration *)
Fixpoint ptwLoop (mode : riscvMode) (attrs : memAccessAttrs) (raw : Z)
    (n : nat) (a : Z) (PTEAddr0 : Z) : M ptwOutcome :=
  match n with
  | O => ret (PTW_NoLeaf PTEAddr0)
  | S i =>
      (* get next page table entry address *)
      let PTEAddr :=
        Uns64 (a + Uns32 (getVPNi raw (Z.of_nat i) * svEntryBytes f)) in
      (* read entry from memory *)
      PTE <- readPageTableEntry mode PTEAddr (svEntryBytes f) attrs;;
      (* return with page-fault exception if an invalid entry or entry with
         permission combination that is reserved, or break from the loop if
         a leaf entry is found *)
      bad <- gets PTWBadAddr;;
      if bad then ret (PTW_Error PTEE_READ PTEAddr)
      else if negb (PTE_V PTE) then ret (PTW_Error PTEE_V0 PTEAddr)
      else if Z.land (PTE_priv PTE) MEM_PRIV_RW =? MEM_PRIV_W then
        ret (PTW_Error PTEE_R0W1 PTEAddr)
      else if z2b (PTE_priv PTE) then ret (PTW_Leaf i PTE PTEAddr)
      else ptwLoop mode attrs raw i (getPTETableAddress (PTE_PPN PTE)) PTEAddr
  end.

(** Look up any TLB entry for the passed address and fill byref argument
    'entry' with the details. *)
Definition tlbLookupSv (mode : riscvMode) (entry : tlbEntry)
    (requiredPriv : memPriv) (attrs : memAccessAttrs)
  : M (option riscvException * tlbEntry) :=
  let PTE_ERROR entry PTEAddr code :=
    (x <- handlePTWException mode entry requiredPriv PTEAddr code;;
     ret (Some x, entry)) in
  let VA0 := VA_raw (lowVA entry) in
  (* validate VPNextend correctly extends VPN *)
  if (0 <? svExtendBits f) && negb (validVA (VA_VPN VA0) (VA_VPNextend VA0))
  then PTE_ERROR entry 0 PTEE_VAEXTEND
  else
    (* clear page offset bits (not relevant for entry creation) *)
    let VA := Z.shiftl (Z.shiftr VA0 12) 12 in
    a <- getRootTableAddress;;
    o <- ptwLoop mode attrs VA (svLevels f) a 0;;
    match o with
    | PTW_Error code PTEAddr => PTE_ERROR entry PTEAddr code
    | PTW_NoLeaf PTEAddr =>
        (* return with page-fault exception if leaf entry was not found *)
        PTE_ERROR entry PTEAddr PTEE_LEAF
    | PTW_Leaf i PTE PTEAddr =>
        (* construct entry low PA *)
        let PAraw := Z.shiftl (PTE_PPN PTE) 12 in
        (* calculate entry size *)
        let size :=
          Z.shiftl 1 (Z.of_nat i * svVPNShift f + RISCV_PAGE_SHIFT) in
        (* return with page-fault exception if invalid page alignment *)
        if z2b (Z.land PAraw (size - 1)) then PTE_ERROR entry PTEAddr PTEE_ALIGN
        else
          r <- get;;
          (* fill TLB entry virtual address range, low physical address and
             attributes *)
          let lo := Z.land VA ((- size) mod 2 ^ svRawBits f) in
          let entry :=
            {| lowVA := lo; highVA := Uns64 (lo + size - 1); PA := PAraw;
               simASID := simASID entry; tlb := activeTLB r;
               mapped := mapped entry; priv := PTE_priv PTE;
               U := PTE_U PTE; G := getG r (PTE_G PTE);
               A := PTE_A PTE; D := PTE_D PTE;
               artifact := artifact entry |} in
          (* return with page-fault exception if permissions are invalid *)
          if negb (z2b (checkEntryPermission r mode entry requiredPriv))
          then PTE_ERROR entry PTEAddr PTEE_PRIV
          (* update entry A/D bits if required *)
          else if negb (A entry) && negb (updatePTEA r) then
            (* A bit not yet set, no hardware support *)
            PTE_ERROR entry PTEAddr PTEE_A0
          else
            let '(entry, PTE, doWrite) :=
              if A entry then (entry, PTE, false)
              (* A bit is set on any access *)
              else (entry_set_A true entry, PTE_set_A PTE, true) in
            (* D bit is set on any write *)
            let needD :=
              negb (D entry || negb (z2b (Z.land requiredPriv MEM_PRIV_W))) in
            if needD && negb (updatePTED r) then
              (* D bit not yet set, no hardware support *)
              PTE_ERROR entry PTEAddr PTEE_D0
            else
              let '(entry, PTE, doWrite) :=
                if needD then (entry_set_D true entry, PTE_set_D PTE, true)
                else (entry, PTE, doWrite) in
              (* write PTE if it has changed *)
              if doWrite then
                writePageTableEntry mode PTEAddr (svEntryBytes f) attrs PTE;;
                bad <- gets PTWBadAddr;;
                (* error if entry is not writable *)
                if bad then PTE_ERROR entry PTEAddr PTEE_WRITE
                (* entry is valid *)
                else ret (None, entry)
              else ret (None, entry)
    end.

(** Look up any TLB entry for the passed address using the x4 variant of the
    mode (extra bits above the [shift] lowest) and fill byref argument
    'entry' with the details.  Sv32x4 neither checks the extra bits nor
    removes them from the address, for the Sv32 walk ignores them. *)
Definition tlbLookupSvx4 (shift : Z) (mode : riscvMode) (entry : tlbEntry)
    (requiredPriv : memPriv) (attrs : memAccessAttrs)
  : M (option riscvException * tlbEntry) :=
  let extraBits := Z.shiftr (lowVA entry) shift in
  (* validate VPNextend correctly extends VPN *)
  if (0 <? svExtendBits f) && (3 <? extraBits) then
    x <- handlePTWException mode entry requiredPriv 0 PTEE_VAEXTEND;;
    ret (Some x, entry)
  else
    (* record additional stage 2 page offset *)
    modify (set_s2Offset extraBits);;
    (* get ignored bits for translation *)
    let extraBits := Uns64 (Z.shiftl extraBits shift) in
    (* remove ignored bits from virtual address *)
    let entry :=
      if 0 <? svExtendBits f
      then entry_set_lowVA (Uns64 (lowVA entry - extraBits)) entry
      else entry in
    (* use lookup logic of the base mode *)
    '(exception, entry) <- tlbLookupSv mode entry requiredPriv attrs;;
    (* include additional offset if lookup succeeded *)
    match exception with
    | None =>
        ret (exception,
             entry_set_range (Uns64 (lowVA entry + extraBits))
               (Uns64 (highVA entry + extraBits)) entry)
    | Some _ => ret (exception, entry)
    end.

End Walk.

Definition tlbLookupSv32 := tlbLookupSv Sv32.
Definition tlbLookupSv39 := tlbLookupSv Sv39.
Definition tlbLookupSv48 := tlbLookupSv Sv48.

(** These shifts extract the two extra bits for the x4 mappings *)
Definition SV32x4_SHIFT : Z := 32.
Definition SV39x4_SHIFT : Z := 39.
Definition SV48x4_SHIFT : Z := 48.

Definition tlbLookupSv32x4 := tlbLookupSvx4 Sv32 SV32x4_SHIFT.
Definition tlbLookupSv39x4 := tlbLookupSvx4 Sv39 SV39x4_SHIFT.
Definition tlbLookupSv48x4 := tlbLookupSvx4 Sv48 SV48x4_SHIFT.

(* ------------------------------------------------------------------------- *)
(** ** General TLB management *)

(** Return mask for current base mode *)
Definition getModeMask (mode : riscvMode) : Z :=
  Z.shiftl 1 (baseModeIndex mode).

(** Contents of a TLB entry as printed by [dumpTLBEntry]. *)
Definition dumpTLBEntry (entry : tlbEntry) : M unit :=
  emit (vmiPrintf "VA %x:%x PA %x:%x %s U=%u G=%u A=%u D=%u%s"
          [getEntryLowVA entry; getEntryHighVA entry; getEntryLowPA entry;
           getEntryHighPA entry; priv entry; b2z (U entry); b2z (G entry);
           b2z (A entry); b2z (D entry);
           if G entry then -1 else getEntryASID entry]).

(** Remove memory mappings for a TLB entry in the given mode *)
Definition deleteTLBEntryMappingsMode (id : riscvTLBId) (entry : tlbEntryP)
    (mode : riscvMode) : M unit :=
  e <- derefEntry id entry;;
  let modeMask := getModeMask mode in
  (* action is only needed if the TLB entry is mapped in this mode *)
  if z2b (Z.land (mapped e) modeMask) then
    r <- get;;
    let dataDomain := getVirtDomainCorD r mode false in
    let codeDomain := getVirtDomainCorD r mode true in
    let lowVA := getEntryLowVA e in
    let highVA := getEntryHighVA e in
    let fullASID := getEntrySimASID e in
    let ASIDMask := getEntryASIDMask e mode in
    when (negb (dataDomain =? 0)%nat)
      (emit (vmirtUnaliasMemoryVM dataDomain lowVA highVA ASIDMask fullASID));;
    when (negb (codeDomain =? 0)%nat && negb (codeDomain =? dataDomain)%nat)
      (emit (vmirtUnaliasMemoryVM codeDomain lowVA highVA ASIDMask fullASID));;
    (* indicate entry is no longer mapped in this mode *)
    storeEntry id entry
      (entry_set_mapped (Z.land (Z.land (mapped e) (Z.lnot modeMask)) 3) e)
  else ret tt.

(** Remove memory mappings for a TLB entry in the given mode if the simulated
    ASID does not match *)
Definition deleteTLBEntryMappingsModeASID (id : riscvTLBId)
    (entry : tlbEntryP) (mode : riscvMode) (newASID : riscvSimASID)
  : M unit :=
  e <- derefEntry id entry;;
  let ASIDMask := getEntryASIDMask e mode in
  let oldASIDU64 := Z.land ASIDMask (getEntrySimASID e) in
  let newASIDU64 := Z.land ASIDMask (u64 newASID) in
  (* action is only needed if effective ASID in the given mode changes *)
  when (negb (oldASIDU64 =? newASIDU64))
    (deleteTLBEntryMappingsMode id entry mode).

(** Unmap a TLB entry *)
Definition unmapTLBEntry (id : riscvTLBId) (entry : tlbEntryP) : M unit :=
  e <- derefEntry id entry;;
  match tlb e with
  | RISCV_TLB_HS =>
      deleteTLBEntryMappingsMode id entry RISCV_MODE_U;;
      deleteTLBEntryMappingsMode id entry RISCV_MODE_S
  | RISCV_TLB_VS1 | RISCV_TLB_VS2 =>
      deleteTLBEntryMappingsMode id entry RISCV_MODE_VU;;
      deleteTLBEntryMappingsMode id entry RISCV_MODE_VS
  | RISCV_TLB_LAST => VMI_ABORT
  end.

(** Unmap a TLB entry when the simulated ASID changes in domains affected by
    that change *)
Definition unmapTLBEntryNewASID (id : riscvTLBId) (entry : tlbEntryP)
    (newASID : riscvSimASID) : M unit :=
  e <- derefEntry id entry;;
  match tlb e with
  | RISCV_TLB_HS =>
      deleteTLBEntryMappingsModeASID id entry RISCV_MODE_U newASID;;
      deleteTLBEntryMappingsModeASID id entry RISCV_MODE_S newASID
  | RISCV_TLB_VS1 | RISCV_TLB_VS2 =>
      deleteTLBEntryMappingsModeASID id entry RISCV_MODE_VU newASID;;
      deleteTLBEntryMappingsModeASID id entry RISCV_MODE_VS newASID
  | RISCV_TLB_LAST => VMI_ABORT
  end.

(** Report TLB entry deletion *)
Definition reportDeleteTLBEntry (id : riscvTLBId) (entry : tlbEntryP)
  : M unit :=
  e <- derefEntry id entry;;
  debug <- gets (fun r => DEBUG_MMU (configInfo r));;
  when (negb (artifact e) && debug)
    (emit (vmiPrintf "DELETE TLB ENTRY:" []);; dumpTLBEntry e).

(** Delete a TLB entry *)
Definition deleteTLBEntry (id : riscvTLBId) (entry : tlbEntryP) : M unit :=
  e <- derefEntry id entry;;
  (* remove entry mappings if required *)
  when (z2b (mapped e)) (unmapTLBEntry id entry);;
  (* emit debug if required *)
  reportDeleteTLBEntry id entry;;
  t <- getTLB id;;
  modify (set_tlb id
    {| entries := entries t;
       (* remove the TLB entry from the range LUT *)
       lut := filter (fun q => negb (q =? entry)%nat) (lut t);
       (* add the TLB entry to the free list *)
       free := entry :: free t |}).

(** Enumeration describing which TLB entries match a given ASID *)
Inductive matchMode :=
| MM_ANY      (* any TLB entry *)
| MM_ASID.    (* any non-global entry with ASID *)

(** Delete TLB entry if required by the passed matchMode *)
Definition deleteTLBEntryMode (id : riscvTLBId) (entry : tlbEntryP)
    (mode : matchMode) (ASID : Z) : M unit :=
  e <- derefEntry id entry;;
  r <- get;;
  let delete :=
    match mode with
    | MM_ANY =>
        (* delete entry irrespective of ASID *)
        true
    | MM_ASID =>
        if negb (matchVMID (hgatp_VMID (csr r)) e) then
          (* preserve VMID-mapped entry with differing VMID *)
          false
        else if negb (z2b (getASIDMask r)) then
          (* ASID not implemented - all entries are global *)
          true
        else
          (* ASID-mapped entry with matching ASID *)
          negb (G e) && matchASID ASID e
    end in
  when delete (deleteTLBEntry id entry).

(** Initialize TLB entry fields before TLB lookup *)
Definition initialEntry (VA : Z) : tlbEntry :=
  {| lowVA := VA; highVA := 0; PA := 0; simASID := zeroSimASID;
     tlb := RISCV_TLB_HS; mapped := 0; priv := 0; U := false; G := false;
     A := false; D := false; artifact := false |}.

(** Allocate a new TLB entry *)
Definition newTLBEntry (id : riscvTLBId) : M tlbEntryP :=
  t <- getTLB id;;
  match free t with
  | entry :: rest =>
      modify (set_tlb id
        {| entries := entries t; lut := lut t; free := rest |});;
      ret entry
  | [] =>
      modify (set_tlb id
        {| entries := (entries t ++ [initialEntry 0])%list; lut := lut t;
           free := [] |});;
      ret (length (entries t))
  end.

(** Insert the TLB entry into the processor range table *)
Definition insertTLBEntry (id : riscvTLBId) (entry : tlbEntryP) : M unit :=
  t <- getTLB id;;
  modify (set_tlb id
    {| entries := entries t; lut := entry :: lut t; free := free t |}).

(** Allocate a new TLB entry, filling it from the base object *)
Definition allocateTLBEntry (id : riscvTLBId) (base : tlbEntry)
    (attrs : memAccessAttrs) : M tlbEntryP :=
  (* get new entry structure *)
  entry <- newTLBEntry id;;
  (* artifact accesses must be marked as such *)
  artifactAcc <- gets artifactAccess;;
  let base := entry_set_artifact artifactAcc base in
  (* fill entry from base object *)
  storeEntry id entry base;;
  (* insert it into the processor TLB table *)
  insertTLBEntry id entry;;
  (* emit debug if required *)
  debug <- gets (fun r => DEBUG_MMU (configInfo r));;
  when (negb (artifact base) && debug)
    (r <- get;;
     let e := entry_set_simASID (getSimASID r) base in
     storeEntry id entry e;;
     emit (vmiPrintf "CREATE TLB ENTRY:" []);;
     dumpTLBEntry e);;
  (* return the new entry *)
  ret entry.

(** Does the entry overlap the passed range? *)
Definition entryInRange (lo hi : Z) (e : tlbEntry) : bool :=
  (lowVA e <=? hi) && (lo <=? highVA e).

(** The live entries overlapping the passed range, in the order in which the
    range table yields them. *)
Definition rangeEntries (t : riscvTLB) (lo hi : Z) : list tlbEntryP :=
  filter (fun p => match nth_error (entries t) p with
                   | Some e => entryInRange lo hi e
                   | None => false
                   end) (lut t).

(** The iterator over the TLB entries in a range: entries created by artifact
    accesses are deleted and ignored (getTLBEntryForRange); the body [B]
    returns [Some] to leave the enclosing function with that result. *)
Fixpoint iterTLBEntries {T} (id : riscvTLBId) (ps : list tlbEntryP)
    (B : tlbEntryP -> M (option T)) : M (option T) :=
  match ps with
  | [] => ret None
  | p :: ps' =>
      e <- derefEntry id p;;
      if artifact e then
        deleteTLBEntry id p;;
        iterTLBEntries id ps' B
      else
        x <- B p;;
        match x with
        | Some v => ret (Some v)
        | None => iterTLBEntries id ps' B
        end
  end.

Definition ITER_TLB_ENTRY_RANGE {T} (id : riscvTLBId) (lo hi : Z)
    (B : tlbEntryP -> M (option T)) : M (option T) :=
  t <- getTLB id;;
  iterTLBEntries id (rangeEntries t lo hi) B.

(** Delete TLB entries that overlap the passed range in the TLB

    If mode is MM_ANY, then any matching entry is deleted, irrespective of
    ASID.  If mode is MM_ASID, then any matching non-global entry is deleted *)
Definition invalidateTLBEntriesRange (id : riscvTLBId) (lo hi : Z)
    (mode : matchMode) (ASID : Z) : M unit :=
  r <- get;;
  match riscv_tlb r id with
  | Some _ =>
      ITER_TLB_ENTRY_RANGE id lo hi
        (fun entry => deleteTLBEntryMode id entry mode ASID;;
                      ret (@None unit));;
      ret tt
  | None => ret tt
  end.

(** Return any TLB entry for the passed address which matches the current
    ASID and VMID *)
Definition findTLBEntry (id : riscvTLBId) (VA : Z) : M (option tlbEntryP) :=
  r <- get;;
  let ASID := getActiveASID r in
  let VMID := getActiveVMID r in
  (* return any entry with matching MVA, ASID and VMID *)
  ITER_TLB_ENTRY_RANGE id VA VA
    (fun entry =>
       e <- derefEntry id entry;;
       if matchVMID VMID e && matchASID ASID e then ret (Some entry)
       else ret None).

(** Look up any TLB entry for the passed address and fill byref argument
    'entry' with the details (stage 1 TLB) *)
Definition tlbLookupS1 (mode : riscvMode) (entry : tlbEntry)
    (requiredPriv : memPriv) (attrs : memAccessAttrs)
  : M (option riscvException * tlbEntry) :=
  r <- get;;
  let V := activeTLBIsVirtual r in
  let vaMode := if V then vsatp_MODE (csr r) else satp_MODE (csr r) in
  if vaMode =? VAM_Sv32 then tlbLookupSv32 mode entry requiredPriv attrs
  else if vaMode =? VAM_Sv39 then tlbLookupSv39 mode entry requiredPriv attrs
  else if vaMode =? VAM_Sv48 then tlbLookupSv48 mode entry requiredPriv attrs
  else VMI_ABORT.

(** Look up any TLB entry for the passed address and fill byref argument
    'entry' with the details (stage 2 TLB) *)
Definition tlbLookupS2 (mode : riscvMode) (entry : tlbEntry)
    (requiredPriv : memPriv) (attrs : memAccessAttrs)
  : M (option riscvException * tlbEntry) :=
  r <- get;;
  let vaMode := hgatp_MODE (csr r) in
  let gpa := Z.shiftr (lowVA entry) 2 in
  '(result, entry) <-
    (if vaMode =? VAM_Sv32 then tlbLookupSv32x4 mode entry requiredPriv attrs
     else if vaMode =? VAM_Sv39 then
       tlbLookupSv39x4 mode entry requiredPriv attrs
     else if vaMode =? VAM_Sv48 then
       tlbLookupSv48x4 mode entry requiredPriv attrs
     else VMI_ABORT);;
  (* log failing virtual address if required *)
  match result with
  | Some _ => modify (set_GPA gpa);; ret (result, entry)
  | None => ret (result, entry)
  end.

(** Look up any TLB entry for the passed address and fill byref argument
    'entry' with the details. *)
Definition tlbLookup (mode : riscvMode) (entry : tlbEntry)
    (requiredPriv : memPriv) (attrs : memAccessAttrs)
  : M (option riscvException * tlbEntry) :=
  vs2 <- gets activeTLBIsVS2;;
  if negb vs2 then tlbLookupS1 mode entry requiredPriv attrs
  else tlbLookupS2 mode entry requiredPriv attrs.

(** Take exception on invalid access *)
Definition handleInvalidAccess (VA : Z) (attrs : memAccessAttrs)
    (exception : riscvException) : M unit :=
  r <- get;;
  (* report original virtual address for second stage translation failure *)
  let VA := if s2Active r then s1VA r else VA in
  (* take exception only if not an artifact access *)
  when (negb (MEM_AA_IS_ARTIFACT_ACCESS attrs))
    (modify (set_GVA (activeTLBIsVirtual r));;
     r' <- get;;
     emit (riscvTakeMemoryException exception VA (GVA r') (GPA r'));;
     modify (set_GVA false));;
  (* clear down pending exception GPA *)
  modify (set_GPA 0).

(** Validate that the TLB entry has sufficient permissions *)
Definition validateTLBEntryPriv (mode : riscvMode) (entry : option tlbEntryP)
    (requiredPriv : memPriv) (attrs : memAccessAttrs) (mi : tlbMapInfo)
  : M (option tlbEntryP * tlbMapInfo) :=
  match entry with
  | None =>
      (* no entry given *)
      ret (None, mi)
  | Some p =>
      r <- get;;
      e <- derefEntry (activeTLB r) p;;
      let p0 := checkEntryPermission r mode e requiredPriv in
      if negb (z2b p0) then
        (* specified permissions are inadequate *)
        ret (None, mi)
      else if z2b (Z.land requiredPriv MEM_PRIV_W) && negb (D e) then
        (* writing using an entry not marked as dirty: discard the entry and
           reload it (will write the entry marked as dirty) *)
        deleteTLBEntry (activeTLB r) p;;
        ret (None, mi)
      else
        (* record privilege with which entry should be mapped, discarding
           write privilege if the entry is not dirty *)
        let p1 := if negb (D e) then Z.land p0 (Z.lnot MEM_PRIV_W) else p0 in
        ret (Some p, mi_set_priv p1 mi)
  end.

(** Find or create a TLB entry for the passed VA *)
Definition findOrCreateTLBEntry (mode : riscvMode) (attrs : memAccessAttrs)
    (mi : tlbMapInfo) : M (option tlbEntryP * tlbMapInfo) :=
  id <- gets activeTLB;;
  let VA := mi_lowVA mi in
  let requiredPriv := mi_priv mi in
  (* get any existing entry for this VA *)
  entry <- findTLBEntry id VA;;
  (* if entry exists, validate permissions (NOTE: this may delete the entry
     if a write and D=0) *)
  '(entry, mi) <- validateTLBEntryPriv mode entry requiredPriv attrs mi;;
  (* to table walk to find entry if required *)
  match entry with
  | Some _ => ret (entry, mi)
  | None =>
      (* seed temporary entry *)
      let tmp := initialEntry VA in
      (* do table walk *)
      '(exception, tmp) <- tlbLookup mode tmp requiredPriv attrs;;
      (* do lookup *)
      entry <-
        match exception with
        | Some x => handleInvalidAccess VA attrs x;; ret None
        | None => p <- allocateTLBEntry id tmp attrs;; ret (Some p)
        end;;
      (* validate permissions *)
      validateTLBEntryPriv mode entry requiredPriv attrs mi
  end.

(* ------------------------------------------------------------------------- *)
(** ** Physical memory management *)

(** PMP configuration entry mode *)
Definition PMPM_OFF   : Z := 0.
Definition PMPM_TOR   : Z := 1.
Definition PMPM_NA4   : Z := 2.
Definition PMPM_NAPOT : Z := 3.

(** PMP configuration entry structure: the byte view and its fields. *)
Definition pmpcfgElem := Z.
Definition cfg_priv (e : pmpcfgElem) : Z := bitsU e 0 3.
Definition cfg_mode (e : pmpcfgElem) : Z := bitsU e 3 2.
Definition cfg_L (e : pmpcfgElem) : bool := Z.testbit e 7.

(** Modelled from the spec: getAddressMask is declared in a header outside
    these sources; it is the mask of the addresses of the given width, used
    to mask address writes to the external-physical-address width. *)
Definition getAddressMask (bits : Z) : Z := Uns64 (Z.shiftl 1 bits - 1).

(** Return the indexed PMP configuration register *)
Definition getPMPCFGElem (r : riscv) (index : Z) : pmpcfgElem :=
  nth (Z.to_nat (Uns8 index)) (pmpcfg_u8 r) 0.

(** Is a PMP entry controlled by the given element locked? *)
Definition pmpLocked (r : riscv) (index : Z) : bool :=
  negb (artifactAccess r) && cfg_L (getPMPCFGElem r (Uns8 index)).

(** Return the effective value of a PMP address register, taking into account
    grain size *)
Definition getEffectivePMPAddr (r : riscv) (index : Z) : Z :=
  let index := Uns8 index in
  let e := getPMPCFGElem r index in
  let G := PMP_grain (configInfo r) in
  let result := nth (Z.to_nat index) (pmpaddr r) 0 in
  if (2 <=? G) && (cfg_mode e =? PMPM_NAPOT) then
    (* when G>=2 and pmpcfgi.A[1] is set, i.e. the mode is NAPOT, then bits
       pmpaddri[G-2:0] read as all ones *)
    Z.lor result (Uns64 (Uns64 (Z.shiftl 1 (G - 1)) - 1))
  else if (1 <=? G) && negb (cfg_mode e =? PMPM_NAPOT) then
    (* when G>=1 and pmpcfgi.A[1] is clear, i.e. the mode is OFF or TOR,
       then bits pmpaddri[G-1:0] read as all zeros *)
    Z.land result (Uns64 (Z.shiftl (Uns64 (-1)) G))
  else result.

(** Is the indexed PMP region active? *)
Definition getPMPRegionActive (r : riscv) (e : pmpcfgElem) (index : Z)
  : bool :=
  if cfg_mode e =? PMPM_OFF then
    (* region is disabled *)
    false
  else if negb (cfg_mode e =? PMPM_TOR) then
    (* region is enabled with no range constraint *)
    true
  else
    (* TOR region is effectively enabled only if the associated address is
       non-zero (a zero address will always fail the bounds check) *)
    z2b (getEffectivePMPAddr r (Uns8 index)).

(** Is a PMP entry controlled by the given element a locked TOR entry? *)
Definition pmpLockedTOR (r : riscv) (index : Z) : bool :=
  let index := Uns8 index in
  if index <? getNumPMPs r then
    let e := getPMPCFGElem r index in
    (cfg_mode e =? PMPM_TOR) && pmpLocked r index
  else false.

(** If updatePriv is True, set privileges in PMP domain, removing privileges
    on adjacent regions if required to detect accesses that straddle PMP
    boundaries; if updatePriv is False, update adjacent regions without
    modifying main region privileges *)
Definition pmpProtect (domain : memDomainP) (lo hi : Z) (p : memPriv)
    (updatePriv : bool) : M unit :=
  r <- get;;
  let unalignedOK := unaligned (configInfo r) in
  (* set the required permissions on the PMP region if required *)
  when updatePriv (emit (vmirtProtectMemory domain lo hi p));;
  (* remove permissions on adjacent region bytes if accesses could possibly
     straddle region boundaries *)
  if (z2b p || negb updatePriv)
     && (unalignedOK || (32 <? FlenArch (configInfo r))
         || (32 <? XlenArch (configInfo r)))
  then
    let loMin := 0 in
    let hiMax := getAddressMask (extBits r) in
    (* protect adjacent low byte if unaligned accesses are allowed or it is
       on a 4-byte boundary *)
    when ((loMin <? lo) && (unalignedOK || z2b (Z.land lo 4)))
      (emit (vmirtProtectMemory domain (lo - 1) (lo - 1) MEM_PRIV_NONE));;
    (* protect adjacent high byte if unaligned accesses are allowed or it is
       on a 4-byte boundary *)
    when ((hi <? hiMax) && (unalignedOK || z2b (Z.land (Uns64 (hi + 1)) 4)))
      (emit (vmirtProtectMemory domain (hi + 1) (hi + 1) MEM_PRIV_NONE))
  else ret tt.

(** Set privileges in PMP domain for the given mode, or, if updatePriv is
    False, only remove permissions on adjacent regions *)
Definition setPMPPriv (mode : riscvMode) (low high : Z) (p : memPriv)
    (updatePriv : bool) : M unit :=
  r <- get;;
  let dataDomain := getPMPDomainCorD r mode false in
  let codeDomain := getPMPDomainCorD r mode true in
  (* emit debug if required *)
  when (updatePriv && DEBUG_MMU (configInfo r))
    (emit (vmiPrintf "PMP PRIV=%s %x:%x (mode %s)"
             [p; low; high; baseModeIndex mode
                            + (if modeIsVirtual mode then 4 else 0)]));;
  if (dataDomain =? codeDomain)%nat then
    (* set permissions in unified domain *)
    pmpProtect dataDomain low high p updatePriv
  else
    let privRW := Z.land p MEM_PRIV_RW in
    let privX := Z.land p MEM_PRIV_X in
    (* set permissions in data domain if required *)
    when (negb updatePriv || (p =? MEM_PRIV_NONE) || z2b privRW)
      (pmpProtect dataDomain low high privRW updatePriv);;
    (* set permissions in code domain if required *)
    when (negb updatePriv || (p =? MEM_PRIV_NONE) || z2b privX)
      (pmpProtect codeDomain low high privX updatePriv).

(** Return the bounds of the indexed PMP entry *)
Definition getPMPEntryBounds (r : riscv) (index : Z) : Z * Z :=
  let e := getPMPCFGElem r index in
  let low := Uns64 (Z.shiftl (getEffectivePMPAddr r index) 2) in
  if cfg_mode e =? PMPM_NA4 then
    (* 4-byte range *)
    (low, Uns64 (low + 3))
  else if cfg_mode e =? PMPM_NAPOT then
    (* naturally-aligned power of two range *)
    let notLow := not64 (Uns64 (low + 3)) in
    let mask :=
      Uns64 (Uns64 (Z.shiftl (Z.land notLow (neg64 notLow)) 1) - 1) in
    let low := Z.land low (not64 mask) in
    (low, Z.lor low mask)
  else
    (* top-of-range *)
    let high := Uns64 (low - 1) in
    let low :=
      if z2b index
      then Uns64 (Z.shiftl (nth (Z.to_nat (index - 1)) (pmpaddr r) 0) 2)
      else 0 in
    (* mask low address to implemented grain size *)
    (Z.land low (Uns64 (Z.shiftl (Uns64 (-4)) (PMP_grain (configInfo r)))),
     high).

(** Are any lower-priority PMP entries than the indexed entry locked? *)
Definition lowerPriorityPMPEntryLocked (r : riscv) (index : Z) : bool :=
  let numRegs := getNumPMPs r in
  existsb (fun i =>
             let e := getPMPCFGElem r (Z.of_nat i) in
             cfg_L e && negb (cfg_mode e =? PMPM_OFF))
    (seq (Z.to_nat (index + 1)) (Z.to_nat numRegs - Z.to_nat (index + 1))).

(** Invalidate PMP entry 'index' *)
Definition invalidatePMPEntry (index : Z) : M unit :=
  r <- get;;
  let e := getPMPCFGElem r index in
  if getPMPRegionActive r e index then
    (* get the entry bounds *)
    let '(low, high) := getPMPEntryBounds r index in
    (* ignore TOR entries with low>high *)
    if low <=? high then
      (* remove access in Supervisor address space *)
      setPMPPriv RISCV_MODE_S low high MEM_PRIV_NONE true;;
      (* remove access in Machine address space if the entry is locked or if
         any lower-priority entry is locked (enabling or disabling this
         region may reveal or conceal that region) *)
      let updateM := cfg_L e || lowerPriorityPMPEntryLocked r index in
      setPMPPriv RISCV_MODE_M low high MEM_PRIV_NONE updateM
    else ret tt
  else ret tt.

(** Is the given PMP address register index valid? *)
Definition validPMPAddr (r : riscv) (index : Z) : bool :=
  index <? getNumPMPs r.

(** Read the indexed PMP address register *)
Definition riscvVMReadPMPAddr (r : riscv) (index : Z) : Z :=
  if validPMPAddr r index then getEffectivePMPAddr r index else 0.

(** Write the indexed PMP address register with the new value and return the
    new effective value *)
Definition riscvVMWritePMPAddr (index newValue : Z) : M Z :=
  r <- get;;
  let G := PMP_grain (configInfo r) in
  (* mask writable bits to implemented external bits *)
  let newValue := Z.land newValue (Z.shiftr (getAddressMask (extBits r)) 2) in
  (* also mask writable bits if grain is set *)
  let newValue :=
    if z2b G then Z.land newValue (Uns64 (Z.shiftl (Uns64 (-1)) (G - 1)))
    else newValue in
  if validPMPAddr r index
     && negb (nth (Z.to_nat index) (pmpaddr r) 0 =? newValue)
  then
    (if pmpLocked r index then
       (* entry index is locked *)
       ret tt
     else if pmpLockedTOR r (index + 1) then
       (* next entry is a locked TOR entry *)
       ret tt
     else
       (* invalidate entry using its original specification *)
       invalidatePMPEntry index;;
       (* set new value *)
       modify (fun r =>
         set_pmpaddr (list_set (pmpaddr r) (Z.to_nat index) newValue) r);;
       (* invalidate entry using its new specification *)
       invalidatePMPEntry index);;
    gets (fun r => getEffectivePMPAddr r index)
  else ret 0.

(** Update the bounds in lowPAP/highPAP and privilege to reflect the effect
    of region i *)
Definition refinePMPRegionRange (r : riscv) (mode : riscvMode)
    (lowPAP highPAP : Z) (PA : Z) (index : Z) (privP : memPriv)
  : Z * Z * memPriv :=
  let e := getPMPCFGElem r index in
  (* only handle active regions *)
  if getPMPRegionActive r e index then
    (* get bounds of the entry *)
    let '(lowPAEntry, highPAEntry) := getPMPEntryBounds r index in
    if highPAEntry <? lowPAEntry then
      (* ignore TOR region with low bound > high bound *)
      (lowPAP, highPAP, privP)
    else if (lowPAEntry <=? PA) && (PA <=? highPAEntry) then
      (* match in this region; refine privilege *)
      (lowPAEntry, highPAEntry,
       if negb (riscvMode_eqb mode RISCV_MODE_M) || cfg_L e
       then cfg_priv e else MEM_PRIV_RWX)
    else if (PA <? lowPAEntry) && (lowPAEntry <? highPAP) then
      (* remove part of region ABOVE matching address *)
      (lowPAP, Uns64 (lowPAEntry - 1), privP)
    else if (highPAEntry <? PA) && (lowPAP <? highPAEntry) then
      (* remove part of region BELOW matching address *)
      (Uns64 (highPAEntry + 1), highPAP, privP)
    else (lowPAP, highPAP, privP)
  else (lowPAP, highPAP, privP).

(** handle all regions in lowest-to-highest priority order: the loop of
    [mapPMP], from region [numRegs-1] down to region 0 *)
Definition refinePMPRegions (r : riscv) (mode : riscvMode) (PA : Z)
    (numRegs : nat) (init : Z * Z * memPriv) : Z * Z * memPriv :=
  fold_left
    (fun '(lowMap, highMap, p) i =>
       refinePMPRegionRange r mode lowMap highMap PA (Z.of_nat i) p)
    (rev (seq 0 numRegs)) init.

(** Refresh physical mappings for the given physical address range and mode *)
Definition mapPMP (mode : riscvMode) (requiredPriv : memPriv)
    (lowPA highPA : Z) : M unit :=
  r <- get;;
  let numRegs := getNumPMPs r in
  if z2b numRegs then
    let priv0 :=
      if riscvMode_eqb mode RISCV_MODE_M then MEM_PRIV_RWX
      else MEM_PRIV_NONE in
    let lowMap0 := 0 in
    let highMap0 := getAddressMask (extBits r) in
    let '(lowMap, highMap, p) :=
      refinePMPRegions r mode lowPA (Z.to_nat numRegs)
        (lowMap0, highMap0, priv0) in
    (* update PMP mapping if there are sufficient privileges and the
       required addresses are in a single range *)
    if negb (Z.land p requiredPriv =? requiredPriv) || (highMap <? highPA)
    then modify (set_AFErrorIn riscv_AFault_PMP)
    else setPMPPriv mode lowMap highMap p true
  else ret tt.

(* ------------------------------------------------------------------------- *)
(** ** PMA update *)

(** Refresh physical mapping attributes for the given physical address range
    and mode: the validation functions of the derived model are called; the
    call is logged. *)
Definition mapPMA (mode : riscvMode) (requiredPriv : memPriv)
    (lowPA highPA : Z) : M unit :=
  emit (PMACheck mode requiredPriv lowPA highPA).

(* ------------------------------------------------------------------------- *)
(** ** TLB / PMP update *)

(** Map memory virtual addresses in virtual domain to the specified range in
    the corresponding PMP domain.  [entry1] lives in the TLB [id1], [entry2]
    (when present) in the stage 2 TLB. *)
Definition mapTLBEntry (VA GPA : Z) (id1 : riscvTLBId) (entry1 : tlbEntryP)
    (entry2 : option tlbEntryP) (domainV : memDomainP) (mode : riscvMode)
    (requiredPriv : memPriv) (mi : tlbMapInfo) : M tlbMapInfo :=
  r <- get;;
  e1 <- derefEntry id1 entry1;;
  let domainP := getPMPDomainPriv r mode requiredPriv in
  let p := mi_priv mi in
  let vmiPageMax := 4294967296 in
  (* get stage 1 entry details *)
  let lowVA := getEntryLowVA e1 in
  let highVA := getEntryHighVA e1 in
  let ASIDMask := getEntryASIDMask e1 mode in
  let ASID := getEntrySimASID e1 in
  let VAtoPA := getEntryVAtoPA e1 in
  (* restrict mapping size to VMI maximum (4Gb) *)
  let '(lowVA, highVA) :=
    if vmiPageMax <? getEntrySize e1 then
      let lowVA := Z.land (mi_lowVA mi) (neg64 vmiPageMax) in
      (lowVA, Uns64 (lowVA + vmiPageMax - 1))
    else (lowVA, highVA) in
  (* combine information from stage 2 if required *)
  '(lowVA, highVA, VAtoPA, ASIDMask) <-
    match entry2 with
    | Some entry2 =>
        e2 <- derefEntry RISCV_TLB_VS2 entry2;;
        (* get stage 2 entry details *)
        let lowVA2 := getEntryLowVA e2 in
        let highVA2 := getEntryHighVA e2 in
        let ASIDMask2 := getEntryASIDMask e2 mode in
        let VAtoPA2 := getEntryVAtoPA e2 in
        (* calculate offsets of translated address from the low and high
           bounds of stage 1 and stage 2 entries *)
        let loDelta1 := Uns64 (VA - lowVA) in
        let loDelta2 := Uns64 (GPA - lowVA2) in
        let hiDelta1 := Uns64 (highVA - VA) in
        let hiDelta2 := Uns64 (highVA2 - GPA) in
        (* adjust lower region bound upwards if stage 2 entry has higher low
           bound *)
        let lowVA :=
          if loDelta2 <? loDelta1
          then Uns64 (lowVA + Uns64 (loDelta1 - loDelta2)) else lowVA in
        (* adjust upper region bound downwards if stage 2 entry has lower
           high bound *)
        let highVA :=
          if hiDelta2 <? hiDelta1
          then Uns64 (highVA - Uns64 (hiDelta1 - hiDelta2)) else highVA in
        (* include stage 2 shift to true physical address; merge ASID
           masks *)
        ret (lowVA, highVA, Uns64 (VAtoPA + VAtoPA2),
             Z.lor ASIDMask ASIDMask2)
    | None => ret (lowVA, highVA, VAtoPA, ASIDMask)
    end;;
  (* determine physical bounds of mapped region *)
  let lowPA := Uns64 (lowVA + VAtoPA) in
  let highPA := Uns64 (highVA + VAtoPA) in
  (* create virtual mapping *)
  emit (vmirtAliasMemoryVM domainP domainV lowPA highPA lowVA p ASIDMask
          ASID);;
  (* determine physical bounds of original access *)
  let lowPA := Uns64 (mi_lowVA mi + VAtoPA) in
  let highPA := Uns64 (mi_highVA mi + VAtoPA) in
  (* update PMP mapping if required *)
  mapPMP mode requiredPriv lowPA highPA;;
  (* update PMA mapping if required *)
  mapPMA mode requiredPriv lowPA highPA;;
  (* indicate entry is mapped in this mode *)
  e1 <- derefEntry id1 entry1;;
  storeEntry id1 entry1
    (entry_set_mapped (Z.land (Z.lor (mapped e1) (getModeMask mode)) 3) e1);;
  (* indicate mapped range *)
  ret {| mi_lowVA := lowVA; mi_highVA := highVA; mi_priv := mi_priv mi |}.

(** Attempt to map a TLB entry for the given stage *)
Definition getTLBStageEntry (id : riscvTLBId) (mode : riscvMode)
    (mi : tlbMapInfo) (attrs : memAccessAttrs)
  : M (option tlbEntryP * tlbMapInfo) :=
  (* activate the indicated TLB *)
  oldTLB <- activateTLB id;;
  (* do TLB mapping *)
  '(entry, mi) <- findOrCreateTLBEntry mode attrs mi;;
  match entry with
  | Some p =>
      (* create full simulated ASID (including xstatus bits) *)
      simASID <- gets getSimASID;;
      (* if the entry was previously mapped with a different simulated ASID,
         unmap it in affected domains (handles changes in xstatus bits) *)
      unmapTLBEntryNewASID id p simASID;;
      (* save full simulated ASID for use when the entry is unmapped *)
      e <- derefEntry id p;;
      storeEntry id p (entry_set_simASID simASID e)
  | None => ret tt
  end;;
  (* restore previously-active TLB *)
  deactivateTLB oldTLB;;
  ret (entry, mi).

Section TLBMiss.

(** The user-defined and alignment bits of [memPriv] are declared by the
    simulator interface. *)
Variables MEM_PRIV_USER MEM_PRIV_ALIGN : memPriv.

(** Try mapping memory at the passed address for the specified access type
    and return a status code indicating whether the mapping succeeded *)
Definition tlbMiss (domain : memDomainP) (mode : riscvMode)
    (mi : tlbMapInfo) (attrs : memAccessAttrs) : M (bool * tlbMapInfo) :=
  id <- getCurrentTLBId;;
  let requiredPriv := mi_priv mi in
  let VA := mi_lowVA mi in
  let GPA := VA in
  (* map the current stage TLB entry *)
  '(entry1, mi) <- getTLBStageEntry id mode mi attrs;;
  r <- get;;
  (* map second stage TLB entry if required *)
  '(entry1, entry2, GPA, mi) <-
    match entry1 with
    | Some p1 =>
        if riscvTLBId_eqb id RISCV_TLB_VS1 && z2b (hgatp_MODE (csr r)) then
          (* indicate second stage access is active with the stage 1 VA *)
          modify (set_s2Active true);;
          modify (set_s1VA VA);;
          (* determine guest physical address *)
          e1 <- derefEntry id p1;;
          let GPA := Uns64 (VA + PA e1 - lowVA e1) in
          let mi2 :=
            {| mi_lowVA := GPA; mi_highVA := 0; mi_priv := requiredPriv |} in
          (* map second stage TLB entry *)
          '(entry2, mi2) <- getTLBStageEntry RISCV_TLB_VS2 mode mi2 attrs;;
          let '(entry1, mi) :=
            match entry2 with
            | None =>
                (* disable mapping if second stage fails *)
                (None, mi)
            | Some _ =>
                (* merge access privileges *)
                let ua := Z.lor MEM_PRIV_USER MEM_PRIV_ALIGN in
                let p := Z.land (mi_priv mi) (Z.lor (mi_priv mi2) ua) in
                let p := Z.lor p (Z.land (mi_priv mi2) ua) in
                (entry1, mi_set_priv p mi)
            end in
          (* indicate second stage access is inactive *)
          modify (set_s2Active false);;
          ret (entry1, entry2, GPA, mi)
        else ret (entry1, None, GPA, mi)
    | None => ret (entry1, None, GPA, mi)
    end;;
  (* create entry mapping if required *)
  match entry1 with
  | Some p1 =>
      mi <- mapTLBEntry VA GPA id p1 entry2 domain mode requiredPriv mi;;
      ret (false, mi)
  | None => ret (true, mi)
  end.

End TLBMiss.

(* ------------------------------------------------------------------------- *)
(** ** Invalidation (public functions) *)

(** Mask given ASID to implemented ASID bits: first to the width of the ASID
    field of satp at the current XLEN (9 bits when XLEN is 32, else 16), then
    to the implemented width (which may be bigger or smaller). *)
Definition maskASID (r : riscv) (ASID : Z) : Z :=
  let ASID :=
    if XlenArch (configInfo r) =? 32 then bitsU ASID 0 9
    else bitsU ASID 0 16 in
  Z.land ASID (getASIDMask r).

(** Invalidate entire TLB *)
Definition invalidateAll (id : riscvTLBId) : M unit :=
  invalidateTLBEntriesRange id 0 RISCV_MAX_ADDR MM_ANY 0.


(** Invalidate TLB entries for the given address *)
Definition invalidateVA (VA : Z) (id : riscvTLBId) : M unit :=
  invalidateTLBEntriesRange id VA VA MM_ANY 0.

(** Invalidate TLB entries with matching address and ASID *)
Definition invalidateVAASID (VA ASID : Z) (id : riscvTLBId) : M unit :=
  r <- get;;
  let ASID := maskASID r ASID in
  invalidateTLBEntriesRange id VA VA MM_ASID ASID.

(** Invalidate entire TLB *)
Definition riscvVMInvalidateAll : M unit :=
  r <- get;; invalidateAll (getS1TLBId r).


(** Invalidate TLB entries for the given address *)
Definition riscvVMInvalidateVA (VA : Z) : M unit :=
  r <- get;; invalidateVA VA (getS1TLBId r).

(** Invalidate TLB entries with matching address and ASID *)
Definition riscvVMInvalidateVAASID (VA ASID : Z) : M unit :=
  r <- get;; invalidateVAASID VA ASID (getS1TLBId r).

(* ========================================================================= *)
(** * Properties *)

(* ------------------------------------------------------------------------- *)
(** ** Running computations *)

Lemma bind_inv {T V} (c : M T) (k : T -> M V) r y r' :
  bind c k r = Some (y, r') ->
  exists x r1, c r = Some (x, r1) /\ k x r1 = Some (y, r').
Proof.
  unfold bind. destruct (c r) as [[x r1]|]; [|discriminate].
  intros H. exists x, r1. auto.
Qed.

Lemma bind_run {T V} (c : M T) (k : T -> M V) r x r1 :
  c r = Some (x, r1) -> bind c k r = k x r1.
Proof. unfold bind. intros ->. reflexivity. Qed.

(** Case analysis on the run of a computation: the innermost scrutinee at the
    head of the hypothesis is split, aborted branches are discarded. *)
Ltac inner_scrutinee x k :=
  lazymatch x with
  | match ?y with _ => _ end => inner_scrutinee y k
  | (match ?y with _ => _ end) _ => inner_scrutinee y k
  | (match ?y with _ => _ end) _ _ => inner_scrutinee y k
  | _ => k x
  end.

Ltac run_step H :=
  lazymatch type of H with
  | ?lhs = Some _ =>
      lazymatch lhs with
      | match ?x with _ => _ end =>
          inner_scrutinee x
            ltac:(fun y => let E := fresh "E" in destruct y eqn:E)
      | (match ?x with _ => _ end) _ =>
          inner_scrutinee x
            ltac:(fun y => let E := fresh "E" in destruct y eqn:E)
      end
  end;
  cbv beta match in H; try discriminate H.

Ltac run_cases H := repeat run_step H.

Ltac mon :=
  unfold emit, when, VMI_ASSERT in *;
  unfold bind, ret, get, gets, modify, VMI_ABORT in *.

(** The structure is determined by its fields. *)
Lemma set_trace_same r : set_trace (trace r) r = r.
Proof. destruct r; reflexivity. Qed.

(* ------------------------------------------------------------------------- *)
(** ** Bit-level facts *)

Lemma z2b_true x : z2b x = true <-> x <> 0.
Proof. unfold z2b. rewrite negb_true_iff, Z.eqb_neq. tauto. Qed.

Lemma z2b_false x : z2b x = false <-> x = 0.
Proof. unfold z2b. rewrite negb_false_iff, Z.eqb_eq. tauto. Qed.

Lemma land_pow2_testbit x n :
  0 <= n -> Z.land x (2 ^ n) = if Z.testbit x n then 2 ^ n else 0.
Proof.
  intros Hn. apply Z.bits_inj'. intros i Hi.
  rewrite Z.land_spec.
  destruct (Z.eq_dec i n) as [->|Hne].
  - destruct (Z.testbit x n); rewrite ?Z.pow2_bits_true, ?Z.bits_0; auto.
  - rewrite (Z.pow2_bits_false n i) by lia. rewrite andb_false_r.
    destruct (Z.testbit x n); rewrite ?Z.pow2_bits_false, ?Z.bits_0; auto; lia.
Qed.



(* ------------------------------------------------------------------------- *)
(** ** Permission check *)

(** The privileges granted by an entry are what the check returns when
    nothing is required. *)
Definition grantedPriv (r : riscv) (mode : riscvMode) (entry : tlbEntry)
  : memPriv := checkEntryPermission r mode entry MEM_PRIV_NONE.




Lemma checkEntryPermission_granted r mode entry requiredPriv :
  checkEntryPermission r mode entry requiredPriv =
  if Z.land (grantedPriv r mode entry) requiredPriv =? requiredPriv
  then grantedPriv r mode entry else MEM_PRIV_NONE.
Proof.
  unfold grantedPriv, checkEntryPermission.
  destruct (activeTLB r); cbv zeta beta iota;
    rewrite !Z.land_0_r; reflexivity.
Qed.


(* ------------------------------------------------------------------------- *)
(** ** PMP region match *)

(** The region [index] is active and contains the address. *)
Definition pmpRegionMatches (r : riscv) (PA : Z) (index : Z) : Prop :=
  getPMPRegionActive r (getPMPCFGElem r index) index = true
  /\ fst (getPMPEntryBounds r index) <= PA <= snd (getPMPEntryBounds r index).

(** The privilege a matching region grants to an access in [mode]. *)
Definition pmpRegionPriv (r : riscv) (mode : riscvMode) (index : Z)
  : memPriv :=
  let e := getPMPCFGElem r index in
  if riscvMode_eqb mode RISCV_MODE_M && negb (cfg_L e) then MEM_PRIV_RWX
  else cfg_priv e.

Lemma refinePMPRegionRange_match r mode lowPAP highPAP PA index privP :
  pmpRegionMatches r PA index ->
  refinePMPRegionRange r mode lowPAP highPAP PA index privP =
  (fst (getPMPEntryBounds r index), snd (getPMPEntryBounds r index),
   pmpRegionPriv r mode index).
Proof.
  intros [Ha Hb]. unfold refinePMPRegionRange, pmpRegionPriv. rewrite Ha.
  destruct (getPMPEntryBounds r index) as [lo hi]. cbn [fst snd] in *.
  destruct (Z.ltb_spec hi lo); [lia|].
  destruct (Z.leb_spec lo PA); [|lia].
  destruct (Z.leb_spec PA hi); [|lia].
  cbn [andb].
  destruct (riscvMode_eqb mode RISCV_MODE_M), (cfg_L (getPMPCFGElem r index));
    reflexivity.
Qed.

Lemma refinePMPRegionRange_nomatch r mode lowPAP highPAP PA index privP :
  ~ pmpRegionMatches r PA index ->
  snd (refinePMPRegionRange r mode lowPAP highPAP PA index privP) = privP.
Proof.
  intros Hn. unfold refinePMPRegionRange.
  destruct (getPMPRegionActive r (getPMPCFGElem r index) index) eqn:Ha;
    [|reflexivity].
  destruct (getPMPEntryBounds r index) as [lo hi] eqn:Hb.
  destruct (Z.ltb_spec hi lo); [reflexivity|].
  destruct (Z.leb_spec lo PA); cbn [andb].
  - destruct (Z.leb_spec PA hi).
    + exfalso. apply Hn. split; [exact Ha|]. rewrite Hb. cbn. lia.
    + repeat match goal with
             | |- context [if ?b then _ else _] => destruct b
             end; reflexivity.
  - repeat match goal with
           | |- context [if ?b then _ else _] => destruct b
           end; reflexivity.
Qed.

Lemma refinePMPRegions_fold_right r mode PA n init :
  refinePMPRegions r mode PA n init =
  fold_right
    (fun i acc =>
       let '(lowMap, highMap, p) := acc in
       refinePMPRegionRange r mode lowMap highMap PA (Z.of_nat i) p)
    init (seq 0 n).
Proof.
  unfold refinePMPRegions. rewrite <- fold_left_rev_right, rev_involutive.
  induction (seq 0 n) as [|i l IH]; [reflexivity|].
  cbn [fold_right]. rewrite IH.
  match goal with
  | |- _ = (let '(_, _) := ?x in _) => destruct x as [[lo hi] p]
  end.
  reflexivity.
Qed.

(** The privilege after all regions have been handled is the one of the
    lowest-numbered matching region. *)
Lemma refinePMPRegions_first_match r mode PA n init i :
  (i < n)%nat ->
  pmpRegionMatches r PA (Z.of_nat i) ->
  (forall j, (j < i)%nat -> ~ pmpRegionMatches r PA (Z.of_nat j)) ->
  snd (refinePMPRegions r mode PA n init) = pmpRegionPriv r mode (Z.of_nat i).
Proof.
  rewrite refinePMPRegions_fold_right.
  assert (G : forall m s, (s <= i < s + m)%nat ->
            pmpRegionMatches r PA (Z.of_nat i) ->
            (forall j, (s <= j < i)%nat ->
                       ~ pmpRegionMatches r PA (Z.of_nat j)) ->
            snd (fold_right
                   (fun i acc =>
                      let '(lowMap, highMap, p) := acc in
                      refinePMPRegionRange r mode lowMap highMap PA
                        (Z.of_nat i) p) init (seq s m)) =
            pmpRegionPriv r mode (Z.of_nat i)).
  { induction m as [|m IH]; intros s Hs Hm Hlt; [lia|].
    cbn [seq fold_right].
    destruct (fold_right _ init (seq (S s) m)) as [[lo hi] p] eqn:E.
    destruct (Nat.eq_dec s i) as [->|Hne].
    - rewrite refinePMPRegionRange_match by assumption. reflexivity.
    - rewrite refinePMPRegionRange_nomatch by (apply Hlt; lia).
      specialize (IH (S s)). rewrite E in IH. apply IH; auto.
      + lia.
      + intros j Hj. apply Hlt. lia. }
  intros Hi Hm Hlt. apply G; auto.
  - lia.
  - intros j Hj. apply Hlt. lia.
Qed.

(** C8. A PMP region match: in M mode a region with L=0 grants full R/W/X
    whatever its priv field; a region with L=1 applies its priv field, also
    in M mode; in the other modes the priv field always applies.  The
    lowest-numbered matching region decides the privilege of the access. *)
Theorem refinePMPRegionRange_priv r mode lowPAP highPAP PA index privP
    (Hmatch : pmpRegionMatches r PA index) :
  let e := getPMPCFGElem r index in
  let granted :=
    snd (refinePMPRegionRange r mode lowPAP highPAP PA index privP) in
  (mode = RISCV_MODE_M -> cfg_L e = false -> granted = MEM_PRIV_RWX)
  /\ (cfg_L e = true -> granted = cfg_priv e)
  /\ (mode <> RISCV_MODE_M -> granted = cfg_priv e)
  /\ (forall n init i, index = Z.of_nat i -> (i < n)%nat ->
        (forall j, (j < i)%nat -> ~ pmpRegionMatches r PA (Z.of_nat j)) ->
        snd (refinePMPRegions r mode PA n init) = granted).
Proof.
  intros e granted. subst granted.
  rewrite refinePMPRegionRange_match by assumption. cbn [snd].
  unfold pmpRegionPriv. fold e. repeat split.
  - intros -> ->. reflexivity.
  - intros ->. rewrite andb_false_r. reflexivity.
  - intros Hm. destruct mode; try reflexivity. congruence.
  - intros n init i -> Hi Hlt.
    rewrite (refinePMPRegions_first_match r mode PA n init i); auto.
Qed.

(* ------------------------------------------------------------------------- *)
(** ** PMP entry bounds *)

Lemma testbit_split a b n i :
  0 <= n -> 0 <= b < 2 ^ n -> 0 <= i ->
  Z.testbit (a * 2 ^ n + b) i =
  if i <? n then Z.testbit b i else Z.testbit a (i - n).
Proof.
  intros Hn Hb Hi. destruct (Z.ltb_spec i n).
  - rewrite <- (Z.mod_pow2_bits_low (a * 2 ^ n + b) n i) by lia.
    rewrite Z.add_comm, Z.mod_add by lia. rewrite Z.mod_small by lia.
    reflexivity.
  - replace i with ((i - n) + n) at 1 by lia.
    rewrite <- Z.div_pow2_bits by lia.
    rewrite Z.add_comm, Z.div_add by lia. rewrite Z.div_small by lia.
    reflexivity.
Qed.

Lemma compl_bits H n t :
  0 <= n -> 0 <= H < 2 ^ n -> 0 <= t ->
  Z.testbit (2 ^ n - 1 - H) t && Z.testbit H t = false.
Proof.
  intros Hn HH Ht.
  replace (2 ^ n - 1 - H) with (Z.lnot H mod 2 ^ n).
  2:{ unfold Z.lnot. symmetry. apply Z.mod_unique with (q := -1); lia. }
  destruct (Z.ltb_spec t n).
  - rewrite Z.mod_pow2_bits_low, Z.lnot_spec by lia.
    destruct (Z.testbit H t); reflexivity.
  - rewrite Z.mod_pow2_bits_high by lia. reflexivity.
Qed.

Lemma lowbit_land H n j :
  0 <= n -> 0 <= j -> 0 <= H < 2 ^ n ->
  Z.land ((2 ^ n - 1 - H) * 2 ^ (j + 1) + 2 ^ j) (H * 2 ^ (j + 1) + 2 ^ j)
  = 2 ^ j.
Proof.
  intros Hn Hj HH. apply Z.bits_inj'. intros i Hi.
  assert (Hp : 0 <= 2 ^ j < 2 ^ (j + 1)).
  { split; [apply Z.pow_nonneg; lia|]. apply Z.pow_lt_mono_r; lia. }
  rewrite Z.land_spec, !testbit_split by lia.
  destruct (Z.ltb_spec i (j + 1)).
  - apply andb_diag.
  - rewrite compl_bits by lia. rewrite Z.pow2_bits_false by lia. reflexivity.
Qed.


Lemma land_lnot_ones x n :
  0 <= n <= 64 -> 0 <= x < 2 ^ 64 ->
  Z.land x (not64 (2 ^ n - 1)) = x - x mod 2 ^ n.
Proof.
  intros Hn Hx. unfold not64, Uns64.
  replace (2 ^ n - 1) with (Z.ones n) by (rewrite Z.ones_equiv; lia).
  rewrite <- Z.land_ones by lia.
  rewrite Z.land_assoc, (Z.land_comm x), <- Z.land_assoc.
  rewrite (Z.land_ones x 64), (Z.mod_small x) by lia.
  rewrite Z.land_comm, <- Z.ldiff_land.
  rewrite Z.ldiff_ones_r by lia.
  rewrite Z.shiftl_mul_pow2, Z.shiftr_div_pow2 by lia.
  pose proof (Z.div_mod x (2 ^ n)).
  assert (0 < 2 ^ n) by (apply Z.pow_pos_nonneg; lia). lia.
Qed.

Lemma lor_low_ones x n :
  0 <= n -> Z.lor (x - x mod 2 ^ n) (2 ^ n - 1) = x - x mod 2 ^ n + 2 ^ n - 1.
Proof.
  intros Hn.
  assert (Hpos : 0 < 2 ^ n) by (apply Z.pow_pos_nonneg; lia).
  assert (Hl : Z.land (x - x mod 2 ^ n) (2 ^ n - 1) = 0).
  { replace (2 ^ n - 1) with (Z.ones n) by (rewrite Z.ones_equiv; lia).
    rewrite Z.land_ones by lia.
    replace (x - x mod 2 ^ n) with ((x / 2 ^ n) * 2 ^ n)
      by (pose proof (Z.div_mod x (2 ^ n)); lia).
    apply Z.mod_mul. lia. }
  pose proof (Z.add_lor_land (x - x mod 2 ^ n) (2 ^ n - 1)). lia.
Qed.

(** The bounds decoded from an address with [k] trailing one bits: the
    naturally aligned block of [2^(k+3)] bytes containing the address shifted
    left by 2. *)
Lemma napot_decode a k :
  0 <= k <= 61 -> 0 <= a < 2 ^ 64 ->
  a mod 2 ^ (k + 1) = 2 ^ k - 1 ->
  let low := Uns64 (Z.shiftl a 2) in
  let notLow := not64 (Uns64 (low + 3)) in
  let mask := Uns64 (Uns64 (Z.shiftl (Z.land notLow (neg64 notLow)) 1) - 1) in
  mask = 2 ^ (k + 3) - 1
  /\ Z.land low (not64 mask) = low - low mod 2 ^ (k + 3)
  /\ Z.lor (Z.land low (not64 mask)) mask
     = low - low mod 2 ^ (k + 3) + 2 ^ (k + 3) - 1.
Proof.
  intros Hk Ha Hmod low notLow mask.
  set (n := 61 - k). set (j := k + 2).
  assert (Hn : 0 <= n) by (unfold n; lia).
  assert (Hj : 0 <= j) by (unfold j; lia).
  assert (P64 : 2 ^ 64 = 2 ^ n * 2 ^ (j + 1)).
  { rewrite <- Z.pow_add_r by lia. f_equal. unfold n, j. lia. }
  assert (Pj : 2 ^ (j + 1) = 2 * 2 ^ j) by (rewrite Z.pow_add_r by lia; lia).
  assert (Pk : 2 ^ j = 4 * 2 ^ k).
  { unfold j. rewrite Z.pow_add_r by lia. lia. }
  assert (Pk1 : 2 ^ (k + 1) = 2 * 2 ^ k) by (rewrite Z.pow_add_r by lia; lia).
  assert (Hk0 : 0 < 2 ^ k) by (apply Z.pow_pos_nonneg; lia).
  assert (Hn0 : 0 < 2 ^ n) by (apply Z.pow_pos_nonneg; lia).
  set (h := a / 2 ^ (k + 1)).
  assert (Hah : a = h * 2 ^ (k + 1) + (2 ^ k - 1)).
  { pose proof (Z.div_mod a (2 ^ (k + 1))). unfold h. lia. }
  assert (Hh0 : 0 <= h) by (unfold h; apply Z.div_pos; lia).
  set (H := h mod 2 ^ n).
  assert (HH : 0 <= H < 2 ^ n) by (unfold H; apply Z.mod_pos_bound; lia).
  assert (Hlow : low = H * 2 ^ (j + 1) + (2 ^ j - 4)).
  { unfold low, Uns64. rewrite Z.shiftl_mul_pow2 by lia.
    symmetry. apply Z.mod_unique with (q := h / 2 ^ n).
    - left. nia.
    - pose proof (Z.div_mod h (2 ^ n)). fold H in H0.
      change (2 ^ 2) with 4. rewrite P64. nia. }
  assert (Hlow3 : Uns64 (low + 3) = H * 2 ^ (j + 1) + (2 ^ j - 1)).
  { unfold Uns64. rewrite Z.mod_small; [lia|]. rewrite Hlow, P64. nia. }
  assert (HnotLow : notLow = (2 ^ n - 1 - H) * 2 ^ (j + 1) + 2 ^ j).
  { unfold notLow. rewrite Hlow3. unfold not64, Uns64, Z.lnot.
    symmetry. apply Z.mod_unique with (q := -1).
    - left. rewrite P64. nia.
    - rewrite P64. nia. }
  assert (Hneg : neg64 notLow = H * 2 ^ (j + 1) + 2 ^ j).
  { unfold neg64, Uns64. rewrite HnotLow.
    symmetry. apply Z.mod_unique with (q := -1).
    - left. rewrite P64. nia.
    - rewrite P64. nia. }
  assert (Hmask : mask = 2 ^ (k + 3) - 1).
  { unfold mask. rewrite Hneg, HnotLow, lowbit_land by lia.
    rewrite Z.shiftl_mul_pow2 by lia. change (2 ^ 1) with 2.
    replace (k + 3) with (j + 1) by (unfold j; lia).
    replace (2 ^ j * 2) with (2 ^ (j + 1)) by lia.
    destruct (Z.eq_dec k 61) as [->|Hne].
    - reflexivity.
    - unfold Uns64.
      assert (2 ^ (j + 1) < 2 ^ 64) by (apply Z.pow_lt_mono_r; unfold j; lia).
      rewrite (Z.mod_small (2 ^ (j + 1))) by lia.
      apply Z.mod_small. lia. }
  assert (Hlowr : 0 <= low < 2 ^ 64)
    by (unfold low, Uns64; apply Z.mod_pos_bound; lia).
  split; [exact Hmask|]. rewrite Hmask.
  rewrite land_lnot_ones by lia.
  split; [reflexivity|]. apply lor_low_ones. lia.
Qed.

(** Every 64-bit value has a number [k] of trailing one bits: [k] ones, then
    a zero bit or the end of the word. *)
Lemma trailing_zeros_pos (p : positive) :
  exists k m, 0 <= k /\ 0 <= m /\ Z.pos p = 2 ^ k * (2 * m + 1).
Proof.
  induction p as [p _ | p (k & m & Hk & Hm & IH) |].
  - exists 0, (Z.pos p). repeat split; try lia.
  - exists (k + 1), m. repeat split; try lia.
    rewrite Z.pow_add_r by lia. change (Z.pos p~0) with (2 * Z.pos p). lia.
  - exists 0, 0. repeat split; lia.
Qed.

Lemma trailing_ones a :
  0 <= a < 2 ^ 64 -> exists k, 0 <= k <= 64 /\ a mod 2 ^ (k + 1) = 2 ^ k - 1.
Proof.
  intros Ha. destruct (a + 1) as [|p|p] eqn:E; try lia.
  destruct (trailing_zeros_pos p) as (k & m & Hk & Hm & Hp).
  assert (Hk0 : 0 < 2 ^ k) by (apply Z.pow_pos_nonneg; lia).
  assert (Hk64 : k <= 64).
  { destruct (Z.le_gt_cases k 64) as [|Hgt]; [assumption|].
    assert (2 ^ 65 <= 2 ^ k) by (apply Z.pow_le_mono_r; lia).
    assert (2 ^ k <= 2 ^ k * (2 * m + 1)) by nia. lia. }
  exists k. split; [lia|].
  assert (Hk1 : 2 ^ (k + 1) = 2 ^ k * 2)
    by (rewrite Z.pow_add_r by lia; reflexivity).
  symmetry. apply Z.mod_unique with (q := m).
  - left. lia.
  - rewrite Hk1. lia.
Qed.

(** With 62 or more trailing one bits the shifted address is 2^64-4, and the
    region is the whole address space. *)
Lemma napot_decode_top a k :
  62 <= k <= 64 -> 0 <= a < 2 ^ 64 ->
  a mod 2 ^ (k + 1) = 2 ^ k - 1 ->
  Uns64 (Z.shiftl a 2) = 2 ^ 64 - 4.
Proof.
  intros Hk Ha Hmod.
  assert (H62 : a mod 2 ^ 62 = 2 ^ 62 - 1).
  { set (q := a / 2 ^ (k + 1)).
    assert (Hq : a = 2 ^ (k + 1) * q + (2 ^ k - 1))
      by (pose proof (Z.div_mod a (2 ^ (k + 1)) ltac:(lia)); unfold q; lia).
    assert (Hp : 2 ^ k = 2 ^ 62 * 2 ^ (k - 62)).
    { rewrite <- Z.pow_add_r by lia. f_equal. lia. }
    assert (Hp1 : 2 ^ (k + 1) = 2 * 2 ^ k)
      by (rewrite Z.pow_add_r by lia; lia).
    assert (Hd : 0 < 2 ^ (k - 62)) by (apply Z.pow_pos_nonneg; lia).
    symmetry.
    apply Z.mod_unique with (q := 2 * 2 ^ (k - 62) * q + 2 ^ (k - 62) - 1).
    - left. lia.
    - rewrite Hq at 1. rewrite Hp1, Hp. ring. }
  unfold Uns64. rewrite Z.shiftl_mul_pow2 by lia.
  symmetry. apply Z.mod_unique with (q := a / 2 ^ 62).
  - left. lia.
  - pose proof (Z.div_mod a (2 ^ 62) ltac:(lia)) as Hdm.
    rewrite H62 in Hdm. change (2 ^ 2) with 4.
    change (2 ^ 64) with (4 * 2 ^ 62). lia.
Qed.

(** C9. The bounds of a NAPOT entry are the naturally aligned power-of-two
    range decoded from the trailing one bits of its address: with [k]
    trailing ones (there always is such a [k]) the region is the aligned block
    of [2^(k+3)] bytes that contains the address shifted left by 2, cut to the
    64-bit address space; the address 0x8000_0000 | 0x1F decodes to the range
    [0x2_0000_0000, 0x2_0000_00FF]. *)
Theorem getPMPEntryBounds_NAPOT r index
    (Hmode : cfg_mode (getPMPCFGElem r index) = PMPM_NAPOT)
    (Hrange : 0 <= getEffectivePMPAddr r index < 2 ^ 64) :
  let addr := Uns64 (Z.shiftl (getEffectivePMPAddr r index) 2) in
  let low := fst (getPMPEntryBounds r index) in
  let high := snd (getPMPEntryBounds r index) in
  (exists k,
     0 <= k <= 64
     /\ getEffectivePMPAddr r index mod 2 ^ (k + 1) = 2 ^ k - 1
     /\ low = addr - addr mod 2 ^ (k + 3)
     /\ high = Z.min (low + 2 ^ (k + 3) - 1) (2 ^ 64 - 1)
     /\ low mod 2 ^ (k + 3) = 0
     /\ low <= addr <= high)
  /\ (getEffectivePMPAddr r index = 0x8000001F ->
      getPMPEntryBounds r index = (0x200000000, 0x2000000FF)).
Proof.
  intros addr low high. split.
  - destruct (trailing_ones _ Hrange) as (k & Hk & Hones).
    exists k. split; [exact Hk|]. split; [exact Hones|].
    assert (Hsz : 0 < 2 ^ (k + 3)) by (apply Z.pow_pos_nonneg; lia).
    assert (Haddr : 0 <= addr < 2 ^ 64)
      by (unfold addr, Uns64; apply Z.mod_pos_bound; lia).
    destruct (Z.le_gt_cases k 61) as [Hlow | Htop].
    + destruct (napot_decode _ k (conj (proj1 Hk) Hlow) Hrange Hones)
        as (Hm & Hl & Hh).
      assert (Hb : getPMPEntryBounds r index =
                   (addr - addr mod 2 ^ (k + 3),
                    addr - addr mod 2 ^ (k + 3) + 2 ^ (k + 3) - 1)).
      { cbv zeta in Hl, Hh. unfold getPMPEntryBounds. rewrite Hmode.
        cbn [Z.eqb PMPM_NAPOT PMPM_NA4]. cbv zeta. rewrite Hh, Hl.
        reflexivity. }
      subst low high. rewrite Hb. cbn [fst snd].
      pose proof (Z.mod_pos_bound addr (2 ^ (k + 3)) Hsz).
      assert (Hmul : addr - addr mod 2 ^ (k + 3)
                     = 2 ^ (k + 3) * (addr / 2 ^ (k + 3)))
        by (pose proof (Z.div_mod addr (2 ^ (k + 3)) ltac:(lia)); lia).
      assert (H64 : 2 ^ 64 = 2 ^ (k + 3) * 2 ^ (61 - k)).
      { rewrite <- Z.pow_add_r by lia. f_equal. lia. }
      assert (Hq : addr / 2 ^ (k + 3) < 2 ^ (61 - k)).
      { apply Z.div_lt_upper_bound; [lia|]. rewrite <- H64. lia. }
      split; [reflexivity|]. split.
      { rewrite Z.min_l; [reflexivity|]. rewrite Hmul, H64. nia. }
      split; [rewrite Hmul, Z.mul_comm; apply Z.mod_mul; lia | lia].
    + assert (Hk' : 62 <= k <= 64) by lia.
      pose proof (napot_decode_top _ k Hk' Hrange Hones) as Ha.
      fold addr in Ha.
      assert (Hb : getPMPEntryBounds r index = (0, 2 ^ 64 - 1)).
      { unfold getPMPEntryBounds. rewrite Hmode.
        cbn [Z.eqb PMPM_NAPOT PMPM_NA4]. cbv zeta. fold addr. rewrite Ha.
        reflexivity. }
      assert (Hbig : 2 ^ 65 <= 2 ^ (k + 3))
        by (apply Z.pow_le_mono_r; lia).
      subst low high. rewrite Hb. cbn [fst snd].
      rewrite (Z.mod_small addr) by lia.
      split; [lia|]. split; [lia|].
      split; [apply Z.mod_0_l; lia | lia].
  - intros He. unfold getPMPEntryBounds. rewrite Hmode, He. reflexivity.
Qed.

(* ------------------------------------------------------------------------- *)
(** ** Computations that only log calls *)

(** The computation never aborts and changes nothing but the trace. *)
Definition traceOnly {T} (c : M T) : Prop :=
  forall r, exists x evs, c r = Some (x, set_trace (evs ++ trace r) r).

Lemma traceOnly_ret {T} (x : T) : traceOnly (ret x).
Proof. intros r. exists x, []. cbn. rewrite set_trace_same. reflexivity. Qed.

Lemma traceOnly_get : traceOnly get.
Proof. intros r. exists r, []. cbn. rewrite set_trace_same. reflexivity. Qed.

Lemma traceOnly_emit ev : traceOnly (emit ev).
Proof. intros r. exists tt, [ev]. reflexivity. Qed.

Lemma traceOnly_bind {T V} (c : M T) (k : T -> M V) :
  traceOnly c -> (forall x, traceOnly (k x)) -> traceOnly (bind c k).
Proof.
  intros Hc Hk r. destruct (Hc r) as (x & evs & Hx).
  destruct (Hk x (set_trace (evs ++ trace r) r)) as (y & evs' & Hy).
  exists y, (evs' ++ evs). unfold bind. rewrite Hx, Hy.
  cbn. rewrite app_assoc. reflexivity.
Qed.

Lemma traceOnly_when b c : traceOnly c -> traceOnly (when b c).
Proof. intros H. destruct b; [exact H | apply traceOnly_ret]. Qed.

Ltac trace_only :=
  repeat first
    [ apply traceOnly_ret | apply traceOnly_get | apply traceOnly_emit
    | apply traceOnly_when
    | apply traceOnly_bind; [|intros ?]
    | match goal with
      | |- traceOnly (if ?b then _ else _) => destruct b
      | |- traceOnly (let '(_, _) := ?p in _) => destruct p
      end ].

Lemma pmpProtect_traceOnly domain lo hi p updatePriv :
  traceOnly (pmpProtect domain lo hi p updatePriv).
Proof. unfold pmpProtect. trace_only. Qed.

Lemma setPMPPriv_traceOnly mode low high p updatePriv :
  traceOnly (setPMPPriv mode low high p updatePriv).
Proof.
  unfold setPMPPriv. trace_only; apply pmpProtect_traceOnly.
Qed.

Lemma invalidatePMPEntry_traceOnly index : traceOnly (invalidatePMPEntry index).
Proof.
  unfold invalidatePMPEntry. trace_only; apply setPMPPriv_traceOnly.
Qed.

(* ------------------------------------------------------------------------- *)
(** ** Write of a PMP address register *)

(** The new value after the masks [riscvVMWritePMPAddr] applies to it: the
    writable bits of the implemented external address width, and the grain. *)
Definition maskedPMPAddr (r : riscv) (newValue : Z) : Z :=
  let G := PMP_grain (configInfo r) in
  let newValue := Z.land newValue (Z.shiftr (getAddressMask (extBits r)) 2) in
  if z2b G then Z.land newValue (Uns64 (Z.shiftl (Uns64 (-1)) (G - 1)))
  else newValue.


(* ------------------------------------------------------------------------- *)
(** ** Reading fields of updated structures *)

Ltac fields :=
  cbn [csr configInfo artifactAccess inVMode extBits pmpDomains vmDomains
       activeTLB s2Offset PTWActive PTWBadAddr s2Active s1VA GVA GPA AFErrorIn
       riscv_tlb pmpcfg_u8 pmpaddr ptwMem ptwWritable trace
       set_activeTLB set_s2Offset set_PTWActive set_PTWBadAddr set_s2Active
       set_s1VA set_GVA set_GPA set_AFErrorIn set_riscv_tlb set_pmpcfg_u8
       set_pmpaddr set_ptwMem set_trace set_tlb] in *.

(** The calls logged between two states. *)
Definition newEvents (r r' : riscv) : list vmiEvent :=
  firstn (length (trace r') - length (trace r)) (trace r').

Lemma newEvents_app r r' evs :
  trace r' = evs ++ trace r -> newEvents r r' = evs.
Proof.
  intros H. unfold newEvents. rewrite H, length_app.
  replace (length evs + length (trace r) - length (trace r))%nat
    with (length evs + 0)%nat by lia.
  rewrite firstn_app_2. cbn. apply app_nil_r.
Qed.

(* ------------------------------------------------------------------------- *)
(** ** The descent through the page tables *)

(** What the descent does, in the words of the specification: per level, a
    failed read is an access fault; V=0 is a page fault; R=0 and W=1 is a
    page fault; any of R/W/X set makes the entry the leaf; otherwise the walk
    descends one level; no leaf after the deepest level is a page fault. *)
Inductive walkResult :=
| WalkAccessFault
| WalkPageFault
| WalkLeaf (level : nat) (PTE : Z).

Definition PTE_R (PTE : Z) : bool := Z.testbit PTE 1.
Definition PTE_W (PTE : Z) : bool := Z.testbit PTE 2.
Definition PTE_X (PTE : Z) : bool := Z.testbit PTE 3.

Section Descent.

Variable f : svFormat.
Variable mem : Z -> option Z.
Variable VA : Z.

(** Address of the entry for level [i] in the table at [a], and the entry
    read there. *)
Definition pteAddr (i : nat) (a : Z) : Z :=
  Uns64 (a + Uns32 (getVPNi f VA (Z.of_nat i) * svEntryBytes f)).

Definition pteAt (i : nat) (a : Z) : option Z :=
  option_map
    (fun w => w mod 2 ^ (8 * (if svEntryBytes f =? 4 then 4 else 8)))
    (mem (pteAddr i a)).

Inductive specWalk : nat -> Z -> walkResult -> Prop :=
| SW_deepest a :
    specWalk 0 a WalkPageFault
| SW_read_failed i a :
    pteAt i a = None ->
    specWalk (S i) a WalkAccessFault
| SW_invalid i a PTE :
    pteAt i a = Some PTE -> PTE_V PTE = false ->
    specWalk (S i) a WalkPageFault
| SW_reserved i a PTE :
    pteAt i a = Some PTE -> PTE_V PTE = true ->
    PTE_R PTE = false -> PTE_W PTE = true ->
    specWalk (S i) a WalkPageFault
| SW_leaf i a PTE :
    pteAt i a = Some PTE -> PTE_V PTE = true ->
    ~ (PTE_R PTE = false /\ PTE_W PTE = true) ->
    PTE_R PTE || PTE_W PTE || PTE_X PTE = true ->
    specWalk (S i) a (WalkLeaf i PTE)
| SW_descend i a PTE res :
    pteAt i a = Some PTE -> PTE_V PTE = true ->
    PTE_R PTE || PTE_W PTE || PTE_X PTE = false ->
    specWalk i (getPTETableAddress (PTE_PPN f PTE)) res ->
    specWalk (S i) a res.

Lemma specWalk_deterministic n a res1 res2 :
  specWalk n a res1 -> specWalk n a res2 -> res1 = res2.
Proof.
  intros W1. revert res2.
  induction W1; intros res2 W2; inversion W2; subst;
    repeat match goal with
           | Ha : pteAt ?i ?a = _, Hb : pteAt ?i ?a = _ |- _ =>
               rewrite Ha in Hb; inversion Hb; subst; clear Hb
           end;
    try reflexivity; try congruence; try tauto.
  all: try match goal with
           | Ho : _ || PTE_W ?p || _ = false, Hw : PTE_W ?p = true |- _ =>
               rewrite Hw, orb_true_r in Ho; discriminate Ho
           end.
  apply IHW1. assumption.
Qed.

End Descent.

(** The result of the descent as the specification names it. *)
Definition walkResultOf (o : ptwOutcome) : walkResult :=
  match o with
  | PTW_Error code _ =>
      match snd (pteErrorDesc code) with
      | PTX_PAGE => WalkPageFault
      | _ => WalkAccessFault
      end
  | PTW_Leaf i PTE _ => WalkLeaf i PTE
  | PTW_NoLeaf _ => WalkPageFault
  end.

Lemma PTE_priv_bits PTE :
  PTE_priv PTE = b2z (PTE_R PTE) + 2 * b2z (PTE_W PTE) + 4 * b2z (PTE_X PTE).
Proof.
  unfold PTE_priv, bitsU, PTE_R, PTE_W, PTE_X.
  replace (Z.testbit PTE 1) with (Z.testbit (Z.shiftr PTE 1) 0)
    by (rewrite Z.shiftr_spec by lia; reflexivity).
  replace (Z.testbit PTE 2) with (Z.testbit (Z.shiftr PTE 1) 1)
    by (rewrite Z.shiftr_spec by lia; reflexivity).
  replace (Z.testbit PTE 3) with (Z.testbit (Z.shiftr PTE 1) 2)
    by (rewrite Z.shiftr_spec by lia; reflexivity).
  generalize (Z.shiftr PTE 1). intros x.
  change (Z.ones 3) with 7.
  apply Z.bits_inj'. intros i Hi.
  rewrite Z.land_spec.
  destruct (Z.eq_dec i 0) as [->|]; [|destruct (Z.eq_dec i 1) as [->|];
    [|destruct (Z.eq_dec i 2) as [->|]]].
  - destruct (Z.testbit x 0), (Z.testbit x 1), (Z.testbit x 2); reflexivity.
  - destruct (Z.testbit x 0), (Z.testbit x 1), (Z.testbit x 2); reflexivity.
  - destruct (Z.testbit x 0), (Z.testbit x 1), (Z.testbit x 2); reflexivity.
  - replace (Z.testbit 7 i) with false.
    2:{ symmetry. change 7 with (Z.ones 3). apply Z.ones_spec_high. lia. }
    rewrite andb_false_r.
    assert (Hb : forall v, 0 <= v < 8 -> Z.testbit v i = false).
    { intros v Hv. destruct (Z.eq_dec v 0) as [->|]; [apply Z.bits_0|].
      apply Z.bits_above_log2; [lia|].
      assert (Z.log2 v < 3) by (apply Z.log2_lt_pow2; lia). lia. }
    symmetry. apply Hb.
    destruct (Z.testbit x 0), (Z.testbit x 1), (Z.testbit x 2); cbn; lia.
Qed.

Lemma PTE_priv_R0W1 PTE :
  (Z.land (PTE_priv PTE) MEM_PRIV_RW =? MEM_PRIV_W) = true
  <-> PTE_R PTE = false /\ PTE_W PTE = true.
Proof.
  rewrite PTE_priv_bits.
  destruct (PTE_R PTE), (PTE_W PTE), (PTE_X PTE); cbn; intuition congruence.
Qed.

Lemma PTE_priv_leaf PTE :
  z2b (PTE_priv PTE) = PTE_R PTE || PTE_W PTE || PTE_X PTE.
Proof.
  rewrite PTE_priv_bits.
  destruct (PTE_R PTE), (PTE_W PTE), (PTE_X PTE); reflexivity.
Qed.

(** Reading a table entry never aborts; it leaves the memory as it is and
    raises the bad-address flag exactly when the read fails. *)
Lemma readPageTableEntry_run mode PTEAddr entryBytes attrs r :
  exists r1,
    readPageTableEntry mode PTEAddr entryBytes attrs r =
      Some (match ptwMem r PTEAddr with
            | Some w => w mod 2 ^ (8 * (if entryBytes =? 4 then 4 else 8))
            | None => 0
            end, r1)
    /\ ptwMem r1 = ptwMem r
    /\ PTWBadAddr r1 = match ptwMem r PTEAddr with
                       | Some _ => false
                       | None => true
                       end.
Proof.
  unfold readPageTableEntry, vmirtReadDomain. mon. fields.
  destruct (ptwMem r PTEAddr); eexists; split; try reflexivity; fields; auto.
Qed.

Lemma handlePTWException_page mode entry requiredPriv PTEAddr code r x r' :
  snd (pteErrorDesc code) = PTX_PAGE ->
  handlePTWException mode entry requiredPriv PTEAddr code r = Some (x, r') ->
  isPageFault x = true.
Proof.
  intros Hd H. unfold handlePTWException in H.
  destruct (pteErrorDesc code) as [warn exc]. cbn in Hd. subst exc.
  mon. unfold getAccessChar in H. mon.
  run_cases H; inversion H; subst;
    destruct (activeTLBIsVS2 _); reflexivity.
Qed.

Lemma ptwLoop_refines f mode attrs VA n a PTEAddr0 r :
  exists o r',
    ptwLoop f mode attrs VA n a PTEAddr0 r = Some (o, r')
    /\ ptwMem r' = ptwMem r
    /\ specWalk f (ptwMem r) VA n a (walkResultOf o).
Proof.
  revert a PTEAddr0 r. induction n as [|i IH]; intros a PTEAddr0 r.
  - exists (PTW_NoLeaf PTEAddr0), r. repeat split. constructor.
  - cbn [ptwLoop]. fold (pteAddr f VA i a).
    destruct (readPageTableEntry_run mode (pteAddr f VA i a) (svEntryBytes f)
                attrs r) as (r1 & Hrd & Hmem & Hbad).
    rewrite (bind_run _ _ _ _ _ Hrd).
    unfold bind at 1, gets at 1. rewrite Hbad.
    assert (Hat : pteAt f (ptwMem r) VA i a =
                  option_map (fun w => w mod 2 ^ (8 * (if svEntryBytes f =? 4
                                                       then 4 else 8)))
                    (ptwMem r (pteAddr f VA i a))) by reflexivity.
    destruct (ptwMem r (pteAddr f VA i a)) as [w|] eqn:Hw; cbn in Hat.
    + set (PTE := w mod 2 ^ (8 * (if svEntryBytes f =? 4 then 4 else 8))) in *.
      destruct (PTE_V PTE) eqn:HV; cbn [negb].
      * destruct (Z.land (PTE_priv PTE) MEM_PRIV_RW =? MEM_PRIV_W) eqn:HRW.
        { eexists _, r1. split; [reflexivity|]. split; [exact Hmem|].
          apply PTE_priv_R0W1 in HRW as [HR HW].
          eapply SW_reserved; eauto. }
        destruct (z2b (PTE_priv PTE)) eqn:HL.
        { eexists _, r1. split; [reflexivity|]. split; [exact Hmem|].
          rewrite PTE_priv_leaf in HL.
          eapply SW_leaf; eauto.
          intros HH. apply PTE_priv_R0W1 in HH. congruence. }
        destruct (IH (getPTETableAddress (PTE_PPN f PTE)) (pteAddr f VA i a) r1)
          as (o & r' & Hrun & Hmem' & Hspec).
        exists o, r'. split; [exact Hrun|]. split; [congruence|].
        rewrite PTE_priv_leaf in HL. rewrite Hmem in Hspec.
        eapply SW_descend; eauto.
      * eexists _, r1. split; [reflexivity|]. split; [exact Hmem|].
        eapply SW_invalid; eauto.
    + eexists _, r1. split; [reflexivity|]. split; [exact Hmem|].
      apply SW_read_failed. exact Hat.
Qed.

(* ------------------------------------------------------------------------- *)
(** ** What a translation leaves unchanged *)

(** The processor structure with everything a translation may write reset:
    two states with the same remainder agree on the CSRs, the configuration,
    the domains and the PMP registers. *)
Definition hartErase (r : riscv) : riscv :=
  set_trace [] (set_ptwMem (fun _ => None) (set_riscv_tlb (fun _ => None)
    (set_AFErrorIn riscv_AFault_None (set_GPA 0 (set_GVA false (set_s1VA 0
      (set_s2Active false (set_PTWBadAddr false (set_PTWActive false
        (set_s2Offset 0 (set_activeTLB RISCV_TLB_LAST r))))))))))).

Definition sameHart (r r' : riscv) : Prop := hartErase r' = hartErase r.

Lemma sameHart_refl r : sameHart r r.
Proof. reflexivity. Qed.

Lemma sameHart_trans r1 r2 r3 :
  sameHart r1 r2 -> sameHart r2 r3 -> sameHart r1 r3.
Proof. unfold sameHart. congruence. Qed.

Lemma sameHart_fields r r' :
  sameHart r r' ->
  csr r' = csr r /\ configInfo r' = configInfo r
  /\ artifactAccess r' = artifactAccess r /\ inVMode r' = inVMode r
  /\ vmDomains r' = vmDomains r /\ pmpDomains r' = pmpDomains r
  /\ ptwWritable r' = ptwWritable r.
Proof.
  intros H. unfold sameHart in H.
  repeat split;
    [ apply (f_equal csr) in H | apply (f_equal configInfo) in H
    | apply (f_equal artifactAccess) in H | apply (f_equal inVMode) in H
    | apply (f_equal vmDomains) in H | apply (f_equal pmpDomains) in H
    | apply (f_equal ptwWritable) in H ]; exact H.
Qed.

(** The step from [r] to [r'] keeps the hart and the active TLB, and logs
    calls that all satisfy [P]. *)
Definition effect (P : vmiEvent -> Prop) (r r' : riscv) : Prop :=
  sameHart r r' /\ activeTLB r' = activeTLB r
  /\ exists evs, trace r' = evs ++ trace r /\ Forall P evs.

Lemma effect_refl P r : effect P r r.
Proof.
  split; [reflexivity|]. split; [reflexivity|]. exists []. split; auto.
Qed.

Lemma effect_trans P r1 r2 r3 :
  effect P r1 r2 -> effect P r2 r3 -> effect P r1 r3.
Proof.
  intros (H1 & A1 & evs1 & T1 & F1) (H2 & A2 & evs2 & T2 & F2).
  split; [eapply sameHart_trans; eauto|]. split; [congruence|].
  exists (evs2 ++ evs1). split.
  - rewrite T2, T1, app_assoc. reflexivity.
  - apply Forall_app; auto.
Qed.

Lemma effect_weaken (P Q : vmiEvent -> Prop) r r' :
  (forall ev, P ev -> Q ev) -> effect P r r' -> effect Q r r'.
Proof.
  intros HPQ (H & A & evs & T & F).
  split; [exact H|]. split; [exact A|]. exists evs. split; [exact T|].
  eapply Forall_impl; eauto.
Qed.

Lemma effect_trace P r evs :
  Forall P evs -> effect P r (set_trace (evs ++ trace r) r).
Proof.
  intros F. split; [reflexivity|]. split; [reflexivity|].
  exists evs. split; [reflexivity | exact F].
Qed.

Lemma effect_newEvents P r r' :
  effect P r r' -> Forall P (newEvents r r').
Proof.
  intros (_ & _ & evs & T & F). rewrite (newEvents_app _ _ _ T). exact F.
Qed.

(** Kinds of calls. *)
Definition isRead (ev : vmiEvent) : bool :=
  match ev with vmirtReadNByteDomain _ _ _ _ => true | _ => false end.

Definition isWrite (ev : vmiEvent) : bool :=
  match ev with vmirtWriteNByteDomain _ _ _ _ => true | _ => false end.

Definition isException (ev : vmiEvent) : bool :=
  match ev with riscvTakeMemoryException _ _ _ _ => true | _ => false end.

Definition isAlias (ev : vmiEvent) : bool :=
  match ev with vmirtAliasMemoryVM _ _ _ _ _ _ _ _ => true | _ => false end.

(** Calls made by a page table walk: entry reads and writes, and messages;
    [ext] tells whether an invalid-extension message may be among them. *)
Definition walkEvent (ext : bool) (ev : vmiEvent) : Prop :=
  match ev with
  | vmirtReadNByteDomain _ _ _ _ | vmirtWriteNByteDomain _ _ _ _ => True
  | vmiMessage _ PTEE_VAEXTEND _ _ _ => ext = true
  | vmiMessage _ _ _ _ _ => True
  | _ => False
  end.

(** Calls made by TLB maintenance: alias removal and debug output. *)
Definition tlbEvent (ev : vmiEvent) : Prop :=
  match ev with
  | vmirtUnaliasMemoryVM _ _ _ _ _ | vmiPrintf _ _ => True
  | _ => False
  end.

(** Calls that are neither an entry write, an exception nor an alias. *)
Definition quietEvent (ev : vmiEvent) : Prop :=
  isWrite ev = false /\ isException ev = false /\ isAlias ev = false
  /\ isRead ev = false.

Lemma tlbEvent_quiet ev : tlbEvent ev -> quietEvent ev.
Proof. destruct ev; cbn; intros []; repeat split. Qed.

(* ------------------------------------------------------------------------- *)
(** ** Effects of the walk *)

Lemma handlePTWException_effect mode entry requiredPriv PTEAddr code r x r' :
  handlePTWException mode entry requiredPriv PTEAddr code r = Some (x, r') ->
  exists evs,
    r' = set_trace (evs ++ trace r) r
    /\ Forall (fun ev => exists s c,
                 ev = vmiMessage s code (lowVA entry) PTEAddr c) evs
    /\ (snd (pteErrorDesc code) = PTX_PAGE -> isPageFault x = true)
    /\ (snd (pteErrorDesc code) <> PTX_PAGE -> isPageFault x = false).
Proof.
  intros H.
  assert (Hpf : (snd (pteErrorDesc code) = PTX_PAGE -> isPageFault x = true)
    /\ (snd (pteErrorDesc code) <> PTX_PAGE -> isPageFault x = false)).
  { split; [intros Hd; eapply handlePTWException_page; eauto|].
    intros Hd. unfold handlePTWException in H.
    destruct (pteErrorDesc code) as [warn exc]. cbn in Hd.
    mon. unfold getAccessChar, originalAccessFault in H. mon.
    destruct exc; try congruence; run_cases H; inversion H; reflexivity. }
  unfold handlePTWException in H.
  destruct (pteErrorDesc code) as [warn exc].
  mon. unfold getAccessChar, originalAccessFault in H. mon.
  destruct (warn || DEBUG_MMU (configInfo r)).
  - run_cases H; inversion H; subst;
      (eexists [_]; split; [reflexivity|]; split; [|exact Hpf];
       constructor; [eexists _, _; reflexivity | constructor]).
  - exists []. cbn [app]. rewrite set_trace_same.
    split; [|split; [constructor | exact Hpf]].
    run_cases H; inversion H; reflexivity.
Qed.

Lemma readPageTableEntry_effect mode PTEAddr entryBytes attrs r v r1 :
  readPageTableEntry mode PTEAddr entryBytes attrs r = Some (v, r1) ->
  trace r1 = vmirtReadNByteDomain (getPTWDomain r) PTEAddr
               (if entryBytes =? 4 then 4 else 8) v :: trace r
  /\ sameHart r r1 /\ activeTLB r1 = activeTLB r
  /\ riscv_tlb r1 = riscv_tlb r.
Proof.
  unfold readPageTableEntry, vmirtReadDomain. mon. fields.
  destruct (ptwMem r PTEAddr); intros H; inversion H; subst;
    repeat split.
Qed.

Lemma writePageTableEntry_effect mode PTEAddr entryBytes attrs value r :
  exists r1,
    writePageTableEntry mode PTEAddr entryBytes attrs value r = Some (tt, r1)
    /\ trace r1 =
       (if artifactAccess r then []
        else [vmirtWriteNByteDomain (getPTWDomain r) PTEAddr
                (if entryBytes =? 4 then 4 else 8) value]) ++ trace r
    /\ sameHart r r1 /\ activeTLB r1 = activeTLB r
    /\ riscv_tlb r1 = riscv_tlb r.
Proof.
  unfold writePageTableEntry, vmirtWriteDomain. mon. fields.
  destruct (artifactAccess r) eqn:Ea.
  - eexists. split; [reflexivity|]. fields. repeat split.
  - fields. destruct (ptwWritable r PTEAddr); eexists;
      (split; [reflexivity|]); fields; repeat split.
Qed.

Definition isReadOf (bytes : Z) (ev : vmiEvent) : Prop :=
  exists dom addr v, ev = vmirtReadNByteDomain dom addr bytes v.

Lemma ptwLoop_effect f mode attrs VA n a PTEAddr0 r o r' :
  ptwLoop f mode attrs VA n a PTEAddr0 r = Some (o, r') ->
  sameHart r r' /\ activeTLB r' = activeTLB r /\ riscv_tlb r' = riscv_tlb r
  /\ exists reads,
       Forall (fun ev => isRead ev = true) reads
       /\ match o with
          | PTW_Leaf i PTE PTEAddr =>
              trace r' =
                vmirtReadNByteDomain (getPTWDomain r) PTEAddr
                  (if svEntryBytes f =? 4 then 4 else 8) PTE
                :: reads ++ trace r
          | PTW_Error code _ =>
              trace r' = reads ++ trace r /\ code <> PTEE_VAEXTEND
          | PTW_NoLeaf _ => trace r' = reads ++ trace r
          end.
Proof.
  revert a PTEAddr0 r o r'.
  induction n as [|i IH]; intros a PTEAddr0 r o r' H.
  - inversion H; subst. repeat split. exists []. split; [constructor|].
    reflexivity.
  - cbn [ptwLoop] in H. apply bind_inv in H as (PTE & r1 & Hrd & H).
    apply readPageTableEntry_effect in Hrd as (T1 & S1 & A1 & L1).
    assert (Hdom : getPTWDomain r1 = getPTWDomain r).
    { apply sameHart_fields in S1 as (_ & _ & _ & _ & _ & Hp & _).
      unfold getPTWDomain, getPMPDomainPriv, getPMPDomainCorD.
      rewrite Hp. reflexivity. }
    unfold bind at 1, gets at 1 in H.
    destruct (PTWBadAddr r1);
      [|destruct (negb (PTE_V PTE));
        [|destruct (Z.land (PTE_priv PTE) MEM_PRIV_RW =? MEM_PRIV_W);
          [|destruct (z2b (PTE_priv PTE))]]].
    1-3: inversion H; subst; repeat split; auto;
      eexists [_]; (split; [|split; [exact T1 | discriminate]]);
      (constructor; [reflexivity | constructor]).
    + inversion H; subst. repeat split; auto.
      exists []. split; [constructor | exact T1].
    + apply IH in H as (S2 & A2 & L2 & reads & F & T2).
      split; [eapply sameHart_trans; eauto|].
      split; [congruence|]. split; [congruence|].
      eexists (reads ++ [_]).
      split;
        [|destruct o as [code ? | |];
          [destruct T2 as [T2 Hc]; split; [|exact Hc] | |];
          rewrite T2, T1, ?Hdom, <- ?app_assoc; reflexivity].
      apply Forall_app.
      split; [exact F | constructor; [reflexivity | constructor]].
Qed.

Lemma effect_intro (P : vmiEvent -> Prop) r r' evs :
  sameHart r r' -> activeTLB r' = activeTLB r ->
  trace r' = evs ++ trace r -> Forall P evs -> effect P r r'.
Proof. intros. split; [|split]; auto. exists evs. auto. Qed.

Lemma checkEntryPermission_ext r1 r2 mode e1 e2 requiredPriv :
  csr r1 = csr r2 -> configInfo r1 = configInfo r2 ->
  activeTLB r1 = activeTLB r2 -> priv e1 = priv e2 -> U e1 = U e2 ->
  checkEntryPermission r1 mode e1 requiredPriv =
  checkEntryPermission r2 mode e2 requiredPriv.
Proof.
  unfold checkEntryPermission. intros -> -> -> -> ->. reflexivity.
Qed.

Lemma getRootTableAddress_state r a r1 :
  getRootTableAddress r = Some (a, r1) -> r1 = r.
Proof.
  unfold getRootTableAddress. mon. destruct (activeTLB r); intros H;
    inversion H; reflexivity.
Qed.

Lemma messages_walkEvent ext code va addr evs :
  (code = PTEE_VAEXTEND -> ext = true) ->
  Forall (fun ev => exists s c, ev = vmiMessage s code va addr c) evs ->
  Forall (walkEvent ext) evs.
Proof.
  intros Hc. apply Forall_impl. intros ev (s & c & ->). cbn.
  destruct code; auto.
Qed.

Lemma reads_walkEvent ext evs :
  Forall (fun ev => isRead ev = true) evs -> Forall (walkEvent ext) evs.
Proof.
  apply Forall_impl. intros ev. destruct ev; cbn; intros H;
    try discriminate H; exact I.
Qed.

(** A successful walk: the leaf entry is the last one read; it is written
    back, with A (and D for a write access) set, exactly when one of them was
    clear and the access is no artifact access; the entry filled passes the
    permission check and has A set, and D set for a write access. *)
Definition walkSuccess (bytes : Z) (r r' : riscv) (mode : riscvMode)
    (requiredPriv : memPriv) (e' : tlbEntry) : Prop :=
  exists PTEAddr PTE reads,
    let needD :=
      negb (PTE_D PTE || negb (z2b (Z.land requiredPriv MEM_PRIV_W))) in
    let doWrite := negb (PTE_A PTE) || needD in
    let PTE' :=
      (if needD then PTE_set_D else fun x => x)
        ((if PTE_A PTE then fun x => x else PTE_set_A) PTE) in
    trace r' =
      (if doWrite && negb (artifactAccess r)
       then [vmirtWriteNByteDomain (getPTWDomain r) PTEAddr bytes PTE']
       else [])
      ++ vmirtReadNByteDomain (getPTWDomain r) PTEAddr bytes PTE
      :: reads ++ trace r
    /\ Forall (fun ev => isRead ev = true) reads
    /\ priv e' = PTE_priv PTE /\ U e' = PTE_U PTE /\ A e' = true
    /\ D e' = PTE_D PTE || needD
    /\ tlb e' = activeTLB r
    /\ z2b (checkEntryPermission r mode e' requiredPriv) = true
    /\ (needD = true -> updatePTED r = true)
    /\ (PTE_A PTE = false -> updatePTEA r = true).

Ltac ptw_error H :=
  let x := fresh "x" in
  let r2 := fresh "r" in
  let Hx := fresh "Hx" in
  let evs := fresh "evs" in
  let Fm := fresh "Fm" in
  apply bind_inv in H as (x & r2 & Hx & H); inversion H; subst;
  apply handlePTWException_effect in Hx as (evs & -> & Fm & _);
  (split; [|fields; repeat split; try discriminate; try congruence; auto]);
  (eapply effect_trans; [eassumption|]);
  apply effect_trace; eapply messages_walkEvent; eauto; discriminate.

Lemma tlbLookupSv_spec f mode entry requiredPriv attrs r exc e' r' :
  tlbLookupSv f mode entry requiredPriv attrs r = Some ((exc, e'), r') ->
  let VA0 := VA_raw f (lowVA entry) in
  let extFailed :=
    (0 <? svExtendBits f)
    && negb (validVA (VA_VPN f VA0) (VA_VPNextend f VA0)) in
  effect (walkEvent extFailed) r r' /\ riscv_tlb r' = riscv_tlb r
  /\ artifact e' = artifact entry /\ mapped e' = mapped entry
  /\ simASID e' = simASID entry
  /\ (exc = None ->
      walkSuccess (if svEntryBytes f =? 4 then 4 else 8) r r' mode
        requiredPriv e').
Proof.
  intros H VA0 extFailed. unfold tlbLookupSv in H. fold VA0 in H.
  fold extFailed in H. destruct extFailed eqn:Hext.
  - apply bind_inv in H as (x & r1 & Hx & H). inversion H; subst.
    apply handlePTWException_effect in Hx as (evs & -> & Fm & _).
    split; [|repeat split; try discriminate].
    apply effect_trace. eapply messages_walkEvent; eauto.
  - apply bind_inv in H as (a & r0 & Ha & H).
    apply getRootTableAddress_state in Ha. subst r0.
    apply bind_inv in H as (o & r1 & Ho & H).
    apply ptwLoop_effect in Ho as (S1 & A1 & L1 & reads & Fr & To).
    destruct o as [code PTEAddr | i PTE PTEAddr | PTEAddr].
    + destruct To as [To Hc].
      assert (Eff1 : effect (walkEvent false) r r1)
        by (eapply effect_intro; eauto using reads_walkEvent).
      apply bind_inv in H as (x & r2 & Hx & H). inversion H; subst.
      apply handlePTWException_effect in Hx as (evs & -> & Fm & _).
      split; [|fields; repeat split; try discriminate; auto].
      eapply effect_trans; [exact Eff1|].
      apply effect_trace. eapply messages_walkEvent; eauto.
    + assert (Hart : artifactAccess r1 = artifactAccess r)
        by (apply sameHart_fields in S1; tauto).
      assert (Hdom : getPTWDomain r1 = getPTWDomain r).
      { apply sameHart_fields in S1 as (_ & _ & _ & _ & _ & Hp & _).
        unfold getPTWDomain, getPMPDomainPriv, getPMPDomainCorD.
        rewrite Hp. reflexivity. }
      assert (Hcsr : csr r1 = csr r /\ configInfo r1 = configInfo r)
        by (apply sameHart_fields in S1; tauto).
      destruct Hcsr as [Hcsr Hcfg].
      assert (Eff1 : effect (walkEvent false) r r1).
      { eapply effect_intro with (evs := _ :: reads); eauto.
        constructor; [exact I | eauto using reads_walkEvent]. }
      run_step H; [ptw_error H|].
      unfold bind at 1, get at 1 in H. cbv beta match in H. cbn [A D] in H.
      run_step H; [ptw_error H|].
      run_step H; [ptw_error H|].
      apply negb_false_iff in E0.
      run_step H; (run_step H; [ptw_error H|]); run_step H;
        cbn [A D entry_set_A entry_set_D] in *.
      all: assert (HuA : PTE_A PTE = false -> updatePTEA r = true)
        by (unfold updatePTEA in *; rewrite <- Hcfg; rewrite E2;
            destruct (cfg_updatePTEA (configInfo r1)); cbn in E1; intros;
            congruence).
      all: assert (HuD : negb (PTE_D PTE
                               || negb (z2b (Z.land requiredPriv MEM_PRIV_W)))
                         = true -> updatePTED r = true)
        by (unfold updatePTED in *; rewrite <- Hcfg; rewrite E4;
            destruct (cfg_updatePTED (configInfo r1)); cbn in E3; intros;
            congruence).
      all: assert (Hperm : forall e, priv e = PTE_priv PTE -> U e = PTE_U PTE ->
                     z2b (checkEntryPermission r mode e requiredPriv) = true)
        by (intros; rewrite <- E0; f_equal; apply checkEntryPermission_ext;
            auto).
      all: clear E0 E1 E3.
      all: try match type of H with
        | bind (writePageTableEntry ?m ?addr ?b ?at' ?v) _ ?r1 = _ =>
            destruct (writePageTableEntry_effect m addr b at' v r1)
              as (r2 & Hw & Tw & Sw & Aw & Lw);
            rewrite (bind_run _ _ _ _ _ Hw) in H;
            unfold bind at 1, gets at 1 in H;
            assert (Eff2 : effect (walkEvent false) r r2)
              by (eapply effect_trans; [exact Eff1|];
                  eapply effect_intro; eauto;
                  destruct (artifactAccess r1); repeat constructor);
            run_step H;
            [ clear Eff1; rename Eff2 into Eff1; ptw_error H
            | rewrite Hart, Hdom, To in Tw ]
        end.
      all: inversion H; subst; clear H.
      all: split; [solve [eauto]|].
      all: split; [congruence|].
      all: split; [reflexivity|]. 
      all: split; [reflexivity|]. 
      all: split; [reflexivity|]. 
      all: intros _; exists PTEAddr, PTE, reads; cbv zeta.
      all: split;
        [rewrite ?E2, ?E4; cbn [negb orb andb];
         first [exact To | destruct (artifactAccess r); exact Tw]|].
      all: split; [exact Fr|].
      all: cbn [priv U A D tlb entry_set_A entry_set_D].
      all: repeat (split; [first [reflexivity | exact A1
                                 | rewrite ?E4, ?orb_true_r, ?orb_false_r;
                                   reflexivity]|]).
      all: split; [apply Hperm; reflexivity|].
      all: split; assumption.
    + assert (Eff1 : effect (walkEvent false) r r1)
        by (eapply effect_intro; eauto using reads_walkEvent).
      ptw_error H.
Qed.

Lemma walkSuccess_ext bytes r0 r r' mode requiredPriv e e2 :
  walkSuccess bytes r0 r' mode requiredPriv e ->
  sameHart r r0 -> activeTLB r0 = activeTLB r -> trace r0 = trace r ->
  priv e2 = priv e -> U e2 = U e -> A e2 = A e -> D e2 = D e ->
  tlb e2 = tlb e ->
  walkSuccess bytes r r' mode requiredPriv e2.
Proof.
  intros (PTEAddr & PTE & reads & H) S0 A0 T0 Hp HU HA HD Ht.
  cbv zeta in H.
  destruct H as (T & Fr & H1 & H2 & H3 & H4 & H5 & H6 & H7 & H8).
  apply sameHart_fields in S0 as (Hc & Hcf & Ha & _ & _ & Hd & _).
  assert (Hdom : getPTWDomain r0 = getPTWDomain r).
  { unfold getPTWDomain, getPMPDomainPriv, getPMPDomainCorD.
    rewrite Hd. reflexivity. }
  exists PTEAddr, PTE, reads. cbv zeta.
  rewrite <- Hdom, <- Ha, <- T0. split; [exact T|]. split; [exact Fr|].
  repeat (split; [congruence|]).
  split; [rewrite <- H6; f_equal; apply checkEntryPermission_ext; auto|].
  unfold updatePTED, updatePTEA in *. rewrite <- Hcf. auto.
Qed.

Lemma tlbLookupSvx4_spec f shift mode entry requiredPriv attrs r exc e' r' :
  tlbLookupSvx4 f shift mode entry requiredPriv attrs r
    = Some ((exc, e'), r') ->
  effect (walkEvent true) r r' /\ riscv_tlb r' = riscv_tlb r
  /\ artifact e' = artifact entry /\ mapped e' = mapped entry
  /\ simASID e' = simASID entry
  /\ (exc = None ->
      walkSuccess (if svEntryBytes f =? 4 then 4 else 8) r r' mode
        requiredPriv e').
Proof.
  intros H. unfold tlbLookupSvx4 in H. run_step H.
  - apply bind_inv in H as (x & r2 & Hx & H). inversion H; subst.
    apply handlePTWException_effect in Hx as (evs & -> & Fm & _).
    split; [|repeat split; try discriminate].
    apply effect_trace. eapply messages_walkEvent; eauto.
  - unfold bind at 1, modify at 1 in H.
    apply bind_inv in H as ([exc0 e0] & r1 & Hw & H).
    apply tlbLookupSv_spec in Hw as (Eff & L & Ha & Hm & Hs & Hok).
    assert (Eff' : effect (walkEvent true) r r').
    { assert (r1 = r') by (destruct exc0; inversion H; reflexivity). subst r1.
      eapply effect_trans; [|eapply effect_weaken; [|exact Eff]].
      - apply (effect_intro _ _ _ []); try reflexivity. constructor.
      - intros ev. destruct ev; cbn; auto. destruct error; auto. }
    assert (Hent : artifact e0 = artifact entry /\ mapped e0 = mapped entry
                   /\ simASID e0 = simASID entry)
      by (destruct (0 <? svExtendBits f); auto).
    destruct Hent as (Ha' & Hm' & Hs').
    destruct exc0; inversion H; subst; (split; [exact Eff'|]).
    + repeat split; auto; discriminate.
    + repeat split; auto.
Qed.

Lemma tlbLookup_spec mode entry requiredPriv attrs r exc e' r' :
  tlbLookup mode entry requiredPriv attrs r = Some ((exc, e'), r') ->
  effect (walkEvent true) r r' /\ riscv_tlb r' = riscv_tlb r
  /\ artifact e' = artifact entry /\ mapped e' = mapped entry
  /\ simASID e' = simASID entry
  /\ (exc = None ->
      exists bytes, walkSuccess bytes r r' mode requiredPriv e').
Proof.
  intros H. unfold tlbLookup in H. unfold bind at 1, gets at 1 in H.
  destruct (negb (activeTLBIsVS2 r)).
  - unfold tlbLookupS1 in H. unfold bind at 1, get at 1 in H.
    unfold tlbLookupSv32, tlbLookupSv39, tlbLookupSv48 in H.
    run_cases H;
      apply tlbLookupSv_spec in H as (Eff & L & Ha & Hm & Hs & Hok);
      (split; [eapply effect_weaken; [|exact Eff];
               intros ev; destruct ev; cbn; auto; destruct error; auto;
               intros; reflexivity|]);
      repeat split; auto; intros He; eexists; apply Hok; exact He.
  - unfold tlbLookupS2 in H. unfold bind at 1, get at 1 in H.
    apply bind_inv in H as ([exc0 e0] & r1 & Hw & H).
    unfold tlbLookupSv32x4, tlbLookupSv39x4, tlbLookupSv48x4 in Hw.
    assert (Hspec : effect (walkEvent true) r r1 /\ riscv_tlb r1 = riscv_tlb r
      /\ artifact e0 = artifact entry /\ mapped e0 = mapped entry
      /\ simASID e0 = simASID entry
      /\ (exc0 = None ->
          exists bytes, walkSuccess bytes r r1 mode requiredPriv e0)).
    { run_cases Hw;
        apply tlbLookupSvx4_spec in Hw as (Eff & L & Ha & Hm & Hs & Hok);
        (split; [exact Eff|]);
        repeat split; auto; intros He; eexists; apply Hok; exact He. }
    destruct Hspec as (Eff & L & Ha & Hm & Hs & Hok).
    destruct exc0; mon; inversion H; subst.
    + split; [|repeat split; auto; discriminate].
      eapply effect_trans; [exact Eff|].
      apply (effect_intro _ _ _ []); try reflexivity. constructor.
    + split; [exact Eff|]. repeat split; auto.
Qed.

(* ------------------------------------------------------------------------- *)
(** ** The descent, level by level *)

(** C5. At each level the walker faults or descends as the rules say: the
    descent of the code never aborts and its result is the one of the rules
    (V=0: page fault; R=0 and W=1: page fault; any of R/W/X set: the leaf, and
    the descent ends; otherwise one level down; no leaf after the deepest
    level: page fault), and when the rules give a page fault the walk returns
    a page fault exception. *)
Theorem tlbLookupSv_descent f mode entry requiredPriv attrs r :
  let VA0 := VA_raw f (lowVA entry) in
  let VA := Z.shiftl (Z.shiftr VA0 12) 12 in
  (forall n a PTEAddr0,
     exists o r1,
       ptwLoop f mode attrs VA n a PTEAddr0 r = Some (o, r1)
       /\ specWalk f (ptwMem r) VA n a (walkResultOf o))
  /\ (forall a out r',
        (0 <? svExtendBits f)
        && negb (validVA (VA_VPN f VA0) (VA_VPNextend f VA0)) = false ->
        getRootTableAddress r = Some (a, r) ->
        specWalk f (ptwMem r) VA (svLevels f) a WalkPageFault ->
        tlbLookupSv f mode entry requiredPriv attrs r = Some (out, r') ->
        exists x, fst out = Some x /\ isPageFault x = true).
Proof.
  intros VA0 VA. split.
  - intros n a PTEAddr0.
    destruct (ptwLoop_refines f mode attrs VA n a PTEAddr0 r)
      as (o & r1 & Hrun & _ & Hspec).
    exists o, r1. auto.
  - intros a out r' Hext Hroot Hspec H.
    unfold tlbLookupSv in H. fold VA0 in H. rewrite Hext in H.
    rewrite (bind_run _ _ _ _ _ Hroot) in H.
    destruct (ptwLoop_refines f mode attrs VA (svLevels f) a 0 r)
      as (o & r1 & Hrun & _ & Hspec').
    fold VA in H. rewrite (bind_run _ _ _ _ _ Hrun) in H.
    pose proof (specWalk_deterministic _ _ _ _ _ _ _ Hspec Hspec') as Hres.
    destruct o as [code PTEAddr | i PTE PTEAddr | PTEAddr];
      cbn [walkResultOf] in Hres; try discriminate Hres.
    + apply bind_inv in H as (x & r2 & Hx & H). inversion H; subst.
      exists x. split; [reflexivity|].
      eapply handlePTWException_page; [|exact Hx].
      destruct (snd (pteErrorDesc code)); congruence.
    + apply bind_inv in H as (x & r2 & Hx & H). inversion H; subst.
      exists x. split; [reflexivity|].
      eapply handlePTWException_page; [|exact Hx]. reflexivity.
Qed.

(* ------------------------------------------------------------------------- *)
(** ** The extension check of Sv39 *)

(** The bits of [va] above bit [top] (up to bit 63) repeat bit [top]. *)
Definition signExtended (va top : Z) : Prop :=
  forall i, top < i < 64 -> Z.testbit va i = Z.testbit va top.

Lemma bitsU_spec x lsb n j :
  0 <= lsb -> 0 <= n -> 0 <= j ->
  Z.testbit (bitsU x lsb n) j = Z.testbit x (j + lsb) && (j <? n).
Proof.
  intros Hl Hn Hj. unfold bitsU. rewrite Z.land_spec, Z.shiftr_spec by lia.
  destruct (Z.ltb_spec j n).
  - rewrite Z.ones_spec_low by lia. reflexivity.
  - rewrite Z.ones_spec_high by lia. reflexivity.
Qed.

Lemma bitsU_range x lsb n : 0 <= n -> 0 <= bitsU x lsb n < 2 ^ n.
Proof.
  intros Hn. unfold bitsU. rewrite Z.land_ones by lia.
  apply Z.mod_pos_bound. apply Z.pow_pos_nonneg; lia.
Qed.

Lemma bitsU_zero x lsb n :
  0 <= lsb -> 0 <= n ->
  (bitsU x lsb n = 0 <->
   forall j, 0 <= j < n -> Z.testbit x (j + lsb) = false).
Proof.
  intros Hl Hn. split.
  - intros H j Hj. pose proof (bitsU_spec x lsb n j Hl Hn (proj1 Hj)) as B.
    rewrite H, Z.bits_0 in B. destruct (Z.ltb_spec j n); [|lia].
    rewrite andb_true_r in B. auto.
  - intros H. apply Z.bits_inj'. intros j Hj.
    rewrite bitsU_spec, Z.bits_0 by lia.
    destruct (Z.ltb_spec j n); [|apply andb_false_r].
    rewrite H by lia. reflexivity.
Qed.

Lemma bitsU_ones x lsb n :
  0 <= lsb -> 0 <= n ->
  (bitsU x lsb n = 2 ^ n - 1 <->
   forall j, 0 <= j < n -> Z.testbit x (j + lsb) = true).
Proof.
  intros Hl Hn.
  replace (2 ^ n - 1) with (Z.ones n) by (rewrite Z.ones_equiv; lia).
  split.
  - intros H j Hj. pose proof (bitsU_spec x lsb n j Hl Hn (proj1 Hj)) as B.
    rewrite H, Z.ones_spec_low in B by lia.
    destruct (Z.ltb_spec j n); [|lia].
    rewrite andb_true_r in B. auto.
  - intros H. apply Z.bits_inj'. intros j Hj.
    rewrite bitsU_spec by lia.
    destruct (Z.ltb_spec j n).
    + rewrite H, Z.ones_spec_low by lia. reflexivity.
    + rewrite Z.ones_spec_high by lia. apply andb_false_r.
Qed.

Lemma bitsS_cases x lsb n :
  0 < n -> 0 <= lsb ->
  let u := bitsU x lsb n in
  (0 <=? bitsS x lsb n) = negb (Z.testbit x (n - 1 + lsb))
  /\ ((bitsS x lsb n =? 0) = (u =? 0))
  /\ ((bitsS x lsb n =? -1) = (u =? 2 ^ n - 1)).
Proof.
  intros Hn Hl u. unfold bitsS. fold u.
  pose proof (bitsU_range x lsb n ltac:(lia)) as Hr. fold u in Hr.
  pose proof (bitsU_spec x lsb n (n - 1) Hl ltac:(lia) ltac:(lia)) as Hb. fold u in Hb.
  destruct (Z.ltb_spec (n - 1) n); [|lia]. rewrite andb_true_r in Hb.
  rewrite <- Hb. clearbody u.
  destruct (Z.testbit u (n - 1)) eqn:Ht; cbn [negb].
  - assert (Hu : 2 ^ (n - 1) <= u).
    { destruct (Z.le_gt_cases (2 ^ (n - 1)) u); [assumption|].
      destruct (Z.eq_dec u 0) as [E|E].
      { rewrite E, Z.bits_0 in Ht. discriminate. }
      rewrite Z.bits_above_log2 in Ht;
        [discriminate | lia | apply Z.log2_lt_pow2; lia]. }
    assert (Hp : 2 ^ n = 2 * 2 ^ (n - 1)).
    { replace n with (n - 1 + 1) at 1 by lia.
      rewrite Z.pow_add_r by lia. lia. }
    assert (0 < 2 ^ (n - 1)) by (apply Z.pow_pos_nonneg; lia).
    repeat split.
    + apply Z.leb_gt. lia.
    + transitivity false; [apply Z.eqb_neq; lia | symmetry; apply Z.eqb_neq; lia].
    + destruct (Z.eqb_spec u (2 ^ n - 1)); [apply Z.eqb_eq | apply Z.eqb_neq];
        lia.
  - assert (Hu : u < 2 ^ (n - 1)).
    { destruct (Z.lt_ge_cases u (2 ^ (n - 1))); [assumption|].
      assert (Hlog : Z.log2 u = n - 1).
      { apply Z.log2_unique; [lia|].
        replace (Z.succ (n - 1)) with n by lia. lia. }
      assert (Hu0 : 0 < u).
      { assert (0 < 2 ^ (n - 1)) by (apply Z.pow_pos_nonneg; lia). lia. }
      pose proof (Z.bit_log2 u Hu0) as Hbit. rewrite Hlog in Hbit. congruence. }
    assert (Hp : 2 ^ n = 2 * 2 ^ (n - 1)).
    { replace n with (n - 1 + 1) at 1 by lia.
      rewrite Z.pow_add_r by lia. lia. }
    assert (0 < 2 ^ (n - 1)) by (apply Z.pow_pos_nonneg; lia).
    repeat split.
    + apply Z.leb_le. lia.
    + transitivity false; [apply Z.eqb_neq; lia | symmetry; apply Z.eqb_neq; lia].
Qed.

Lemma validVA_Sv39 va :
  validVA (VA_VPN Sv39 (VA_raw Sv39 va)) (VA_VPNextend Sv39 (VA_raw Sv39 va))
  = true <-> signExtended va 38.
Proof.
  unfold validVA, VA_VPN, VA_VPNextend, VA_raw. cbn [Sv39 svVPNSigned
    svVPNBits svExtendBits svRawBits].
  set (raw := va mod 2 ^ 64).
  assert (Hraw : forall i, 0 <= i < 64 -> Z.testbit raw i = Z.testbit va i)
    by (intros i Hi; unfold raw; apply Z.mod_pow2_bits_low; lia).
  destruct (bitsS_cases raw 12 27 ltac:(lia) ltac:(lia)) as (Hs & _ & _).
  destruct (bitsS_cases raw (12 + 27) 25 ltac:(lia) ltac:(lia))
    as (_ & H0 & H1).
  rewrite Hs, H0, H1. cbn [Z.add Z.sub Pos.add Pos.succ Z.pos_sub Z.opp
    Pos.pred_double Z.succ_double Z.pred_double Z.double] in *.
  change (27 - 1 + 12) with 38. rewrite (Hraw 38) by lia.
  change (12 + 27) with 39.
  unfold signExtended.
  destruct (Z.testbit va 38) eqn:H38; cbn [negb].
  - rewrite Z.eqb_eq, bitsU_ones by lia. split.
    + intros H i Hi. specialize (H (i - 39) ltac:(lia)).
      replace (i - 39 + 39) with i in H by lia. rewrite <- Hraw by lia. exact H.
    + intros H j Hj. rewrite Hraw by lia. apply H. lia.
  - rewrite Z.eqb_eq, bitsU_zero by lia. split.
    + intros H i Hi. specialize (H (i - 39) ltac:(lia)).
      replace (i - 39 + 39) with i in H by lia. rewrite <- Hraw by lia. exact H.
    + intros H j Hj. rewrite Hraw by lia. apply H. lia.
Qed.

(** C2. Sv39 requires bits 63..39 of the virtual address to repeat bit 38:
    an address that violates this gives a page fault with the invalid
    extension message as the only call made, so no page table entry is read;
    an address that satisfies it never gives that message.  The two addresses
    0x3FFFFFFFFF and 0xFFFFFFC000000000 satisfy it, 0x4000000000 does not. *)
Theorem tlbLookupSv39_VAEXTEND mode entry requiredPriv attrs r
    (Hreq : requiredPriv = MEM_PRIV_R \/ requiredPriv = MEM_PRIV_W
            \/ requiredPriv = MEM_PRIV_X) :
  let va := lowVA entry in
  (~ signExtended va 38 ->
   exists x c,
     tlbLookupSv39 mode entry requiredPriv attrs r
     = Some ((Some x, entry),
             set_trace (vmiMessage "W" PTEE_VAEXTEND va 0 c :: trace r) r)
     /\ isPageFault x = true)
  /\ (signExtended va 38 ->
      forall out r',
        tlbLookupSv39 mode entry requiredPriv attrs r = Some (out, r') ->
        forall s va' a c,
          ~ In (vmiMessage s PTEE_VAEXTEND va' a c) (newEvents r r'))
  /\ signExtended 0x3FFFFFFFFF 38
  /\ signExtended 0xFFFFFFC000000000 38
  /\ ~ signExtended 0x4000000000 38.
Proof.
  intros va. split; [|split; [|split; [|split]]].
  - intros Hbad.
    assert (Hv : validVA (VA_VPN Sv39 (VA_raw Sv39 va))
                   (VA_VPNextend Sv39 (VA_raw Sv39 va)) = false).
    { destruct (validVA _ _) eqn:E; [|reflexivity].
      apply validVA_Sv39 in E. contradiction. }
    unfold tlbLookupSv39, tlbLookupSv. fold va. rewrite Hv.
    cbn [Sv39 svExtendBits Z.ltb Z.compare andb negb].
    unfold handlePTWException. cbn [pteErrorDesc]. mon.
    destruct Hreq as [-> | [-> | ->]]; cbn;
      (eexists; eexists; split; [reflexivity|]);
      match goal with
      | |- isPageFault (if ?b then _ else _) = true => destruct b; reflexivity
      end.
  - intros Hok out r' H s va' a c Hin.
    assert (Hv : validVA (VA_VPN Sv39 (VA_raw Sv39 va))
                   (VA_VPNextend Sv39 (VA_raw Sv39 va)) = true)
      by (apply validVA_Sv39; exact Hok).
    destruct out as [exc e'].
    apply tlbLookupSv_spec in H as (Eff & _). fold va in Eff.
    rewrite Hv in Eff. cbn [Sv39 svExtendBits Z.ltb Z.compare andb negb] in Eff.
    apply effect_newEvents in Eff.
    rewrite Forall_forall in Eff. apply Eff in Hin. cbn in Hin. discriminate.
  - intros i Hi. 
    assert (Hc : i = 39 \/ i = 40 \/ i = 41 \/ i = 42 \/ i = 43 \/ i = 44
      \/ i = 45 \/ i = 46 \/ i = 47 \/ i = 48 \/ i = 49 \/ i = 50 \/ i = 51
      \/ i = 52 \/ i = 53 \/ i = 54 \/ i = 55 \/ i = 56 \/ i = 57 \/ i = 58
      \/ i = 59 \/ i = 60 \/ i = 61 \/ i = 62 \/ i = 63) by lia.
    repeat (destruct Hc as [-> | Hc]; [reflexivity|]). subst. reflexivity.
  - intros i Hi. 
    assert (Hc : i = 39 \/ i = 40 \/ i = 41 \/ i = 42 \/ i = 43 \/ i = 44
      \/ i = 45 \/ i = 46 \/ i = 47 \/ i = 48 \/ i = 49 \/ i = 50 \/ i = 51
      \/ i = 52 \/ i = 53 \/ i = 54 \/ i = 55 \/ i = 56 \/ i = 57 \/ i = 58
      \/ i = 59 \/ i = 60 \/ i = 61 \/ i = 62 \/ i = 63) by lia.
    repeat (destruct Hc as [-> | Hc]; [reflexivity|]). subst. reflexivity.
  - intros H. specialize (H 39 ltac:(lia)). discriminate H.
Qed.

(* ------------------------------------------------------------------------- *)
(** ** Computations that keep a relation between states *)

Section Preserves.

Variable R : riscv -> riscv -> Prop.
Hypothesis R_refl : forall r, R r r.
Hypothesis R_trans : forall r1 r2 r3, R r1 r2 -> R r2 r3 -> R r1 r3.

(** Every run of [c] relates the state it starts in to the one it ends in. *)
Definition preserves {T} (c : M T) : Prop :=
  forall r x r', c r = Some (x, r') -> R r r'.

Lemma preserves_ret {T} (x : T) : preserves (ret x).
Proof. intros r y r' H. inversion H. apply R_refl. Qed.

Lemma preserves_get : preserves get.
Proof. intros r y r' H. inversion H. apply R_refl. Qed.

Lemma preserves_gets {T} (f : riscv -> T) : preserves (gets f).
Proof. intros r y r' H. inversion H. apply R_refl. Qed.

Lemma preserves_abort {T} : preserves (@VMI_ABORT T).
Proof. intros r y r' H. discriminate H. Qed.

Lemma preserves_assert b : preserves (VMI_ASSERT b).
Proof.
  intros r y r' H. destruct b; [|discriminate H]. inversion H. apply R_refl.
Qed.

Lemma preserves_getTLB id : preserves (getTLB id).
Proof.
  intros r y r' H. unfold getTLB in H.
  destruct (riscv_tlb r id); [|discriminate H]. inversion H. apply R_refl.
Qed.

Lemma preserves_bind {T V} (c : M T) (k : T -> M V) :
  preserves c -> (forall x, preserves (k x)) -> preserves (bind c k).
Proof.
  intros Hc Hk r y r' H. apply bind_inv in H as (x & r1 & Hx & H).
  eapply R_trans; [eapply Hc | eapply Hk]; eauto.
Qed.

Lemma preserves_when b c : preserves c -> preserves (when b c).
Proof. intros H. destruct b; [exact H | apply preserves_ret]. Qed.

Lemma preserves_derefEntry id p : preserves (derefEntry id p).
Proof.
  unfold derefEntry. apply preserves_bind; [apply preserves_getTLB|].
  intros t. destruct (nth_error (entries t) p);
    [apply preserves_ret | apply preserves_abort].
Qed.

End Preserves.

(** Decomposition of a computation into its steps; [leaf] closes the steps
    that need a lemma of their own. *)
Ltac preserve Hrefl Htrans leaf :=
  let refl := (intros; apply Hrefl) in
  let trans := (intros; eapply Htrans; eassumption) in
  repeat first
    [ leaf
    | apply preserves_ret; refl
    | apply preserves_get; refl
    | apply preserves_gets; refl
    | apply preserves_abort
    | apply preserves_assert; refl
    | apply preserves_getTLB; refl
    | apply preserves_derefEntry; [refl | trans]
    | apply preserves_when; [refl|]
    | apply preserves_bind; [trans | | intros ?]
    | match goal with
      | |- preserves _ (if ?b then _ else _) => destruct b
      | |- preserves _ (match ?x with _ => _ end) => destruct x
      end ].

(* ------------------------------------------------------------------------- *)
(** ** TLB maintenance *)

Lemma riscvTLBId_eqb_eq a b : riscvTLBId_eqb a b = true <-> a = b.
Proof. destruct a, b; cbn; split; intros H; congruence. Qed.

Lemma riscvTLBId_eqb_refl a : riscvTLBId_eqb a a = true.
Proof. apply riscvTLBId_eqb_eq. reflexivity. Qed.

Lemma riscvTLBId_eqb_neq a b : a <> b -> riscvTLBId_eqb a b = false.
Proof.
  intros H. destruct (riscvTLBId_eqb a b) eqn:E; [|reflexivity].
  apply riscvTLBId_eqb_eq in E. contradiction.
Qed.

Lemma filter_all {T} (l : list T) : filter (fun _ => true) l = l.
Proof. induction l as [|x l IH]; cbn; congruence. Qed.

Lemma filter_filter {T} (f g : T -> bool) (l : list T) :
  filter f (filter g l) = filter (fun x => g x && f x) l.
Proof.
  induction l as [|x l IH]; cbn; [reflexivity|].
  destruct (g x); cbn; [destruct (f x)|]; congruence.
Qed.

Lemma nth_error_list_set_eq {T} (l : list T) n x y :
  nth_error l n = Some y -> nth_error (list_set l n x) n = Some x.
Proof.
  revert n. induction l as [|z l IH]; intros [|n]; cbn; try discriminate; auto.
Qed.

Lemma nth_error_list_set_neq {T} (l : list T) n m x :
  n <> m -> nth_error (list_set l n x) m = nth_error l m.
Proof.
  revert n m. induction l as [|z l IH]; intros [|n] [|m] H; cbn; auto;
    try congruence.
Qed.

(** The TLB [id] loses entries or keeps them, no entry is inserted; the other
    TLBs are kept; the calls are those of TLB maintenance. *)
Definition tlbFrame (id : riscvTLBId) (r r' : riscv) : Prop :=
  effect tlbEvent r r'
  /\ (forall id', id' <> id -> riscv_tlb r' id' = riscv_tlb r id')
  /\ (forall t, riscv_tlb r id = Some t ->
      exists t' keep,
        riscv_tlb r' id = Some t' /\ lut t' = filter keep (lut t)).

Lemma tlbFrame_refl id r : tlbFrame id r r.
Proof.
  split; [apply effect_refl|]. split; [reflexivity|].
  intros t Ht. exists t, (fun _ => true). rewrite filter_all. auto.
Qed.

Lemma tlbFrame_trans id r1 r2 r3 :
  tlbFrame id r1 r2 -> tlbFrame id r2 r3 -> tlbFrame id r1 r3.
Proof.
  intros (E1 & O1 & L1) (E2 & O2 & L2).
  split; [eapply effect_trans; eauto|]. split.
  - intros id' Hid. rewrite O2, O1 by exact Hid. reflexivity.
  - intros t Ht. destruct (L1 t Ht) as (t2 & k1 & Ht2 & Hl2).
    destruct (L2 t2 Ht2) as (t3 & k2 & Ht3 & Hl3).
    exists t3, (fun x => k1 x && k2 x). split; [exact Ht3|].
    rewrite Hl3, Hl2. apply filter_filter.
Qed.

Lemma preserves_emit_tlb id ev :
  tlbEvent ev -> preserves (tlbFrame id) (emit ev).
Proof.
  intros Hev r x r' H. inversion H; subst. split; [|split].
  - apply (effect_trace tlbEvent r [ev]). auto.
  - reflexivity.
  - intros t Ht. exists t, (fun _ => true). rewrite filter_all. auto.
Qed.

Lemma preserves_update_tlb id (f : riscvTLB -> riscvTLB) :
  (forall t, exists keep, lut (f t) = filter keep (lut t)) ->
  preserves (tlbFrame id) (t <- getTLB id;; modify (set_tlb id (f t))).
Proof.
  intros Hf r x r' H. unfold bind, getTLB, modify in H.
  destruct (riscv_tlb r id) as [t|] eqn:Ht; [|discriminate H].
  inversion H; subst. split; [|split].
  - split; [reflexivity|]. split; [reflexivity|]. exists []. auto.
  - intros id' Hid. unfold set_tlb. fields.
    rewrite riscvTLBId_eqb_neq by exact Hid. reflexivity.
  - intros t0 Ht0. assert (t0 = t) by congruence. subst t0.
    destruct (Hf t) as (keep & Hk). exists (f t), keep.
    split; [|exact Hk]. unfold set_tlb. fields.
    rewrite riscvTLBId_eqb_refl. reflexivity.
Qed.

Lemma preserves_storeEntry id p e :
  preserves (tlbFrame id) (storeEntry id p e).
Proof.
  unfold storeEntry.
  apply (preserves_update_tlb id
           (fun t => {| entries := list_set (entries t) p e; lut := lut t;
                        free := free t |})).
  intros t. exists (fun _ => true). cbn. rewrite filter_all. reflexivity.
Qed.

Ltac tlb_frame leaf :=
  preserve tlbFrame_refl tlbFrame_trans
    ltac:(first
      [ leaf
      | apply preserves_storeEntry
      | apply preserves_emit_tlb; exact I ]).

Lemma deleteTLBEntryMappingsMode_frame id p mode :
  preserves (tlbFrame id) (deleteTLBEntryMappingsMode id p mode).
Proof.
  unfold deleteTLBEntryMappingsMode. tlb_frame ltac:(fail).
Qed.

Lemma deleteTLBEntryMappingsModeASID_frame id p mode newASID :
  preserves (tlbFrame id) (deleteTLBEntryMappingsModeASID id p mode newASID).
Proof.
  unfold deleteTLBEntryMappingsModeASID.
  tlb_frame ltac:(apply deleteTLBEntryMappingsMode_frame).
Qed.

Lemma unmapTLBEntry_frame id p : preserves (tlbFrame id) (unmapTLBEntry id p).
Proof.
  unfold unmapTLBEntry. tlb_frame ltac:(apply deleteTLBEntryMappingsMode_frame).
Qed.

Lemma unmapTLBEntryNewASID_frame id p newASID :
  preserves (tlbFrame id) (unmapTLBEntryNewASID id p newASID).
Proof.
  unfold unmapTLBEntryNewASID.
  tlb_frame ltac:(apply deleteTLBEntryMappingsModeASID_frame).
Qed.

Lemma reportDeleteTLBEntry_frame id p :
  preserves (tlbFrame id) (reportDeleteTLBEntry id p).
Proof. unfold reportDeleteTLBEntry, dumpTLBEntry. tlb_frame ltac:(fail). Qed.

Lemma deleteTLBEntry_frame id p : preserves (tlbFrame id) (deleteTLBEntry id p).
Proof.
  unfold deleteTLBEntry.
  tlb_frame ltac:(first
    [ apply unmapTLBEntry_frame | apply reportDeleteTLBEntry_frame
    | apply (preserves_update_tlb id
        (fun t => {| entries := entries t;
                     lut := filter (fun q => negb (q =? p)%nat) (lut t);
                     free := p :: free t |}));
      intros t; eexists; reflexivity ]).
Qed.

Lemma deleteTLBEntryMode_frame id p mode ASID :
  preserves (tlbFrame id) (deleteTLBEntryMode id p mode ASID).
Proof.
  unfold deleteTLBEntryMode. tlb_frame ltac:(apply deleteTLBEntry_frame).
Qed.

Lemma iterTLBEntries_frame {T} id ps (B : tlbEntryP -> M (option T)) :
  (forall p, preserves (tlbFrame id) (B p)) ->
  preserves (tlbFrame id) (iterTLBEntries id ps B).
Proof.
  intros HB. induction ps as [|p ps IH]; cbn [iterTLBEntries].
  - apply preserves_ret, tlbFrame_refl.
  - tlb_frame ltac:(first [ apply deleteTLBEntry_frame | apply HB | apply IH ]).
Qed.

Lemma ITER_TLB_ENTRY_RANGE_frame {T} id lo hi (B : tlbEntryP -> M (option T)) :
  (forall p, preserves (tlbFrame id) (B p)) ->
  preserves (tlbFrame id) (ITER_TLB_ENTRY_RANGE id lo hi B).
Proof.
  intros HB. unfold ITER_TLB_ENTRY_RANGE.
  tlb_frame ltac:(apply iterTLBEntries_frame; exact HB).
Qed.

Lemma invalidateTLBEntriesRange_frame id lo hi mode ASID :
  preserves (tlbFrame id) (invalidateTLBEntriesRange id lo hi mode ASID).
Proof.
  unfold invalidateTLBEntriesRange.
  tlb_frame ltac:(apply ITER_TLB_ENTRY_RANGE_frame; intros ?;
                  tlb_frame ltac:(apply deleteTLBEntryMode_frame)).
Qed.

Lemma findTLBEntry_frame id VA : preserves (tlbFrame id) (findTLBEntry id VA).
Proof.
  unfold findTLBEntry.
  tlb_frame ltac:(apply ITER_TLB_ENTRY_RANGE_frame; intros ?;
                  tlb_frame ltac:(fail)).
Qed.

(* ------------------------------------------------------------------------- *)
(** ** Deletion of a TLB entry *)

(** From every state that satisfies [I], [c] returns, in a state that
    satisfies [Q]. *)
Definition total {T} (I : riscv -> Prop) (c : M T)
    (Q : T -> riscv -> Prop) : Prop :=
  forall r, I r -> exists x r', c r = Some (x, r') /\ Q x r'.

(** The pointer [p] of TLB [id] is backed by an entry structure for TLB [k];
    the range table is [l] and the free list [fr]. *)
Definition entryAt (id : riscvTLBId) (p : tlbEntryP) (k : riscvTLBId)
    (l fr : list tlbEntryP) (r : riscv) : Prop :=
  exists t e,
    riscv_tlb r id = Some t /\ nth_error (entries t) p = Some e
    /\ tlb e = k /\ lut t = l /\ free t = fr.

Lemma derefEntry_run id p r t e :
  riscv_tlb r id = Some t -> nth_error (entries t) p = Some e ->
  derefEntry id p r = Some (e, r).
Proof.
  intros Ht He. unfold derefEntry, getTLB, bind. rewrite Ht, He. reflexivity.
Qed.

Lemma derefEntry_inv id p r e r' :
  derefEntry id p r = Some (e, r') ->
  r' = r /\ exists t, riscv_tlb r id = Some t
                      /\ nth_error (entries t) p = Some e.
Proof.
  unfold derefEntry, getTLB, bind. intros H.
  destruct (riscv_tlb r id) as [t|]; [|discriminate H].
  destruct (nth_error (entries t) p) as [e0|] eqn:He; [|discriminate H].
  inversion H; subst. split; [reflexivity|]. exists t. auto.
Qed.

Lemma deleteTLBEntryMappingsMode_total id p k l fr mode :
  total (entryAt id p k l fr) (deleteTLBEntryMappingsMode id p mode)
        (fun _ => entryAt id p k l fr).
Proof.
  intros r (t & e & Ht & He & Hk & Hl & Hf).
  unfold deleteTLBEntryMappingsMode.
  rewrite (bind_run _ _ _ _ _ (derefEntry_run _ _ _ _ _ Ht He)).
  destruct (z2b (Z.land (mapped e) (getModeMask mode))).
  - unfold storeEntry, getTLB. mon.
    destruct (negb (getVirtDomainCorD r mode false =? 0)%nat);
      destruct (negb (getVirtDomainCorD r mode true =? 0)%nat
                && negb (getVirtDomainCorD r mode true
                         =? getVirtDomainCorD r mode false)%nat);
      fields; rewrite Ht; (eexists; eexists; split; [reflexivity|]);
      (eexists; eexists; unfold set_tlb; fields;
       rewrite riscvTLBId_eqb_refl; split; [reflexivity|]);
      cbn [entries lut free]; (split; [eapply nth_error_list_set_eq; eauto|]);
      repeat split; auto.
  - exists tt, r. split; [reflexivity|]. exists t, e. auto.
Qed.

Lemma unmapTLBEntry_total id p k l fr :
  k <> RISCV_TLB_LAST ->
  total (entryAt id p k l fr) (unmapTLBEntry id p)
        (fun _ => entryAt id p k l fr).
Proof.
  intros Hk r HI. pose proof HI as (t & e & Ht & He & Hke & _).
  unfold unmapTLBEntry.
  rewrite (bind_run _ _ _ _ _ (derefEntry_run _ _ _ _ _ Ht He)). rewrite Hke.
  destruct k; try contradiction.
  - destruct (deleteTLBEntryMappingsMode_total id p _ l fr RISCV_MODE_U r HI)
      as ([] & r1 & H1 & I1).
    destruct (deleteTLBEntryMappingsMode_total id p _ l fr RISCV_MODE_S r1 I1)
      as ([] & r2 & H2 & I2).
    exists tt, r2. split; [|exact I2].
    unfold bind at 1. rewrite H1. exact H2.
  - destruct (deleteTLBEntryMappingsMode_total id p _ l fr RISCV_MODE_VU r HI)
      as ([] & r1 & H1 & I1).
    destruct (deleteTLBEntryMappingsMode_total id p _ l fr RISCV_MODE_VS r1 I1)
      as ([] & r2 & H2 & I2).
    exists tt, r2. split; [|exact I2].
    unfold bind at 1. rewrite H1. exact H2.
  - destruct (deleteTLBEntryMappingsMode_total id p _ l fr RISCV_MODE_VU r HI)
      as ([] & r1 & H1 & I1).
    destruct (deleteTLBEntryMappingsMode_total id p _ l fr RISCV_MODE_VS r1 I1)
      as ([] & r2 & H2 & I2).
    exists tt, r2. split; [|exact I2].
    unfold bind at 1. rewrite H1. exact H2.
Qed.

Lemma reportDeleteTLBEntry_total id p k l fr :
  total (entryAt id p k l fr) (reportDeleteTLBEntry id p)
        (fun _ => entryAt id p k l fr).
Proof.
  intros r (t & e & Ht & He & Hk & Hl & Hf).
  unfold reportDeleteTLBEntry.
  rewrite (bind_run _ _ _ _ _ (derefEntry_run _ _ _ _ _ Ht He)).
  unfold dumpTLBEntry. mon.
  destruct (negb (artifact e) && DEBUG_MMU (configInfo r));
    (eexists; eexists; split; [reflexivity|]); exists t, e; fields; auto.
Qed.

(** The entry has left the range table and is on the free list. *)
Definition deletedFrom (id : riscvTLBId) (p : tlbEntryP)
    (l fr : list tlbEntryP) (r : riscv) : Prop :=
  exists t,
    riscv_tlb r id = Some t
    /\ lut t = filter (fun q => negb (q =? p)%nat) l
    /\ free t = p :: fr.

Lemma deleteTLBEntry_total id p k l fr :
  k <> RISCV_TLB_LAST ->
  total (entryAt id p k l fr) (deleteTLBEntry id p)
        (fun _ => deletedFrom id p l fr).
Proof.
  intros Hk r HI. pose proof HI as (t & e & Ht & He & Hke & _).
  unfold deleteTLBEntry.
  rewrite (bind_run _ _ _ _ _ (derefEntry_run _ _ _ _ _ Ht He)).
  assert (H1 : exists r1, when (z2b (mapped e)) (unmapTLBEntry id p) r
                          = Some (tt, r1) /\ entryAt id p k l fr r1).
  { destruct (z2b (mapped e)); cbn [when].
    - destruct (unmapTLBEntry_total id p k l fr Hk r HI) as ([] & r1 & H & I1).
      eauto.
    - exists r. auto. }
  destruct H1 as (r1 & H1 & I1).
  rewrite (bind_run _ _ _ _ _ H1).
  destruct (reportDeleteTLBEntry_total id p k l fr r1 I1)
    as ([] & r2 & H2 & (t2 & e2 & Ht2 & He2 & Hk2 & Hl2 & Hf2)).
  rewrite (bind_run _ _ _ _ _ H2).
  unfold getTLB, modify, bind. rewrite Ht2.
  eexists; eexists; split; [reflexivity|].
  eexists. unfold set_tlb. fields. rewrite riscvTLBId_eqb_refl.
  split; [reflexivity|]. cbn [lut free]. rewrite Hl2, Hf2. auto.
Qed.


(* ------------------------------------------------------------------------- *)
(** ** The alias of a two-stage translation *)

(** The TLBs are kept and no alias is made. *)
Definition pmpFrame (r r' : riscv) : Prop :=
  riscv_tlb r' = riscv_tlb r
  /\ exists evs,
       trace r' = evs ++ trace r /\ Forall (fun ev => isAlias ev = false) evs.

Lemma pmpFrame_refl r : pmpFrame r r.
Proof. split; [reflexivity|]. exists []. auto. Qed.

Lemma pmpFrame_trans r1 r2 r3 :
  pmpFrame r1 r2 -> pmpFrame r2 r3 -> pmpFrame r1 r3.
Proof.
  intros (L1 & evs1 & T1 & F1) (L2 & evs2 & T2 & F2).
  split; [congruence|]. exists (evs2 ++ evs1). split.
  - rewrite T2, T1, app_assoc. reflexivity.
  - apply Forall_app; auto.
Qed.

Lemma preserves_emit_pmp ev :
  isAlias ev = false -> preserves pmpFrame (emit ev).
Proof.
  intros Hev r x r' H. inversion H; subst. split; [reflexivity|].
  exists [ev]. split; [reflexivity|]. auto.
Qed.

Lemma preserves_AFErrorIn v : preserves pmpFrame (modify (set_AFErrorIn v)).
Proof.
  intros r x r' H. inversion H; subst. split; [reflexivity|].
  exists []. auto.
Qed.

Ltac pmp_frame leaf :=
  preserve pmpFrame_refl pmpFrame_trans
    ltac:(first
      [ leaf
      | apply preserves_AFErrorIn
      | apply preserves_emit_pmp; reflexivity ]).

Lemma pmpProtect_frame domain lo hi p updatePriv :
  preserves pmpFrame (pmpProtect domain lo hi p updatePriv).
Proof. unfold pmpProtect. pmp_frame ltac:(fail). Qed.

Lemma setPMPPriv_frame mode low high p updatePriv :
  preserves pmpFrame (setPMPPriv mode low high p updatePriv).
Proof. unfold setPMPPriv. pmp_frame ltac:(apply pmpProtect_frame). Qed.

Lemma mapPMP_frame mode requiredPriv lowPA highPA :
  preserves pmpFrame (mapPMP mode requiredPriv lowPA highPA).
Proof. unfold mapPMP. pmp_frame ltac:(apply setPMPPriv_frame). Qed.

Lemma mapPMP_total mode requiredPriv lowPA highPA r :
  exists r', mapPMP mode requiredPriv lowPA highPA r = Some (tt, r').
Proof.
  unfold mapPMP. unfold bind at 1, get at 1.
  destruct (z2b (getNumPMPs r)); [|eexists; reflexivity].
  destruct (refinePMPRegions _ _ _ _ _) as [[lowMap highMap] p].
  destruct (negb (Z.land p requiredPriv =? requiredPriv) || (highMap <? highPA)).
  - eexists. reflexivity.
  - destruct (setPMPPriv_traceOnly mode lowMap highMap p true r)
      as ([] & evs & H). eauto.
Qed.

(** The bounds of the stage 1 entry as [mapTLBEntry] uses them: an entry of
    more than 4Gb is cut to the aligned 4Gb window around the address. *)
Definition aliasWindow (e1 : tlbEntry) (VA : Z) : Z * Z :=
  if 4294967296 <? getEntrySize e1 then
    (VA - VA mod 2 ^ 32, VA - VA mod 2 ^ 32 + 2 ^ 32 - 1)
  else (lowVA e1, highVA e1).

Lemma aliasWindow_bounds e1 VA :
  0 <= lowVA e1 <= VA -> VA <= highVA e1 < 2 ^ 64 ->
  0 <= fst (aliasWindow e1 VA) <= VA
  /\ VA <= snd (aliasWindow e1 VA) < 2 ^ 64.
Proof.
  intros Hl Hh. unfold aliasWindow.
  destruct (4294967296 <? getEntrySize e1); cbn [fst snd]; [|lia].
  pose proof (Z.mod_pos_bound VA (2 ^ 32) ltac:(lia)) as Hm.
  assert (Hd : VA - VA mod 2 ^ 32 = 2 ^ 32 * (VA / 2 ^ 32))
    by (pose proof (Z.div_mod VA (2 ^ 32) ltac:(lia)); lia).
  assert (Hq : VA / 2 ^ 32 < 2 ^ 32)
    by (apply Z.div_lt_upper_bound; lia).
  lia.
Qed.

Lemma mapTLBEntry_window e1 VA :
  0 <= lowVA e1 <= VA -> VA <= highVA e1 < 2 ^ 64 ->
  (if 4294967296 <? getEntrySize e1 then
     (Z.land VA (neg64 4294967296),
      Uns64 (Z.land VA (neg64 4294967296) + 4294967296 - 1))
   else (getEntryLowVA e1, getEntryHighVA e1))
  = aliasWindow e1 VA.
Proof.
  intros Hl Hh. pose proof (aliasWindow_bounds e1 VA Hl Hh) as Hb.
  unfold aliasWindow in *.
  destruct (4294967296 <? getEntrySize e1); [|reflexivity].
  cbn [fst snd] in Hb.
  change (neg64 4294967296) with (not64 (2 ^ 32 - 1)).
  rewrite (land_lnot_ones VA 32) by lia.
  f_equal. unfold Uns64. change 4294967296 with (2 ^ 32).
  apply Z.mod_small. lia.
Qed.

Lemma mapTLBEntry_narrow lo1 hi1 lo2 hi2 VA GPA :
  0 <= lo1 <= VA -> VA <= hi1 < 2 ^ 64 ->
  0 <= lo2 <= GPA -> GPA <= hi2 < 2 ^ 64 ->
  (if Uns64 (GPA - lo2) <? Uns64 (VA - lo1)
   then Uns64 (lo1 + Uns64 (Uns64 (VA - lo1) - Uns64 (GPA - lo2)))
   else lo1) = Z.max lo1 (VA - (GPA - lo2))
  /\ (if Uns64 (hi2 - GPA) <? Uns64 (hi1 - VA)
      then Uns64 (hi1 - Uns64 (Uns64 (hi1 - VA) - Uns64 (hi2 - GPA)))
      else hi1) = Z.min hi1 (VA + (hi2 - GPA)).
Proof.
  intros H1 H2 H3 H4. unfold Uns64.
  rewrite (Z.mod_small (GPA - lo2)), (Z.mod_small (VA - lo1)),
    (Z.mod_small (hi2 - GPA)), (Z.mod_small (hi1 - VA)) by lia.
  split.
  - destruct (Z.ltb_spec (GPA - lo2) (VA - lo1)).
    + rewrite (Z.mod_small (VA - lo1 - (GPA - lo2))) by lia.
      rewrite Z.mod_small by lia. lia.
    + lia.
  - destruct (Z.ltb_spec (hi2 - GPA) (hi1 - VA)).
    + rewrite (Z.mod_small (hi1 - VA - (hi2 - GPA))) by lia.
      rewrite Z.mod_small by lia. lia.
    + lia.
Qed.

(** C1. The alias of a two-stage translation of [VA], through the stage 1
    entry [e1] (holding [VA]) to the guest physical address [GPA] and the
    stage 2 entry [e2] (holding [GPA]): with [lo1, hi1] the bounds of [e1],
    cut to the aligned 4Gb window around [VA] when [e1] is larger than 4Gb,
    the alias covers [max lo1 (VA - (GPA - e2.lo)), min hi1 (VA + (e2.hi -
    GPA))], maps its low address by the sum of the VA-to-PA offsets of both
    entries, and has the ASID masks of both entries OR-combined.  It is the
    only alias made. *)
Theorem mapTLBEntry_alias VA GPA id1 p1 p2 domainV mode requiredPriv mi r
    t1 e1 t2 e2
    (Ht1 : riscv_tlb r id1 = Some t1)
    (He1 : nth_error (entries t1) p1 = Some e1)
    (Ht2 : riscv_tlb r RISCV_TLB_VS2 = Some t2)
    (He2 : nth_error (entries t2) p2 = Some e2)
    (Hmi : mi_lowVA mi = VA)
    (H1 : 0 <= lowVA e1 <= VA /\ VA <= highVA e1 < 2 ^ 64)
    (H2 : 0 <= lowVA e2 <= GPA /\ GPA <= highVA e2 < 2 ^ 64) :
  let w := aliasWindow e1 VA in
  let lo := Z.max (fst w) (VA - (GPA - lowVA e2)) in
  let hi := Z.min (snd w) (VA + (highVA e2 - GPA)) in
  let off := Uns64 (getEntryVAtoPA e1 + getEntryVAtoPA e2) in
  exists mi' r' evs,
    mapTLBEntry VA GPA id1 p1 (Some p2) domainV mode requiredPriv mi r
    = Some (mi', r')
    /\ trace r' =
       evs ++ vmirtAliasMemoryVM (getPMPDomainPriv r mode requiredPriv)
                domainV (Uns64 (lo + off)) (Uns64 (hi + off)) lo (mi_priv mi)
                (Z.lor (getEntryASIDMask e1 mode) (getEntryASIDMask e2 mode))
                (getEntrySimASID e1) :: trace r
    /\ Forall (fun ev => isAlias ev = false) evs
    /\ mi_lowVA mi' = lo /\ mi_highVA mi' = hi.
Proof.
  intros w lo hi off. destruct H1 as [H1l H1h]. destruct H2 as [H2l H2h].
  pose proof (aliasWindow_bounds e1 VA H1l H1h) as [Hwl Hwh].
  pose proof (mapTLBEntry_narrow (fst w) (snd w) (lowVA e2) (highVA e2) VA GPA
                Hwl Hwh H2l H2h) as [Hlo Hhi].
  fold lo in Hlo. fold hi in Hhi.
  unfold mapTLBEntry. unfold bind at 1, get at 1.
  rewrite (bind_run _ _ _ _ _ (derefEntry_run _ _ _ _ _ Ht1 He1)).
  rewrite Hmi, (mapTLBEntry_window e1 VA H1l H1h). fold w.
  destruct w as [lo1 hi1] eqn:Ew. cbn [fst snd] in *.
  unfold bind at 1.
  rewrite (bind_run _ _ _ _ _ (derefEntry_run _ _ _ _ _ Ht2 He2)).
  unfold getEntryLowVA, getEntryHighVA. unfold ret at 1.
  rewrite Hlo, Hhi. fold off.
  set (ev := vmirtAliasMemoryVM _ _ _ _ _ _ _ _).
  unfold bind at 1, emit at 1, modify at 1.
  set (ra := set_trace (ev :: trace r) r).
  destruct (mapPMP_total mode requiredPriv (Uns64 (VA + off))
              (Uns64 (mi_highVA mi + off)) ra) as (rb & Hb).
  destruct (mapPMP_frame _ _ _ _ _ _ _ Hb) as (Lb & evs & Tb & Fb).
  rewrite (bind_run _ _ _ _ _ Hb).
  unfold mapPMA. unfold bind at 1, emit at 1, modify at 1.
  assert (Htc : riscv_tlb
                  (set_trace (PMACheck mode requiredPriv (Uns64 (VA + off))
                                (Uns64 (mi_highVA mi + off)) :: trace rb) rb)
                  id1 = Some t1).
  { fields. rewrite Lb. exact Ht1. }
  rewrite (bind_run _ _ _ _ _ (derefEntry_run _ _ _ _ _ Htc He1)).
  unfold storeEntry, getTLB. unfold bind at 1, bind at 1. rewrite Htc.
  unfold modify, ret.
  eexists. eexists.
  exists (PMACheck mode requiredPriv (Uns64 (VA + off))
            (Uns64 (mi_highVA mi + off)) :: evs).
  split; [reflexivity|]. unfold set_tlb. fields. rewrite Tb.
  repeat split; auto.
Qed.

(* ------------------------------------------------------------------------- *)
(** ** Validation, allocation and exception *)

Lemma nth_error_list_set_inv {T} (l : list T) n x y :
  nth_error (list_set l n x) n = Some y -> y = x.
Proof.
  revert n. induction l as [|z l IH]; intros [|n]; cbn; try discriminate.
  - congruence.
  - apply IH.
Qed.

(** An entry passes validation for [requiredPriv]: its permissions are
    adequate, and it is dirty when written. *)
Definition entryValid (r : riscv) (mode : riscvMode) (requiredPriv : memPriv)
    (e : tlbEntry) : Prop :=
  z2b (checkEntryPermission r mode e requiredPriv) = true
  /\ (z2b (Z.land requiredPriv MEM_PRIV_W) = true -> D e = true).

Lemma validateTLBEntryPriv_spec mode entry requiredPriv attrs mi r res mi' r' :
  validateTLBEntryPriv mode entry requiredPriv attrs mi r
  = Some ((res, mi'), r') ->
  tlbFrame (activeTLB r) r r'
  /\ match res with
     | Some p =>
         entry = Some p /\ r' = r
         /\ exists e, derefEntry (activeTLB r) p r = Some (e, r)
                      /\ entryValid r mode requiredPriv e
     | None => True
     end.
Proof.
  intros H. unfold validateTLBEntryPriv in H. destruct entry as [p|].
  - unfold bind at 1, get at 1 in H.
    apply bind_inv in H as (e & r1 & He & H).
    pose proof He as He'. apply derefEntry_inv in He' as [-> _].
    destruct (negb (z2b (checkEntryPermission r mode e requiredPriv))) eqn:Hp.
    { inversion H; subst. split; [apply tlbFrame_refl | exact I]. }
    destruct (z2b (Z.land requiredPriv MEM_PRIV_W) && negb (D e)) eqn:Hd.
    + apply bind_inv in H as ([] & r2 & Hdel & H). inversion H; subst.
      split; [|exact I]. eapply deleteTLBEntry_frame; eauto.
    + inversion H; subst. split; [apply tlbFrame_refl|].
      split; [reflexivity|]. split; [reflexivity|]. exists e.
      split; [exact He|]. split.
      * apply negb_false_iff in Hp. exact Hp.
      * intros HW. rewrite HW in Hd. cbn in Hd.
        apply negb_false_iff in Hd. exact Hd.
  - inversion H; subst. split; [apply tlbFrame_refl | exact I].
Qed.

Lemma validateTLBEntryPriv_valid mode p requiredPriv attrs mi r res mi' r' :
  validateTLBEntryPriv mode (Some p) requiredPriv attrs mi r
  = Some ((res, mi'), r') ->
  (forall e, derefEntry (activeTLB r) p r = Some (e, r) ->
             entryValid r mode requiredPriv e) ->
  res = Some p /\ r' = r.
Proof.
  intros H Hv. unfold validateTLBEntryPriv in H.
  unfold bind at 1, get at 1 in H.
  apply bind_inv in H as (e & r1 & He & H).
  pose proof He as He'. apply derefEntry_inv in He' as [-> _].
  destruct (Hv e He) as [Hp Hd]. rewrite Hp in H. cbn [negb] in H.
  destruct (z2b (Z.land requiredPriv MEM_PRIV_W)) eqn:HW.
  - rewrite (Hd eq_refl) in H. cbn in H. inversion H; subst. auto.
  - cbn in H. inversion H; subst. auto.
Qed.

(** A write access to a cached entry that is not dirty deletes the entry. *)
Lemma validateTLBEntryPriv_deletes mode p requiredPriv attrs mi r t e :
  riscv_tlb r (activeTLB r) = Some t ->
  nth_error (entries t) p = Some e ->
  tlb e <> RISCV_TLB_LAST ->
  z2b (checkEntryPermission r mode e requiredPriv) = true ->
  z2b (Z.land requiredPriv MEM_PRIV_W) = true ->
  D e = false ->
  exists r',
    validateTLBEntryPriv mode (Some p) requiredPriv attrs mi r
    = Some ((None, mi), r')
    /\ deletedFrom (activeTLB r) p (lut t) (free t) r'
    /\ tlbFrame (activeTLB r) r r'.
Proof.
  intros Ht He Hk Hp HW Hd. unfold validateTLBEntryPriv.
  unfold bind at 1, get at 1.
  rewrite (bind_run _ _ _ _ _ (derefEntry_run _ _ _ _ _ Ht He)).
  rewrite Hp, HW, Hd. cbn [negb andb].
  assert (HI : entryAt (activeTLB r) p (tlb e) (lut t) (free t) r)
    by (exists t, e; auto).
  destruct (deleteTLBEntry_total _ p (tlb e) (lut t) (free t) Hk r HI)
    as ([] & rd & Hdel & Hgone).
  exists rd. rewrite (bind_run _ _ _ _ _ Hdel).
  split; [reflexivity|]. split; [exact Hgone|].
  eapply deleteTLBEntry_frame; eauto.
Qed.

Lemma handleInvalidAccess_spec VA attrs exc r r' :
  handleInvalidAccess VA attrs exc r = Some (tt, r') ->
  sameHart r r' /\ activeTLB r' = activeTLB r
  /\ riscv_tlb r' = riscv_tlb r
  /\ exists va gva gpa,
       trace r' =
       (if MEM_AA_IS_ARTIFACT_ACCESS attrs then []
        else [riscvTakeMemoryException exc va gva gpa]) ++ trace r.
Proof.
  unfold handleInvalidAccess. mon.
  destruct (MEM_AA_IS_ARTIFACT_ACCESS attrs); cbn; intros H;
    inversion H; subst; fields;
    (split; [reflexivity|]); (split; [reflexivity|]);
    (split; [reflexivity|]).
  - exists 0, false, 0. reflexivity.
  - exists (if s2Active r then s1VA r else VA), (activeTLBIsVirtual r), (GPA r).
    reflexivity.
Qed.

(** The TLB [id] gained the entry [p]; the other TLBs are kept. *)
Lemma allocateTLBEntry_spec id base attrs r p r' :
  allocateTLBEntry id base attrs r = Some (p, r') ->
  effect tlbEvent r r'
  /\ (forall id', id' <> id -> riscv_tlb r' id' = riscv_tlb r id')
  /\ (forall e r2, derefEntry id p r' = Some (e, r2) ->
        priv e = priv base /\ U e = U base /\ D e = D base)
  /\ (forall t, riscv_tlb r id = Some t ->
      exists t', riscv_tlb r' id = Some t' /\ lut t' = p :: lut t).
Proof.
  unfold allocateTLBEntry, newTLBEntry, storeEntry, insertTLBEntry,
    dumpTLBEntry, getTLB.
  mon. intros H.
  destruct (riscv_tlb r id) as [t|] eqn:Ht; [|discriminate H].
  destruct (free t) as [|q rest] eqn:Hf; cbn in H;
    unfold set_tlb in H; fields; rewrite ?riscvTLBId_eqb_refl in H;
    cbn in H; rewrite ?riscvTLBId_eqb_refl in H; cbn in H;
    destruct (negb (artifactAccess r) && DEBUG_MMU (configInfo r));
    cbn in H; rewrite ?riscvTLBId_eqb_refl in H; cbn in H;
    inversion H; subst; clear H;
    (split;
     [ split; [reflexivity|]; split; [reflexivity|]; fields;
       first [ exists []; split; [reflexivity | constructor]
             | eexists [_; _]; split;
               [reflexivity | repeat constructor] ]
     | split;
       [ intros id' Hid; fields; rewrite ?(riscvTLBId_eqb_neq _ _ Hid);
         reflexivity
       | split;
         [ intros e r2 Hd; apply derefEntry_inv in Hd as (_ & t' & Ht' & He);
           fields; rewrite riscvTLBId_eqb_refl in Ht'; inversion Ht'; subst t';
           cbn [entries] in He;
           repeat (apply nth_error_list_set_inv in He || 
                   match type of He with
                   | nth_error (list_set (list_set ?l ?n ?x) ?n ?y) ?n = _ =>
                       idtac
                   end);
           subst e; auto
         | intros t0 Ht0; inversion Ht0; subst t0; fields;
           rewrite riscvTLBId_eqb_refl; eexists; split; reflexivity ] ] ]).
Qed.

(* ------------------------------------------------------------------------- *)
(** ** The outcomes of a lookup in one TLB *)

Section Outcomes.

Variables (mode : riscvMode) (attrs : memAccessAttrs) (requiredPriv : memPriv).

(** A cached entry is used: no walk is made. *)
Definition usedCached (r r' : riscv) (res : option tlbEntryP) : Prop :=
  exists p e,
    res = Some p /\ tlbFrame (activeTLB r) r r'
    /\ derefEntry (activeTLB r) p r' = Some (e, r')
    /\ entryValid r' mode requiredPriv e.

(** The walk faulted: the exception is taken unless the access is an artifact
    access, and nothing else follows. *)
Definition walkFaulted (r r' : riscv) (res : option tlbEntryP) : Prop :=
  exists r1 r2 x va gva gpa,
    res = None /\ tlbFrame (activeTLB r) r r1
    /\ effect (walkEvent true) r1 r2 /\ riscv_tlb r2 = riscv_tlb r1
    /\ sameHart r2 r' /\ activeTLB r' = activeTLB r2
    /\ riscv_tlb r' = riscv_tlb r2
    /\ trace r' =
       (if MEM_AA_IS_ARTIFACT_ACCESS attrs then []
        else [riscvTakeMemoryException x va gva gpa]) ++ trace r2.

(** The walk succeeded and its entry was installed. *)
Definition walkInstalled (r r' : riscv) (res : option tlbEntryP) : Prop :=
  exists r1 r2 p bytes e',
    res = Some p /\ tlbFrame (activeTLB r) r r1
    /\ effect (walkEvent true) r1 r2 /\ riscv_tlb r2 = riscv_tlb r1
    /\ walkSuccess bytes r1 r2 mode requiredPriv e'
    /\ effect tlbEvent r2 r'
    /\ (forall id', id' <> activeTLB r -> riscv_tlb r' id' = riscv_tlb r2 id').

End Outcomes.

Lemma tlbFrame_active id r r' : tlbFrame id r r' -> activeTLB r' = activeTLB r.
Proof. intros ((_ & A & _) & _). exact A. Qed.

Lemma tlbFrame_sameHart id r r' : tlbFrame id r r' -> sameHart r r'.
Proof. intros ((S & _) & _). exact S. Qed.

Lemma effect_sameHart P r r' : effect P r r' -> sameHart r r'.
Proof. intros (S & _). exact S. Qed.

Lemma effect_active P r r' : effect P r r' -> activeTLB r' = activeTLB r.
Proof. intros (_ & A & _). exact A. Qed.

Lemma walkSuccess_valid bytes r1 r2 r4 mode requiredPriv e' e :
  walkSuccess bytes r1 r2 mode requiredPriv e' ->
  sameHart r1 r4 -> activeTLB r4 = activeTLB r1 ->
  priv e = priv e' -> U e = U e' -> D e = D e' ->
  entryValid r4 mode requiredPriv e.
Proof.
  intros (PTEAddr & PTE & reads & _ & _ & Hp & Hu & _ & Hd & _ & Hperm & _)
    S A Ep Eu Ed.
  apply sameHart_fields in S as (Hc & Hcfg & _).
  split.
  - rewrite (checkEntryPermission_ext r4 r1 mode e e' requiredPriv); auto.
  - intros HW. rewrite Ed, Hd, HW. cbn [negb]. rewrite orb_false_r.
    apply orb_negb_r.
Qed.

Lemma findOrCreateTLBEntry_spec mode attrs mi r res mi' r' :
  findOrCreateTLBEntry mode attrs mi r = Some ((res, mi'), r') ->
  usedCached mode (mi_priv mi) r r' res
  \/ walkFaulted attrs r r' res
  \/ walkInstalled mode (mi_priv mi) r r' res.
Proof.
  intros H. unfold findOrCreateTLBEntry in H.
  unfold bind at 1, gets at 1 in H.
  apply bind_inv in H as (entry0 & r1 & Hfind & H).
  apply findTLBEntry_frame in Hfind.
  apply bind_inv in H as ([entry1 mi1] & r2 & Hval & H).
  apply validateTLBEntryPriv_spec in Hval as [Fv Hres].
  rewrite (tlbFrame_active _ _ _ Hfind) in Fv.
  pose proof (tlbFrame_trans _ _ _ _ Hfind Fv) as F12.
  destruct entry1 as [p|].
  - (* the cached entry is valid *)
    inversion H; subst. left.
    destruct Hres as (_ & -> & e & He & Hv).
    rewrite (tlbFrame_active _ _ _ Hfind) in He.
    exists p, e. auto.
  - apply bind_inv in H as ([exc tmp] & r3 & Hwalk & H).
    apply tlbLookup_spec in Hwalk as (Ew & Lw & _ & _ & _ & Hok).
    destruct exc as [x|].
    + (* the walk faulted *)
      apply bind_inv in H as (entry2 & r4 & Hh & H).
      apply bind_inv in Hh as ([] & r5 & Hh & Hr). inversion Hr; subst.
      apply handleInvalidAccess_spec in Hh
        as (S & A & L & va & gva & gpa & T).
      cbn in H. inversion H; subst. right; left.
      exists r2, r3, x, va, gva, gpa.
      split; [reflexivity|]. split; [exact F12|]. split; [exact Ew|].
      split; [exact Lw|]. split; [exact S|]. split; [exact A|].
      split; [exact L | exact T].
    + (* the walk succeeded *)
      destruct (Hok eq_refl) as (bytes & Hsucc).
      apply bind_inv in H as (entry2 & r4 & Ha & H).
      apply bind_inv in Ha as (p & r5 & Ha & Hr). inversion Hr; subst.
      apply allocateTLBEntry_spec in Ha as (Ea & Oa & Da & _).
      assert (A4 : activeTLB r4 = activeTLB r).
      { rewrite (effect_active _ _ _ Ea), (effect_active _ _ _ Ew).
        apply (tlbFrame_active _ _ _ F12). }
      apply validateTLBEntryPriv_valid in H as [-> ->].
      * right; right. exists r2, r3, p, bytes, tmp.
        split; [reflexivity|]. split; [exact F12|]. split; [exact Ew|].
        split; [exact Lw|]. split; [exact Hsucc|]. split; [exact Ea|].
        exact Oa.
      * intros e He. rewrite A4 in He.
        destruct (Da e r4 He) as (Ep & Eu & Ed).
        eapply walkSuccess_valid; eauto.
        -- eapply sameHart_trans; eapply effect_sameHart; eauto.
        -- rewrite (effect_active _ _ _ Ea), (effect_active _ _ _ Ew).
           reflexivity.
Qed.

(* ------------------------------------------------------------------------- *)
(** ** Counting calls *)

Lemma filter_none {T} (f : T -> bool) l :
  Forall (fun x => f x = false) l -> filter f l = [].
Proof.
  induction 1 as [|x l Hx _ IH]; cbn; [reflexivity|]. rewrite Hx. exact IH.
Qed.

Lemma filter_every {T} (f : T -> bool) l :
  Forall (fun x => f x = true) l -> filter f l = l.
Proof.
  induction 1 as [|x l Hx _ IH]; cbn; [reflexivity|]. rewrite Hx, IH.
  reflexivity.
Qed.

Lemma tlbEvents_filter (f : vmiEvent -> bool) evs :
  (forall ev, tlbEvent ev -> f ev = false) ->
  Forall tlbEvent evs -> filter f evs = [].
Proof.
  intros Hf F. apply filter_none. eapply Forall_impl; [|exact F]. exact Hf.
Qed.

Lemma tlbEvent_isRead ev : tlbEvent ev -> isRead ev = false.
Proof. destruct ev; cbn; tauto. Qed.

Lemma tlbEvent_isWrite ev : tlbEvent ev -> isWrite ev = false.
Proof. destruct ev; cbn; tauto. Qed.

Lemma tlbEvent_isException ev : tlbEvent ev -> isException ev = false.
Proof. destruct ev; cbn; tauto. Qed.

Lemma tlbEvent_isAlias ev : tlbEvent ev -> isAlias ev = false.
Proof. destruct ev; cbn; tauto. Qed.

Lemma walkEvent_isException ext ev : walkEvent ext ev -> isException ev = false.
Proof. destruct ev; cbn; tauto. Qed.

Lemma walkEvent_isAlias ext ev : walkEvent ext ev -> isAlias ev = false.
Proof. destruct ev; cbn; tauto. Qed.

Lemma reads_not_writes evs :
  Forall (fun ev => isRead ev = true) evs -> filter isWrite evs = [].
Proof.
  intros F. apply filter_none. eapply Forall_impl; [|exact F].
  intros ev. destruct ev; cbn; congruence.
Qed.

(** The entry a write access with hardware update of A and D stores for the
    leaf [PTE]. *)
Definition PTE_written (PTE : Z) : Z :=
  (if PTE_D PTE then fun x => x else PTE_set_D)
    ((if PTE_A PTE then fun x => x else PTE_set_A) PTE).

(** C4. A write access that is no artifact access, in one TLB.  A cached entry
    with adequate permissions and D=0 is deleted by the validation, which
    reports no entry.  When the lookup ends with an entry, either a cached
    entry with D=1 was used, and no page table entry was read or written, or
    a walk was made; when its leaf entry has D=0, hardware update of D is
    enabled and the walk wrote exactly one page table entry, the leaf with D=1
    and with A=1; when its leaf has D=1 the only write, if any, sets A. *)
Theorem findOrCreateTLBEntry_writeback mode attrs mi r p mi' r'
    (HW : z2b (Z.land (mi_priv mi) MEM_PRIV_W) = true)
    (Hart : artifactAccess r = false)
    (Hrun : findOrCreateTLBEntry mode attrs mi r = Some ((Some p, mi'), r')) :
  (forall r0 q t e,
     riscv_tlb r0 (activeTLB r0) = Some t ->
     nth_error (entries t) q = Some e ->
     tlb e <> RISCV_TLB_LAST ->
     z2b (checkEntryPermission r0 mode e (mi_priv mi)) = true ->
     D e = false ->
     exists rd,
       validateTLBEntryPriv mode (Some q) (mi_priv mi) attrs mi r0
       = Some ((None, mi), rd)
       /\ deletedFrom (activeTLB r0) q (lut t) (free t) rd)
  /\ ((filter isRead (newEvents r r') = []
       /\ filter isWrite (newEvents r r') = []
       /\ exists e, derefEntry (activeTLB r) p r' = Some (e, r')
                    /\ D e = true)
      \/ exists dom addr bytes PTE reads,
           filter isRead (newEvents r r')
           = vmirtReadNByteDomain dom addr bytes PTE :: reads
           /\ filter isWrite (newEvents r r')
              = (if PTE_A PTE && PTE_D PTE then []
                 else [vmirtWriteNByteDomain dom addr bytes
                         (PTE_written PTE)])
           /\ (PTE_D PTE = false ->
               updatePTED r = true
               /\ PTE_D (PTE_written PTE) = true
               /\ PTE_A (PTE_written PTE) = true)).
Proof.
  split.
  - intros r0 q t e Ht He Hk Hp Hd.
    destruct (validateTLBEntryPriv_deletes mode q (mi_priv mi) attrs mi r0 t e
                Ht He Hk Hp HW Hd) as (rd & Hv & Hdel & _).
    exists rd. auto.
  - apply findOrCreateTLBEntry_spec in Hrun as [Hc | [Hf | Hi]].
    + left. destruct Hc as (p0 & e & Hp & F & He & _ & Hd).
      inversion Hp; subst p0.
      destruct F as (Eff & _). apply effect_newEvents in Eff.
      split; [apply tlbEvents_filter; auto using tlbEvent_isRead|].
      split; [apply tlbEvents_filter; auto using tlbEvent_isWrite|].
      exists e. auto.
    + destruct Hf as (r1 & r2 & x & va & gva & gpa & Hn & _). discriminate Hn.
    + right.
      destruct Hi as (r1 & r2 & p0 & bytes & e' & _ & F1 & _ & _ & Hs & E3 & _).
      destruct F1 as ((S1 & _ & evs1 & T1 & F1) & _).
      destruct E3 as (_ & _ & evs3 & T3 & F3).
      destruct Hs as (PTEAddr & PTE & reads & T2 & Fr & _ & _ & _ & _ & _ & _
                      & HuD & _).
      apply sameHart_fields in S1 as (_ & Hcfg & Ha & _).
      rewrite Ha, Hart, HW in T2. rewrite HW in HuD. cbn [negb] in T2, HuD.
      rewrite andb_true_r, orb_false_r in T2. rewrite orb_false_r in HuD.
      assert (Hw : (if negb (PTE_D PTE) then PTE_set_D else fun x : Z => x)
                   = (if PTE_D PTE then fun x : Z => x else PTE_set_D))
        by (destruct (PTE_D PTE); reflexivity).
      rewrite Hw in T2. clear Hw.
      exists (getPTWDomain r1), PTEAddr, bytes, PTE, reads.
      set (W := if negb (PTE_A PTE) || negb (PTE_D PTE)
                then [vmirtWriteNByteDomain (getPTWDomain r1) PTEAddr bytes
                        (PTE_written PTE)]
                else []).
      assert (HW' : filter isWrite W = W /\ filter isRead W = []).
      { unfold W. destruct (negb (PTE_A PTE) || negb (PTE_D PTE)); auto. }
      destruct HW' as [HWw HWr].
      assert (T : trace r' =
                  (evs3 ++ W ++ vmirtReadNByteDomain (getPTWDomain r1) PTEAddr
                     bytes PTE :: reads ++ evs1) ++ trace r).
      { rewrite T3, T2, T1. unfold W, PTE_written.
        rewrite <- !app_assoc. cbn [app]. rewrite <- !app_assoc.
        reflexivity. }
      rewrite (newEvents_app _ _ _ T).
      rewrite !filter_app. cbn [filter isRead isWrite].
      rewrite !filter_app.
      rewrite (tlbEvents_filter isRead evs3), (tlbEvents_filter isWrite evs3),
        (tlbEvents_filter isRead evs1), (tlbEvents_filter isWrite evs1)
        by auto using tlbEvent_isRead, tlbEvent_isWrite.
      rewrite HWw, HWr, (filter_every isRead reads Fr),
        (reads_not_writes reads Fr), !app_nil_r. cbn [app].
      split; [reflexivity|]. split.
      * unfold W. destruct (PTE_A PTE), (PTE_D PTE); reflexivity.
      * intros HD. unfold updatePTED in *. rewrite <- Hcfg.
        split; [apply HuD; rewrite HD; reflexivity|].
        unfold PTE_written. rewrite HD. unfold PTE_D, PTE_A, PTE_set_D.
        rewrite !Z.lor_spec. split.
        -- apply orb_true_iff. right. reflexivity.
        -- apply orb_true_iff. left.
           destruct (Z.testbit PTE 6) eqn:HA; [exact HA|].
           unfold PTE_set_A. rewrite Z.lor_spec. apply orb_true_iff.
           right. reflexivity.
Qed.

(* ------------------------------------------------------------------------- *)
(** ** One translation stage *)

(** No entry is inserted in the range table of TLB [id]. *)
Definition noInstall (id : riscvTLBId) (r r' : riscv) : Prop :=
  forall t, riscv_tlb r id = Some t ->
  exists t' keep, riscv_tlb r' id = Some t' /\ lut t' = filter keep (lut t).

(** Calls that neither make an alias nor take an exception. *)
Definition silentEvent (ev : vmiEvent) : Prop :=
  isAlias ev = false /\ isException ev = false.

(** A step of the translation through TLB [id]: the hart, the active TLB and
    the other TLBs are kept, and neither an alias nor an exception is made. *)
Definition stageStep (id : riscvTLBId) (r r' : riscv) : Prop :=
  sameHart r r' /\ activeTLB r' = activeTLB r
  /\ (forall id', id' <> id -> riscv_tlb r' id' = riscv_tlb r id')
  /\ exists evs, trace r' = evs ++ trace r /\ Forall silentEvent evs.

(** The stage through TLB [id] faulted. *)
Definition stageFault (id : riscvTLBId) (attrs : memAccessAttrs)
    (r r' : riscv) : Prop :=
  sameHart r r' /\ activeTLB r' = activeTLB r
  /\ (forall id', id' <> id -> riscv_tlb r' id' = riscv_tlb r id')
  /\ noInstall id r r'
  /\ exists evs,
       trace r' = evs ++ trace r /\ filter isAlias evs = []
       /\ length (filter isException evs)
          = if MEM_AA_IS_ARTIFACT_ACCESS attrs then 0%nat else 1%nat.

Lemma stageStep_refl id r : stageStep id r r.
Proof.
  split; [reflexivity|]. split; [reflexivity|]. split; [reflexivity|].
  exists []. auto.
Qed.

Lemma stageStep_trans id r1 r2 r3 :
  stageStep id r1 r2 -> stageStep id r2 r3 -> stageStep id r1 r3.
Proof.
  intros (S1 & A1 & O1 & evs1 & T1 & F1) (S2 & A2 & O2 & evs2 & T2 & F2).
  split; [eapply sameHart_trans; eauto|]. split; [congruence|]. split.
  - intros id' Hid. rewrite O2, O1 by exact Hid. reflexivity.
  - exists (evs2 ++ evs1). split.
    + rewrite T2, T1, app_assoc. reflexivity.
    + apply Forall_app; auto.
Qed.

Lemma tlbEvent_silent ev : tlbEvent ev -> silentEvent ev.
Proof. destruct ev; cbn; intros H; try contradiction; split; reflexivity. Qed.

Lemma walkEvent_silent ext ev : walkEvent ext ev -> silentEvent ev.
Proof. destruct ev; cbn; intros H; try contradiction; split; reflexivity. Qed.

Lemma tlbFrame_stageStep id r r' : tlbFrame id r r' -> stageStep id r r'.
Proof.
  intros ((S & A & evs & T & F) & O & _).
  split; [exact S|]. split; [exact A|]. split; [exact O|].
  exists evs. split; [exact T|].
  eapply Forall_impl; [|exact F]. apply tlbEvent_silent.
Qed.

Lemma walk_stageStep id r r' :
  effect (walkEvent true) r r' -> riscv_tlb r' = riscv_tlb r ->
  stageStep id r r'.
Proof.
  intros (S & A & evs & T & F) L.
  split; [exact S|]. split; [exact A|]. split; [intros; rewrite L; reflexivity|].
  exists evs. split; [exact T|].
  eapply Forall_impl; [|exact F]. apply walkEvent_silent.
Qed.

Lemma install_stageStep id r r' :
  effect tlbEvent r r' ->
  (forall id', id' <> id -> riscv_tlb r' id' = riscv_tlb r id') ->
  stageStep id r r'.
Proof.
  intros (S & A & evs & T & F) O.
  split; [exact S|]. split; [exact A|]. split; [exact O|].
  exists evs. split; [exact T|].
  eapply Forall_impl; [|exact F]. apply tlbEvent_silent.
Qed.

Lemma silent_filters evs :
  Forall silentEvent evs ->
  filter isAlias evs = [] /\ filter isException evs = [].
Proof.
  intros F. split; apply filter_none; (eapply Forall_impl; [|exact F]);
    intros ev [Ha Hx]; assumption.
Qed.

Lemma noInstall_refl id r : noInstall id r r.
Proof.
  intros t Ht. exists t, (fun _ => true). rewrite filter_all. auto.
Qed.

Lemma noInstall_same id r r' :
  riscv_tlb r' id = riscv_tlb r id -> noInstall id r r'.
Proof.
  intros H t Ht. exists t, (fun _ => true). rewrite filter_all, H. auto.
Qed.

Lemma noInstall_trans id r1 r2 r3 :
  noInstall id r1 r2 -> noInstall id r2 r3 -> noInstall id r1 r3.
Proof.
  intros L1 L2 t Ht. destruct (L1 t Ht) as (t2 & k1 & Ht2 & Hl2).
  destruct (L2 t2 Ht2) as (t3 & k2 & Ht3 & Hl3).
  exists t3, (fun x => k1 x && k2 x). split; [exact Ht3|].
  rewrite Hl3, Hl2. apply filter_filter.
Qed.

Lemma findOrCreateTLBEntry_stage mode attrs mi r res mi' r' :
  findOrCreateTLBEntry mode attrs mi r = Some ((res, mi'), r') ->
  match res with
  | Some _ => stageStep (activeTLB r) r r'
  | None => stageFault (activeTLB r) attrs r r'
  end.
Proof.
  intros H. apply findOrCreateTLBEntry_spec in H as [Hc | [Hf | Hi]].
  - destruct Hc as (p & e & -> & F & _). apply tlbFrame_stageStep, F.
  - destruct Hf as (r1 & r2 & x & va & gva & gpa & -> & F1 & Ew & Lw & S & A
                    & L & T).
    pose proof (tlbFrame_stageStep _ _ _ F1) as St1.
    pose proof (walk_stageStep (activeTLB r) _ _ Ew Lw) as St2.
    destruct (stageStep_trans _ _ _ _ St1 St2) as (S2 & A2 & O2 & evs & T2 & F2).
    destruct (silent_filters evs F2) as [Fa Fx].
    split; [eapply sameHart_trans; eauto|]. split; [congruence|]. split.
    { intros id' Hid. rewrite L. apply O2, Hid. }
    split.
    { eapply noInstall_trans; [exact (proj2 (proj2 F1))|].
      apply noInstall_same. rewrite L, Lw. reflexivity. }
    exists ((if MEM_AA_IS_ARTIFACT_ACCESS attrs then []
             else [riscvTakeMemoryException x va gva gpa]) ++ evs).
    split; [rewrite T, T2, app_assoc; reflexivity|].
    rewrite !filter_app, Fa, Fx, !app_nil_r.
    destruct (MEM_AA_IS_ARTIFACT_ACCESS attrs); split; reflexivity.
  - destruct Hi as (r1 & r2 & p & bytes & e' & -> & F1 & Ew & Lw & _ & Ea & Oa).
    eapply stageStep_trans; [apply tlbFrame_stageStep, F1|].
    eapply stageStep_trans; [apply walk_stageStep; eauto|].
    apply install_stageStep; auto.
Qed.

Lemma getTLBStageEntry_spec id mode mi attrs r res mi' r' :
  getTLBStageEntry id mode mi attrs r = Some ((res, mi'), r') ->
  match res with
  | Some _ => stageStep id r r'
  | None => stageFault id attrs r r'
  end.
Proof.
  intros H. unfold getTLBStageEntry, activateTLB, deactivateTLB in H.
  unfold bind at 1, bind at 1, gets at 1, bind at 1, modify at 1, ret at 1
    in H.
  apply bind_inv in H as ([entry mi1] & rb & Hf & H).
  apply findOrCreateTLBEntry_stage in Hf. fields.
  apply bind_inv in H as ([] & rc & Hpost & H).
  unfold bind, modify, ret in H. inversion H; subst. clear H.
  destruct res as [p|].
  - assert (Fc : tlbFrame id rb rc).
    { revert Hpost.
      apply (preserves_bind (tlbFrame id) (tlbFrame_trans id));
        [apply preserves_gets, tlbFrame_refl|]. intros simASID.
      tlb_frame ltac:(apply unmapTLBEntryNewASID_frame). }
    apply tlbFrame_stageStep in Fc.
    destruct (stageStep_trans _ _ _ _ Hf Fc) as (S & A & O & evs & T & F).
    split; [exact S|]. split; [reflexivity|]. split; [exact O|].
    exists evs. auto.
  - inversion Hpost; subst.
    destruct Hf as (S & A & O & L & evs & T & F).
    split; [exact S|]. split; [reflexivity|]. split; [exact O|].
    split; [exact L|]. exists evs. auto.
Qed.

(* ------------------------------------------------------------------------- *)
(** ** A translation that faults *)

Lemma getCurrentTLBId_inv r id r' :
  getCurrentTLBId r = Some (id, r') -> r' = r.
Proof.
  unfold getCurrentTLBId. mon. intros H.
  destruct (negb (riscvTLBId_eqb _ RISCV_TLB_LAST)); [|discriminate H].
  inversion H. reflexivity.
Qed.

Section Fault.

Variables MEM_PRIV_USER MEM_PRIV_ALIGN : memPriv.


End Fault.

(* ========================================================================= *)
(** * Concrete harts *)

(** A hart in HS mode with Sv39 in satp (ASID 7, root table at 0x80000000),
    16 implemented ASID bits, hardware update of A and D, no PMP registers
    and empty TLBs, over the page table memory [mem]. *)
Definition ex_csr : riscvCSRs :=
  {| satp_MODE := VAM_Sv39; satp_ASID := 7; satp_PPN := 0x80000;
     vsatp_MODE := 0; vsatp_ASID := 0; vsatp_PPN := 0;
     hgatp_MODE := 0; hgatp_VMID := 0; hgatp_PPN := 0;
     mstatus_MXR := false; mstatus_SUM := false;
     vsstatus_MXR := false; vsstatus_SUM := false |}.

Definition ex_cfg : riscvConfig :=
  {| PMP_registers := 0; PMP_grain := 0; cfg_updatePTEA := true;
     cfg_updatePTED := true; unaligned := false; priv_version := RVPV_1_11;
     ASIDMask := 0xFFFF; XlenArch := 64; FlenArch := 64;
     DEBUG_MMU := false |}.

Definition ex_emptyTLB : riscvTLB := {| entries := []; lut := []; free := [] |}.

Definition ex_hart (c : riscvCSRs) (cfg : riscvConfig) (V : bool)
    (tlbs : riscvTLBId -> option riscvTLB) (mem : Z -> option Z) : riscv :=
  {| csr := c; configInfo := cfg; artifactAccess := false; inVMode := V;
     extBits := 56;
     pmpDomains := fun _ isCode => if isCode then 2%nat else 1%nat;
     vmDomains := fun _ isCode => if isCode then 4%nat else 3%nat;
     activeTLB := RISCV_TLB_LAST; s2Offset := 0; PTWActive := false;
     PTWBadAddr := false; s2Active := false; s1VA := 0; GVA := false;
     GPA := 0; AFErrorIn := riscv_AFault_None;
     riscv_tlb := tlbs; pmpcfg_u8 := []; pmpaddr := [];
     ptwMem := mem; ptwWritable := fun _ => true; trace := [] |}.

Definition ex_noTLBs : riscvTLBId -> option riscvTLB :=
  fun _ => Some ex_emptyTLB.

(** The same hart with the flag of an artifact access raised. *)
Definition ex_artifact (r : riscv) : riscv :=
  {| csr := csr r; configInfo := configInfo r; artifactAccess := true;
     inVMode := inVMode r; extBits := extBits r; pmpDomains := pmpDomains r;
     vmDomains := vmDomains r; activeTLB := activeTLB r;
     s2Offset := s2Offset r; PTWActive := PTWActive r;
     PTWBadAddr := PTWBadAddr r; s2Active := s2Active r; s1VA := s1VA r;
     GVA := GVA r; GPA := GPA r; AFErrorIn := AFErrorIn r;
     riscv_tlb := riscv_tlb r; pmpcfg_u8 := pmpcfg_u8 r; pmpaddr := pmpaddr r;
     ptwMem := ptwMem r; ptwWritable := ptwWritable r; trace := trace r |}.

(** A leaf page table entry: V, R, W, U set, the bits [ad] (A is 64, D is
    128) and the page number [ppn]. *)
Definition ex_leaf (ad ppn : Z) : Z := 1 + 2 + 4 + 16 + ad + Z.shiftl ppn 10.

(** Page table memory holding [pte] at [addr] and zero elsewhere. *)
Definition ex_mem (addr pte : Z) : Z -> option Z :=
  fun a => if a =? addr then Some pte else Some 0.

Definition ex_attrs : memAccessAttrs := {| MEM_AA_IS_ARTIFACT_ACCESS := false |}.
Definition ex_artifactAttrs : memAccessAttrs :=
  {| MEM_AA_IS_ARTIFACT_ACCESS := true |}.

(** A hart of a virtual machine with Sv39 in vsatp (root table at 0x80000000)
    and Sv39x4 in hgatp (root table at 0x90000000). *)
Definition ex_csrV : riscvCSRs :=
  {| satp_MODE := 0; satp_ASID := 0; satp_PPN := 0;
     vsatp_MODE := VAM_Sv39; vsatp_ASID := 3; vsatp_PPN := 0x80000;
     hgatp_MODE := VAM_Sv39; hgatp_VMID := 1; hgatp_PPN := 0x90000;
     mstatus_MXR := false; mstatus_SUM := false;
     vsstatus_MXR := false; vsstatus_SUM := false |}.

(** What is observed of a run: a function of the result and the final
    state. *)
Definition observe {T V} (f : T -> riscv -> V) (x : option (T * riscv))
  : option V :=
  match x with
  | Some (v, r) => Some (f v r)
  | None => None
  end.

(** The range table of a TLB of the hart. *)
Definition lutOf (id : riscvTLBId) (r : riscv) : option (list tlbEntryP) :=
  option_map lut (riscv_tlb r id).

(** An entry of TLB [id] for the page at [lo] .. [hi], mapped to [pa]. *)
Definition ex_entry (id : riscvTLBId) (lo hi pa : Z) (asid : riscvSimASID)
    (g : bool) : tlbEntry :=
  {| lowVA := lo; highVA := hi; PA := pa; simASID := asid; tlb := id;
     mapped := 0; priv := MEM_PRIV_RW; U := true; G := g; A := true;
     D := true; artifact := false |}.

Definition ex_tlbOf (e : tlbEntry) : riscvTLB :=
  {| entries := [e]; lut := [0%nat]; free := [] |}.

(* ------------------------------------------------------------------------- *)
(** ** Permission check and PMP: instances *)

Definition ex_r3 : riscv :=
  ex_hart ex_csr ex_cfg false ex_noTLBs (fun _ => Some 0).



(** One NAPOT region with read permission and L=0, pmpaddr 0x8000001F. *)
Definition ex_cfgPMP : riscvConfig :=
  {| PMP_registers := 1; PMP_grain := 0; cfg_updatePTEA := true;
     cfg_updatePTED := true; unaligned := false; priv_version := RVPV_1_11;
     ASIDMask := 0xFFFF; XlenArch := 64; FlenArch := 64;
     DEBUG_MMU := false |}.

Definition ex_rPMP : riscv :=
  {| csr := ex_csr; configInfo := ex_cfgPMP; artifactAccess := false;
     inVMode := false; extBits := 56;
     pmpDomains := fun _ isCode => if isCode then 2%nat else 1%nat;
     vmDomains := fun _ isCode => if isCode then 4%nat else 3%nat;
     activeTLB := RISCV_TLB_LAST; s2Offset := 0; PTWActive := false;
     PTWBadAddr := false; s2Active := false; s1VA := 0; GVA := false;
     GPA := 0; AFErrorIn := riscv_AFault_None;
     riscv_tlb := ex_noTLBs; pmpcfg_u8 := [25]; pmpaddr := [0x8000001F];
     ptwMem := fun _ => Some 0; ptwWritable := fun _ => true; trace := [] |}.

Lemma ex_rPMP_matches : pmpRegionMatches ex_rPMP 0x200000010 0.
Proof.
  split; [reflexivity|]. vm_compute. split; discriminate.
Defined.

Lemma refinePMPRegionRange_priv_witness :
  pmpRegionMatches ex_rPMP 0x200000010 0
  /\ snd (refinePMPRegionRange ex_rPMP RISCV_MODE_M 0
            (getAddressMask 56) 0x200000010 0 MEM_PRIV_NONE)
     = MEM_PRIV_RWX.
Proof.
  split; [exact ex_rPMP_matches|].
  destruct (refinePMPRegionRange_priv ex_rPMP RISCV_MODE_M 0
              (getAddressMask 56) 0x200000010 0 MEM_PRIV_NONE
              ex_rPMP_matches) as (HM & _).
  apply HM; reflexivity.
Defined.

Lemma getPMPEntryBounds_NAPOT_witness :
  cfg_mode (getPMPCFGElem ex_rPMP 0) = PMPM_NAPOT
  /\ 0 <= getEffectivePMPAddr ex_rPMP 0 < 2 ^ 64
  /\ getPMPEntryBounds ex_rPMP 0 = (0x200000000, 0x2000000FF).
Proof.
  assert (Hmode : cfg_mode (getPMPCFGElem ex_rPMP 0) = PMPM_NAPOT)
    by reflexivity.
  assert (Hrange : 0 <= getEffectivePMPAddr ex_rPMP 0 < 2 ^ 64)
    by (vm_compute; split; [discriminate | reflexivity]).
  split; [exact Hmode|]. split; [exact Hrange|].
  destruct (getPMPEntryBounds_NAPOT ex_rPMP 0 Hmode Hrange) as (_ & Hb).
  apply Hb. reflexivity.
Defined.

(** A PMP address register that holds a non-zero value: writing the same
    value again returns 0. *)
Example riscvVMWritePMPAddr_same :
  observe (fun v _ => v) (riscvVMWritePMPAddr 0 0x8000001F ex_rPMP) = Some 0
  /\ riscvVMReadPMPAddr ex_rPMP 0 = 0x8000001F.
Proof. split; reflexivity. Qed.

(* ------------------------------------------------------------------------- *)
(** ** The extension check: instances *)

Lemma tlbLookupSv39_VAEXTEND_witness :
  (MEM_PRIV_R = MEM_PRIV_R \/ MEM_PRIV_R = MEM_PRIV_W
   \/ MEM_PRIV_R = MEM_PRIV_X)
  /\ exists x c,
       tlbLookupSv39 RISCV_MODE_U (initialEntry 0x4000000000) MEM_PRIV_R
         ex_attrs ex_r3
       = Some ((Some x, initialEntry 0x4000000000),
               set_trace
                 (vmiMessage "W" PTEE_VAEXTEND 0x4000000000 0 c
                  :: trace ex_r3) ex_r3)
       /\ isPageFault x = true.
Proof.
  assert (Hreq : MEM_PRIV_R = MEM_PRIV_R \/ MEM_PRIV_R = MEM_PRIV_W
                 \/ MEM_PRIV_R = MEM_PRIV_X) by (left; reflexivity).
  split; [exact Hreq|].
  destruct (tlbLookupSv39_VAEXTEND RISCV_MODE_U (initialEntry 0x4000000000)
              MEM_PRIV_R ex_attrs ex_r3 Hreq) as (Hbad & _ & _ & _ & Hno).
  apply Hbad. exact Hno.
Defined.

(** The two valid addresses translate when the table maps them: a 1Gb leaf
    in the root table at the index of the address. *)
Example tlbLookupSv39_translates :
  observe (fun v _ => (fst v, PA (snd v)))
    (tlbLookupSv39 RISCV_MODE_U (initialEntry 0x3FFFFFFFFF) MEM_PRIV_R
       ex_attrs
       (set_activeTLB RISCV_TLB_HS
          (ex_hart ex_csr ex_cfg false ex_noTLBs
             (ex_mem (0x80000000 + 255 * 8) (ex_leaf 192 0x40000)))))
  = Some (None, 0x40000000)
  /\ observe (fun v _ => (fst v, PA (snd v)))
       (tlbLookupSv39 RISCV_MODE_U (initialEntry 0xFFFFFFC000000000)
          MEM_PRIV_R ex_attrs
          (set_activeTLB RISCV_TLB_HS
             (ex_hart ex_csr ex_cfg false ex_noTLBs
                (ex_mem (0x80000000 + 256 * 8) (ex_leaf 192 0x40000)))))
     = Some (None, 0x40000000).
Proof. split; vm_compute; reflexivity. Qed.

(** The descent at work: an entry with V=0 in the root table gives a page
    fault after the one read. *)
Example tlbLookupSv39_invalid_entry :
  observe (fun v r => (fst v, trace r))
    (tlbLookupSv39 RISCV_MODE_U (initialEntry 0x3FFFFFFFFF) MEM_PRIV_R
       ex_attrs (set_activeTLB RISCV_TLB_HS ex_r3))
  = Some (Some riscv_E_LoadPageFault,
          [vmirtReadNByteDomain 1%nat (0x80000000 + 255 * 8) 8 0]).
Proof. vm_compute. reflexivity. Qed.

(* ------------------------------------------------------------------------- *)
(** ** ASID-qualified invalidation: instances *)

Definition ex_asid7 : riscvSimASID :=
  {| ASID_HS := 7; ASID_VS := 0; VMID := 0; MXR_HS := false; SUM_HS := false;
     MXR_VS := false; SUM_VS := false; S1 := false; S2 := false |}.

Definition ex_onlyHS (e : tlbEntry) : riscvTLBId -> option riscvTLB :=
  fun id => match id with
            | RISCV_TLB_HS => Some (ex_tlbOf e)
            | _ => Some ex_emptyTLB
            end.

Definition ex_e7 : tlbEntry :=
  ex_entry RISCV_TLB_HS 0 0xFFF 0x1000 ex_asid7 false.

Definition ex_r7 : riscv :=
  ex_hart ex_csr ex_cfg false (ex_onlyHS ex_e7) (fun _ => Some 0).






(* ------------------------------------------------------------------------- *)
(** ** The alias of a two-stage translation: instances *)

Definition ex_twoStage (e1 e2 : tlbEntry) : riscvTLBId -> option riscvTLB :=
  fun id => match id with
            | RISCV_TLB_VS1 => Some (ex_tlbOf e1)
            | RISCV_TLB_VS2 => Some (ex_tlbOf e2)
            | _ => Some ex_emptyTLB
            end.

Definition ex_asidV : riscvSimASID :=
  {| ASID_HS := 0; ASID_VS := 3; VMID := 1; MXR_HS := false; SUM_HS := false;
     MXR_VS := false; SUM_VS := false; S1 := true; S2 := true |}.

(** Stage 1 maps VA 0..0xFFF to GPA 0x1000, stage 2 maps GPA 0..0x1FFFFF to
    PA 0x200000. *)
Definition ex_e1 : tlbEntry :=
  ex_entry RISCV_TLB_VS1 0 0xFFF 0x1000 ex_asidV false.
Definition ex_e2 : tlbEntry :=
  ex_entry RISCV_TLB_VS2 0 0x1FFFFF 0x200000 ex_asidV true.

Definition ex_r1 : riscv :=
  ex_hart ex_csrV ex_cfg true (ex_twoStage ex_e1 ex_e2) (fun _ => Some 0).

Definition ex_mi1 : tlbMapInfo :=
  {| mi_lowVA := 0x10; mi_highVA := 0x13; mi_priv := MEM_PRIV_R |}.

Lemma mapTLBEntry_alias_witness :
  (0 <= lowVA ex_e1 <= 0x10 /\ 0x10 <= highVA ex_e1 < 2 ^ 64)
  /\ (0 <= lowVA ex_e2 <= 0x1010 /\ 0x1010 <= highVA ex_e2 < 2 ^ 64)
  /\ exists mi' r' evs,
       mapTLBEntry 0x10 0x1010 RISCV_TLB_VS1 0%nat (Some 0%nat) 3%nat
         RISCV_MODE_VU MEM_PRIV_R ex_mi1 ex_r1 = Some (mi', r')
       /\ trace r' =
          evs ++ vmirtAliasMemoryVM
                   (getPMPDomainPriv ex_r1 RISCV_MODE_VU MEM_PRIV_R) 3%nat
                   0x201000 0x201FFF 0 MEM_PRIV_R
                   (Z.lor (getEntryASIDMask ex_e1 RISCV_MODE_VU)
                      (getEntryASIDMask ex_e2 RISCV_MODE_VU))
                   (getEntrySimASID ex_e1) :: trace ex_r1
       /\ Forall (fun ev => isAlias ev = false) evs
       /\ mi_lowVA mi' = 0 /\ mi_highVA mi' = 0xFFF.
Proof.
  assert (H1 : 0 <= lowVA ex_e1 <= 0x10 /\ 0x10 <= highVA ex_e1 < 2 ^ 64)
    by (cbn; lia).
  assert (H2 : 0 <= lowVA ex_e2 <= 0x1010 /\ 0x1010 <= highVA ex_e2 < 2 ^ 64)
    by (cbn; lia).
  split; [exact H1|]. split; [exact H2|].
  exact (mapTLBEntry_alias 0x10 0x1010 RISCV_TLB_VS1 0%nat 0%nat 3%nat
           RISCV_MODE_VU MEM_PRIV_R ex_mi1 ex_r1 (ex_tlbOf ex_e1) ex_e1
           (ex_tlbOf ex_e2) ex_e2 eq_refl eq_refl eq_refl eq_refl eq_refl
           H1 H2).
Defined.

(** Both stages map the first 512Gb by one leaf (Sv48 at level 3): the alias
    for an address above 4Gb is not the range of the entries, [0, 2^39-1],
    but the 4Gb window around the address. *)
Definition ex_e1big : tlbEntry :=
  ex_entry RISCV_TLB_VS1 0 (2 ^ 39 - 1) 0 ex_asidV false.
Definition ex_e2big : tlbEntry :=
  ex_entry RISCV_TLB_VS2 0 (2 ^ 39 - 1) 0 ex_asidV true.

(** A hart of a virtual machine with Sv48 in vsatp (root table at
    0x80000000) and Sv48x4 in hgatp (root table at 0x90000000). *)
Definition ex_csrV48 : riscvCSRs :=
  {| satp_MODE := 0; satp_ASID := 0; satp_PPN := 0;
     vsatp_MODE := VAM_Sv48; vsatp_ASID := 3; vsatp_PPN := 0x80000;
     hgatp_MODE := VAM_Sv48; hgatp_VMID := 1; hgatp_PPN := 0x90000;
     mstatus_MXR := false; mstatus_SUM := false;
     vsstatus_MXR := false; vsstatus_SUM := false |}.

Definition ex_r1big : riscv :=
  ex_hart ex_csrV48 ex_cfg true (ex_twoStage ex_e1big ex_e2big)
    (fun _ => Some 0).

Definition ex_mi1big : tlbMapInfo :=
  {| mi_lowVA := 0x100000010; mi_highVA := 0x100000013;
     mi_priv := MEM_PRIV_R |}.

Lemma mapTLBEntry_alias_capped :
  let VA := 0x100000010 in
  let GPA := 0x100000010 in
  Z.max (lowVA ex_e1big) (VA - (GPA - lowVA ex_e2big)) = 0
  /\ Z.min (highVA ex_e1big) (VA + (highVA ex_e2big - GPA)) = 2 ^ 39 - 1
  /\ observe (fun mi' r' =>
                (mi_lowVA mi', mi_highVA mi', filter isAlias (trace r')))
       (mapTLBEntry VA GPA RISCV_TLB_VS1 0%nat (Some 0%nat) 3%nat RISCV_MODE_VU
          MEM_PRIV_R ex_mi1big ex_r1big)
     = Some (0x100000000, 0x1FFFFFFFF,
             [vmirtAliasMemoryVM 1%nat 3%nat 0x100000000 0x1FFFFFFFF
                0x100000000 MEM_PRIV_R
                (Z.lor (getEntryASIDMask ex_e1big RISCV_MODE_VU)
                   (getEntryASIDMask ex_e2big RISCV_MODE_VU))
                (getEntrySimASID ex_e1big)]).
Proof. repeat split. Qed.

(** The same from the tables: both root tables hold a 512Gb leaf at index 0;
    the translation installs the two entries and the alias of 4Gb. *)
Definition ex_mem48 : Z -> option Z :=
  fun a => if a =? 0x80000000 then Some (ex_leaf 192 0)
           else if a =? 0x90000000 then Some (ex_leaf 192 0)
           else Some 0.

Example tlbMiss_alias_capped :
  observe (fun v r' =>
             (fst v,
              option_map (fun t => map (fun e => (lowVA e, highVA e))
                                     (entries t))
                (riscv_tlb r' RISCV_TLB_VS1),
              option_map (fun t => map (fun e => (lowVA e, highVA e))
                                     (entries t))
                (riscv_tlb r' RISCV_TLB_VS2),
              map (fun ev =>
                     match ev with
                     | vmirtAliasMemoryVM _ _ lowPA highPA lowVA _ _ _ =>
                         (lowPA, highPA, lowVA)
                     | _ => (0, 0, 0)
                     end) (filter isAlias (trace r'))))
    (tlbMiss 8 16 3%nat RISCV_MODE_VU ex_mi1big ex_attrs
       (ex_hart ex_csrV48 ex_cfg true ex_noTLBs ex_mem48))
  = Some (false, Some [(0, 2 ^ 39 - 1)], Some [(0, 2 ^ 39 - 1)],
          [(0x100000000, 0x1FFFFFFFF, 0x100000000)]).
Proof. vm_compute. reflexivity. Qed.

(* ------------------------------------------------------------------------- *)
(** ** Write accesses and faults: instances *)

(** A write to VA 0xC0001000, mapped by a 1Gb leaf with A=0 and D=0 at index
    3 of the root table. *)
Definition ex_miW : tlbMapInfo :=
  {| mi_lowVA := 0xC0001000; mi_highVA := 0xC0001003;
     mi_priv := MEM_PRIV_W |}.

Definition ex_pteW : Z := ex_leaf 0 0x40000.

Definition ex_rW : riscv :=
  ex_hart ex_csr ex_cfg false ex_noTLBs (ex_mem (0x80000000 + 3 * 8) ex_pteW).

Definition ex_rW' : riscv :=
  match findOrCreateTLBEntry RISCV_MODE_U ex_attrs ex_miW
          (set_activeTLB RISCV_TLB_HS ex_rW) with
  | Some (_, r') => r'
  | None => ex_rW
  end.

Lemma findOrCreateTLBEntry_writeback_witness :
  findOrCreateTLBEntry RISCV_MODE_U ex_attrs ex_miW
    (set_activeTLB RISCV_TLB_HS ex_rW)
  = Some ((Some 0%nat, mi_set_priv MEM_PRIV_RW ex_miW), ex_rW')
  /\ ((filter isRead (newEvents (set_activeTLB RISCV_TLB_HS ex_rW) ex_rW')
       = []
       /\ filter isWrite (newEvents (set_activeTLB RISCV_TLB_HS ex_rW) ex_rW')
          = []
       /\ exists e,
            derefEntry RISCV_TLB_HS 0%nat ex_rW' = Some (e, ex_rW')
            /\ D e = true)
      \/ exists dom addr bytes PTE reads,
           filter isRead (newEvents (set_activeTLB RISCV_TLB_HS ex_rW) ex_rW')
           = vmirtReadNByteDomain dom addr bytes PTE :: reads
           /\ filter isWrite
                (newEvents (set_activeTLB RISCV_TLB_HS ex_rW) ex_rW')
              = (if PTE_A PTE && PTE_D PTE then []
                 else [vmirtWriteNByteDomain dom addr bytes
                         (PTE_written PTE)])
           /\ (PTE_D PTE = false ->
               updatePTED (set_activeTLB RISCV_TLB_HS ex_rW) = true
               /\ PTE_D (PTE_written PTE) = true
               /\ PTE_A (PTE_written PTE) = true)).
Proof.
  assert (Hrun : findOrCreateTLBEntry RISCV_MODE_U ex_attrs ex_miW
                   (set_activeTLB RISCV_TLB_HS ex_rW)
                 = Some ((Some 0%nat, mi_set_priv MEM_PRIV_RW ex_miW), ex_rW'))
    by (vm_compute; reflexivity).
  split; [exact Hrun|].
  exact (proj2 (findOrCreateTLBEntry_writeback RISCV_MODE_U ex_attrs ex_miW
                  (set_activeTLB RISCV_TLB_HS ex_rW) 0%nat
                  (mi_set_priv MEM_PRIV_RW ex_miW) ex_rW'
                  eq_refl eq_refl Hrun)).
Defined.

(** The run of the instance: one read of the leaf, one write of the leaf with
    A and D set. *)
Example findOrCreateTLBEntry_writeback_run :
  trace ex_rW'
  = [vmirtWriteNByteDomain 1%nat (0x80000000 + 3 * 8) 8 (ex_pteW + 64 + 128);
     vmirtReadNByteDomain 1%nat (0x80000000 + 3 * 8) 8 ex_pteW].
Proof. vm_compute. reflexivity. Qed.

(** A virtual machine whose stage 1 table maps the address by a leaf with
    D=0, and whose stage 2 table maps the guest physical address by a leaf
    with D=0. *)
Definition ex_memV : Z -> option Z :=
  fun a => if a =? 0x80000000 + 3 * 8 then Some ex_pteW
           else if a =? 0x90000000 + 1 * 8 then Some (ex_leaf 0 0x80000)
           else Some 0.

Definition ex_rV : riscv := ex_hart ex_csrV ex_cfg true ex_noTLBs ex_memV.

(** The write on a hart with the artifact flag raised translates, with
    hardware update of D enabled and D=0 in the leaf, and writes no page table
    entry; the write through two stages writes two. *)
Lemma tlbMiss_writebacks :
  updatePTED (ex_artifact ex_rW) = true
  /\ PTE_D ex_pteW = false
  /\ observe (fun v r' => (fst v, filter isRead (trace r'),
                           filter isWrite (trace r')))
       (tlbMiss 8 16 3%nat RISCV_MODE_U ex_miW ex_artifactAttrs
          (ex_artifact ex_rW))
     = Some (false,
             [vmirtReadNByteDomain 1%nat (0x80000000 + 3 * 8) 8 ex_pteW],
             [])
  /\ observe (fun v r' => (fst v, List.length (filter isWrite (trace r'))))
       (tlbMiss 8 16 3%nat RISCV_MODE_VU ex_miW ex_attrs ex_rV)
     = Some (false, 2%nat).
Proof. repeat split; vm_compute; reflexivity. Qed.

(** A read of an address whose root table entry is invalid. *)
Definition ex_miR : tlbMapInfo :=
  {| mi_lowVA := 0xC0001000; mi_highVA := 0xC0001003;
     mi_priv := MEM_PRIV_R |}.





(** The same hart over page table memory that refuses writes. *)
Definition ex_readOnly (r : riscv) : riscv :=
  {| csr := csr r; configInfo := configInfo r;
     artifactAccess := artifactAccess r;
     inVMode := inVMode r; extBits := extBits r; pmpDomains := pmpDomains r;
     vmDomains := vmDomains r; activeTLB := activeTLB r;
     s2Offset := s2Offset r; PTWActive := PTWActive r;
     PTWBadAddr := PTWBadAddr r; s2Active := s2Active r; s1VA := s1VA r;
     GVA := GVA r; GPA := GPA r; AFErrorIn := AFErrorIn r;
     riscv_tlb := riscv_tlb r; pmpcfg_u8 := pmpcfg_u8 r; pmpaddr := pmpaddr r;
     ptwMem := ptwMem r; ptwWritable := fun _ => false; trace := trace r |}.

(** The write whose entry write-back fails: the walk has set A and D in its
    copy of the entry, the access faults, and the TLB stays empty. *)
Example tlbMiss_writeback_fails :
  observe (fun v r' => (fst v, lutOf RISCV_TLB_HS r',
                        filter isException (trace r'),
                        filter isAlias (trace r')))
    (tlbMiss 8 16 3%nat RISCV_MODE_U ex_miW ex_attrs (ex_readOnly ex_rW))
  = Some (true, Some [],
          [riscvTakeMemoryException riscv_E_StoreAMOAccessFault 0xC0001000
             false 0],
          []).
Proof. vm_compute. reflexivity. Qed.

(* ------------------------------------------------------------------------- *)
(** ** The descent: instance *)

(** A read of VA 0x3FFFFFFFFF through an empty root table. *)
Definition ex_r5 : riscv := set_activeTLB RISCV_TLB_HS ex_r3.

Definition ex_run5 : option (option riscvException * tlbEntry * riscv) :=
  tlbLookupSv Sv39 RISCV_MODE_U (initialEntry 0x3FFFFFFFFF) MEM_PRIV_R
    ex_attrs ex_r5.

Definition ex_out5 : option riscvException * tlbEntry :=
  match ex_run5 with
  | Some (out, _) => out
  | None => (None, initialEntry 0)
  end.

Definition ex_r5' : riscv :=
  match ex_run5 with
  | Some (_, r') => r'
  | None => ex_r5
  end.

Lemma tlbLookupSv_descent_witness :
  ex_run5 = Some (ex_out5, ex_r5')
  /\ specWalk Sv39 (ptwMem ex_r5)
       (Z.shiftl (Z.shiftr (VA_raw Sv39 0x3FFFFFFFFF) 12) 12)
       (svLevels Sv39) 0x80000000 WalkPageFault
  /\ exists x, fst ex_out5 = Some x /\ isPageFault x = true.
Proof.
  assert (Hrun : ex_run5 = Some (ex_out5, ex_r5'))
    by (vm_compute; reflexivity).
  assert (Hspec : specWalk Sv39 (ptwMem ex_r5)
                    (Z.shiftl (Z.shiftr (VA_raw Sv39 0x3FFFFFFFFF) 12) 12)
                    (svLevels Sv39) 0x80000000 WalkPageFault)
    by (apply (SW_invalid Sv39 _ _ 2%nat 0x80000000 0); reflexivity).
  split; [exact Hrun|]. split; [exact Hspec|].
  destruct (tlbLookupSv_descent Sv39 RISCV_MODE_U (initialEntry 0x3FFFFFFFFF)
              MEM_PRIV_R ex_attrs ex_r5) as (_ & Hfault).
  apply (Hfault 0x80000000 ex_out5 ex_r5').
  - reflexivity.
  - vm_compute. reflexivity.
  - exact Hspec.
  - exact Hrun.
Defined.

(* ========================================================================= *)
(** * Further functions of the file *)

(* ------------------------------------------------------------------------- *)
(** ** Reset of the PMP unit *)

(** A [for] loop over the elements of a list. *)
Fixpoint forEach {T} (l : list T) (B : T -> M unit) : M unit :=
  match l with
  | [] => ret tt
  | x :: l' => B x;; forEach l' B
  end.

(** Reset PMP unit *)
Definition riscvVMResetPMP : M unit :=
  r <- get;;
  let numRegs := getNumPMPs r in
  forEach (seq 0 (Z.to_nat numRegs))
    (fun i =>
       r <- get;;
       if z2b (nth i (pmpaddr r) 0) || z2b (nth i (pmpcfg_u8 r) 0) then
         (* invalidate entry using its current specification *)
         invalidatePMPEntry (Z.of_nat i);;
         (* reset entry fields *)
         modify (fun r => set_pmpaddr (list_set (pmpaddr r) i 0) r);;
         modify (fun r => set_pmpcfg_u8 (list_set (pmpcfg_u8 r) i 0) r)
       else ret tt).

(* ------------------------------------------------------------------------- *)
(** ** PMP address registers *)

(** X1. Effect of the grain on the value read from an address register: in NAPOT
    mode the bits below [G-1] read as ones, in the other modes the bits below
    [G] read as zeros; the other bits are those stored. *)
Theorem getEffectivePMPAddr_grain r index
    (HG : 0 <= PMP_grain (configInfo r) < 64) :
  let G := PMP_grain (configInfo r) in
  let e := getPMPCFGElem r (Uns8 index) in
  let stored := nth (Z.to_nat (Uns8 index)) (pmpaddr r) 0 in
  let eff := getEffectivePMPAddr r index in
  (cfg_mode e = PMPM_NAPOT ->
   forall i, 0 <= i -> Z.testbit eff i = (i <? G - 1) || Z.testbit stored i)
  /\ (cfg_mode e <> PMPM_NAPOT ->
      forall i, 0 <= i < 64 ->
                Z.testbit eff i = (G <=? i) && Z.testbit stored i).
Proof.
  intros G e stored eff. subst eff. unfold getEffectivePMPAddr.
  cbv zeta. fold e. fold stored. fold G. split.
  - intros Hm i Hi. rewrite Hm.
    change (PMPM_NAPOT =? PMPM_NAPOT) with true. cbn [negb].
    rewrite andb_true_r, andb_false_r.
    destruct (Z.leb_spec 2 G).
    + assert (Hu : Uns64 (Uns64 (Z.shiftl 1 (G - 1)) - 1) = Z.ones (G - 1)).
      { rewrite Z.shiftl_1_l, Z.ones_equiv. unfold Uns64.
        assert (0 < 2 ^ (G - 1)) by (apply Z.pow_pos_nonneg; lia).
        assert (2 ^ (G - 1) < 2 ^ 64) by (apply Z.pow_lt_mono_r; lia).
        rewrite (Z.mod_small (2 ^ (G - 1))) by lia.
        rewrite Z.mod_small by lia. lia. }
      rewrite Hu, Z.lor_spec.
      destruct (Z.ltb_spec i (G - 1)).
      * rewrite Z.ones_spec_low by lia. apply orb_true_r.
      * rewrite Z.ones_spec_high by lia. rewrite orb_false_r. reflexivity.
    + destruct (Z.ltb_spec i (G - 1)); [lia|]. reflexivity.
  - intros Hm i Hi.
    assert (Hne : (cfg_mode e =? PMPM_NAPOT) = false)
      by (apply Z.eqb_neq; exact Hm).
    rewrite Hne, andb_false_r. cbn [negb]. rewrite andb_true_r.
    destruct (Z.leb_spec 1 G).
    + assert (Hu : Uns64 (Z.shiftl (Uns64 (-1)) G)
                   = Z.shiftl (Z.ones (64 - G)) G).
      { rewrite !Z.shiftl_mul_pow2, Z.ones_equiv by lia. unfold Uns64.
        change (-1 mod 2 ^ 64) with (2 ^ 64 - 1).
        assert (Hp : 2 ^ 64 = 2 ^ (64 - G) * 2 ^ G).
        { rewrite <- Z.pow_add_r by lia. f_equal. lia. }
        assert (0 < 2 ^ G) by (apply Z.pow_pos_nonneg; lia).
        assert (0 < 2 ^ (64 - G)) by (apply Z.pow_pos_nonneg; lia).
        symmetry. apply Z.mod_unique with (q := 2 ^ G - 1).
        - left. nia.
        - rewrite Hp at 1. nia. }
      rewrite Hu, Z.land_spec, Z.shiftl_spec by lia.
      destruct (Z.leb_spec G i).
      * rewrite Z.ones_spec_low by lia. rewrite andb_true_r. reflexivity.
      * rewrite (Z.testbit_neg_r _ (i - G)) by lia. apply andb_false_r.
    + destruct (Z.leb_spec G i); [|lia]. reflexivity.
Qed.

(** X2. A locked entry, and the entry below a locked TOR entry, is not changed by
    a write of its address register: the write leaves the processor as it
    was. *)
Theorem riscvVMWritePMPAddr_locked r index newValue
    (Hlock : pmpLocked r index = true
             \/ pmpLockedTOR r (index + 1) = true) :
  exists result,
    riscvVMWritePMPAddr index newValue r = Some (result, r)
    /\ (result = 0 \/ result = getEffectivePMPAddr r index).
Proof.
  unfold riscvVMWritePMPAddr. unfold bind at 1, get at 1.
  match goal with
  | |- context [if ?b then _ else ret 0] => destruct b
  end; [|exists 0; split; [reflexivity | left; reflexivity]].
  exists (getEffectivePMPAddr r index). split; [|right; reflexivity].
  destruct (pmpLocked r index) eqn:Hl; [reflexivity|].
  destruct Hlock as [Hlock | Hlock]; [discriminate Hlock|].
  rewrite Hlock. reflexivity.
Qed.

Lemma nth_list_set_eq {T} (l : list T) n x d :
  (n < length l)%nat -> nth n (list_set l n x) d = x.
Proof.
  revert n. induction l as [|y l IH]; intros [|n] H; cbn in *; try lia;
    [reflexivity | apply IH; lia].
Qed.

Lemma nth_list_set_neq {T} (l : list T) n m x d :
  n <> m -> nth m (list_set l n x) d = nth m l d.
Proof.
  revert n m. induction l as [|y l IH]; intros [|n] [|m] H; cbn; auto;
    try congruence.
Qed.

Lemma length_list_set {T} (l : list T) n x :
  length (list_set l n x) = length l.
Proof.
  revert n. induction l as [|y l IH]; intros [|n]; cbn; auto.
Qed.

(** X3. The write of the address register of an entry that is not locked stores
    the masked value there, whatever was stored, and changes no other
    register. *)
Theorem riscvVMWritePMPAddr_stores r index newValue
    (Hvalid : validPMPAddr r index = true)
    (Hidx : 0 <= index)
    (Hlen : (Z.to_nat index < length (pmpaddr r))%nat)
    (Hunl : pmpLocked r index = false)
    (Hnext : pmpLockedTOR r (index + 1) = false) :
  exists result r',
    riscvVMWritePMPAddr index newValue r = Some (result, r')
    /\ nth (Z.to_nat index) (pmpaddr r') 0 = maskedPMPAddr r newValue
    /\ (forall j, j <> Z.to_nat index ->
                  nth j (pmpaddr r') 0 = nth j (pmpaddr r) 0)
    /\ pmpcfg_u8 r' = pmpcfg_u8 r
    /\ (PMP_grain (configInfo r) = 0 -> index < 256 ->
        riscvVMReadPMPAddr r' index = maskedPMPAddr r newValue).
Proof.
  assert (Hread : forall r',
            configInfo r' = configInfo r ->
            nth (Z.to_nat index) (pmpaddr r') 0 = maskedPMPAddr r newValue ->
            PMP_grain (configInfo r) = 0 -> index < 256 ->
            riscvVMReadPMPAddr r' index = maskedPMPAddr r newValue).
  { intros r' Hc Hn HG Hi.
    unfold riscvVMReadPMPAddr, validPMPAddr, getNumPMPs in *.
    rewrite Hc, Hvalid. unfold getEffectivePMPAddr. rewrite Hc, HG.
    cbn [Z.leb Z.compare andb]. unfold Uns8.
    rewrite Z.mod_small by lia. exact Hn. }
  unfold riscvVMWritePMPAddr. unfold bind at 1, get at 1.
  fold (maskedPMPAddr r newValue). rewrite Hvalid, Hunl, Hnext. cbn [andb].
  destruct (Z.eqb_spec (nth (Z.to_nat index) (pmpaddr r) 0)
              (maskedPMPAddr r newValue)) as [He|Hne]; cbn [negb].
  - exists 0, r. split; [reflexivity|]. split; [exact He|].
    split; [reflexivity|]. split; [reflexivity|].
    apply Hread; auto.
  - destruct (invalidatePMPEntry_traceOnly index r) as ([] & evs & H1).
    unfold bind at 1, bind at 1. rewrite H1.
    unfold bind at 1, modify at 1.
    match goal with
    | |- context [invalidatePMPEntry index ?s] =>
        destruct (invalidatePMPEntry_traceOnly index s) as ([] & evs' & H2)
    end.
    rewrite H2. unfold gets. eexists. eexists. split; [reflexivity|].
    fields. split; [apply nth_list_set_eq; exact Hlen|].
    split; [intros j Hj; apply nth_list_set_neq; congruence|].
    split; [reflexivity|].
    apply Hread; [reflexivity|]. fields. apply nth_list_set_eq. exact Hlen.
Qed.

(* ------------------------------------------------------------------------- *)
(** ** Reset *)

Lemma nth_list_set_zero (l : list Z) n :
  nth n (list_set l n 0) 0 = 0.
Proof.
  revert n. induction l as [|y l IH]; intros [|n]; cbn; auto.
Qed.

(** The body of the loop of [riscvVMResetPMP]. *)
Definition resetPMPEntry (i : nat) : M unit :=
  r <- get;;
  if z2b (nth i (pmpaddr r) 0) || z2b (nth i (pmpcfg_u8 r) 0) then
    invalidatePMPEntry (Z.of_nat i);;
    modify (fun r => set_pmpaddr (list_set (pmpaddr r) i 0) r);;
    modify (fun r => set_pmpcfg_u8 (list_set (pmpcfg_u8 r) i 0) r)
  else ret tt.

Lemma resetPMPEntry_run i r :
  exists r',
    resetPMPEntry i r = Some (tt, r')
    /\ nth i (pmpaddr r') 0 = 0 /\ nth i (pmpcfg_u8 r') 0 = 0
    /\ (forall j, j <> i ->
          nth j (pmpaddr r') 0 = nth j (pmpaddr r) 0
          /\ nth j (pmpcfg_u8 r') 0 = nth j (pmpcfg_u8 r) 0)
    /\ configInfo r' = configInfo r
    /\ (nth i (pmpaddr r) 0 = 0 -> nth i (pmpcfg_u8 r) 0 = 0 -> r' = r).
Proof.
  unfold resetPMPEntry. unfold bind at 1, get at 1.
  destruct (z2b (nth i (pmpaddr r) 0)) eqn:Ea;
    [|destruct (z2b (nth i (pmpcfg_u8 r) 0)) eqn:Ec]; cbn [orb].
  3:{ apply z2b_false in Ea, Ec. exists r. repeat split; auto. }
  all: destruct (invalidatePMPEntry_traceOnly (Z.of_nat i) r)
         as ([] & evs & H1);
    unfold bind at 1; rewrite H1; unfold bind, modify;
    eexists; (split; [reflexivity|]); fields;
    (split; [apply nth_list_set_zero|]);
    (split; [apply nth_list_set_zero|]);
    (split; [intros j Hj; split; apply nth_list_set_neq; congruence|]);
    (split; [reflexivity|]).
  - intros H. apply z2b_true in Ea. contradiction.
  - intros _ H. apply z2b_true in Ec. contradiction.
Qed.

Lemma resetPMP_loop m : forall s r,
  exists r',
    forEach (seq s m) resetPMPEntry r = Some (tt, r')
    /\ (forall i, (s <= i < s + m)%nat ->
          nth i (pmpaddr r') 0 = 0 /\ nth i (pmpcfg_u8 r') 0 = 0)
    /\ (forall i, ~ (s <= i < s + m)%nat ->
          nth i (pmpaddr r') 0 = nth i (pmpaddr r) 0
          /\ nth i (pmpcfg_u8 r') 0 = nth i (pmpcfg_u8 r) 0)
    /\ configInfo r' = configInfo r
    /\ ((forall i, (s <= i < s + m)%nat ->
           nth i (pmpaddr r) 0 = 0 /\ nth i (pmpcfg_u8 r) 0 = 0) ->
        r' = r).
Proof.
  induction m as [|m IH]; intros s r.
  - exists r. cbn. repeat split; auto; lia.
  - cbn [seq forEach].
    destruct (resetPMPEntry_run s r) as (r1 & H1 & Za & Zc & O1 & C1 & Same1).
    destruct (IH (S s) r1) as (r2 & H2 & Z2 & O2 & C2 & Same2).
    exists r2. split; [unfold bind; rewrite H1; exact H2|].
    split; [|split; [|split]].
    + intros i Hi. destruct (Nat.eq_dec i s) as [->|Hne].
      * destruct (O2 s ltac:(lia)) as [-> ->]. auto.
      * apply Z2. lia.
    + intros i Hi. destruct (O2 i ltac:(lia)) as [-> ->].
      apply O1. lia.
    + congruence.
    + intros Hz. destruct (Hz s ltac:(lia)) as [Ha Hc].
      rewrite (Same1 Ha Hc) in *. apply Same2. intros i Hi. apply Hz. lia.
Qed.

(** X4. Reset of the PMP unit clears the address and configuration of every
    implemented entry and touches no other; afterwards no implemented region
    is active.  Entries that are clear already are passed over: a second
    reset leaves the processor as it is. *)
Theorem riscvVMResetPMP_clears r :
  let n := Z.to_nat (getNumPMPs r) in
  exists r',
    riscvVMResetPMP r = Some (tt, r')
    /\ (forall i, (i < n)%nat ->
          nth i (pmpaddr r') 0 = 0 /\ nth i (pmpcfg_u8 r') 0 = 0)
    /\ (forall i, (n <= i)%nat ->
          nth i (pmpaddr r') 0 = nth i (pmpaddr r) 0
          /\ nth i (pmpcfg_u8 r') 0 = nth i (pmpcfg_u8 r) 0)
    /\ (forall i, (i < n)%nat -> (i < 256)%nat ->
          getPMPRegionActive r' (getPMPCFGElem r' (Z.of_nat i)) (Z.of_nat i)
          = false)
    /\ riscvVMResetPMP r' = Some (tt, r').
Proof.
  intros n. unfold riscvVMResetPMP. unfold bind at 1, get at 1.
  fold resetPMPEntry. fold n.
  destruct (resetPMP_loop n 0%nat r) as (r' & Hrun & Hz & Ho & Hc & _).
  exists r'. split; [exact Hrun|].
  split; [intros i Hi; apply Hz; lia|].
  split; [intros i Hi; apply Ho; lia|].
  split.
  - intros i Hi H256. unfold getPMPRegionActive, getPMPCFGElem, Uns8.
    rewrite Z.mod_small by lia. rewrite Nat2Z.id.
    destruct (Hz i ltac:(lia)) as [_ ->]. reflexivity.
  - unfold bind at 1, get at 1. fold resetPMPEntry.
    unfold getNumPMPs in *. rewrite Hc. fold n.
    destruct (resetPMP_loop n 0%nat r') as (r2 & Hrun2 & _ & _ & _ & Same).
    rewrite Hrun2. rewrite (Same ltac:(intros i Hi; apply Hz; lia)).
    reflexivity.
Qed.

(* ------------------------------------------------------------------------- *)
(** ** PMP refinement *)

Lemma refinePMPRegions_inactive r mode PA n init :
  (forall i, (i < n)%nat ->
     getPMPRegionActive r (getPMPCFGElem r (Z.of_nat i)) (Z.of_nat i)
     = false) ->
  refinePMPRegions r mode PA n init = init.
Proof.
  rewrite refinePMPRegions_fold_right.
  assert (G : forall m s,
            (forall i, (s <= i < s + m)%nat ->
               getPMPRegionActive r (getPMPCFGElem r (Z.of_nat i))
                 (Z.of_nat i) = false) ->
            fold_right
              (fun i acc =>
                 let '(lowMap, highMap, p) := acc in
                 refinePMPRegionRange r mode lowMap highMap PA (Z.of_nat i) p)
              init (seq s m) = init).
  { induction m as [|m IH]; intros s Hs; [reflexivity|].
    cbn [seq fold_right]. rewrite IH by (intros i Hi; apply Hs; lia).
    destruct init as [[lo hi] p]. unfold refinePMPRegionRange.
    rewrite Hs by lia. reflexivity. }
  intros H. apply G. intros i Hi. apply H. lia.
Qed.

(** X5. With PMP registers implemented and no region active (as after reset), an
    access with some privilege in a mode other than M is refused with the
    access fault cause PMP, and nothing is mapped; in M mode the whole
    external address space is mapped with all privileges. *)
Theorem mapPMP_no_active_region r mode requiredPriv lowPA highPA
    (Hn : getNumPMPs r <> 0)
    (Hoff : forall i, (i < Z.to_nat (getNumPMPs r))%nat ->
              getPMPRegionActive r (getPMPCFGElem r (Z.of_nat i)) (Z.of_nat i)
              = false) :
  (mode <> RISCV_MODE_M -> requiredPriv <> MEM_PRIV_NONE ->
   mapPMP mode requiredPriv lowPA highPA r
   = Some (tt, set_AFErrorIn riscv_AFault_PMP r))
  /\ (mode = RISCV_MODE_M ->
      Z.land MEM_PRIV_RWX requiredPriv = requiredPriv ->
      highPA <= getAddressMask (extBits r) ->
      mapPMP mode requiredPriv lowPA highPA r
      = setPMPPriv RISCV_MODE_M 0 (getAddressMask (extBits r)) MEM_PRIV_RWX
          true r).
Proof.
  assert (Hz : z2b (getNumPMPs r) = true) by (apply z2b_true; exact Hn).
  split.
  - intros Hm Hreq. unfold mapPMP. unfold bind at 1, get at 1. rewrite Hz.
    rewrite refinePMPRegions_inactive by exact Hoff.
    assert (Hmode : riscvMode_eqb mode RISCV_MODE_M = false)
      by (destruct mode; try reflexivity; congruence).
    rewrite Hmode. rewrite Z.land_0_l.
    destruct (Z.eqb_spec 0 requiredPriv) as [E|E];
      [unfold MEM_PRIV_NONE in Hreq; congruence|].
    reflexivity.
  - intros -> Hsub Hhi. unfold mapPMP. unfold bind at 1, get at 1. rewrite Hz.
    rewrite refinePMPRegions_inactive by exact Hoff.
    cbn [riscvMode_eqb]. rewrite Hsub, Z.eqb_refl. cbn [negb orb].
    destruct (Z.ltb_spec (getAddressMask (extBits r)) highPA); [lia|].
    reflexivity.
Qed.

(** The bounds of a region are addresses of 64 bits; the low bound is a
    multiple of 4 and the high bound one less than one. *)
Lemma mod4_intro x a b : x = 4 * a + b -> 0 <= b < 4 -> x mod 4 = b.
Proof.
  intros -> Hb. symmetry. apply Z.mod_unique with (q := a); [left; lia | lia].
Qed.

Lemma Uns64_shiftl2 a :
  exists q, 0 <= q < 2 ^ 62 /\ Uns64 (Z.shiftl a 2) = 4 * q.
Proof.
  exists (a mod 2 ^ 62). split; [apply Z.mod_pos_bound; lia|].
  unfold Uns64. rewrite Z.shiftl_mul_pow2 by lia.
  change (2 ^ 2) with 4. change (2 ^ 64) with (2 ^ 62 * 4).
  rewrite Z.mul_mod_distr_r by lia. lia.
Qed.

Lemma land_lt_pow2 a b n :
  0 <= n -> 0 <= b < 2 ^ n -> Z.land a b < 2 ^ n.
Proof.
  intros Hn Hb. rewrite <- (Z.mod_small b (2 ^ n)) by lia.
  rewrite <- Z.land_ones, Z.land_assoc, Z.land_ones by lia.
  apply Z.mod_pos_bound. apply Z.pow_pos_nonneg; lia.
Qed.

Lemma getPMPEntryBounds_aligned r index :
  0 <= PMP_grain (configInfo r) ->
  0 <= getEffectivePMPAddr r index < 2 ^ 64 ->
  let lo := fst (getPMPEntryBounds r index) in
  let hi := snd (getPMPEntryBounds r index) in
  0 <= lo < 2 ^ 64 /\ 0 <= hi < 2 ^ 64 /\ lo mod 4 = 0 /\ hi mod 4 = 3.
Proof.
  intros HG Heff. unfold getPMPEntryBounds.
  destruct (Uns64_shiftl2 (getEffectivePMPAddr r index)) as (q & Hq & Hlow).
  destruct (cfg_mode (getPMPCFGElem r index) =? PMPM_NA4).
  - cbn [fst snd]. rewrite Hlow. unfold Uns64.
    rewrite (Z.mod_small (4 * q + 3)) by lia.
    repeat split; try lia.
    + apply (mod4_intro _ q 0); lia.
    + apply (mod4_intro _ q 3); lia.
  - destruct (cfg_mode (getPMPCFGElem r index) =? PMPM_NAPOT).
    + destruct (trailing_ones _ Heff) as (k & Hk & Hones).
      destruct (Z.le_gt_cases k 61) as [Hle | Hgt].
      * destruct (napot_decode _ k (conj (proj1 Hk) Hle) Heff Hones)
          as (Hm & Hl & Hh).
        cbv zeta in Hl, Hh. cbv zeta. cbn [fst snd]. rewrite Hh, Hl.
        set (a := Uns64 (Z.shiftl (getEffectivePMPAddr r index) 2)) in *.
        assert (Ha : 0 <= a < 2 ^ 64) by lia.
        assert (Hsz : 0 < 2 ^ (k + 1)) by (apply Z.pow_pos_nonneg; lia).
        assert (Hp : 2 ^ (k + 3) = 4 * 2 ^ (k + 1)).
        { replace (k + 3) with (2 + (k + 1)) by lia.
          rewrite Z.pow_add_r by lia. reflexivity. }
        assert (Hmul : a - a mod 2 ^ (k + 3)
                       = 2 ^ (k + 3) * (a / 2 ^ (k + 3)))
          by (pose proof (Z.div_mod a (2 ^ (k + 3)) ltac:(lia)); lia).
        assert (H64 : 2 ^ 64 = 2 ^ (k + 3) * 2 ^ (61 - k)).
        { rewrite <- Z.pow_add_r by lia. f_equal. lia. }
        assert (Hd : 0 <= a / 2 ^ (k + 3) < 2 ^ (61 - k)).
        { split; [apply Z.div_pos; lia|].
          apply Z.div_lt_upper_bound; [lia|]. rewrite <- H64. lia. }
        rewrite Hmul. set (d := a / 2 ^ (k + 3)) in *.
        repeat split; try nia.
        -- apply (mod4_intro _ (2 ^ (k + 1) * d) 0); lia.
        -- apply (mod4_intro _ (2 ^ (k + 1) * d + 2 ^ (k + 1) - 1) 3); lia.
      * pose proof (napot_decode_top _ k ltac:(lia) Heff Hones) as Ha.
        cbv zeta. rewrite Ha. cbn [fst snd].
        repeat split; try reflexivity; try discriminate.
    + cbn [fst snd]. split; [|split; [|split]].
      * split.
        -- apply Z.land_nonneg. right. unfold Uns64.
           apply Z.mod_pos_bound. lia.
        -- apply land_lt_pow2; [lia|].
           unfold Uns64 at 1. apply Z.mod_pos_bound. lia.
      * unfold Uns64. apply Z.mod_pos_bound. lia.
      * rewrite <- (Z.land_ones _ 2) by lia. rewrite <- Z.land_assoc.
        replace (Z.land (Uns64 (Z.shiftl (Uns64 (-4))
                                  (PMP_grain (configInfo r)))) (Z.ones 2))
          with 0; [apply Z.land_0_r|].
        symmetry. rewrite Z.land_ones by lia. change (2 ^ 2) with 4.
        unfold Uns64 at 1. rewrite Z.shiftl_mul_pow2 by lia.
        change (Uns64 (-4)) with (4 * (2 ^ 62 - 1)).
        change (2 ^ 64) with (2 ^ 62 * 4).
        replace (4 * (2 ^ 62 - 1) * 2 ^ PMP_grain (configInfo r))
          with ((2 ^ 62 - 1) * 2 ^ PMP_grain (configInfo r) * 4) by lia.
        rewrite Z.mul_mod_distr_r by lia. apply Z.mod_mul. lia.
      * rewrite Hlow. unfold Uns64.
        destruct (Z.eq_dec q 0) as [->|Hq0]; [reflexivity|].
        rewrite (Z.mod_small (4 * q - 1)) by lia.
        apply (mod4_intro _ (q - 1) 3); lia.
Qed.

(** The region [i] is the one that decides on the address [x] among the
    regions [s] .. [n-1]: the lowest-numbered region that matches it. *)
Definition pmpFirstMatchFrom (r : riscv) (s n : nat) (x : Z) (i : nat)
  : Prop :=
  (s <= i < n)%nat
  /\ pmpRegionMatches r x (Z.of_nat i)
  /\ forall j, (s <= j < i)%nat -> ~ pmpRegionMatches r x (Z.of_nat j).

Lemma pmpFirstMatchFrom_step r s n x i :
  (s < n)%nat ->
  pmpFirstMatchFrom r s n x i <->
  (i = s /\ pmpRegionMatches r x (Z.of_nat s))
  \/ (~ pmpRegionMatches r x (Z.of_nat s)
      /\ pmpFirstMatchFrom r (S s) n x i).
Proof.
  intros Hs. split.
  - intros (Hi & Hm & Hlt). destruct (Nat.eq_dec i s) as [->|Hne].
    + left. auto.
    + right. split; [apply Hlt; lia|].
      split; [lia|]. split; [exact Hm|]. intros j Hj. apply Hlt. lia.
  - intros [[-> Hm] | (Hn & Hi & Hm & Hlt)].
    + split; [lia|]. split; [exact Hm|]. intros j Hj. lia.
    + split; [lia|]. split; [exact Hm|]. intros j Hj.
      destruct (Nat.eq_dec j s) as [->|Hne]; [exact Hn | apply Hlt; lia].
Qed.

Section Refinement.

Variables (r : riscv) (mode : riscvMode) (PA : Z).

Hypothesis HG : 0 <= PMP_grain (configInfo r).
Hypothesis Heff : forall index, 0 <= getEffectivePMPAddr r index < 2 ^ 64.

(** What the loop of [mapPMP] keeps: the range holds the address of the
    access, its bounds are aligned like those of regions, and every address
    in it is decided by the same region as the address of the access. *)
Definition refineInv (s n : nat) (acc : Z * Z * memPriv) : Prop :=
  let '(lo, hi, _) := acc in
  0 <= lo <= PA /\ PA <= hi < 2 ^ 64 /\ lo mod 4 = 0 /\ hi mod 4 = 3
  /\ forall x, lo <= x <= hi ->
       forall i, pmpFirstMatchFrom r s n PA i <-> pmpFirstMatchFrom r s n x i.

Lemma refinePMPRegionRange_inv s n lo hi p :
  (s < n)%nat ->
  refineInv (S s) n (lo, hi, p) ->
  refineInv s n (refinePMPRegionRange r mode lo hi PA (Z.of_nat s) p).
Proof.
  intros Hs (Hlo & Hhi & Alo & Ahi & Hdec).
  pose proof (getPMPEntryBounds_aligned r (Z.of_nat s) HG (Heff _))
    as (Bl & Bh & Al & Ah).
  cbv zeta in Bl, Bh, Al, Ah.
  assert (Hmatch : forall x,
            pmpRegionMatches r x (Z.of_nat s) <->
            getPMPRegionActive r (getPMPCFGElem r (Z.of_nat s)) (Z.of_nat s)
            = true
            /\ fst (getPMPEntryBounds r (Z.of_nat s)) <= x
               <= snd (getPMPEntryBounds r (Z.of_nat s)))
    by (intros x; reflexivity).
  (* the range is kept and the region matches no address of it *)
  assert (Keep : (forall x, lo <= x <= hi ->
                    ~ pmpRegionMatches r x (Z.of_nat s)) ->
                 refineInv s n (lo, hi, p)).
  { intros Hno. split; [exact Hlo|]. split; [exact Hhi|].
    split; [exact Alo|]. split; [exact Ahi|].
    intros x Hx i.
      rewrite (pmpFirstMatchFrom_step r s n PA i Hs),
        (pmpFirstMatchFrom_step r s n x i Hs).
    specialize (Hdec x Hx i).
    pose proof (Hno x Hx). pose proof (Hno PA ltac:(lia)). tauto. }
  unfold refinePMPRegionRange.
  destruct (getPMPRegionActive r (getPMPCFGElem r (Z.of_nat s)) (Z.of_nat s))
    eqn:Hact.
  2:{ apply Keep. intros x _ [Ha _]. congruence. }
  destruct (getPMPEntryBounds r (Z.of_nat s)) as [le he] eqn:Hb.
  cbn [fst snd] in *.
  destruct (Z.ltb_spec he le).
  { apply Keep. intros x _ [_ Hin]. rewrite Hb in Hin. cbn in Hin. lia. }
  destruct (Z.leb_spec le PA); [destruct (Z.leb_spec PA he)|]; cbn [andb].
  - (* the region holds the address of the access *)
    split; [lia|]. split; [lia|]. split; [exact Al|]. split; [exact Ah|].
    intros x Hx i.
      rewrite (pmpFirstMatchFrom_step r s n PA i Hs),
        (pmpFirstMatchFrom_step r s n x i Hs).
    assert (pmpRegionMatches r x (Z.of_nat s))
      by (split; [exact Hact | rewrite Hb; cbn; lia]).
    assert (pmpRegionMatches r PA (Z.of_nat s))
      by (split; [exact Hact | rewrite Hb; cbn; lia]).
    tauto.
  - (* the region lies below the address *)
    destruct (Z.ltb_spec PA le); [lia|]. cbn [andb].
    destruct (Z.ltb_spec he PA); [|lia].
    destruct (Z.ltb_spec lo he); cbn [andb].
    + assert (Hu : Uns64 (he + 1) = he + 1)
        by (unfold Uns64; apply Z.mod_small; lia).
      rewrite Hu.
      split; [lia|]. split; [lia|].
      split; [apply (mod4_intro _ (he / 4 + 1) 0);
              [pose proof (Z.div_mod he 4 ltac:(lia)); lia | lia]|].
      split; [exact Ahi|].
      intros x Hx i.
      rewrite (pmpFirstMatchFrom_step r s n PA i Hs),
        (pmpFirstMatchFrom_step r s n x i Hs).
      specialize (Hdec x ltac:(lia) i).
      assert (~ pmpRegionMatches r x (Z.of_nat s))
        by (intros [_ Hin]; rewrite Hb in Hin; cbn in Hin; lia).
      assert (~ pmpRegionMatches r PA (Z.of_nat s))
        by (intros [_ Hin]; rewrite Hb in Hin; cbn in Hin; lia).
      tauto.
    + apply Keep. intros x Hx [_ Hin]. rewrite Hb in Hin. cbn in Hin.
      assert (lo <> he) by (intros ->; lia). lia.
  - (* the region lies above the address *)
    destruct (Z.ltb_spec PA le); [|lia].
    destruct (Z.ltb_spec le hi); cbn [andb].
    + assert (Hu : Uns64 (le - 1) = le - 1)
        by (unfold Uns64; apply Z.mod_small; lia).
      rewrite Hu.
      split; [lia|]. split; [lia|]. split; [exact Alo|].
      split; [apply (mod4_intro _ (le / 4 - 1) 3);
              [pose proof (Z.div_mod le 4 ltac:(lia)); lia | lia]|].
      intros x Hx i.
      rewrite (pmpFirstMatchFrom_step r s n PA i Hs),
        (pmpFirstMatchFrom_step r s n x i Hs).
      specialize (Hdec x ltac:(lia) i).
      assert (~ pmpRegionMatches r x (Z.of_nat s))
        by (intros [_ Hin]; rewrite Hb in Hin; cbn in Hin; lia).
      assert (~ pmpRegionMatches r PA (Z.of_nat s))
        by (intros [_ Hin]; rewrite Hb in Hin; cbn in Hin; lia).
      tauto.
    + destruct (Z.ltb_spec he PA); [lia|]. cbn [andb].
      apply Keep. intros x Hx [_ Hin]. rewrite Hb in Hin. cbn in Hin.
      assert (le <> hi) by (intros ->; lia). lia.
Qed.

Lemma refinePMPRegions_inv m : forall s init,
  refineInv (s + m) (s + m) init ->
  refineInv s (s + m)
    (fold_right
       (fun i acc =>
          let '(lowMap, highMap, p) := acc in
          refinePMPRegionRange r mode lowMap highMap PA (Z.of_nat i) p)
       init (seq s m)).
Proof.
  induction m as [|m IH]; intros s init Hinit.
  - cbn [seq fold_right]. rewrite Nat.add_0_r in *. exact Hinit.
  - cbn [seq fold_right].
    replace (s + S m)%nat with (S s + m)%nat in * by lia.
    specialize (IH (S s) init Hinit).
    destruct (fold_right _ init (seq (S s) m)) as [[lo hi] p].
    apply refinePMPRegionRange_inv; [lia | exact IH].
Qed.

Lemma refinePMPRegions_nomatch n init :
  (forall i, (i < n)%nat -> ~ pmpRegionMatches r PA (Z.of_nat i)) ->
  snd (refinePMPRegions r mode PA n init) = snd init.
Proof.
  rewrite refinePMPRegions_fold_right.
  assert (G : forall m s,
            (forall i, (s <= i < s + m)%nat ->
                       ~ pmpRegionMatches r PA (Z.of_nat i)) ->
            snd (fold_right
                   (fun i acc =>
                      let '(lowMap, highMap, p) := acc in
                      refinePMPRegionRange r mode lowMap highMap PA
                        (Z.of_nat i) p) init (seq s m)) = snd init).
  { induction m as [|m IH]; intros s Hs; [reflexivity|].
    cbn [seq fold_right].
    specialize (IH (S s) ltac:(intros i Hi; apply Hs; lia)).
    destruct (fold_right _ init (seq (S s) m)) as [[lo hi] p].
    rewrite refinePMPRegionRange_nomatch by (apply Hs; lia). exact IH. }
  intros H. apply G. intros i Hi. apply H. lia.
Qed.

End Refinement.

(** X6. The range and privilege [mapPMP] computes for the address [PA] of an
    access: the range holds [PA], and every address in it is decided by the
    same region as [PA] (the lowest-numbered region that matches), or by no
    region if none matches [PA]; the privilege is the one of that region,
    or the initial one. *)
Theorem refinePMPRegions_uniform r mode PA n p0
    (HG : 0 <= PMP_grain (configInfo r))
    (Heff : forall index, 0 <= getEffectivePMPAddr r index < 2 ^ 64)
    (Hext : 2 <= extBits r <= 64)
    (HPA : 0 <= PA <= getAddressMask (extBits r)) :
  let '(lo, hi, p) :=
    refinePMPRegions r mode PA n (0, getAddressMask (extBits r), p0) in
  lo <= PA <= hi
  /\ (forall x, lo <= x <= hi ->
        forall i, pmpFirstMatchFrom r 0 n PA i <-> pmpFirstMatchFrom r 0 n x i)
  /\ (forall i, pmpFirstMatchFrom r 0 n PA i ->
                p = pmpRegionPriv r mode (Z.of_nat i))
  /\ ((forall i, (i < n)%nat -> ~ pmpRegionMatches r PA (Z.of_nat i)) ->
      p = p0).
Proof.
  assert (Hmask : getAddressMask (extBits r) = 2 ^ extBits r - 1).
  { unfold getAddressMask, Uns64. rewrite Z.shiftl_1_l.
    assert (0 < 2 ^ extBits r) by (apply Z.pow_pos_nonneg; lia).
    assert (2 ^ extBits r <= 2 ^ 64) by (apply Z.pow_le_mono_r; lia).
    apply Z.mod_small. lia. }
  assert (Hm4 : getAddressMask (extBits r) mod 4 = 3).
  { rewrite Hmask.
    apply (mod4_intro _ (2 ^ (extBits r - 2) - 1) 3); [|lia].
    replace (extBits r) with (2 + (extBits r - 2)) at 1 by lia.
    rewrite Z.pow_add_r by lia. change (2 ^ 2) with 4. lia. }
  assert (Hlt : getAddressMask (extBits r) < 2 ^ 64).
  { rewrite Hmask.
    assert (2 ^ extBits r <= 2 ^ 64) by (apply Z.pow_le_mono_r; lia). lia. }
  pose proof (refinePMPRegions_inv r mode PA HG Heff n 0%nat
                (0, getAddressMask (extBits r), p0)) as Hinv.
  pose proof (refinePMPRegions_first_match r mode PA n
                (0, getAddressMask (extBits r), p0)) as Hfirst.
  pose proof (refinePMPRegions_nomatch r mode PA n
                (0, getAddressMask (extBits r), p0)) as Hnone.
  rewrite refinePMPRegions_fold_right in *. cbn [Nat.add] in Hinv.
  destruct (fold_right _ _ (seq 0 n)) as [[lo hi] p].
  cbn [snd] in *.
  destruct Hinv as (Hlo & Hhi & _ & _ & Hdec).
  { split; [lia|]. split; [lia|]. split; [reflexivity|].
    split; [exact Hm4|].
    intros x Hx i. split; intros (Hi & _); lia. }
  split; [lia|]. split; [exact Hdec|]. split.
  - intros i (Hi & Hm & Hlow). apply Hfirst; [lia | exact Hm |].
    intros j Hj. apply Hlow. lia.
  - exact Hnone.
Qed.

(* ------------------------------------------------------------------------- *)
(** ** PMP registers: instances *)

(** The hart [ex_rPMP] with a grain of 4: sixteen-byte granularity. *)
Definition ex_cfgGrain : riscvConfig :=
  {| PMP_registers := 1; PMP_grain := 4; cfg_updatePTEA := true;
     cfg_updatePTED := true; unaligned := false; priv_version := RVPV_1_11;
     ASIDMask := 0xFFFF; XlenArch := 64; FlenArch := 64;
     DEBUG_MMU := false |}.

Definition ex_withPMP (cfg : riscvConfig) (cfgs addrs : list Z) : riscv :=
  {| csr := ex_csr; configInfo := cfg; artifactAccess := false;
     inVMode := false; extBits := 56;
     pmpDomains := fun _ isCode => if isCode then 2%nat else 1%nat;
     vmDomains := fun _ isCode => if isCode then 4%nat else 3%nat;
     activeTLB := RISCV_TLB_LAST; s2Offset := 0; PTWActive := false;
     PTWBadAddr := false; s2Active := false; s1VA := 0; GVA := false;
     GPA := 0; AFErrorIn := riscv_AFault_None;
     riscv_tlb := ex_noTLBs; pmpcfg_u8 := cfgs; pmpaddr := addrs;
     ptwMem := fun _ => Some 0; ptwWritable := fun _ => true; trace := [] |}.

(** A NAPOT region whose register holds 0x80000010 under a grain of 4. *)
Definition ex_rGrain : riscv := ex_withPMP ex_cfgGrain [25] [0x80000010].

Lemma getEffectivePMPAddr_grain_witness :
  0 <= PMP_grain (configInfo ex_rGrain) < 64
  /\ Z.testbit (getEffectivePMPAddr ex_rGrain 0) 2 = true
  /\ Z.testbit (getEffectivePMPAddr ex_rGrain 0) 3 = false.
Proof.
  assert (HG : 0 <= PMP_grain (configInfo ex_rGrain) < 64) by (cbn; lia).
  split; [exact HG|].
  destruct (getEffectivePMPAddr_grain ex_rGrain 0 HG) as (Hn & _).
  split; rewrite Hn by (reflexivity || lia); reflexivity.
Defined.

(** The region of [ex_rPMP] with the lock bit set. *)
Definition ex_rLocked : riscv := ex_withPMP ex_cfgPMP [153] [0x8000001F].

Lemma riscvVMWritePMPAddr_locked_witness :
  (pmpLocked ex_rLocked 0 = true \/ pmpLockedTOR ex_rLocked (0 + 1) = true)
  /\ observe (fun _ r => pmpaddr r) (riscvVMWritePMPAddr 0 0x1000 ex_rLocked)
     = Some [0x8000001F].
Proof.
  assert (H : pmpLocked ex_rLocked 0 = true
              \/ pmpLockedTOR ex_rLocked (0 + 1) = true)
    by (left; reflexivity).
  split; [exact H|].
  destruct (riscvVMWritePMPAddr_locked ex_rLocked 0 0x1000 H)
    as (result & Hrun & _).
  rewrite Hrun. reflexivity.
Defined.

Lemma riscvVMWritePMPAddr_stores_witness :
  (validPMPAddr ex_rPMP 0 = true
   /\ 0 <= 0
   /\ (Z.to_nat 0 < length (pmpaddr ex_rPMP))%nat
   /\ pmpLocked ex_rPMP 0 = false
   /\ pmpLockedTOR ex_rPMP (0 + 1) = false)
  /\ exists result r',
       riscvVMWritePMPAddr 0 0x1000 ex_rPMP = Some (result, r')
       /\ riscvVMReadPMPAddr r' 0 = 0x1000.
Proof.
  assert (Hv : validPMPAddr ex_rPMP 0 = true) by reflexivity.
  assert (Hi : 0 <= 0) by lia.
  assert (Hl : (Z.to_nat 0 < length (pmpaddr ex_rPMP))%nat) by (cbn; lia).
  assert (Hu : pmpLocked ex_rPMP 0 = false) by reflexivity.
  assert (Hn : pmpLockedTOR ex_rPMP (0 + 1) = false) by reflexivity.
  split; [auto|].
  destruct (riscvVMWritePMPAddr_stores ex_rPMP 0 0x1000 Hv Hi Hl Hu Hn)
    as (result & r' & Hrun & _ & _ & _ & Hread).
  exists result, r'. split; [exact Hrun|].
  rewrite Hread by (reflexivity || lia). reflexivity.
Defined.

(** One implemented region, switched off. *)
Definition ex_rPMPoff : riscv := ex_withPMP ex_cfgPMP [0] [0].

Lemma mapPMP_no_active_region_witness :
  (getNumPMPs ex_rPMPoff <> 0
   /\ forall i, (i < Z.to_nat (getNumPMPs ex_rPMPoff))%nat ->
        getPMPRegionActive ex_rPMPoff
          (getPMPCFGElem ex_rPMPoff (Z.of_nat i)) (Z.of_nat i) = false)
  /\ observe (fun _ r => AFErrorIn r)
       (mapPMP RISCV_MODE_S MEM_PRIV_R 0x1000 0x1FFF ex_rPMPoff)
     = Some riscv_AFault_PMP.
Proof.
  assert (Hn : getNumPMPs ex_rPMPoff <> 0) by discriminate.
  assert (Hoff : forall i, (i < Z.to_nat (getNumPMPs ex_rPMPoff))%nat ->
            getPMPRegionActive ex_rPMPoff
              (getPMPCFGElem ex_rPMPoff (Z.of_nat i)) (Z.of_nat i) = false).
  { intros i Hi. change (Z.to_nat (getNumPMPs ex_rPMPoff)) with 1%nat in Hi.
    assert (i = 0%nat) by lia. subst i. reflexivity. }
  split; [auto|].
  destruct (mapPMP_no_active_region ex_rPMPoff RISCV_MODE_S MEM_PRIV_R
              0x1000 0x1FFF Hn Hoff) as (Hs & _).
  rewrite Hs by discriminate. reflexivity.
Defined.

Lemma ex_rPMP_effective index :
  0 <= getEffectivePMPAddr ex_rPMP index < 2 ^ 64.
Proof.
  unfold getEffectivePMPAddr. cbv zeta.
  change (PMP_grain (configInfo ex_rPMP)) with 0.
  change (2 <=? 0) with false. change (1 <=? 0) with false. cbn [andb].
  change (pmpaddr ex_rPMP) with [0x8000001F].
  destruct (Z.to_nat (Uns8 index)) as [|[|k]]; cbn [nth]; lia.
Qed.

Lemma refinePMPRegions_uniform_witness :
  (0 <= PMP_grain (configInfo ex_rPMP)
   /\ 2 <= extBits ex_rPMP <= 64
   /\ 0 <= 0x200000010 <= getAddressMask (extBits ex_rPMP))
  /\ refinePMPRegions ex_rPMP RISCV_MODE_S 0x200000010 1
       (0, getAddressMask (extBits ex_rPMP), MEM_PRIV_NONE)
     = (0x200000000, 0x2000000FF, MEM_PRIV_R)
  /\ forall x, 0x200000000 <= x <= 0x2000000FF ->
       pmpFirstMatchFrom ex_rPMP 0 1 x 0.
Proof.
  assert (HG : 0 <= PMP_grain (configInfo ex_rPMP)) by (cbn; lia).
  assert (Hext : 2 <= extBits ex_rPMP <= 64) by (cbn; lia).
  assert (HPA : 0 <= 0x200000010 <= getAddressMask (extBits ex_rPMP))
    by (vm_compute; split; discriminate).
  split; [auto|].
  assert (E : refinePMPRegions ex_rPMP RISCV_MODE_S 0x200000010 1
                (0, getAddressMask (extBits ex_rPMP), MEM_PRIV_NONE)
              = (0x200000000, 0x2000000FF, MEM_PRIV_R)) by reflexivity.
  split; [exact E|].
  pose proof (refinePMPRegions_uniform ex_rPMP RISCV_MODE_S 0x200000010 1
                MEM_PRIV_NONE HG ex_rPMP_effective Hext HPA) as H.
  rewrite E in H. destruct H as (_ & Hu & _).
  intros x Hx. apply (Hu x Hx). split; [lia|].
  split; [exact ex_rPMP_matches|]. intros j Hj. lia.
Defined.

(* ------------------------------------------------------------------------- *)
(** ** The structure of a TLB under maintenance *)

Lemma entry_set_mapped_same e : entry_set_mapped (mapped e) e = e.
Proof. destruct e; reflexivity. Qed.

Lemma entry_set_mapped_twice m1 m2 e :
  entry_set_mapped m2 (entry_set_mapped m1 e) = entry_set_mapped m2 e.
Proof. reflexivity. Qed.

Lemma length_list_set_entries {T} (l : list T) n x :
  length (list_set l n x) = length l.
Proof. apply length_list_set. Qed.

(** The TLB [id] after the entries [ds] were deleted from it, in that order:
    they have left the range table and are on the free list, newest first;
    no entry structure was allocated or released; the entry structures
    differ at most in their mapping flags, and only at [ds] and [ps]. *)
Definition removed (id : riscvTLBId) (ps ds : list tlbEntryP)
    (r r' : riscv) : Prop :=
  forall t, riscv_tlb r id = Some t ->
  exists t',
    riscv_tlb r' id = Some t'
    /\ lut t' = filter (fun q => negb (existsb (Nat.eqb q) ds)) (lut t)
    /\ free t' = (rev ds ++ free t)%list
    /\ length (entries t') = length (entries t)
    /\ (forall q, ~ In q ds -> ~ In q ps ->
          nth_error (entries t') q = nth_error (entries t) q)
    /\ (forall q e, nth_error (entries t) q = Some e ->
          exists m, nth_error (entries t') q = Some (entry_set_mapped m e)).

Lemma removed_refl id ps r : removed id ps [] r r.
Proof.
  intros t Ht. exists t. split; [exact Ht|]. cbn [existsb negb rev app].
  rewrite filter_all. repeat split; auto.
  intros q e He. exists (mapped e). rewrite entry_set_mapped_same. exact He.
Qed.

Lemma existsb_eqb_In q ds : existsb (Nat.eqb q) ds = true <-> In q ds.
Proof.
  rewrite existsb_exists. split.
  - intros (x & Hx & E). apply Nat.eqb_eq in E. subst. exact Hx.
  - intros H. exists q. split; [exact H | apply Nat.eqb_refl].
Qed.

Lemma removed_trans id ps ds1 ds2 r1 r2 r3 :
  removed id ps ds1 r1 r2 -> removed id ps ds2 r2 r3 ->
  removed id ps (ds1 ++ ds2) r1 r3.
Proof.
  intros H1 H2 t Ht.
  destruct (H1 t Ht) as (t2 & Ht2 & L2 & F2 & N2 & S2 & M2).
  destruct (H2 t2 Ht2) as (t3 & Ht3 & L3 & F3 & N3 & S3 & M3).
  exists t3. split; [exact Ht3|]. split; [|split; [|split; [|split]]].
  - rewrite L3, L2, filter_filter. apply filter_ext. intros q.
    rewrite existsb_app, negb_orb. reflexivity.
  - rewrite F3, F2, rev_app_distr, app_assoc. reflexivity.
  - congruence.
  - intros q Hd Hp. rewrite S3, S2; auto; intros Hq; apply Hd, in_or_app; auto.
  - intros q e He. destruct (M2 q e He) as (m1 & He2).
    destruct (M3 q _ He2) as (m2 & He3). exists m2. exact He3.
Qed.

Lemma removed_weaken id ps ps' ds r r' :
  incl ps ps' -> removed id ps ds r r' -> removed id ps' ds r r'.
Proof.
  intros Hi H t Ht. destruct (H t Ht) as (t' & Ht' & L & F & N & S & M).
  exists t'. repeat split; auto.
Qed.

(** The relation of a computation that only rewrites the mapping flags of the
    entry [p]. *)
Definition touched (id : riscvTLBId) (p : tlbEntryP) : riscv -> riscv -> Prop :=
  removed id [p] [].

Lemma touched_trans id p r1 r2 r3 :
  touched id p r1 r2 -> touched id p r2 r3 -> touched id p r1 r3.
Proof. intros H1 H2. apply (removed_trans id [p] [] [] r1 r2 r3 H1 H2). Qed.

Lemma touched_emit id p ev : preserves (touched id p) (emit ev).
Proof.
  intros r x r' H. inversion H; subst. intros t Ht. exists t.
  split; [exact Ht|]. cbn [existsb negb rev app]. rewrite filter_all.
  repeat split; auto.
  intros q e He. exists (mapped e). rewrite entry_set_mapped_same. exact He.
Qed.

Lemma storeEntry_touched id p e m r r' :
  derefEntry id p r = Some (e, r) ->
  storeEntry id p (entry_set_mapped m e) r = Some (tt, r') ->
  touched id p r r'.
Proof.
  intros He H. apply derefEntry_inv in He as (_ & t & Ht & He).
  unfold storeEntry, bind, getTLB, modify in H. rewrite Ht in H.
  inversion H; subst. intros t0 Ht0. assert (t0 = t) by congruence. subst t0.
  eexists. split; [unfold set_tlb; fields; rewrite riscvTLBId_eqb_refl;
                   reflexivity|].
  cbn [entries lut free existsb negb rev app]. rewrite filter_all.
  split; [reflexivity|]. split; [reflexivity|].
  split; [apply length_list_set|]. split.
  - intros q _ Hq. apply nth_error_list_set_neq. intros ->. apply Hq. left.
    reflexivity.
  - intros q e0 He0. destruct (Nat.eq_dec q p) as [->|Hq].
    + exists m. rewrite (nth_error_list_set_eq _ _ _ _ He). congruence.
    + exists (mapped e0). rewrite entry_set_mapped_same.
      rewrite nth_error_list_set_neq by congruence. exact He0.
Qed.

Lemma deleteTLBEntryMappingsMode_touched id p mode :
  preserves (touched id p) (deleteTLBEntryMappingsMode id p mode).
Proof.
  intros r x r' H. unfold deleteTLBEntryMappingsMode in H.
  apply bind_inv in H as (e & r1 & He & H).
  pose proof He as He'. apply derefEntry_inv in He' as [-> _].
  destruct (z2b (Z.land (mapped e) (getModeMask mode)));
    [|inversion H; apply removed_refl].
  unfold bind at 1, get at 1 in H.
  apply bind_inv in H as ([] & r2 & H1 & H).
  apply bind_inv in H as ([] & r3 & H2 & H).
  assert (E : derefEntry id p r3 = Some (e, r3)).
  { assert (T : riscv_tlb r3 = riscv_tlb r).
    { transitivity (riscv_tlb r2).
      - destruct (negb _ && _) in H2; inversion H2; reflexivity.
      - destruct (negb _) in H1; inversion H1; reflexivity. }
    apply derefEntry_inv in He as (_ & t & Ht & Hn).
    eapply derefEntry_run; [rewrite T; exact Ht | exact Hn]. }
  destruct x.
  eapply touched_trans; [|exact (storeEntry_touched id p e _ r3 r' E H)].
  eapply touched_trans.
  - eapply (preserves_when (touched id p)); [apply removed_refl | | exact H1].
    apply touched_emit.
  - eapply (preserves_when (touched id p)); [apply removed_refl | | exact H2].
    apply touched_emit.
Qed.

Ltac tlb_touched leaf :=
  preserve removed_refl touched_trans
    ltac:(first [ leaf | apply touched_emit ]).

Lemma unmapTLBEntry_touched id p : preserves (touched id p) (unmapTLBEntry id p).
Proof.
  unfold unmapTLBEntry.
  tlb_touched ltac:(apply deleteTLBEntryMappingsMode_touched).
Qed.

Lemma deleteTLBEntryMappingsModeASID_touched id p mode newASID :
  preserves (touched id p) (deleteTLBEntryMappingsModeASID id p mode newASID).
Proof.
  unfold deleteTLBEntryMappingsModeASID.
  tlb_touched ltac:(apply deleteTLBEntryMappingsMode_touched).
Qed.

Lemma unmapTLBEntryNewASID_touched id p newASID :
  preserves (touched id p) (unmapTLBEntryNewASID id p newASID).
Proof.
  unfold unmapTLBEntryNewASID.
  tlb_touched ltac:(apply deleteTLBEntryMappingsModeASID_touched).
Qed.

Lemma reportDeleteTLBEntry_touched id p :
  preserves (touched id p) (reportDeleteTLBEntry id p).
Proof. unfold reportDeleteTLBEntry, dumpTLBEntry. tlb_touched ltac:(fail). Qed.

(** Deletion of the entry [p]. *)
Lemma deleteTLBEntry_removed id p r r' :
  deleteTLBEntry id p r = Some (tt, r') -> removed id [p] [p] r r'.
Proof.
  intros H. unfold deleteTLBEntry in H.
  apply bind_inv in H as (e & r1 & He & H).
  apply derefEntry_inv in He as [-> _].
  apply bind_inv in H as ([] & r2 & H1 & H).
  apply bind_inv in H as ([] & r3 & H2 & H).
  assert (T : touched id p r r3).
  { eapply touched_trans.
    - eapply (preserves_when (touched id p)); [apply removed_refl | | exact H1].
      apply unmapTLBEntry_touched.
    - eapply reportDeleteTLBEntry_touched; eauto. }
  apply (removed_trans id [p] [] [p] r r3 r' T).
  intros t Ht. unfold bind, getTLB, modify in H. rewrite Ht in H.
  inversion H; subst. eexists.
  split; [unfold set_tlb; fields; rewrite riscvTLBId_eqb_refl; reflexivity|].
  cbn [entries lut free rev app existsb].
  split; [apply filter_ext; intros q; rewrite orb_false_r; reflexivity|].
  repeat split; auto.
  intros q e0 He0. exists (mapped e0). rewrite entry_set_mapped_same. exact He0.
Qed.

(* ------------------------------------------------------------------------- *)
(** ** Iteration over the entries in a range *)

(** A test of entries that does not read the mapping flags. *)
Definition flagBlind {T} (c : tlbEntry -> T) : Prop :=
  forall m e, c (entry_set_mapped m e) = c e.

Lemma flagBlind_artifact : flagBlind artifact.
Proof. intros m e. reflexivity. Qed.

Lemma flagBlind_range lo hi : flagBlind (entryInRange lo hi).
Proof. intros m e. reflexivity. Qed.

Lemma flagBlind_match VMID ASID :
  flagBlind (fun e => matchVMID VMID e && matchASID ASID e).
Proof. intros m e. reflexivity. Qed.

(** The value of a test at the entry behind a pointer, [false] when the
    pointer dangles. *)
Definition testAt (c : tlbEntry -> bool) (t : riscvTLB) (p : tlbEntryP)
  : bool :=
  match nth_error (entries t) p with
  | Some e => c e
  | None => false
  end.

Lemma rangeEntries_testAt t lo hi :
  rangeEntries t lo hi = filter (testAt (entryInRange lo hi) t) (lut t).
Proof. reflexivity. Qed.

Lemma removed_entry id ps ds r r' t t' q e' :
  removed id ps ds r r' ->
  riscv_tlb r id = Some t -> riscv_tlb r' id = Some t' ->
  nth_error (entries t') q = Some e' ->
  exists e m, nth_error (entries t) q = Some e /\ e' = entry_set_mapped m e.
Proof.
  intros H Ht Ht' He'.
  destruct (H t Ht) as (t2 & Ht2 & _ & _ & N & _ & M).
  assert (t2 = t') by congruence. subst t2.
  destruct (nth_error (entries t) q) as [e|] eqn:He.
  - destruct (M q e He) as (m & Hm). exists e, m. split; [reflexivity|].
    congruence.
  - apply nth_error_None in He. rewrite <- N in He.
    apply nth_error_None in He. congruence.
Qed.

Lemma removed_testAt {c} id ps ds r r' t t' :
  flagBlind c -> removed id ps ds r r' ->
  riscv_tlb r id = Some t -> riscv_tlb r' id = Some t' ->
  forall q, testAt c t' q = testAt c t q.
Proof.
  intros Hc H Ht Ht' q. unfold testAt.
  destruct (nth_error (entries t') q) as [e'|] eqn:He'.
  - destruct (removed_entry _ _ _ _ _ _ _ _ _ H Ht Ht' He')
      as (e & m & -> & ->). apply Hc.
  - destruct (H t Ht) as (t2 & Ht2 & _ & _ & N & _).
    assert (t2 = t') by congruence. subst t2.
    apply nth_error_None in He'. rewrite N in He'.
    apply nth_error_None in He'. rewrite He'. reflexivity.
Qed.

Lemma removed_tlb id ps ds r r' t :
  removed id ps ds r r' -> riscv_tlb r id = Some t ->
  exists t', riscv_tlb r' id = Some t'.
Proof. intros H Ht. destruct (H t Ht) as (t' & Ht' & _). eauto. Qed.

(** The body of the search for an entry. *)
Definition findBody (id : riscvTLBId) (c : tlbEntry -> bool)
    (entry : tlbEntryP) : M (option tlbEntryP) :=
  e <- derefEntry id entry;;
  if c e then ret (Some entry) else ret None.

(** The search visits a prefix [vis] of the range, deletes its artifact
    entries and stops at the first entry that passes the test. *)
Lemma iterTLBEntries_find id c (Hc : flagBlind c) : forall ps r res r' t,
  iterTLBEntries id ps (findBody id c) r = Some (res, r') ->
  riscv_tlb r id = Some t ->
  exists vis rest,
    ps = (vis ++ rest)%list
    /\ removed id vis (filter (testAt artifact t) vis) r r'
    /\ (forall p, In p vis ->
          testAt artifact t p = true \/ testAt c t p = false)
    /\ match res with
       | Some p =>
           exists e rest',
             rest = p :: rest' /\ nth_error (entries t) p = Some e
             /\ artifact e = false /\ c e = true
       | None => rest = []
       end.
Proof.
  induction ps as [|p ps IH]; intros r res r' t H Ht; cbn [iterTLBEntries] in H.
  - inversion H; subst. exists [], []. split; [reflexivity|].
    split; [apply removed_refl|]. split; [intros p []|reflexivity].
  - apply bind_inv in H as (e & r1 & He & H).
    apply derefEntry_inv in He as (-> & t0 & Ht0 & He).
    assert (t0 = t) by congruence. subst t0.
    destruct (artifact e) eqn:Ha.
    + apply bind_inv in H as ([] & r2 & Hdel & H).
      apply deleteTLBEntry_removed in Hdel.
      destruct (removed_tlb _ _ _ _ _ _ Hdel Ht) as (t2 & Ht2).
      destruct (IH _ _ _ _ H Ht2) as (vis & rest & -> & Hr & Hv & Hres).
      pose proof (removed_testAt _ _ _ _ _ _ _ flagBlind_artifact Hdel Ht Ht2)
        as Ea.
      pose proof (removed_testAt _ _ _ _ _ _ _ Hc Hdel Ht Ht2) as Ec.
      exists (p :: vis), rest. split; [reflexivity|]. split; [|split].
      * cbn [filter]. unfold testAt at 1. rewrite He, Ha.
        apply (removed_trans id (p :: vis) [p] _ r r2 r').
        -- eapply removed_weaken; [|exact Hdel].
           intros q [<-|[]]. left. reflexivity.
        -- rewrite (filter_ext _ _ Ea) in Hr.
           eapply removed_weaken; [|exact Hr]. intros q Hq. right. exact Hq.
      * intros q [<-|Hq].
        -- left. unfold testAt. rewrite He. exact Ha.
        -- rewrite <- Ea, <- Ec. auto.
      * destruct res as [q|]; [|exact Hres].
        destruct Hres as (e2 & rest' & -> & He2 & Ha2 & Hc2).
        destruct (removed_entry _ _ _ _ _ _ _ _ _ Hdel Ht Ht2 He2)
          as (e0 & m & He0 & ->).
        exists e0, rest'. rewrite Hc in Hc2. auto.
    + unfold findBody at 1 in H.
      apply bind_inv in H as (x & r2 & Hx & H).
      rewrite (bind_run _ _ _ _ _ (derefEntry_run _ _ _ _ _ Ht He)) in Hx.
      destruct (c e) eqn:Hce; inversion Hx; subst; clear Hx.
      * inversion H; subst. exists [], (p :: ps). split; [reflexivity|].
        split; [apply removed_refl|]. split; [intros q []|].
        exists e, ps. auto.
      * destruct (IH _ _ _ _ H Ht) as (vis & rest & -> & Hr & Hv & Hres).
        exists (p :: vis), rest. split; [reflexivity|]. split; [|split].
        -- cbn [filter]. unfold testAt at 1. rewrite He, Ha.
           eapply removed_weaken; [|exact Hr]. intros q Hq. right. exact Hq.
        -- intros q [<-|Hq]; [|auto]. right. unfold testAt. rewrite He.
           exact Hce.
        -- exact Hres.
Qed.

(* ------------------------------------------------------------------------- *)
(** ** The search for an entry *)

Lemma removed_lut id ps ds r r' t t' :
  removed id ps ds r r' ->
  riscv_tlb r id = Some t -> riscv_tlb r' id = Some t' ->
  forall p, In p (lut t') <-> In p (lut t) /\ ~ In p ds.
Proof.
  intros H Ht Ht' p. destruct (H t Ht) as (t2 & Ht2 & L & _).
  assert (t2 = t') by congruence. subst t2.
  rewrite L, filter_In, negb_true_iff, <- not_true_iff_false, existsb_eqb_In.
  tauto.
Qed.

Lemma entryInRange_point VA e :
  entryInRange VA VA e = true <-> lowVA e <= VA <= highVA e.
Proof. unfold entryInRange. rewrite andb_true_iff, !Z.leb_le. tauto. Qed.

Lemma findTLBEntry_found id VA r res r' t
    (Ht : riscv_tlb r id = Some t)
    (Hrun : findTLBEntry id VA r = Some (res, r')) :
  exists t',
    riscv_tlb r' id = Some t'
    /\ (forall p, In p (lut t') -> In p (lut t))
    /\ (forall p, In p (lut t) -> testAt artifact t p = false ->
                  In p (lut t'))
    /\ match res with
       | Some p =>
           exists e,
             In p (lut t') /\ nth_error (entries t') p = Some e
             /\ nth_error (entries t) p = Some e
             /\ artifact e = false
             /\ lowVA e <= VA <= highVA e
             /\ matchVMID (getActiveVMID r) e = true
             /\ matchASID (getActiveASID r) e = true
       | None =>
           forall p e,
             In p (lut t') -> nth_error (entries t') p = Some e ->
             lowVA e <= VA <= highVA e ->
             matchVMID (getActiveVMID r) e && matchASID (getActiveASID r) e
             = false
       end.
Proof.
  unfold findTLBEntry, ITER_TLB_ENTRY_RANGE in Hrun.
  unfold bind at 1, get at 1 in Hrun.
  unfold bind at 1, getTLB at 1 in Hrun. rewrite Ht in Hrun.
  set (c := fun e => matchVMID (getActiveVMID r) e
                     && matchASID (getActiveASID r) e) in *.
  change (iterTLBEntries id (rangeEntries t VA VA) (findBody id c) r
          = Some (res, r')) in Hrun.
  assert (Hc : flagBlind c) by apply flagBlind_match.
  destruct (iterTLBEntries_find id c Hc _ _ _ _ _ Hrun Ht)
    as (vis & rest & Hps & Hr & Hv & Hres).
  destruct (removed_tlb _ _ _ _ _ _ Hr Ht) as (t' & Ht').
  pose proof (removed_lut _ _ _ _ _ _ _ Hr Ht Ht') as HL.
  assert (Hds : forall p, In p (filter (testAt artifact t) vis) ->
                          testAt artifact t p = true).
  { intros p Hp. apply filter_In in Hp. tauto. }
  exists t'. split; [exact Ht'|]. split; [|split].
  - intros p Hp. apply HL in Hp. tauto.
  - intros p Hp Ha. apply HL. split; [exact Hp|]. intros Hd.
    apply Hds in Hd. congruence.
  - destruct res as [p|].
    + destruct Hres as (e & rest' & -> & He & Ha & Hce).
      assert (Hin : In p (rangeEntries t VA VA)).
      { rewrite Hps. apply in_or_app. right. left. reflexivity. }
      rewrite rangeEntries_testAt in Hin. apply filter_In in Hin as (Hl & Hrg).
      unfold testAt in Hrg. rewrite He in Hrg.
      apply entryInRange_point in Hrg.
      assert (Hnd : ~ In p (filter (testAt artifact t) vis)).
      { intros Hd. apply Hds in Hd. unfold testAt in Hd. rewrite He in Hd.
        congruence. }
      assert (Hnv : ~ In p vis).
      { intros Hp. destruct (Hv p Hp) as [Hx|Hx]; unfold testAt in Hx;
          rewrite He in Hx; congruence. }
      destruct (Hr t Ht) as (t2 & Ht2 & _ & _ & _ & S & _).
      assert (t2 = t') by congruence. subst t2.
      exists e. split; [apply HL; auto|].
      split; [rewrite (S p Hnd Hnv); exact He|].
      split; [exact He|]. split; [exact Ha|]. split; [exact Hrg|].
      apply andb_true_iff in Hce. exact Hce.
    + subst rest. rewrite app_nil_r in Hps. subst vis.
      intros p e' Hp He' Hrg.
      destruct (removed_entry _ _ _ _ _ _ _ _ _ Hr Ht Ht' He')
        as (e & m & He & ->).
      apply HL in Hp as (Hp & Hnd).
      assert (Hin : In p (rangeEntries t VA VA)).
      { rewrite rangeEntries_testAt. apply filter_In. split; [exact Hp|].
        unfold testAt. rewrite He. apply entryInRange_point. exact Hrg. }
      destruct (Hv p Hin) as [Hx|Hx].
      * exfalso. apply Hnd. apply filter_In. auto.
      * unfold testAt in Hx. rewrite He in Hx. exact Hx.
Qed.

(** X7. findTLBEntry: the search for an entry is sound and complete.  The entry
    that is returned is live, was not made by an artifact access, covers the
    address and matches the active ASID and VMID, and the search has left it
    as it was.  When no entry is returned, none of the entries that are still
    live covers the address and matches.  The search removes nothing but
    entries made by artifact accesses. *)
Theorem findTLBEntry_sound id VA r res r' t
    (Ht : riscv_tlb r id = Some t)
    (Hrun : findTLBEntry id VA r = Some (res, r')) :
  exists t',
    riscv_tlb r' id = Some t'
    /\ (forall p, In p (lut t') -> In p (lut t))
    /\ (forall p, In p (lut t) -> testAt artifact t p = false ->
                  In p (lut t'))
    /\ match res with
       | Some p =>
           exists e,
             In p (lut t') /\ nth_error (entries t') p = Some e
             /\ nth_error (entries t) p = Some e
             /\ artifact e = false
             /\ lowVA e <= VA <= highVA e
             /\ matchVMID (getActiveVMID r) e = true
             /\ matchASID (getActiveASID r) e = true
       | None =>
           forall p e,
             In p (lut t') -> nth_error (entries t') p = Some e ->
             lowVA e <= VA <= highVA e ->
             matchVMID (getActiveVMID r) e && matchASID (getActiveASID r) e
             = false
       end.
Proof. exact (findTLBEntry_found id VA r res r' t Ht Hrun). Qed.

(* ------------------------------------------------------------------------- *)
(** ** Well-formed TLBs *)

(** Is the entry tagged as an entry of TLB [id]? *)
Definition tagged (id : riscvTLBId) (e : tlbEntry) : bool :=
  riscvTLBId_eqb (tlb e) id.

(** The range table and the free list of TLB [id] hold no entry twice, share
    no entry, and together hold exactly the entry structures that were
    allocated; the entries in the range table are tagged [id]. *)
Definition tlbWF (id : riscvTLBId) (t : riscvTLB) : Prop :=
  NoDup (lut t) /\ NoDup (free t)
  /\ (forall p, In p (lut t) -> ~ In p (free t))
  /\ (forall p, (p < length (entries t))%nat <-> In p (lut t) \/ In p (free t))
  /\ (forall p, In p (lut t) -> testAt (tagged id) t p = true).

Lemma flagBlind_tagged id : flagBlind (tagged id).
Proof. intros m e. reflexivity. Qed.

Lemma removed_WF id ps ds r r' t :
  removed id ps ds r r' -> riscv_tlb r id = Some t -> tlbWF id t ->
  NoDup ds -> incl ds (lut t) ->
  exists t', riscv_tlb r' id = Some t' /\ tlbWF id t'.
Proof.
  intros H Ht (Nl & Nf & Dj & Pt & Tg) Nd Hi.
  destruct (H t Ht) as (t' & Ht' & L & F & N & _).
  pose proof (removed_lut _ _ _ _ _ _ _ H Ht Ht') as HL.
  exists t'. split; [exact Ht'|]. split; [|split; [|split; [|split]]].
  - rewrite L. apply NoDup_filter. exact Nl.
  - rewrite F. apply NoDup_app; [apply NoDup_rev; exact Nd | exact Nf |].
    intros a Ha. apply in_rev in Ha. apply Dj, Hi, Ha.
  - intros p Hp. apply HL in Hp as (Hp & Hd). rewrite F. intros Hf.
    apply in_app_or in Hf as [Hf|Hf].
    + apply in_rev in Hf. contradiction.
    + exact (Dj p Hp Hf).
  - intros p. rewrite N, Pt, HL, F, in_app_iff, <- in_rev.
    destruct (in_dec Nat.eq_dec p ds) as [Hd|Hd]; [|tauto].
    pose proof (Hi p Hd). tauto.
  - intros p Hp. apply HL in Hp as (Hp & _).
    rewrite (removed_testAt _ _ _ _ _ _ _ (flagBlind_tagged id) H Ht Ht').
    apply Tg, Hp.
Qed.

Lemma set_tlb_same id t r : riscv_tlb (set_tlb id t r) id = Some t.
Proof. unfold set_tlb. fields. rewrite riscvTLBId_eqb_refl. reflexivity. Qed.

Lemma nth_error_list_set_last {T} (l : list T) x y :
  nth_error (list_set (l ++ [x]) (length l) y) (length l) = Some y.
Proof. induction l as [|z l IH]; cbn; auto. Qed.

Lemma list_set_twice {T} (l : list T) n x y :
  list_set (list_set l n x) n y = list_set l n y.
Proof.
  revert n. induction l as [|z l IH]; intros [|n]; cbn; try reflexivity.
  rewrite IH. reflexivity.
Qed.

(** The entry structure that [allocateTLBEntry] fills from [base]. *)
Definition allocated (r : riscv) (base : tlbEntry) : tlbEntry :=
  let base := entry_set_artifact (artifactAccess r) base in
  if negb (artifact base) && DEBUG_MMU (configInfo r)
  then entry_set_simASID (getSimASID r) base else base.

(** The TLB after the allocation of an entry. *)
Definition allocatedTLB (r : riscv) (base : tlbEntry) (t : riscvTLB)
  : tlbEntryP * riscvTLB :=
  match free t with
  | p :: rest =>
      (p, {| entries := list_set (entries t) p (allocated r base);
             lut := p :: lut t; free := rest |})
  | [] =>
      (length (entries t),
       {| entries := (entries t ++ [allocated r base])%list;
          lut := length (entries t) :: lut t; free := [] |})
  end.

Lemma list_set_last {T} (l : list T) x y :
  list_set (l ++ [x]) (length l) y = (l ++ [y])%list.
Proof. induction l as [|z l IH]; cbn; [reflexivity|]. rewrite IH. reflexivity. Qed.

Lemma allocateTLBEntry_run id base attrs r t :
  riscv_tlb r id = Some t ->
  exists r',
    allocateTLBEntry id base attrs r
    = Some (fst (allocatedTLB r base t), r')
    /\ riscv_tlb r' id = Some (snd (allocatedTLB r base t))
    /\ (forall id', id' <> id -> riscv_tlb r' id' = riscv_tlb r id')
    /\ effect tlbEvent r r'.
Proof.
  intros Ht.
  unfold allocateTLBEntry, newTLBEntry, storeEntry, insertTLBEntry,
    dumpTLBEntry, getTLB, allocatedTLB, allocated.
  mon. rewrite Ht.
  destruct (free t) as [|q rest] eqn:Hf; cbn [fst snd];
    destruct (negb (artifactAccess r) && DEBUG_MMU (configInfo r)) eqn:Hdbg;
    unfold set_tlb;
    repeat progress
      (fields; rewrite ?riscvTLBId_eqb_refl, ?Hdbg;
       cbn [entries lut free artifact entry_set_artifact]);
    rewrite ?list_set_twice, ?list_set_last;
    (eexists; split; [reflexivity|]);
    repeat progress
      (fields; rewrite ?riscvTLBId_eqb_refl;
       cbn [entries lut free artifact entry_set_artifact]);
    (split; [reflexivity|]);
    (split;
     [ intros id' Hid; rewrite ?(riscvTLBId_eqb_neq _ _ Hid); reflexivity
     | split; [reflexivity|]; split; [reflexivity|]; fields;
       first [ exists []; split; [reflexivity | constructor]
             | eexists [_; _]; split;
               [reflexivity | repeat constructor] ] ]).
Qed.

Lemma tlbWF_entry id t p :
  tlbWF id t -> In p (lut t) ->
  exists e, nth_error (entries t) p = Some e /\ tlb e = id.
Proof.
  intros (_ & _ & _ & _ & Tg) Hp. specialize (Tg p Hp). unfold testAt in Tg.
  destruct (nth_error (entries t) p) as [e|]; [|discriminate Tg].
  exists e. split; [reflexivity|]. apply riscvTLBId_eqb_eq. exact Tg.
Qed.

Lemma tlb_allocated r base : tlb (allocated r base) = tlb base.
Proof.
  unfold allocated.
  destruct (negb _ && _); reflexivity.
Qed.

Lemma allocatedTLB_WF id r base t :
  tlbWF id t -> tlb base = id ->
  tlbWF id (snd (allocatedTLB r base t))
  /\ ~ In (fst (allocatedTLB r base t)) (lut t)
  /\ nth_error (entries (snd (allocatedTLB r base t)))
       (fst (allocatedTLB r base t)) = Some (allocated r base)
  /\ (forall q, q <> fst (allocatedTLB r base t) ->
        (q < length (entries t))%nat ->
        nth_error (entries (snd (allocatedTLB r base t))) q
        = nth_error (entries t) q).
Proof.
  intros (Nl & Nf & Dj & Pt & Tg) Hb. unfold allocatedTLB.
  assert (Htag : tagged id (allocated r base) = true).
  { unfold tagged. rewrite tlb_allocated, Hb. apply riscvTLBId_eqb_refl. }
  destruct (free t) as [|q rest] eqn:Hf; cbn [fst snd entries lut free].
  - assert (Hn : ~ In (length (entries t)) (lut t)).
    { intros Hin. assert (length (entries t) < length (entries t))%nat; [|lia].
      apply Pt. left. exact Hin. }
    split; [|split; [exact Hn|split]].
    + split; [|split; [|split; [|split]]]; cbn [entries lut free].
      * constructor; assumption.
      * constructor.
      * intros p _ [].
      * intros p. rewrite length_app. cbn [length In]. rewrite Nat.add_1_r.
        split.
        -- intros Hlt.
           destruct (Nat.eq_dec (length (entries t)) p) as [E|Hne];
             [left; left; exact E|].
           assert (Hp : (p < length (entries t))%nat) by lia.
           apply Pt in Hp as [Hp|Hp]; [left; right; exact Hp|].
           destruct Hp.
        -- intros [[<-|Hin]|[]]; [lia|].
           assert (Hp : (p < length (entries t))%nat) by (apply Pt; auto).
           lia.
      * intros p [<-|Hp]; unfold testAt; cbn [entries].
        -- rewrite nth_error_app2, Nat.sub_diag by lia. exact Htag.
        -- rewrite nth_error_app1 by (apply Pt; auto). apply Tg, Hp.
    + rewrite nth_error_app2, Nat.sub_diag by lia. reflexivity.
    + intros p _ Hp. apply nth_error_app1. exact Hp.
  - apply NoDup_cons_iff in Nf as (Hq & Nr).
    assert (Hlen : (q < length (entries t))%nat)
      by (apply Pt; right; left; reflexivity).
    assert (Hn : ~ In q (lut t)).
    { intros Hin. apply (Dj q Hin). left. reflexivity. }
    destruct (nth_error (entries t) q) as [e0|] eqn:He0;
      [|apply nth_error_None in He0; lia].
    split; [|split; [exact Hn|split]].
    + split; [|split; [|split; [|split]]]; cbn [entries lut free].
      * constructor; assumption.
      * exact Nr.
      * intros p [<-|Hp] Hr; [contradiction|].
        apply (Dj p Hp). right. exact Hr.
      * intros p. rewrite length_list_set, Pt. cbn [In]. tauto.
      * intros p [<-|Hp]; unfold testAt; cbn [entries].
        -- rewrite (nth_error_list_set_eq _ _ _ _ He0). exact Htag.
        -- rewrite nth_error_list_set_neq by congruence. apply Tg, Hp.
    + apply (nth_error_list_set_eq _ _ _ _ He0).
    + intros p Hp _. apply nth_error_list_set_neq. congruence.
Qed.

Lemma allocateTLBEntry_WF id base attrs r t
    (Ht : riscv_tlb r id = Some t)
    (HW : tlbWF id t)
    (Hb : tlb base = id) :
  exists p r' t',
    allocateTLBEntry id base attrs r = Some (p, r')
    /\ riscv_tlb r' id = Some t' /\ tlbWF id t'
    /\ ~ In p (lut t) /\ lut t' = p :: lut t
    /\ nth_error (entries t') p = Some (allocated r base)
    /\ (forall q, q <> p -> (q < length (entries t))%nat ->
          nth_error (entries t') q = nth_error (entries t) q)
    /\ match free t with
       | q :: rest =>
           p = q /\ free t' = rest
           /\ length (entries t') = length (entries t)
       | [] =>
           p = length (entries t) /\ free t' = []
           /\ length (entries t') = S (length (entries t))
       end.
Proof.
  destruct (allocateTLBEntry_run id base attrs r t Ht) as (r' & Hrun & Ht' & _).
  destruct (allocatedTLB_WF id r base t HW Hb) as (W' & Hn & He & Ho).
  exists (fst (allocatedTLB r base t)), r', (snd (allocatedTLB r base t)).
  split; [exact Hrun|]. split; [exact Ht'|]. split; [exact W'|].
  split; [exact Hn|]. split; [|split; [exact He|split; [exact Ho|]]].
  - unfold allocatedTLB. destruct (free t); reflexivity.
  - unfold allocatedTLB. destruct (free t) as [|q rest]; cbn [fst snd entries free].
    + split; [reflexivity|]. split; [reflexivity|].
      rewrite length_app. cbn [length]. lia.
    + split; [reflexivity|]. split; [reflexivity|]. apply length_list_set.
Qed.

(** X8. allocateTLBEntry: allocation in a well-formed TLB returns, and leaves
    the TLB well-formed.  The entry that is returned was not live before
    and is now, it holds the base object with the artifact flag of the access,
    and the other entries are as they were.  The entry structure is taken
    from the free list when there is one, and only otherwise is a new one
    made. *)
Theorem allocateTLBEntry_wellformed id base attrs r t
    (Ht : riscv_tlb r id = Some t)
    (HW : tlbWF id t)
    (Hb : tlb base = id) :
  exists p r' t',
    allocateTLBEntry id base attrs r = Some (p, r')
    /\ riscv_tlb r' id = Some t' /\ tlbWF id t'
    /\ ~ In p (lut t) /\ lut t' = p :: lut t
    /\ nth_error (entries t') p = Some (allocated r base)
    /\ (forall q, q <> p -> (q < length (entries t))%nat ->
          nth_error (entries t') q = nth_error (entries t) q)
    /\ match free t with
       | q :: rest =>
           p = q /\ free t' = rest
           /\ length (entries t') = length (entries t)
       | [] =>
           p = length (entries t) /\ free t' = []
           /\ length (entries t') = S (length (entries t))
       end.
Proof. exact (allocateTLBEntry_WF id base attrs r t Ht HW Hb). Qed.

(** X9. deleteTLBEntry: deletion of a live entry of a well-formed TLB returns,
    and leaves the TLB well-formed.  The entry has left the range table, the
    other live entries stay, and its structure heads the free list, so that
    the next allocation returns it and makes no new structure. *)
Theorem deleteTLBEntry_wellformed id p r t
    (Ht : riscv_tlb r id = Some t)
    (HW : tlbWF id t)
    (Hp : In p (lut t))
    (Hid : id <> RISCV_TLB_LAST) :
  exists r' t',
    deleteTLBEntry id p r = Some (tt, r')
    /\ riscv_tlb r' id = Some t' /\ tlbWF id t'
    /\ (forall q, In q (lut t') <-> In q (lut t) /\ q <> p)
    /\ free t' = p :: free t
    /\ length (entries t') = length (entries t)
    /\ forall base attrs,
         tlb base = id ->
         exists r'' t'',
           allocateTLBEntry id base attrs r' = Some (p, r'')
           /\ riscv_tlb r'' id = Some t''
           /\ length (entries t'') = length (entries t)
           /\ free t'' = free t.
Proof.
  destruct (tlbWF_entry id t p HW Hp) as (e & He & Hk).
  assert (HI : entryAt id p (tlb e) (lut t) (free t) r)
    by (exists t, e; auto).
  assert (Hk' : tlb e <> RISCV_TLB_LAST) by congruence.
  destruct (deleteTLBEntry_total id p (tlb e) (lut t) (free t) Hk' r HI)
    as ([] & r' & Hrun & _).
  pose proof (deleteTLBEntry_removed id p r r' Hrun) as Hr.
  assert (Nd : NoDup [p]) by (constructor; [intros []|constructor]).
  assert (Hi : incl [p] (lut t)) by (intros q [<-|[]]; exact Hp).
  destruct (removed_WF id [p] [p] r r' t Hr Ht HW Nd Hi) as (t' & Ht' & W').
  pose proof (removed_lut _ _ _ _ _ _ _ Hr Ht Ht') as HL.
  destruct (Hr t Ht) as (t2 & Ht2 & _ & F & N & _).
  assert (t2 = t') by congruence. subst t2. cbn [rev app] in F.
  exists r', t'. split; [exact Hrun|]. split; [exact Ht'|].
  split; [exact W'|]. split; [|split; [exact F|split; [exact N|]]].
  - intros q. rewrite HL. cbn [In]. split.
    + intros (Hq & Hn). split; [exact Hq|]. intros ->. apply Hn. auto.
    + intros (Hq & Hn). split; [exact Hq|]. intros [E|[]]. congruence.
  - intros base attrs Hb.
    destruct (allocateTLBEntry_WF id base attrs r' t' Ht' W' Hb)
      as (p2 & r'' & t'' & Ha & Ht'' & _ & _ & _ & _ & _ & Hfree).
    rewrite F in Hfree. destruct Hfree as (-> & Hf & Hl).
    exists r'', t''. split; [exact Ha|]. split; [exact Ht''|].
    split; congruence.
Qed.

(* ------------------------------------------------------------------------- *)
(** ** Invalidation of a range *)

(** Is the entry deleted under the passed matchMode?  (The test made by
    [deleteTLBEntryMode].) *)
Definition deleteMatch (r : riscv) (mode : matchMode) (ASID : Z)
    (e : tlbEntry) : bool :=
  match mode with
  | MM_ANY => true
  | MM_ASID =>
      if negb (matchVMID (hgatp_VMID (csr r)) e) then false
      else if negb (z2b (getASIDMask r)) then true
      else negb (G e) && matchASID ASID e
  end.

Lemma deleteTLBEntryMode_unfold id p mode ASID :
  deleteTLBEntryMode id p mode ASID
  = (e <- derefEntry id p;;
     r <- get;;
     when (deleteMatch r mode ASID e) (deleteTLBEntry id p)).
Proof. reflexivity. Qed.

Lemma deleteMatch_sameHart r r' mode ASID e :
  sameHart r r' -> deleteMatch r' mode ASID e = deleteMatch r mode ASID e.
Proof.
  intros S. apply sameHart_fields in S as (Hc & Hcfg & _).
  unfold deleteMatch, getASIDMask. rewrite Hc, Hcfg. reflexivity.
Qed.

(** Does the iteration with the passed matchMode delete the entry? *)
Definition gone (r : riscv) (mode : matchMode) (ASID : Z) (e : tlbEntry)
  : bool :=
  artifact e || deleteMatch r mode ASID e.

Lemma flagBlind_gone r mode ASID : flagBlind (gone r mode ASID).
Proof. intros m e. destruct mode; reflexivity. Qed.

(** The entry can be unmapped: it is tagged with one of the TLBs. *)
Definition isLive (e : tlbEntry) : bool :=
  negb (riscvTLBId_eqb (tlb e) RISCV_TLB_LAST).

Lemma flagBlind_isLive : flagBlind isLive.
Proof. intros m e. reflexivity. Qed.

Definition invalidateBody (id : riscvTLBId) (mode : matchMode) (ASID : Z)
    (entry : tlbEntryP) : M (option unit) :=
  deleteTLBEntryMode id entry mode ASID;; ret None.

(** One step of the iteration: the entry is deleted or the state is kept. *)
Lemma invalidate_step id mode ASID r0 p e r t :
  sameHart r0 r ->
  riscv_tlb r id = Some t -> nth_error (entries t) p = Some e ->
  forall (c : M (option unit)) res r',
    (if artifact e then deleteTLBEntry id p;; c
     else x <- invalidateBody id mode ASID p;;
          match x with Some v => ret (Some v) | None => c end) r
    = Some (res, r') ->
    exists r1,
      c r1 = Some (res, r') /\ sameHart r0 r1
      /\ (if gone r0 mode ASID e then removed id [p] [p] r r1 else r1 = r).
Proof.
  intros S Ht He c res r' H. unfold gone.
  destruct (artifact e) eqn:Ha; cbn [orb].
  - apply bind_inv in H as ([] & r1 & Hd & H). exists r1.
    split; [exact H|]. split.
    + eapply sameHart_trans; [exact S|].
      eapply tlbFrame_sameHart, deleteTLBEntry_frame, Hd.
    + apply deleteTLBEntry_removed, Hd.
  - apply bind_inv in H as (x & r1 & Hb & H).
    unfold invalidateBody in Hb. apply bind_inv in Hb as ([] & r2 & Hd & Hx).
    inversion Hx; subst x r2. clear Hx.
    rewrite deleteTLBEntryMode_unfold in Hd.
    rewrite (bind_run _ _ _ _ _ (derefEntry_run _ _ _ _ _ Ht He)) in Hd.
    unfold bind at 1, get at 1 in Hd.
    rewrite (deleteMatch_sameHart r0 r _ _ _ S) in Hd.
    exists r1. split; [exact H|].
    destruct (deleteMatch r0 mode ASID e); cbn [when] in Hd.
    + split.
      * eapply sameHart_trans; [exact S|].
        eapply tlbFrame_sameHart, deleteTLBEntry_frame, Hd.
      * apply deleteTLBEntry_removed, Hd.
    + inversion Hd; subst. auto.
Qed.

Lemma iterTLBEntries_invalidate id mode ASID r0 : forall ps r res r' t,
  sameHart r0 r ->
  iterTLBEntries id ps (invalidateBody id mode ASID) r = Some (res, r') ->
  riscv_tlb r id = Some t ->
  let ds := filter (testAt (gone r0 mode ASID) t) ps in
  removed id ds ds r r' /\ sameHart r0 r' /\ res = None.
Proof.
  induction ps as [|p ps IH]; intros r res r' t S H Ht;
    cbn [iterTLBEntries] in H.
  - inversion H; subst. cbn. split; [apply removed_refl|]. auto.
  - apply bind_inv in H as (e & r1 & He & H).
    apply derefEntry_inv in He as (-> & t0 & Ht0 & He).
    assert (t0 = t) by congruence. subst t0.
    apply (invalidate_step id mode ASID r0 p e r t S Ht He) in H
      as (r1 & H & S1 & Hstep).
    assert (Ef : filter (testAt (gone r0 mode ASID) t) (p :: ps)
                 = if gone r0 mode ASID e
                   then p :: filter (testAt (gone r0 mode ASID) t) ps
                   else filter (testAt (gone r0 mode ASID) t) ps).
    { cbn [filter]. unfold testAt at 1. rewrite He. reflexivity. }
    cbv zeta. rewrite Ef. clear Ef.
    destruct (gone r0 mode ASID e) eqn:Hg.
    + destruct (removed_tlb _ _ _ _ _ _ Hstep Ht) as (t1 & Ht1).
      destruct (IH _ _ _ _ S1 H Ht1) as (Hr & S' & Hres).
      rewrite (filter_ext _ _
                 (removed_testAt _ _ _ _ _ _ _
                    (flagBlind_gone r0 mode ASID) Hstep Ht Ht1)) in Hr.
      split; [|auto].
      refine (removed_trans id _ [p]
                (filter (testAt (gone r0 mode ASID) t) ps) r r1 r' _ _).
      * eapply removed_weaken; [|exact Hstep]. intros q [<-|[]]. left.
        reflexivity.
      * eapply removed_weaken; [|exact Hr]. intros q Hq. right. exact Hq.
    + subst r1. apply (IH _ _ _ _ S1 H Ht).
Qed.

(** The iteration returns when the entries in the range can be unmapped. *)
Lemma iterTLBEntries_invalidate_total id mode ASID : forall ps r t,
  riscv_tlb r id = Some t ->
  (forall p, In p ps -> testAt isLive t p = true) ->
  exists res r',
    iterTLBEntries id ps (invalidateBody id mode ASID) r = Some (res, r').
Proof.
  induction ps as [|p ps IH]; intros r t Ht Hl; cbn [iterTLBEntries].
  - eexists _, _. reflexivity.
  - assert (Hp := Hl p (or_introl eq_refl)). unfold testAt in Hp.
    destruct (nth_error (entries t) p) as [e|] eqn:He; [|discriminate Hp].
    rewrite (bind_run _ _ _ _ _ (derefEntry_run _ _ _ _ _ Ht He)).
    assert (Hk : tlb e <> RISCV_TLB_LAST).
    { intros E. unfold isLive in Hp. rewrite E in Hp. discriminate Hp. }
    assert (HI : entryAt id p (tlb e) (lut t) (free t) r)
      by (exists t, e; auto).
    destruct (deleteTLBEntry_total id p (tlb e) (lut t) (free t) Hk r HI)
      as ([] & rd & Hd & _).
    assert (Hnext : exists res r',
               iterTLBEntries id ps (invalidateBody id mode ASID) rd
               = Some (res, r')).
    { pose proof (deleteTLBEntry_removed id p r rd Hd) as Hr.
      destruct (removed_tlb _ _ _ _ _ _ Hr Ht) as (td & Htd).
      apply (IH rd td Htd). intros q Hq.
      rewrite (removed_testAt _ _ _ _ _ _ _ flagBlind_isLive Hr Ht Htd).
      apply Hl. right. exact Hq. }
    assert (Hsame : exists res r',
               iterTLBEntries id ps (invalidateBody id mode ASID) r
               = Some (res, r')).
    { apply (IH r t Ht). intros q Hq. apply Hl. right. exact Hq. }
    destruct (artifact e).
    + unfold bind at 1. rewrite Hd. exact Hnext.
    + unfold invalidateBody at 1. rewrite deleteTLBEntryMode_unfold.
      unfold bind at 1. unfold bind at 1.
      rewrite (bind_run _ _ _ _ _ (derefEntry_run _ _ _ _ _ Ht He)).
      unfold bind at 1, get at 1.
      destruct (deleteMatch r mode ASID e); cbn [when].
      * rewrite Hd. unfold ret at 1. cbv beta iota. exact Hnext.
      * unfold ret at 1 2. cbv beta iota. exact Hsame.
Qed.

Lemma tlbWF_live id t :
  id <> RISCV_TLB_LAST -> tlbWF id t ->
  forall p, In p (lut t) -> testAt isLive t p = true.
Proof.
  intros Hid HW p Hp. destruct (tlbWF_entry id t p HW Hp) as (e & He & Hk).
  unfold testAt, isLive. rewrite He, Hk, riscvTLBId_eqb_neq by exact Hid.
  reflexivity.
Qed.

Lemma testAt_andb c1 c2 t p :
  testAt (fun e => c1 e && c2 e) t p = testAt c1 t p && testAt c2 t p.
Proof. unfold testAt. destruct (nth_error (entries t) p); reflexivity. Qed.

Lemma filter_nil_sub {T} (f g : T -> bool) l :
  (forall x, g x = true -> f x = true) -> filter f l = [] -> filter g l = [].
Proof.
  intros Hfg. induction l as [|x l IH]; cbn; [reflexivity|].
  destruct (f x) eqn:Hf; [discriminate|]. intros H.
  destruct (g x) eqn:Hg; [|auto]. rewrite (Hfg x Hg) in Hf. discriminate Hf.
Qed.

Lemma rangeEntries_sub t lo hi VA :
  lo <= VA <= hi -> rangeEntries t lo hi = [] -> rangeEntries t VA VA = [].
Proof.
  intros HVA. rewrite !rangeEntries_testAt. apply filter_nil_sub.
  intros p. unfold testAt. destruct (nth_error (entries t) p) as [e|]; auto.
  unfold entryInRange. rewrite !andb_true_iff, !Z.leb_le. lia.
Qed.

Lemma findTLBEntry_empty id VA r t :
  riscv_tlb r id = Some t -> rangeEntries t VA VA = [] ->
  findTLBEntry id VA r = Some (None, r).
Proof.
  intros Ht He. unfold findTLBEntry, ITER_TLB_ENTRY_RANGE.
  unfold bind at 1, get at 1. unfold bind at 1, getTLB at 1.
  rewrite Ht, He. reflexivity.
Qed.

Lemma invalidateTLBEntriesRange_WF id lo hi mode ASID r t :
  riscv_tlb r id = Some t -> tlbWF id t -> id <> RISCV_TLB_LAST ->
  exists r' t',
    invalidateTLBEntriesRange id lo hi mode ASID r = Some (tt, r')
    /\ riscv_tlb r' id = Some t' /\ tlbWF id t'
    /\ (forall p, In p (lut t') <->
          In p (lut t)
          /\ testAt (fun e => entryInRange lo hi e && gone r mode ASID e) t p
             = false)
    /\ (forall p, In p (lut t') ->
          nth_error (entries t') p = nth_error (entries t) p)
    /\ (mode = MM_ANY -> rangeEntries t' lo hi = [])
    /\ (forall id', id' <> id -> riscv_tlb r' id' = riscv_tlb r id')
    /\ sameHart r r'.
Proof.
  intros Ht HW Hid.
  set (ps := rangeEntries t lo hi).
  assert (Hps : forall p, In p ps <->
                  In p (lut t) /\ testAt (entryInRange lo hi) t p = true).
  { intros p. unfold ps. rewrite rangeEntries_testAt. apply filter_In. }
  destruct (iterTLBEntries_invalidate_total id mode ASID ps r t Ht)
    as (res & r' & Hit).
  { intros p Hp. apply Hps in Hp as (Hp & _).
    apply (tlbWF_live id t Hid HW p Hp). }
  assert (Hrun : invalidateTLBEntriesRange id lo hi mode ASID r
                 = Some (tt, r')).
  { unfold invalidateTLBEntriesRange, ITER_TLB_ENTRY_RANGE.
    unfold bind at 1, get at 1. rewrite Ht.
    unfold bind at 1. unfold bind at 1, getTLB at 1. rewrite Ht.
    fold ps. change (fun entry => _) with (invalidateBody id mode ASID).
    rewrite Hit. reflexivity. }
  destruct (iterTLBEntries_invalidate id mode ASID r ps r res r' t
              (sameHart_refl r) Hit Ht) as (Hr & S & _).
  cbv zeta in Hr. set (ds := filter (testAt (gone r mode ASID) t) ps) in Hr.
  assert (Hds : forall p, In p ds <->
                  In p (lut t) /\ testAt (entryInRange lo hi) t p = true
                  /\ testAt (gone r mode ASID) t p = true).
  { intros p. unfold ds. rewrite filter_In, Hps. tauto. }
  assert (Nd : NoDup ds).
  { unfold ds, ps. rewrite rangeEntries_testAt.
    apply NoDup_filter, NoDup_filter, HW. }
  assert (Hi : incl ds (lut t)) by (intros p Hp; apply Hds in Hp; tauto).
  destruct (removed_WF id ds ds r r' t Hr Ht HW Nd Hi) as (t' & Ht' & W').
  pose proof (removed_lut _ _ _ _ _ _ _ Hr Ht Ht') as HL.
  assert (Hlut : forall p, In p (lut t') <->
            In p (lut t)
            /\ testAt (fun e => entryInRange lo hi e && gone r mode ASID e) t p
               = false).
  { intros p. rewrite HL, Hds, testAt_andb.
    destruct (testAt (entryInRange lo hi) t p),
      (testAt (gone r mode ASID) t p); cbn [andb]; intuition congruence. }
  exists r', t'. split; [exact Hrun|]. split; [exact Ht'|].
  split; [exact W'|]. split; [exact Hlut|].
  split; [|split; [|split; [|exact S]]].
  - intros p Hp. apply HL in Hp as (_ & Hn).
    destruct (Hr t Ht) as (t2 & Ht2 & _ & _ & _ & Same & _).
    assert (t2 = t') by congruence. subst t2. apply Same; exact Hn.
  - intros ->. rewrite rangeEntries_testAt. apply filter_none.
    apply Forall_forall. intros p Hp.
    rewrite (removed_testAt _ _ _ _ _ _ _ (flagBlind_range lo hi) Hr Ht Ht').
    apply Hlut in Hp as (_ & Hp). rewrite testAt_andb in Hp.
    destruct (testAt (entryInRange lo hi) t p) eqn:E; [|reflexivity].
    cbn [andb] in Hp. unfold testAt in E, Hp.
    destruct (nth_error (entries t) p) as [e|]; [|discriminate E].
    unfold gone, deleteMatch in Hp. rewrite orb_true_r in Hp.
    discriminate Hp.
  - apply (invalidateTLBEntriesRange_frame id lo hi mode ASID r tt r' Hrun).
Qed.

(** X10. invalidateTLBEntriesRange: the invalidation of a range in a well-formed
    TLB returns and leaves the TLB well-formed.  The entries that leave the
    range table are exactly those that overlap the range and either were made
    by an artifact access or are selected by the match mode; the entries that
    stay are unchanged.  With MM_ANY no live entry overlaps the range
    afterwards.  The other TLBs and the registers of the hart are kept. *)
Theorem invalidateTLBEntriesRange_exact id lo hi mode ASID r t
    (Ht : riscv_tlb r id = Some t)
    (HW : tlbWF id t)
    (Hid : id <> RISCV_TLB_LAST) :
  exists r' t',
    invalidateTLBEntriesRange id lo hi mode ASID r = Some (tt, r')
    /\ riscv_tlb r' id = Some t' /\ tlbWF id t'
    /\ (forall p, In p (lut t') <->
          In p (lut t)
          /\ testAt (fun e => entryInRange lo hi e && gone r mode ASID e) t p
             = false)
    /\ (forall p, In p (lut t') ->
          nth_error (entries t') p = nth_error (entries t) p)
    /\ (mode = MM_ANY -> rangeEntries t' lo hi = [])
    /\ (forall id', id' <> id -> riscv_tlb r' id' = riscv_tlb r id')
    /\ sameHart r r'.
Proof. exact (invalidateTLBEntriesRange_WF id lo hi mode ASID r t Ht HW Hid). Qed.

Lemma getS1TLBId_not_LAST r : getS1TLBId r <> RISCV_TLB_LAST.
Proof. unfold getS1TLBId. destruct (inVMode r); discriminate. Qed.

(** X11. riscvVMInvalidateVA, riscvVMInvalidateAll: after the fence for an
    address, the search for an entry for that address in the stage 1 TLB
    finds none and changes nothing; after the fence for all addresses this
    holds for every address. *)
Theorem riscvVMInvalidate_then_miss r t
    (Ht : riscv_tlb r (getS1TLBId r) = Some t)
    (HW : tlbWF (getS1TLBId r) t) :
  (forall VA, exists r',
     riscvVMInvalidateVA VA r = Some (tt, r')
     /\ findTLBEntry (getS1TLBId r) VA r' = Some (None, r'))
  /\ exists r',
       riscvVMInvalidateAll r = Some (tt, r')
       /\ forall VA, 0 <= VA <= RISCV_MAX_ADDR ->
            findTLBEntry (getS1TLBId r) VA r' = Some (None, r').
Proof.
  split.
  - intros VA.
    destruct (invalidateTLBEntriesRange_WF (getS1TLBId r) VA VA MM_ANY 0 r t
                Ht HW (getS1TLBId_not_LAST r))
      as (r' & t' & Hrun & Ht' & _ & _ & _ & He & _).
    exists r'. split; [exact Hrun|].
    apply (findTLBEntry_empty _ _ _ t' Ht'). apply He. reflexivity.
  - destruct (invalidateTLBEntriesRange_WF (getS1TLBId r) 0 RISCV_MAX_ADDR
                MM_ANY 0 r t Ht HW (getS1TLBId_not_LAST r))
      as (r' & t' & Hrun & Ht' & _ & _ & _ & He & _).
    exists r'. split; [exact Hrun|]. intros VA HVA.
    apply (findTLBEntry_empty _ _ _ t' Ht').
    apply (rangeEntries_sub t' 0 RISCV_MAX_ADDR VA HVA). apply He. reflexivity.
Qed.

(* ------------------------------------------------------------------------- *)
(** ** Translation keeps the TLBs well-formed *)

(** Every TLB of [r] is a TLB of [r'], well-formed when it was. *)
Definition keepsWF (r r' : riscv) : Prop :=
  forall id t,
    riscv_tlb r id = Some t ->
    exists t', riscv_tlb r' id = Some t' /\ (tlbWF id t -> tlbWF id t').

Lemma keepsWF_refl r : keepsWF r r.
Proof. intros id t Ht. exists t. auto. Qed.

Lemma keepsWF_trans r1 r2 r3 : keepsWF r1 r2 -> keepsWF r2 r3 -> keepsWF r1 r3.
Proof.
  intros H1 H2 id t Ht. destruct (H1 id t Ht) as (t2 & Ht2 & W2).
  destruct (H2 id t2 Ht2) as (t3 & Ht3 & W3). exists t3. auto.
Qed.

Lemma keepsWF_same r r' : riscv_tlb r' = riscv_tlb r -> keepsWF r r'.
Proof. intros E id t Ht. exists t. rewrite E. auto. Qed.

Lemma keepsWF_at id r r' :
  (forall id', id' <> id -> riscv_tlb r' id' = riscv_tlb r id') ->
  (forall t, riscv_tlb r id = Some t ->
     exists t', riscv_tlb r' id = Some t' /\ (tlbWF id t -> tlbWF id t')) ->
  keepsWF r r'.
Proof.
  intros Ho Hid id0 t0 Ht0.
  destruct (riscvTLBId_eqb id0 id) eqn:E.
  - apply riscvTLBId_eqb_eq in E. subst id0. apply Hid, Ht0.
  - exists t0. rewrite Ho; [auto|]. intros ->.
    rewrite riscvTLBId_eqb_refl in E. discriminate E.
Qed.

Lemma tlbFrame_others id r r' :
  tlbFrame id r r' ->
  forall id', id' <> id -> riscv_tlb r' id' = riscv_tlb r id'.
Proof. intros (_ & O & _). exact O. Qed.

Lemma removed_keepsWF id ps ds r r' :
  tlbFrame id r r' -> removed id ps ds r r' ->
  (forall t, riscv_tlb r id = Some t -> tlbWF id t ->
             NoDup ds /\ incl ds (lut t)) ->
  keepsWF r r'.
Proof.
  intros F H Hds. apply (keepsWF_at id); [apply (tlbFrame_others _ _ _ F)|].
  intros t Ht. destruct (removed_tlb _ _ _ _ _ _ H Ht) as (t' & Ht').
  exists t'. split; [exact Ht'|]. intros HW.
  destruct (Hds t Ht HW) as (Nd & Hi).
  destruct (removed_WF id ps ds r r' t H Ht HW Nd Hi) as (t2 & Ht2 & W2).
  congruence.
Qed.

Lemma touched_keeps {T} id p (c : M T) :
  preserves (tlbFrame id) c -> preserves (touched id p) c ->
  preserves keepsWF c.
Proof.
  intros F Tc r x r' H.
  apply (removed_keepsWF id [p] [] r r' (F _ _ _ H) (Tc _ _ _ H)).
  intros t _ _. split; [constructor | intros q []].
Qed.

Lemma preserves_emit_keeps ev : preserves keepsWF (emit ev).
Proof. intros r x r' H. inversion H; subst. apply keepsWF_same. reflexivity. Qed.

Lemma preserves_modify_keeps (f : riscv -> riscv) :
  (forall r, riscv_tlb (f r) = riscv_tlb r) -> preserves keepsWF (modify f).
Proof. intros Hf r x r' H. inversion H; subst. apply keepsWF_same, Hf. Qed.

Lemma storeEntry_keeps id p e e' r r' :
  derefEntry id p r = Some (e, r) -> tlb e' = tlb e ->
  storeEntry id p e' r = Some (tt, r') -> keepsWF r r'.
Proof.
  intros He Hk H. apply derefEntry_inv in He as (_ & t & Ht & He).
  unfold storeEntry, bind, getTLB, modify in H. rewrite Ht in H.
  inversion H; subst. clear H. apply (keepsWF_at id).
  - intros id' Hid. unfold set_tlb. fields.
    rewrite riscvTLBId_eqb_neq by exact Hid. reflexivity.
  - intros t0 Ht0. assert (t0 = t) by congruence. subst t0.
    eexists. split; [apply set_tlb_same|].
    intros (Nl & Nf & Dj & Pt & Tg).
    split; [exact Nl|]. split; [exact Nf|]. split; [exact Dj|].
    cbn [entries lut free]. split.
    + intros q. rewrite length_list_set. apply Pt.
    + intros q Hq. specialize (Tg q Hq). unfold testAt in *. cbn [entries].
      destruct (Nat.eq_dec p q) as [<-|Hne].
      * rewrite (nth_error_list_set_eq _ _ _ _ He). rewrite He in Tg.
        unfold tagged in *. rewrite Hk. exact Tg.
      * rewrite nth_error_list_set_neq by exact Hne. exact Tg.
Qed.

Ltac keeps_wf leaf :=
  preserve keepsWF_refl keepsWF_trans
    ltac:(first
      [ leaf
      | apply preserves_emit_keeps
      | apply preserves_modify_keeps; intros ?; reflexivity ]).

Lemma unmapTLBEntryNewASID_keeps id p newASID :
  preserves keepsWF (unmapTLBEntryNewASID id p newASID).
Proof.
  apply (touched_keeps id p);
    [apply unmapTLBEntryNewASID_frame | apply unmapTLBEntryNewASID_touched].
Qed.

Lemma deleteTLBEntry_keeps id p r r' :
  deleteTLBEntry id p r = Some (tt, r') ->
  (forall t, riscv_tlb r id = Some t -> In p (lut t)) ->
  keepsWF r r'.
Proof.
  intros H Hp.
  apply (removed_keepsWF id [p] [p] r r' (deleteTLBEntry_frame _ _ _ _ _ H)
           (deleteTLBEntry_removed _ _ _ _ H)).
  intros t Ht _. split.
  - constructor; [intros []|constructor].
  - intros q [<-|[]]. apply Hp, Ht.
Qed.

Lemma NoDup_app_l {T} (l1 l2 : list T) : NoDup (l1 ++ l2) -> NoDup l1.
Proof.
  induction l1 as [|x l1 IH]; cbn; intros H; [constructor|].
  apply NoDup_cons_iff in H as (Hx & H). constructor; [|auto].
  intros Hin. apply Hx, in_or_app. auto.
Qed.

Lemma findTLBEntry_keeps id VA r res r' :
  findTLBEntry id VA r = Some (res, r') ->
  keepsWF r r'
  /\ forall p t', res = Some p -> riscv_tlb r' id = Some t' -> In p (lut t').
Proof.
  intros H. pose proof (findTLBEntry_frame id VA r res r' H) as F.
  unfold findTLBEntry, ITER_TLB_ENTRY_RANGE in H.
  unfold bind at 1, get at 1 in H.
  apply bind_inv in H as (t & r1 & Ht & H).
  unfold getTLB in Ht. destruct (riscv_tlb r id) as [t0|] eqn:Ht0;
    [|discriminate Ht]. inversion Ht; subst t0 r1. clear Ht.
  set (c := fun e => matchVMID (getActiveVMID r) e
                     && matchASID (getActiveASID r) e) in *.
  change (iterTLBEntries id (rangeEntries t VA VA) (findBody id c) r
          = Some (res, r')) in H.
  destruct (iterTLBEntries_find id c (flagBlind_match _ _) _ _ _ _ _ H Ht0)
    as (vis & rest & Hps & Hr & Hv & Hres).
  assert (Hin : forall p, In p (vis ++ rest) -> In p (lut t)).
  { intros p Hp. rewrite <- Hps, rangeEntries_testAt in Hp.
    apply filter_In in Hp. tauto. }
  split.
  - apply (removed_keepsWF id _ _ r r' F Hr).
    intros t1 Ht1 HW. assert (t1 = t) by congruence. subst t1. split.
    + apply NoDup_filter. apply (NoDup_app_l vis rest). rewrite <- Hps.
      rewrite rangeEntries_testAt. apply NoDup_filter, HW.
    + intros p Hp. apply filter_In in Hp as (Hp & _).
      apply Hin, in_or_app. auto.
  - intros p t' -> Ht'.
    destruct Hres as (e & rest' & -> & He & Ha & _).
    apply (removed_lut _ _ _ _ _ _ _ Hr Ht0 Ht'). split.
    + apply Hin, in_or_app. right. left. reflexivity.
    + intros Hd. apply filter_In in Hd as (_ & Hd). unfold testAt in Hd.
      rewrite He in Hd. congruence.
Qed.

Lemma validateTLBEntryPriv_keeps mode entry requiredPriv attrs mi r res mi' r' :
  validateTLBEntryPriv mode entry requiredPriv attrs mi r
  = Some ((res, mi'), r') ->
  (forall p t, entry = Some p -> riscv_tlb r (activeTLB r) = Some t ->
               In p (lut t)) ->
  keepsWF r r'
  /\ forall p t', res = Some p -> riscv_tlb r' (activeTLB r) = Some t' ->
                  In p (lut t').
Proof.
  intros H Hp. unfold validateTLBEntryPriv in H. destruct entry as [p|].
  - unfold bind at 1, get at 1 in H.
    apply bind_inv in H as (e & r1 & He & H).
    apply derefEntry_inv in He as [-> _].
    destruct (negb (z2b (checkEntryPermission r mode e requiredPriv))).
    { inversion H; subst. split; [apply keepsWF_refl|]. discriminate. }
    destruct (z2b (Z.land requiredPriv MEM_PRIV_W) && negb (D e)).
    + apply bind_inv in H as ([] & r2 & Hdel & H). inversion H; subst.
      split; [|discriminate].
      apply (deleteTLBEntry_keeps _ _ _ _ Hdel). intros t Ht.
      apply (Hp p t eq_refl Ht).
    + inversion H; subst. split; [apply keepsWF_refl|].
      intros q t' Hq Ht'. inversion Hq; subst q. apply (Hp p t' eq_refl Ht').
  - inversion H; subst. split; [apply keepsWF_refl|]. discriminate.
Qed.

Lemma allocateTLBEntry_keeps id base attrs r p r' :
  allocateTLBEntry id base attrs r = Some (p, r') ->
  tlb base = id ->
  keepsWF r r'
  /\ forall t', riscv_tlb r' id = Some t' -> In p (lut t').
Proof.
  intros H Hb. destruct (riscv_tlb r id) as [t|] eqn:Ht.
  - destruct (allocateTLBEntry_run id base attrs r t Ht)
      as (r2 & Hrun & Ht2 & Ho & _).
    rewrite Hrun in H. inversion H; subst p r2. clear H. split.
    + apply (keepsWF_at id); [exact Ho|]. intros t0 Ht0.
      assert (t0 = t) by congruence. subst t0.
      eexists. split; [exact Ht2|]. intros HW.
      apply (allocatedTLB_WF id r base t HW Hb).
    + intros t' Ht'. rewrite Ht2 in Ht'. inversion Ht'; subst t'.
      unfold allocatedTLB. destruct (free t); left; reflexivity.
  - unfold allocateTLBEntry, newTLBEntry in H. unfold bind at 1 in H.
    unfold bind at 1, getTLB at 1 in H. rewrite Ht in H. discriminate H.
Qed.

Lemma findOrCreateTLBEntry_keeps mode attrs mi :
  preserves keepsWF (findOrCreateTLBEntry mode attrs mi).
Proof.
  intros r [res mi'] r' H. unfold findOrCreateTLBEntry in H.
  unfold bind at 1, gets at 1 in H.
  apply bind_inv in H as (entry0 & r1 & Hfind & H).
  pose proof (findTLBEntry_frame _ _ _ _ _ Hfind) as F1.
  apply findTLBEntry_keeps in Hfind as (K1 & In1).
  apply bind_inv in H as ([entry1 mi1] & r2 & Hval & H).
  pose proof (validateTLBEntryPriv_spec _ _ _ _ _ _ _ _ _ Hval) as (F2 & _).
  rewrite (tlbFrame_active _ _ _ F1) in F2.
  apply validateTLBEntryPriv_keeps in Hval as (K2 & _).
  2:{ intros p t -> Ht. rewrite (tlbFrame_active _ _ _ F1) in Ht.
      apply (In1 p t eq_refl Ht). }
  pose proof (keepsWF_trans _ _ _ K1 K2) as K12.
  destruct entry1 as [p|].
  - inversion H; subst. exact K12.
  - apply bind_inv in H as ([exc tmp] & r3 & Hwalk & H).
    apply tlbLookup_spec in Hwalk as (Ew & Lw & _ & _ & _ & Hok).
    pose proof (keepsWF_trans _ _ _ K12 (keepsWF_same _ _ Lw)) as K3.
    destruct exc as [x|].
    + apply bind_inv in H as (entry2 & r4 & Hh & H).
      apply bind_inv in Hh as ([] & r5 & Hh & Hr). inversion Hr; subst.
      apply handleInvalidAccess_spec in Hh as (_ & _ & L & _).
      cbn in H. inversion H; subst.
      apply (keepsWF_trans _ _ _ K3). apply keepsWF_same, L.
    + destruct (Hok eq_refl) as (bytes & Hsucc).
      destruct Hsucc as (_ & _ & _ & _ & _ & _ & _ & _ & _ & Htag & _).
      apply bind_inv in H as (entry2 & r4 & Ha & H).
      apply bind_inv in Ha as (p & r5 & Ha & Hr). inversion Hr; subst.
      pose proof (allocateTLBEntry_spec _ _ _ _ _ _ Ha) as (Ea & _).
      assert (Hact : activeTLB r2 = activeTLB r).
      { rewrite (tlbFrame_active _ _ _ F2). apply (tlbFrame_active _ _ _ F1). }
      apply allocateTLBEntry_keeps in Ha as (K4 & In4);
        [|rewrite Htag; exact Hact].
      apply validateTLBEntryPriv_keeps in H as (K5 & _).
      * exact (keepsWF_trans _ _ _ K3 (keepsWF_trans _ _ _ K4 K5)).
      * intros q t Hq Ht. inversion Hq; subst q. apply In4.
        rewrite (effect_active _ _ _ Ea), (effect_active _ _ _ Ew), Hact in Ht.
        exact Ht.
Qed.

Lemma derefStore_keeps id p (f : tlbEntry -> tlbEntry) :
  (forall e, tlb (f e) = tlb e) ->
  preserves keepsWF (e <- derefEntry id p;; storeEntry id p (f e)).
Proof.
  intros Hf r [] r' H. apply bind_inv in H as (e & r1 & He & H).
  pose proof He as He'. apply derefEntry_inv in He' as [-> _].
  exact (storeEntry_keeps id p e (f e) r r' He (Hf e) H).
Qed.

Lemma getTLBStageEntry_keeps id mode mi attrs :
  preserves keepsWF (getTLBStageEntry id mode mi attrs).
Proof.
  unfold getTLBStageEntry, activateTLB, deactivateTLB.
  keeps_wf ltac:(first
    [ apply findOrCreateTLBEntry_keeps
    | apply unmapTLBEntryNewASID_keeps
    | apply derefStore_keeps; intros ?; reflexivity ]).
Qed.

Lemma derefStoreThen_keeps {T} id p (f : tlbEntry -> tlbEntry)
    (k : tlbEntry -> M T) :
  (forall e, tlb (f e) = tlb e) ->
  (forall e, preserves keepsWF (k e)) ->
  preserves keepsWF (e <- derefEntry id p;; storeEntry id p (f e);; k e).
Proof.
  intros Hf Hk r x r' H. apply bind_inv in H as (e & r1 & He & H).
  pose proof He as He'. apply derefEntry_inv in He' as [-> _].
  apply bind_inv in H as ([] & r2 & Hs & H).
  eapply keepsWF_trans; [|eapply Hk; exact H].
  exact (storeEntry_keeps id p e (f e) r r2 He (Hf e) Hs).
Qed.

Lemma mapPMP_keeps mode requiredPriv lowPA highPA :
  preserves keepsWF (mapPMP mode requiredPriv lowPA highPA).
Proof.
  intros r x r' H. apply mapPMP_frame in H as (L & _).
  apply keepsWF_same, L.
Qed.

Lemma mapTLBEntry_keeps VA GPA id1 entry1 entry2 domainV mode requiredPriv mi :
  preserves keepsWF
    (mapTLBEntry VA GPA id1 entry1 entry2 domainV mode requiredPriv mi).
Proof.
  unfold mapTLBEntry, mapPMA.
  keeps_wf ltac:(first
    [ apply mapPMP_keeps
    | apply derefStoreThen_keeps;
      [intros ?; reflexivity | intros ?; apply preserves_ret, keepsWF_refl] ]).
Qed.

Lemma getCurrentTLBId_keeps : preserves keepsWF getCurrentTLBId.
Proof.
  intros r id r' H. apply getCurrentTLBId_inv in H. subst. apply keepsWF_refl.
Qed.

Lemma tlbMiss_keeps U A domain mode mi attrs :
  preserves keepsWF (tlbMiss U A domain mode mi attrs).
Proof.
  unfold tlbMiss.
  keeps_wf ltac:(first
    [ apply getCurrentTLBId_keeps
    | apply getTLBStageEntry_keeps
    | apply mapTLBEntry_keeps ]).
Qed.

(** X12. tlbMiss: a translation keeps the TLBs well-formed, whether it ends with
    a mapping or with a fault: a TLB of the hart that is well-formed before
    [tlbMiss] is still a TLB of the hart, and well-formed, after it. *)
Theorem tlbMiss_wellformed U A domain mode mi attrs r res r' id t
    (Ht : riscv_tlb r id = Some t)
    (HW : tlbWF id t)
    (Hrun : tlbMiss U A domain mode mi attrs r = Some (res, r')) :
  exists t', riscv_tlb r' id = Some t' /\ tlbWF id t'.
Proof.
  destruct (tlbMiss_keeps U A domain mode mi attrs r res r' Hrun id t Ht)
    as (t' & Ht' & W).
  exists t'. split; [exact Ht'|]. apply W, HW.
Qed.

(* ------------------------------------------------------------------------- *)
(** ** The privilege with which an entry is mapped *)

(** The privilege that [validateTLBEntryPriv] records for a valid entry. *)
Definition mappedPriv (r : riscv) (mode : riscvMode) (requiredPriv : memPriv)
    (e : tlbEntry) : memPriv :=
  let p := checkEntryPermission r mode e requiredPriv in
  if negb (D e) then Z.land p (Z.lnot MEM_PRIV_W) else p.

Lemma checkEntryPermission_covers r mode e requiredPriv :
  z2b (checkEntryPermission r mode e requiredPriv) = true ->
  Z.land (checkEntryPermission r mode e requiredPriv) requiredPriv
  = requiredPriv.
Proof.
  rewrite checkEntryPermission_granted.
  destruct (Z.eqb_spec (Z.land (grantedPriv r mode e) requiredPriv)
              requiredPriv) as [E|E]; [auto|discriminate].
Qed.

Lemma mappedPriv_covers r mode requiredPriv e :
  entryValid r mode requiredPriv e ->
  Z.land (mappedPriv r mode requiredPriv e) requiredPriv = requiredPriv
  /\ (D e = false ->
      Z.land (mappedPriv r mode requiredPriv e) MEM_PRIV_W = 0).
Proof.
  intros (Hp & Hd). apply checkEntryPermission_covers in Hp.
  unfold mappedPriv. destruct (D e) eqn:HD; cbn [negb].
  - split; [exact Hp | discriminate].
  - assert (HW : Z.land requiredPriv MEM_PRIV_W = 0).
    { destruct (z2b (Z.land requiredPriv MEM_PRIV_W)) eqn:E.
      - specialize (Hd eq_refl). discriminate Hd.
      - unfold z2b in E. apply negb_false_iff, Z.eqb_eq in E. exact E. }
    split.
    + apply Z.bits_inj'. intros i Hi.
      apply (f_equal (fun x => Z.testbit x i)) in Hp.
      apply (f_equal (fun x => Z.testbit x i)) in HW.
      rewrite Z.land_spec in Hp. rewrite Z.land_spec, Z.bits_0 in HW.
      rewrite !Z.land_spec, Z.lnot_spec by exact Hi.
      destruct (Z.testbit (checkEntryPermission r mode e requiredPriv) i),
        (Z.testbit requiredPriv i), (Z.testbit MEM_PRIV_W i);
        cbn in *; congruence.
    + intros _. rewrite <- Z.land_assoc, (Z.land_comm (Z.lnot _)).
      rewrite Z.land_lnot_diag, Z.land_0_r. reflexivity.
Qed.

Lemma validateTLBEntryPriv_priv mode entry requiredPriv attrs mi r res mi' r' :
  validateTLBEntryPriv mode entry requiredPriv attrs mi r
  = Some ((res, mi'), r') ->
  match res with
  | Some p =>
      r' = r
      /\ exists e,
           derefEntry (activeTLB r) p r = Some (e, r)
           /\ entryValid r mode requiredPriv e
           /\ mi' = mi_set_priv (mappedPriv r mode requiredPriv e) mi
  | None => mi' = mi
  end.
Proof.
  intros H. unfold validateTLBEntryPriv in H. destruct entry as [p|].
  - unfold bind at 1, get at 1 in H.
    apply bind_inv in H as (e & r1 & He & H).
    pose proof He as He'. apply derefEntry_inv in He' as [-> _].
    destruct (negb (z2b (checkEntryPermission r mode e requiredPriv))) eqn:Hp.
    { inversion H; subst. reflexivity. }
    destruct (z2b (Z.land requiredPriv MEM_PRIV_W) && negb (D e)) eqn:Hd.
    + apply bind_inv in H as ([] & r2 & Hdel & H). inversion H; subst.
      reflexivity.
    + inversion H; subst. split; [reflexivity|]. exists e.
      split; [exact He|]. split; [|reflexivity]. split.
      * apply negb_false_iff in Hp. exact Hp.
      * intros HW. rewrite HW in Hd. cbn in Hd.
        apply negb_false_iff in Hd. exact Hd.
  - inversion H; subst. reflexivity.
Qed.

Lemma findOrCreateTLBEntry_priv mode attrs mi r p mi' r' :
  findOrCreateTLBEntry mode attrs mi r = Some ((Some p, mi'), r') ->
  activeTLB r' = activeTLB r /\ sameHart r r'
  /\ exists e,
       derefEntry (activeTLB r) p r' = Some (e, r')
       /\ entryValid r' mode (mi_priv mi) e
       /\ mi' = mi_set_priv (mappedPriv r' mode (mi_priv mi) e) mi.
Proof.
  intros H. unfold findOrCreateTLBEntry in H.
  unfold bind at 1, gets at 1 in H.
  apply bind_inv in H as (entry0 & r1 & Hfind & H).
  apply findTLBEntry_frame in Hfind.
  pose proof (tlbFrame_active _ _ _ Hfind) as A1.
  pose proof (tlbFrame_sameHart _ _ _ Hfind) as S1.
  apply bind_inv in H as ([entry1 mi1] & r2 & Hval & H).
  pose proof (validateTLBEntryPriv_spec _ _ _ _ _ _ _ _ _ Hval) as (F2 & _).
  pose proof (tlbFrame_active _ _ _ F2) as A2.
  pose proof (tlbFrame_sameHart _ _ _ F2) as S2.
  apply validateTLBEntryPriv_priv in Hval.
  destruct entry1 as [q|].
  - inversion H; subst. destruct Hval as (-> & e & He & Hv & ->).
    split; [exact A1|]. split; [exact S1|]. exists e.
    rewrite <- A1. auto.
  - subst mi1.
    apply bind_inv in H as ([exc tmp] & r3 & Hwalk & H).
    apply tlbLookup_spec in Hwalk as (Ew & _).
    pose proof (effect_active _ _ _ Ew) as A3.
    pose proof (effect_sameHart _ _ _ Ew) as S3.
    apply bind_inv in H as (entry2 & r4 & Hx & H).
    assert (A4 : activeTLB r4 = activeTLB r3 /\ sameHart r3 r4).
    { destruct exc as [x|].
      - apply bind_inv in Hx as ([] & r5 & Hh & Hr). inversion Hr; subst.
        apply handleInvalidAccess_spec in Hh as (S & A & _). auto.
      - apply bind_inv in Hx as (q & r5 & Ha & Hr). inversion Hr; subst.
        apply allocateTLBEntry_spec in Ha as (Ea & _).
        split; [apply (effect_active _ _ _ Ea)
               | apply (effect_sameHart _ _ _ Ea)]. }
    destruct A4 as [A4 S4].
    apply validateTLBEntryPriv_priv in H. destruct H as (-> & e & He & Hv & ->).
    assert (A : activeTLB r4 = activeTLB r) by congruence.
    split; [exact A|]. split.
    + eapply sameHart_trans; [exact S1|]. eapply sameHart_trans; [exact S2|].
      eapply sameHart_trans; [exact S3 | exact S4].
    + exists e. rewrite <- A. auto.
Qed.

Lemma findOrCreateTLBEntry_live mode attrs mi r p mi' r' :
  findOrCreateTLBEntry mode attrs mi r = Some ((Some p, mi'), r') ->
  forall t', riscv_tlb r' (activeTLB r) = Some t' -> In p (lut t').
Proof.
  intros Hlive tb Htb.
  unfold findOrCreateTLBEntry in Hlive.
  unfold bind at 1, gets at 1 in Hlive.
  apply bind_inv in Hlive as (entry0 & r1 & Hfind & H).
  pose proof (findTLBEntry_frame _ _ _ _ _ Hfind) as F1.
  apply findTLBEntry_keeps in Hfind as (_ & In1).
  apply bind_inv in H as ([entry1 mi1] & r2 & Hval & H).
  pose proof (tlbFrame_active _ _ _ F1) as A1.
  pose proof (validateTLBEntryPriv_spec _ _ _ _ _ _ _ _ _ Hval) as (F2 & _).
  pose proof (tlbFrame_active _ _ _ F2) as A2.
  apply validateTLBEntryPriv_keeps in Hval as (_ & In2).
  2:{ intros q t -> Ht. rewrite A1 in Ht. apply (In1 q t eq_refl Ht). }
  rewrite A1 in In2.
  destruct entry1 as [q|].
  - inversion H; subst. apply (In2 p tb eq_refl Htb).
  - apply bind_inv in H as ([exc tmp] & r3 & Hwalk & H).
    apply tlbLookup_spec in Hwalk as (Ew & _ & _ & _ & _ & Hok).
    apply bind_inv in H as (entry2 & r4 & Hx & H).
    destruct exc as [x|].
    + apply bind_inv in Hx as ([] & r5 & Hh & Hr). inversion Hr; subst.
      cbn in H. inversion H.
    + apply bind_inv in Hx as (q & r5 & Ha & Hr). inversion Hr; subst.
      destruct (Hok eq_refl) as (bytes & Hsucc).
      destruct Hsucc as (_ & _ & _ & _ & _ & _ & _ & _ & _ & Htag & _).
      pose proof (allocateTLBEntry_spec _ _ _ _ _ _ Ha) as (Ea & _).
      apply allocateTLBEntry_keeps in Ha as (_ & In4).
      2:{ rewrite Htag, A2. exact A1. }
      pose proof H as Hv. apply validateTLBEntryPriv_priv in Hv as (-> & _).
      apply validateTLBEntryPriv_keeps in H as (_ & In5).
      * rewrite (effect_active _ _ _ Ea), (effect_active _ _ _ Ew), A2, A1
          in In5. apply (In5 p tb eq_refl Htb).
      * intros q' t Hq Ht. inversion Hq; subst q'. apply In4.
        rewrite (effect_active _ _ _ Ea), (effect_active _ _ _ Ew), A2, A1
          in Ht. exact Ht.
Qed.

(** X13. getTLBStageEntry: the entry with which a stage ends is a live entry of
    the TLB of that stage, it carries the current simulated ASID, and the
    privilege recorded for its mapping covers the required privilege and
    contains write permission only when the entry is dirty; an entry that is
    not dirty is never used for a write access.  The address range of the
    request is passed on unchanged. *)
Theorem getTLBStageEntry_priv id mode mi attrs r p mi' r'
    (Hrun : getTLBStageEntry id mode mi attrs r = Some ((Some p, mi'), r')) :
  exists t' e,
    riscv_tlb r' id = Some t' /\ In p (lut t')
    /\ nth_error (entries t') p = Some e
    /\ simASID e = getSimASID r
    /\ Z.land (mi_priv mi') (mi_priv mi) = mi_priv mi
    /\ (D e = false -> Z.land (mi_priv mi') MEM_PRIV_W = 0)
    /\ (z2b (Z.land (mi_priv mi) MEM_PRIV_W) = true -> D e = true)
    /\ mi_lowVA mi' = mi_lowVA mi /\ mi_highVA mi' = mi_highVA mi.
Proof.
  unfold getTLBStageEntry, activateTLB, deactivateTLB in Hrun.
  unfold bind at 1, bind at 1, gets at 1, bind at 1, modify at 1, ret at 1
    in Hrun.
  apply bind_inv in Hrun as ([entry mi1] & rb & Hf & H).
  apply bind_inv in H as ([] & rc & Hpost & H).
  unfold bind, modify, ret in H. inversion H; subst entry mi1 r'. clear H.
  pose proof (findOrCreateTLBEntry_keeps _ _ _ _ _ _ Hf) as K.
  pose proof Hf as Hlive.
  apply findOrCreateTLBEntry_priv in Hf as (Ab & Sb & e & He & Hv & ->).
  fields.
  apply derefEntry_inv in He as (_ & tb & Htb & He).
  apply bind_inv in Hpost as (s & r1 & Hs & Hpost).
  unfold gets in Hs. inversion Hs; subst s r1. clear Hs.
  apply bind_inv in Hpost as ([] & r2 & Hun & Hpost).
  pose proof (unmapTLBEntryNewASID_touched _ _ _ _ _ _ Hun) as Tu.
  destruct (Tu tb Htb) as (t2 & Ht2 & L2 & _ & _ & _ & M2).
  cbn [existsb negb] in L2. rewrite filter_all in L2.
  destruct (M2 p e He) as (m & He2).
  apply bind_inv in Hpost as (e2 & r3 & Hd & Hst).
  apply derefEntry_inv in Hd as (-> & t2' & Ht2' & He2').
  assert (t2' = t2) by congruence. subst t2'.
  assert (e2 = entry_set_mapped m e) by congruence. subst e2.
  unfold storeEntry, bind, getTLB, modify in Hst. rewrite Ht2 in Hst.
  inversion Hst; subst rc. clear Hst. fields.
  rewrite riscvTLBId_eqb_refl.
  eexists _, _. split; [reflexivity|]. cbn [lut entries].
  destruct (mappedPriv_covers _ _ _ _ Hv) as (Hc & Hw).
  split; [|split; [apply (nth_error_list_set_eq _ _ _ _ He2)|]].
  - rewrite L2. apply (findOrCreateTLBEntry_live _ _ _ _ _ _ _ Hlive tb Htb).
  - cbn [simASID entry_set_simASID mi_priv mi_lowVA mi_highVA mi_set_priv
         D entry_set_mapped].
    split; [|split; [exact Hc|split; [exact Hw|split; [|auto]]]].
    + unfold getSimASID. apply sameHart_fields in Sb as (Hcsr & _).
      fields. rewrite Hcsr. reflexivity.
    + destruct Hv as (_ & Hd). exact Hd.
Qed.

(* ------------------------------------------------------------------------- *)
(** ** A translation that ends with a mapping *)

(** The hart and the active TLB are kept, and neither an alias nor an
    exception is made. *)
Definition quiet (r r' : riscv) : Prop :=
  sameHart r r' /\ activeTLB r' = activeTLB r
  /\ exists evs, trace r' = evs ++ trace r /\ Forall silentEvent evs.

Lemma quiet_refl r : quiet r r.
Proof.
  split; [reflexivity|]. split; [reflexivity|]. exists []. auto.
Qed.

Lemma quiet_trans r1 r2 r3 : quiet r1 r2 -> quiet r2 r3 -> quiet r1 r3.
Proof.
  intros (S1 & A1 & evs1 & T1 & F1) (S2 & A2 & evs2 & T2 & F2).
  split; [eapply sameHart_trans; eauto|]. split; [congruence|].
  exists (evs2 ++ evs1). split.
  - rewrite T2, T1, app_assoc. reflexivity.
  - apply Forall_app; auto.
Qed.

Lemma stageStep_quiet id r r' : stageStep id r r' -> quiet r r'.
Proof. intros (S & A & _ & E). split; auto. Qed.

Lemma preserves_emit_quiet ev : silentEvent ev -> preserves quiet (emit ev).
Proof.
  intros Hev r x r' H. inversion H; subst.
  split; [reflexivity|]. split; [reflexivity|]. exists [ev]. auto.
Qed.

Lemma preserves_modify_quiet (f : riscv -> riscv) :
  (forall r, hartErase (f r) = hartErase r /\ activeTLB (f r) = activeTLB r
             /\ trace (f r) = trace r) ->
  preserves quiet (modify f).
Proof.
  intros Hf r x r' H. inversion H; subst. destruct (Hf r) as (S & A & T).
  split; [exact S|]. split; [exact A|]. exists []. auto.
Qed.

Lemma preserves_storeEntry_quiet id p e : preserves quiet (storeEntry id p e).
Proof.
  intros r x r' H. unfold storeEntry, bind, getTLB, modify in H.
  destruct (riscv_tlb r id); [|discriminate H]. inversion H; subst.
  split; [reflexivity|]. split; [reflexivity|]. exists []. auto.
Qed.

Ltac quiet_frame leaf :=
  preserve quiet_refl quiet_trans
    ltac:(first
      [ leaf
      | apply preserves_storeEntry_quiet
      | apply preserves_emit_quiet; split; reflexivity
      | apply preserves_modify_quiet; intros ?; repeat split ]).

Lemma mapPMP_quiet mode requiredPriv lowPA highPA :
  preserves quiet (mapPMP mode requiredPriv lowPA highPA).
Proof. unfold mapPMP, setPMPPriv, pmpProtect. quiet_frame ltac:(fail). Qed.

Lemma mapTLBEntry_events VA GPA id1 p1 entry2 domainV mode requiredPriv mi r
    mi' r' :
  mapTLBEntry VA GPA id1 p1 entry2 domainV mode requiredPriv mi r
  = Some (mi', r') ->
  sameHart r r' /\ activeTLB r' = activeTLB r
  /\ mi_priv mi' = mi_priv mi
  /\ exists evs domP lowPA highPA mask asid,
       trace r' =
       evs ++ vmirtAliasMemoryVM domP domainV lowPA highPA (mi_lowVA mi')
                (mi_priv mi) mask asid :: trace r
       /\ Forall silentEvent evs.
Proof.
  intros H. unfold mapTLBEntry in H. unfold bind at 1, get at 1 in H.
  apply bind_inv in H as (e1 & r0 & He1 & H).
  apply derefEntry_inv in He1 as [-> _].
  destruct (if 4294967296 <? getEntrySize e1 then _ else _) as [lo hi].
  apply bind_inv in H as ([[[lo' hi'] off] mask] & r1 & Hc & H).
  assert (r1 = r).
  { destruct entry2 as [p2|].
    - apply bind_inv in Hc as (e2 & r2 & He2 & Hc).
      apply derefEntry_inv in He2 as [-> _]. inversion Hc. reflexivity.
    - inversion Hc. reflexivity. }
  subst r1. clear Hc.
  apply bind_inv in H as ([] & ra & Hem & H).
  unfold emit, modify in Hem. inversion Hem; subst ra. clear Hem.
  assert (Q : quiet (set_trace
                       (vmirtAliasMemoryVM
                          (getPMPDomainPriv r mode requiredPriv) domainV
                          (Uns64 (lo' + off)) (Uns64 (hi' + off)) lo'
                          (mi_priv mi) mask (getEntrySimASID e1) :: trace r)
                       r) r'
              /\ mi' = {| mi_lowVA := lo'; mi_highVA := hi';
                          mi_priv := mi_priv mi |}).
  { apply bind_inv in H as ([] & rb & Hp & H). apply mapPMP_quiet in Hp.
    apply bind_inv in H as ([] & rc & Ha & H).
    unfold mapPMA in Ha.
    apply (preserves_emit_quiet (PMACheck _ _ _ _) (conj eq_refl eq_refl))
      in Ha.
    apply bind_inv in H as (e1' & rd & Hd & H).
    apply derefEntry_inv in Hd as [-> _].
    apply bind_inv in H as ([] & re & Hs & H).
    apply preserves_storeEntry_quiet in Hs. inversion H; subst.
    split; [|reflexivity].
    exact (quiet_trans _ _ _ Hp (quiet_trans _ _ _ Ha Hs)). }
  destruct Q as ((S & A & evs & T & F) & ->). fields.
  split; [exact S|]. split; [exact A|]. split; [reflexivity|].
  eexists evs, _, _, _, _, _. split; [exact T | exact F].
Qed.

Section Mapped.

Variables MEM_PRIV_USER MEM_PRIV_ALIGN : memPriv.

(** X14. tlbMiss: a translation that ends with a mapping takes no exception and
    makes exactly one alias, in the domain that was passed, at the low
    address and with the privilege that are reported back.  The registers of
    the hart and the active TLB are as before. *)
Theorem tlbMiss_mapped domain mode mi attrs r mi' r'
    (Hrun : tlbMiss MEM_PRIV_USER MEM_PRIV_ALIGN domain mode mi attrs r
            = Some ((false, mi'), r')) :
  filter isException (newEvents r r') = []
  /\ (exists domP lowPA highPA mask asid,
        filter isAlias (newEvents r r')
        = [vmirtAliasMemoryVM domP domain lowPA highPA (mi_lowVA mi')
             (mi_priv mi') mask asid])
  /\ sameHart r r' /\ activeTLB r' = activeTLB r.
Proof.
  unfold tlbMiss in Hrun.
  apply bind_inv in Hrun as (id & r0 & Hid & H).
  pose proof (getCurrentTLBId_inv _ _ _ Hid) as ->.
  apply bind_inv in H as ([entry1 mi1] & r1 & Hst1 & H).
  apply getTLBStageEntry_spec in Hst1.
  unfold bind at 1, get at 1 in H.
  apply bind_inv in H as ([[[e1' e2'] GPA'] mi2'] & r4 & Hs & H).
  destruct e1' as [q1|]; [|inversion H].
  apply bind_inv in H as (mi3 & r5 & Hmap & H). inversion H; subst mi3 r5.
  clear H. apply mapTLBEntry_events in Hmap
    as (Sm & Am & Pm & evs & domP & lowPA & highPA & mask & asid & Tm & Fm).
  assert (Q : quiet r r4).
  { destruct entry1 as [p1|]; [|inversion Hs].
    apply stageStep_quiet in Hst1.
    destruct (riscvTLBId_eqb id RISCV_TLB_VS1 && z2b (hgatp_MODE (csr r1))).
    - apply bind_inv in Hs as ([] & ra & Hm & Hs).
      unfold modify in Hm. inversion Hm; subst ra. clear Hm.
      apply bind_inv in Hs as ([] & ra & Hm & Hs).
      unfold modify in Hm. inversion Hm; subst ra. clear Hm.
      apply bind_inv in Hs as (e1 & r2 & Hd & Hs).
      apply derefEntry_inv in Hd as [-> _].
      apply bind_inv in Hs as ([entry2 mi2] & r3 & Hst2 & Hs).
      apply getTLBStageEntry_spec in Hst2.
      destruct entry2 as [p2|].
      + apply stageStep_quiet in Hst2.
        unfold bind, modify, ret in Hs. inversion Hs; subst. clear Hs.
        apply (quiet_trans _ _ _ Hst1).
        destruct Hst2 as (S2 & A2 & evs2 & T2 & F2). fields.
        split; [exact S2|]. split; [exact A2|]. exists evs2. auto.
      + unfold bind, modify, ret in Hs. inversion Hs.
    - inversion Hs; subst. exact Hst1. }
  destruct Q as (S & A & evs0 & T & F).
  destruct (silent_filters evs0 F) as [Fa0 Fx0].
  destruct (silent_filters evs Fm) as [Fa Fx].
  assert (Tr : trace r' =
               (evs ++ vmirtAliasMemoryVM domP domain lowPA highPA
                         (mi_lowVA mi') (mi_priv mi2') mask asid :: evs0)
               ++ trace r).
  { rewrite Tm, T, <- app_assoc. reflexivity. }
  rewrite (newEvents_app _ _ _ Tr), !filter_app. cbn [filter isAlias isException].
  rewrite Fa, Fx, Fa0, Fx0. cbn [app].
  split; [reflexivity|]. split.
  - exists domP, lowPA, highPA, mask, asid. rewrite Pm. reflexivity.
  - split; [eapply sameHart_trans; eauto | congruence].
Qed.

End Mapped.

(* ------------------------------------------------------------------------- *)
(** ** The walk at its leaf entry *)

Section Leaf.

Variable f : svFormat.

(** What the walk makes of the leaf entry [PTE] found at level [i]: an error
    with the entry reported for it, or the TLB entry together with the value
    to write back to the table, if any. *)
Definition walkLeaf (r : riscv) (mode : riscvMode) (entry : tlbEntry)
    (requiredPriv : memPriv) (VA : Z) (i : nat) (PTE : Z)
  : (pteError * tlbEntry) + (tlbEntry * option Z) :=
  let PAraw := Z.shiftl (PTE_PPN f PTE) 12 in
  let size := Z.shiftl 1 (Z.of_nat i * svVPNShift f + RISCV_PAGE_SHIFT) in
  if z2b (Z.land PAraw (size - 1)) then inl (PTEE_ALIGN, entry)
  else
    let lo := Z.land VA ((- size) mod 2 ^ svRawBits f) in
    let entry :=
      {| lowVA := lo; highVA := Uns64 (lo + size - 1); PA := PAraw;
         simASID := simASID entry; tlb := activeTLB r;
         mapped := mapped entry; priv := PTE_priv PTE;
         U := PTE_U PTE; G := getG r (PTE_G PTE);
         A := PTE_A PTE; D := PTE_D PTE;
         artifact := artifact entry |} in
    if negb (z2b (checkEntryPermission r mode entry requiredPriv))
    then inl (PTEE_PRIV, entry)
    else if negb (A entry) && negb (updatePTEA r) then inl (PTEE_A0, entry)
    else
      let '(entry, PTE, doWrite) :=
        if A entry then (entry, PTE, false)
        else (entry_set_A true entry, PTE_set_A PTE, true) in
      let needD :=
        negb (D entry || negb (z2b (Z.land requiredPriv MEM_PRIV_W))) in
      if needD && negb (updatePTED r) then inl (PTEE_D0, entry)
      else
        let '(entry, PTE, doWrite) :=
          if needD then (entry_set_D true entry, PTE_set_D PTE, true)
          else (entry, PTE, doWrite) in
        inr (entry, if doWrite then Some PTE else None).

(** The end of a failing walk. *)
Definition walkError (mode : riscvMode) (requiredPriv : memPriv)
    (entry : tlbEntry) (PTEAddr : Z) (code : pteError)
  : M (option riscvException * tlbEntry) :=
  x <- handlePTWException mode entry requiredPriv PTEAddr code;;
  ret (Some x, entry).

(** The end of the walk, from what [walkLeaf] gives. *)
Definition walkFinish (mode : riscvMode) (requiredPriv : memPriv)
    (attrs : memAccessAttrs) (PTEAddr : Z)
    (res : (pteError * tlbEntry) + (tlbEntry * option Z))
  : M (option riscvException * tlbEntry) :=
  match res with
  | inl (code, e) => walkError mode requiredPriv e PTEAddr code
  | inr (e, None) => ret (None, e)
  | inr (e, Some PTE) =>
      writePageTableEntry mode PTEAddr (svEntryBytes f) attrs PTE;;
      bad <- gets PTWBadAddr;;
      if bad then walkError mode requiredPriv e PTEAddr PTEE_WRITE
      else ret (None, e)
  end.

(** The walk, as its steps. *)
Definition walkSteps (mode : riscvMode) (entry : tlbEntry)
    (requiredPriv : memPriv) (attrs : memAccessAttrs)
  : M (option riscvException * tlbEntry) :=
  let VA0 := VA_raw f (lowVA entry) in
  if (0 <? svExtendBits f)
     && negb (validVA (VA_VPN f VA0) (VA_VPNextend f VA0))
  then walkError mode requiredPriv entry 0 PTEE_VAEXTEND
  else
    let VA := Z.shiftl (Z.shiftr VA0 12) 12 in
    a <- getRootTableAddress;;
    o <- ptwLoop f mode attrs VA (svLevels f) a 0;;
    match o with
    | PTW_Error code PTEAddr => walkError mode requiredPriv entry PTEAddr code
    | PTW_NoLeaf PTEAddr =>
        walkError mode requiredPriv entry PTEAddr PTEE_LEAF
    | PTW_Leaf i PTE PTEAddr =>
        r <- get;;
        walkFinish mode requiredPriv attrs PTEAddr
          (walkLeaf r mode entry requiredPriv VA i PTE)
    end.

Lemma bind_cong {T V} (c : M T) (k1 k2 : T -> M V) r :
  (forall x r1, c r = Some (x, r1) -> k1 x r1 = k2 x r1) ->
  bind c k1 r = bind c k2 r.
Proof.
  intros H. unfold bind. destruct (c r) as [[x r1]|]; [|reflexivity].
  apply H. reflexivity.
Qed.

Lemma tlbLookupSv_steps mode entry requiredPriv attrs r :
  tlbLookupSv f mode entry requiredPriv attrs r
  = walkSteps mode entry requiredPriv attrs r.
Proof.
  unfold tlbLookupSv, walkSteps. cbv zeta.
  destruct ((0 <? svExtendBits f) && _); [reflexivity|].
  apply bind_cong. intros a r0 _. apply bind_cong. intros o r1 _.
  destruct o as [code PTEAddr | i PTE PTEAddr | PTEAddr]; try reflexivity.
  unfold walkLeaf. unfold bind, get. unfold walkFinish.
  destruct (z2b (Z.land _ _)); [reflexivity|]. cbn [A D].
  destruct (negb (z2b (checkEntryPermission _ _ _ _))); [reflexivity|].
  destruct (negb (PTE_A PTE) && negb (updatePTEA r1)); [reflexivity|].
  destruct (PTE_A PTE); cbn [D entry_set_A];
    destruct (negb (PTE_D PTE || negb (z2b (Z.land requiredPriv MEM_PRIV_W))));
    cbn [andb]; destruct (updatePTED r1); cbn [negb]; reflexivity.
Qed.

End Leaf.

(* ------------------------------------------------------------------------- *)
(** ** The page of a translation *)





Lemma entry_range_A a e :
  lowVA (entry_set_A a e) = lowVA e /\ highVA (entry_set_A a e) = highVA e
  /\ PA (entry_set_A a e) = PA e.
Proof. repeat split. Qed.

Lemma walkLeaf_entry f r mode entry requiredPriv VA i PTE e' w :
  walkLeaf f r mode entry requiredPriv VA i PTE = inr (e', w) ->
  let size := Z.shiftl 1 (Z.of_nat i * svVPNShift f + RISCV_PAGE_SHIFT) in
  let lo := Z.land VA ((- size) mod 2 ^ svRawBits f) in
  lowVA e' = lo /\ highVA e' = Uns64 (lo + size - 1)
  /\ PA e' = Z.shiftl (PTE_PPN f PTE) 12
  /\ Z.land (PA e') (size - 1) = 0
  /\ tlb e' = activeTLB r /\ priv e' = PTE_priv PTE /\ U e' = PTE_U PTE
  /\ G e' = getG r (PTE_G PTE) /\ A e' = true
  /\ artifact e' = artifact entry
  /\ (forall PTE', w = Some PTE' ->
        (PTE_A PTE = false /\ updatePTEA r = true)
        \/ (PTE_D PTE = false /\ updatePTED r = true
            /\ z2b (Z.land requiredPriv MEM_PRIV_W) = true))
  /\ (z2b (Z.land requiredPriv MEM_PRIV_W) = false -> D e' = PTE_D PTE)
  /\ (z2b (Z.land requiredPriv MEM_PRIV_W) = true -> D e' = true).
Proof.
  unfold walkLeaf. cbv zeta.
  destruct (z2b (Z.land _ _)) eqn:Hal; [discriminate|].
  apply negb_false_iff, Z.eqb_eq in Hal.
  destruct (negb (z2b (checkEntryPermission _ _ _ _))); [discriminate|].
  cbn [A D].
  destruct (PTE_A PTE) eqn:HA; cbn [negb andb].
  - cbn [D]. destruct (PTE_D PTE) eqn:HD; cbn [orb negb andb].
    + intros H. inversion H; subst. cbn.
      repeat split; auto; try discriminate.
    + destruct (z2b (Z.land requiredPriv MEM_PRIV_W)) eqn:HW; cbn [negb andb].
      * destruct (updatePTED r) eqn:Hu; cbn [negb]; [|discriminate].
        intros H. inversion H; subst. cbn.
        repeat split; auto; try discriminate.
      * intros H. inversion H; subst. cbn.
        repeat split; auto; try discriminate.
  - destruct (updatePTEA r) eqn:HuA; cbn [negb]; [|discriminate].
    cbn [D entry_set_A].
    destruct (PTE_D PTE) eqn:HD; cbn [orb negb andb].
    + intros H. inversion H; subst. cbn.
      repeat split; auto; try discriminate.
    + destruct (z2b (Z.land requiredPriv MEM_PRIV_W)) eqn:HW; cbn [negb andb].
      * destruct (updatePTED r) eqn:Hu; cbn [negb]; [|discriminate].
        intros H. inversion H; subst. cbn.
        repeat split; auto; try discriminate.
      * intros H. inversion H; subst. cbn.
        repeat split; auto; try discriminate.
Qed.






(* ------------------------------------------------------------------------- *)
(** ** Translations that write no page table entry *)

(** No page table entry can be written from this state: the access is an
    artifact access, or hardware update of A and of D is disabled. *)
Definition writeFree (r : riscv) : Prop :=
  artifactAccess r = true
  \/ (updatePTEA r = false /\ updatePTED r = false).

(** The hart and the page table memory are kept, and no entry write is
    among the calls. *)
Definition readOnly (r r' : riscv) : Prop :=
  sameHart r r' /\ ptwMem r' = ptwMem r
  /\ exists evs,
       trace r' = evs ++ trace r /\ Forall (fun ev => isWrite ev = false) evs.

Definition readOnlyIfFree (r r' : riscv) : Prop :=
  writeFree r -> readOnly r r'.

Lemma writeFree_sameHart r r' : sameHart r r' -> writeFree r -> writeFree r'.
Proof.
  intros S. apply sameHart_fields in S as (_ & Hcfg & Ha & _).
  unfold writeFree, updatePTEA, updatePTED. rewrite Hcfg, Ha. auto.
Qed.

Lemma readOnly_refl r : readOnly r r.
Proof.
  split; [reflexivity|]. split; [reflexivity|]. exists []. auto.
Qed.

Lemma readOnly_trans r1 r2 r3 :
  readOnly r1 r2 -> readOnly r2 r3 -> readOnly r1 r3.
Proof.
  intros (S1 & M1 & evs1 & T1 & F1) (S2 & M2 & evs2 & T2 & F2).
  split; [eapply sameHart_trans; eauto|]. split; [congruence|].
  exists (evs2 ++ evs1). split.
  - rewrite T2, T1, app_assoc. reflexivity.
  - apply Forall_app; auto.
Qed.

Lemma readOnlyIfFree_refl r : readOnlyIfFree r r.
Proof. intros _. apply readOnly_refl. Qed.

Lemma readOnlyIfFree_trans r1 r2 r3 :
  readOnlyIfFree r1 r2 -> readOnlyIfFree r2 r3 -> readOnlyIfFree r1 r3.
Proof.
  intros H1 H2 P. specialize (H1 P).
  apply (readOnly_trans _ _ _ H1). apply H2.
  apply (writeFree_sameHart r1 r2); [apply H1 | exact P].
Qed.

Lemma preserves_emit_ro ev :
  isWrite ev = false -> preserves readOnlyIfFree (emit ev).
Proof.
  intros Hev r x r' H _. inversion H; subst.
  split; [reflexivity|]. split; [reflexivity|]. exists [ev]. auto.
Qed.

Lemma preserves_modify_ro (f : riscv -> riscv) :
  (forall r, hartErase (f r) = hartErase r /\ ptwMem (f r) = ptwMem r
             /\ trace (f r) = trace r) ->
  preserves readOnlyIfFree (modify f).
Proof.
  intros Hf r x r' H _. inversion H; subst. destruct (Hf r) as (S & Mm & T).
  split; [exact S|]. split; [exact Mm|]. exists []. auto.
Qed.

Lemma preserves_storeEntry_ro id p e :
  preserves readOnlyIfFree (storeEntry id p e).
Proof.
  intros r x r' H _. unfold storeEntry, bind, getTLB, modify in H.
  destruct (riscv_tlb r id); [|discriminate H]. inversion H; subst.
  split; [reflexivity|]. split; [reflexivity|]. exists []. auto.
Qed.

Lemma preserves_update_tlb_ro id (f : riscvTLB -> riscvTLB) :
  preserves readOnlyIfFree (t <- getTLB id;; modify (set_tlb id (f t))).
Proof.
  intros r x r' H _. unfold bind, getTLB, modify in H.
  destruct (riscv_tlb r id); [|discriminate H]. inversion H; subst.
  split; [reflexivity|]. split; [reflexivity|]. exists []. auto.
Qed.

Ltac ro_frame leaf :=
  preserve readOnlyIfFree_refl readOnlyIfFree_trans
    ltac:(first
      [ leaf
      | apply preserves_storeEntry_ro
      | match goal with
        | |- preserves _ (emit _) => apply preserves_emit_ro; reflexivity
        | |- preserves _ (modify _) =>
            apply preserves_modify_ro; intros ?; repeat split
        end ]).

Lemma deleteTLBEntryMappingsMode_ro id p mode :
  preserves readOnlyIfFree (deleteTLBEntryMappingsMode id p mode).
Proof. unfold deleteTLBEntryMappingsMode. ro_frame ltac:(fail). Qed.

Lemma unmapTLBEntry_ro id p : preserves readOnlyIfFree (unmapTLBEntry id p).
Proof.
  unfold unmapTLBEntry. ro_frame ltac:(apply deleteTLBEntryMappingsMode_ro).
Qed.

Lemma unmapTLBEntryNewASID_ro id p newASID :
  preserves readOnlyIfFree (unmapTLBEntryNewASID id p newASID).
Proof.
  unfold unmapTLBEntryNewASID, deleteTLBEntryMappingsModeASID.
  ro_frame ltac:(apply deleteTLBEntryMappingsMode_ro).
Qed.

Lemma deleteTLBEntry_ro id p : preserves readOnlyIfFree (deleteTLBEntry id p).
Proof.
  unfold deleteTLBEntry, reportDeleteTLBEntry, dumpTLBEntry.
  ro_frame ltac:(first
    [ apply unmapTLBEntry_ro
    | apply (preserves_update_tlb_ro id
        (fun t => {| entries := entries t;
                     lut := filter (fun q => negb (q =? p)%nat) (lut t);
                     free := p :: free t |})) ]).
Qed.

Lemma iterTLBEntries_ro {T} id ps (B : tlbEntryP -> M (option T)) :
  (forall p, preserves readOnlyIfFree (B p)) ->
  preserves readOnlyIfFree (iterTLBEntries id ps B).
Proof.
  intros HB. induction ps as [|p ps IH]; cbn [iterTLBEntries].
  - apply preserves_ret, readOnlyIfFree_refl.
  - ro_frame ltac:(first [ apply deleteTLBEntry_ro | apply HB | apply IH ]).
Qed.

Lemma findTLBEntry_ro id VA : preserves readOnlyIfFree (findTLBEntry id VA).
Proof.
  unfold findTLBEntry, ITER_TLB_ENTRY_RANGE.
  ro_frame ltac:(apply iterTLBEntries_ro; intros ?; ro_frame ltac:(fail)).
Qed.

Lemma validateTLBEntryPriv_ro mode entry requiredPriv attrs mi :
  preserves readOnlyIfFree
    (validateTLBEntryPriv mode entry requiredPriv attrs mi).
Proof. unfold validateTLBEntryPriv. ro_frame ltac:(apply deleteTLBEntry_ro). Qed.

Lemma handleInvalidAccess_ro VA attrs exc :
  preserves readOnlyIfFree (handleInvalidAccess VA attrs exc).
Proof. unfold handleInvalidAccess. ro_frame ltac:(fail). Qed.

Lemma allocateTLBEntry_ro id base attrs :
  preserves readOnlyIfFree (allocateTLBEntry id base attrs).
Proof.
  unfold allocateTLBEntry, newTLBEntry, insertTLBEntry, dumpTLBEntry.
  ro_frame ltac:(fail).
Qed.

Lemma handlePTWException_ro mode entry requiredPriv PTEAddr code :
  preserves readOnlyIfFree
    (handlePTWException mode entry requiredPriv PTEAddr code).
Proof.
  unfold handlePTWException, getAccessChar, originalAccessFault.
  ro_frame ltac:(fail).
Qed.

Lemma walkError_ro mode requiredPriv entry PTEAddr code :
  preserves readOnlyIfFree (walkError mode requiredPriv entry PTEAddr code).
Proof. unfold walkError. ro_frame ltac:(apply handlePTWException_ro). Qed.

Lemma readPageTableEntry_ro mode PTEAddr entryBytes attrs :
  preserves readOnlyIfFree (readPageTableEntry mode PTEAddr entryBytes attrs).
Proof. unfold readPageTableEntry, vmirtReadDomain. ro_frame ltac:(fail). Qed.

Lemma ptwLoop_ro f mode attrs VA n : forall a PTEAddr0,
  preserves readOnlyIfFree (ptwLoop f mode attrs VA n a PTEAddr0).
Proof.
  induction n as [|n IH]; intros a PTEAddr0; cbn [ptwLoop].
  - apply preserves_ret, readOnlyIfFree_refl.
  - ro_frame ltac:(first [ apply readPageTableEntry_ro | apply IH ]).
Qed.

Lemma getRootTableAddress_ro : preserves readOnlyIfFree getRootTableAddress.
Proof. unfold getRootTableAddress. ro_frame ltac:(fail). Qed.

(** An artifact access writes no entry. *)
Lemma writePageTableEntry_artifact mode PTEAddr entryBytes attrs value r r' :
  artifactAccess r = true ->
  writePageTableEntry mode PTEAddr entryBytes attrs value r = Some (tt, r') ->
  readOnly r r'.
Proof.
  intros Ha H. unfold writePageTableEntry in H. mon. fields.
  rewrite Ha in H. inversion H; subst.
  split; [reflexivity|]. split; [reflexivity|]. exists []. auto.
Qed.

Lemma walkFinish_ro f mode entry requiredPriv attrs PTEAddr VA i PTE r x r' :
  writeFree r ->
  walkFinish f mode requiredPriv attrs PTEAddr
    (walkLeaf f r mode entry requiredPriv VA i PTE) r = Some (x, r') ->
  readOnly r r'.
Proof.
  intros P H.
  destruct (walkLeaf f r mode entry requiredPriv VA i PTE)
    as [[code e]|[e w]] eqn:Hl; cbn [walkFinish] in H.
  - exact (walkError_ro _ _ _ _ _ _ _ _ H P).
  - destruct w as [PTE'|]; [|inversion H; apply readOnly_refl].
    apply walkLeaf_entry in Hl as (_ & _ & _ & _ & _ & _ & _ & _ & _ & _ & Hw & _).
    assert (Ha : artifactAccess r = true).
    { destruct P as [Ha|[HA HD]]; [exact Ha|].
      destruct (Hw PTE' eq_refl) as [[_ E]|[_ [E _]]]; congruence. }
    apply bind_inv in H as ([] & r2 & Hwr & H).
    apply (writePageTableEntry_artifact _ _ _ _ _ _ _ Ha) in Hwr.
    apply (readOnly_trans _ _ _ Hwr).
    unfold bind at 1, gets at 1 in H.
    destruct (PTWBadAddr r2); [|inversion H; apply readOnly_refl].
    apply (walkError_ro _ _ _ _ _ _ _ _ H).
    apply (writeFree_sameHart r r2); [apply Hwr | exact P].
Qed.

Lemma tlbLookupSv_ro f mode entry requiredPriv attrs :
  preserves readOnlyIfFree (tlbLookupSv f mode entry requiredPriv attrs).
Proof.
  intros r x r' H P. rewrite tlbLookupSv_steps in H. unfold walkSteps in H.
  cbv zeta in H.
  destruct ((0 <? svExtendBits f) && _);
    [exact (walkError_ro _ _ _ _ _ _ _ _ H P)|].
  apply bind_inv in H as (a & r0 & Ha & H).
  apply getRootTableAddress_state in Ha. subst r0.
  apply bind_inv in H as (o & r1 & Ho & H).
  pose proof (ptwLoop_ro _ _ _ _ _ _ _ _ _ _ Ho P) as R1.
  assert (P1 : writeFree r1)
    by (apply (writeFree_sameHart r r1); [apply R1 | exact P]).
  apply (readOnly_trans _ _ _ R1).
  destruct o as [code PTEAddr | i PTE PTEAddr | PTEAddr].
  - exact (walkError_ro _ _ _ _ _ _ _ _ H P1).
  - unfold bind at 1, get at 1 in H.
    exact (walkFinish_ro _ _ _ _ _ _ _ _ _ _ _ _ P1 H).
  - exact (walkError_ro _ _ _ _ _ _ _ _ H P1).
Qed.

Lemma tlbLookupSvx4_ro f shift mode entry requiredPriv attrs :
  preserves readOnlyIfFree
    (tlbLookupSvx4 f shift mode entry requiredPriv attrs).
Proof.
  unfold tlbLookupSvx4.
  ro_frame ltac:(first [ apply handlePTWException_ro | apply tlbLookupSv_ro ]).
Qed.

Lemma tlbLookup_ro mode entry requiredPriv attrs :
  preserves readOnlyIfFree (tlbLookup mode entry requiredPriv attrs).
Proof.
  unfold tlbLookup, tlbLookupS1, tlbLookupS2, tlbLookupSv32, tlbLookupSv39,
    tlbLookupSv48, tlbLookupSv32x4, tlbLookupSv39x4, tlbLookupSv48x4.
  ro_frame ltac:(first [ apply tlbLookupSv_ro | apply tlbLookupSvx4_ro ]).
Qed.

Lemma findOrCreateTLBEntry_ro mode attrs mi :
  preserves readOnlyIfFree (findOrCreateTLBEntry mode attrs mi).
Proof.
  unfold findOrCreateTLBEntry.
  ro_frame ltac:(first
    [ apply findTLBEntry_ro | apply validateTLBEntryPriv_ro
    | apply tlbLookup_ro | apply handleInvalidAccess_ro
    | apply allocateTLBEntry_ro ]).
Qed.

Lemma getTLBStageEntry_ro id mode mi attrs :
  preserves readOnlyIfFree (getTLBStageEntry id mode mi attrs).
Proof.
  unfold getTLBStageEntry, activateTLB, deactivateTLB.
  ro_frame ltac:(first
    [ apply findOrCreateTLBEntry_ro | apply unmapTLBEntryNewASID_ro ]).
Qed.

Lemma mapTLBEntry_ro VA GPA id1 entry1 entry2 domainV mode requiredPriv mi :
  preserves readOnlyIfFree
    (mapTLBEntry VA GPA id1 entry1 entry2 domainV mode requiredPriv mi).
Proof.
  unfold mapTLBEntry, mapPMA, mapPMP, setPMPPriv, pmpProtect.
  ro_frame ltac:(fail).
Qed.

Section ReadOnly.

Variables MEM_PRIV_USER MEM_PRIV_ALIGN : memPriv.

(** X16. tlbMiss: a translation for an artifact access, and any translation on a
    hart without hardware update of A and D, writes no page table entry: the
    page table memory is as before, no write is among the calls made, and
    the registers of the hart are kept. *)
Theorem tlbMiss_readOnly domain mode mi attrs r res r'
    (Hfree : artifactAccess r = true
             \/ (updatePTEA r = false /\ updatePTED r = false))
    (Hrun : tlbMiss MEM_PRIV_USER MEM_PRIV_ALIGN domain mode mi attrs r
            = Some (res, r')) :
  ptwMem r' = ptwMem r
  /\ filter isWrite (newEvents r r') = []
  /\ sameHart r r'.
Proof.
  assert (H : readOnly r r').
  { revert Hfree. change (readOnlyIfFree r r'). revert Hrun.
    generalize r res r'.
    change (preserves readOnlyIfFree
              (tlbMiss MEM_PRIV_USER MEM_PRIV_ALIGN domain mode mi attrs)).
    unfold tlbMiss, getCurrentTLBId.
    ro_frame ltac:(first
      [ apply getTLBStageEntry_ro | apply mapTLBEntry_ro ]). }
  destruct H as (S & Mm & evs & T & F).
  split; [exact Mm|]. split; [|exact S].
  rewrite (newEvents_app _ _ _ T). apply filter_none. exact F.
Qed.

End ReadOnly.

(* ------------------------------------------------------------------------- *)
(** ** The exception of a failing walk *)

(** The exception for an access of kind [requiredPriv]: an access fault when
    [access] is set, else a page fault, which is a guest page fault in
    stage 2. *)
Definition faultOf (requiredPriv : memPriv) (S2 access : bool)
  : riscvException :=
  if requiredPriv =? MEM_PRIV_R then
    if access then riscv_E_LoadAccessFault
    else if S2 then riscv_E_LoadGuestPageFault else riscv_E_LoadPageFault
  else if requiredPriv =? MEM_PRIV_W then
    if access then riscv_E_StoreAMOAccessFault
    else if S2 then riscv_E_StoreAMOGuestPageFault
    else riscv_E_StoreAMOPageFault
  else
    if access then riscv_E_InstructionAccessFault
    else if S2 then riscv_E_InstructionGuestPageFault
    else riscv_E_InstructionPageFault.

(** Does the error arise from a failing access to the page table? *)
Definition accessError (code : pteError) : bool :=
  match code with
  | PTEE_READ | PTEE_WRITE => true
  | _ => false
  end.

Lemma handlePTWException_fault mode entry requiredPriv PTEAddr code r x r' :
  handlePTWException mode entry requiredPriv PTEAddr code r = Some (x, r') ->
  x = faultOf requiredPriv (activeTLBIsVS2 r) (accessError code)
  /\ activeTLB r' = activeTLB r /\ PTWBadAddr r' = PTWBadAddr r.
Proof.
  intros H. unfold handlePTWException in H.
  unfold faultOf, accessError.
  destruct code; cbn [pteErrorDesc] in H; cbv beta iota in H;
    unfold getAccessChar, originalAccessFault in H; mon; fields;
    unfold activeTLBIsVS2 in *; fields;
    run_cases H; inversion H; subst; clear H; fields;
    rewrite ?E, ?E0, ?E1, ?E2; auto.
Qed.

Lemma walkError_fault mode requiredPriv entry PTEAddr code r exc e' r' :
  walkError mode requiredPriv entry PTEAddr code r = Some ((exc, e'), r') ->
  exc = Some (faultOf requiredPriv (activeTLBIsVS2 r) (accessError code))
  /\ activeTLB r' = activeTLB r /\ PTWBadAddr r' = PTWBadAddr r.
Proof.
  unfold walkError. intros H. apply bind_inv in H as (x & r1 & Hx & H).
  inversion H; subst. apply handlePTWException_fault in Hx as (-> & A & B).
  auto.
Qed.

Lemma activeTLBIsVS2_ext r r' :
  activeTLB r' = activeTLB r -> activeTLBIsVS2 r' = activeTLBIsVS2 r.
Proof. unfold activeTLBIsVS2. intros ->. reflexivity. Qed.

Lemma ptwLoop_bad f mode attrs VA : forall n a PTEAddr0 r code PTEAddr r',
  ptwLoop f mode attrs VA n a PTEAddr0 r = Some (PTW_Error code PTEAddr, r') ->
  accessError code = PTWBadAddr r'.
Proof.
  induction n as [|n IH]; intros a PTEAddr0 r code PTEAddr r' H;
    cbn [ptwLoop] in H.
  - inversion H.
  - apply bind_inv in H as (PTE0 & r1 & _ & H).
    unfold bind at 1, gets at 1 in H.
    destruct (PTWBadAddr r1) eqn:Hb; [inversion H; subst; auto|].
    destruct (negb (PTE_V PTE0)); [inversion H; subst; auto|].
    destruct (Z.land (PTE_priv PTE0) MEM_PRIV_RW =? MEM_PRIV_W);
      [inversion H; subst; auto|].
    destruct (z2b (PTE_priv PTE0)); [inversion H|].
    apply (IH _ _ _ _ _ _ H).
Qed.

Lemma tlbLookupSv_fault f mode entry requiredPriv attrs r x e' r' :
  tlbLookupSv f mode entry requiredPriv attrs r = Some ((Some x, e'), r') ->
  exists access,
    x = faultOf requiredPriv (activeTLBIsVS2 r) access
    /\ (access = true -> PTWBadAddr r' = true).
Proof.
  rewrite tlbLookupSv_steps. unfold walkSteps. cbv zeta. intros H.
  destruct ((0 <? svExtendBits f) && _).
  { apply walkError_fault in H as (E & _). inversion E; subst.
    eexists. split; [reflexivity|]. discriminate. }
  apply bind_inv in H as (a & r0 & Ha & H).
  apply getRootTableAddress_state in Ha. subst r0.
  apply bind_inv in H as (o & r1 & Ho & H).
  pose proof (ptwLoop_effect _ _ _ _ _ _ _ _ _ _ Ho) as (_ & A1 & _).
  destruct o as [code PTEAddr | i PTE PTEAddr | PTEAddr].
  - apply ptwLoop_bad in Ho.
    apply walkError_fault in H as (E & _ & B). inversion E; subst.
    rewrite (activeTLBIsVS2_ext _ _ A1).
    eexists. split; [reflexivity|]. intros Hc. congruence.
  - unfold bind at 1, get at 1 in H.
    destruct (walkLeaf f r1 mode entry requiredPriv _ i PTE)
      as [[code e]|[e w]] eqn:Hl; cbn [walkFinish] in H.
    + assert (Hc : accessError code = false).
      { unfold walkLeaf in Hl. cbv zeta in Hl.
        destruct (z2b (Z.land _ _)); [inversion Hl; reflexivity|].
        destruct (negb (z2b (checkEntryPermission _ _ _ _)));
          [inversion Hl; reflexivity|].
        cbn [A D] in Hl.
        destruct (negb (PTE_A PTE) && negb (updatePTEA r1));
          [inversion Hl; reflexivity|].
        destruct (PTE_A PTE); cbn [D entry_set_A] in Hl;
          destruct (negb (PTE_D PTE
                          || negb (z2b (Z.land requiredPriv MEM_PRIV_W))));
          cbn [andb] in Hl; destruct (updatePTED r1); cbn [negb] in Hl;
          inversion Hl; reflexivity. }
      apply walkError_fault in H as (E & _). inversion E; subst.
      rewrite (activeTLBIsVS2_ext _ _ A1), Hc.
      eexists. split; [reflexivity|]. discriminate.
    + destruct w as [PTE'|]; [|inversion H].
      apply bind_inv in H as ([] & r2 & Hw & H).
      destruct (writePageTableEntry_effect mode PTEAddr (svEntryBytes f) attrs
                  PTE' r1) as (r2' & Hw' & _ & _ & A2 & _).
      rewrite Hw in Hw'. inversion Hw'; subst r2'. clear Hw'.
      unfold bind at 1, gets at 1 in H.
      destruct (PTWBadAddr r2) eqn:Hb; [|inversion H].
      apply walkError_fault in H as (E & _ & B). inversion E; subst.
      rewrite (activeTLBIsVS2_ext _ _ A2), (activeTLBIsVS2_ext _ _ A1).
      eexists. split; [reflexivity|]. intros _. congruence.
  - apply walkError_fault in H as (E & _). inversion E; subst.
    rewrite (activeTLBIsVS2_ext _ _ A1).
    eexists. split; [reflexivity|]. discriminate.
Qed.

Lemma tlbLookupSvx4_fault f shift mode entry requiredPriv attrs r x e' r' :
  tlbLookupSvx4 f shift mode entry requiredPriv attrs r
  = Some ((Some x, e'), r') ->
  exists access,
    x = faultOf requiredPriv (activeTLBIsVS2 r) access
    /\ (access = true -> PTWBadAddr r' = true).
Proof.
  unfold tlbLookupSvx4. intros H.
  destruct ((0 <? svExtendBits f) && _).
  - apply bind_inv in H as (x0 & r1 & Hx & H). inversion H; subst.
    apply handlePTWException_fault in Hx as (-> & _).
    eexists. split; [reflexivity|]. discriminate.
  - apply bind_inv in H as ([] & r1 & Hm & H).
    unfold modify in Hm. inversion Hm; subst r1. clear Hm.
    apply bind_inv in H as ([exc e1] & r2 & Hw & H).
    destruct exc as [x1|]; inversion H; subst.
    apply tlbLookupSv_fault in Hw. exact Hw.
Qed.

Lemma tlbLookup_faultOf mode entry requiredPriv attrs r x e' r'
    (Hrun : tlbLookup mode entry requiredPriv attrs r
            = Some ((Some x, e'), r')) :
  exists access,
    x = faultOf requiredPriv
          (riscvTLBId_eqb (activeTLB r) RISCV_TLB_VS2) access
    /\ isPageFault x = negb access
    /\ (access = true -> PTWBadAddr r' = true).
Proof.
  assert (H : exists access,
             x = faultOf requiredPriv (activeTLBIsVS2 r) access
             /\ (access = true -> PTWBadAddr r' = true)).
  { unfold tlbLookup in Hrun. unfold bind at 1, gets at 1 in Hrun.
    destruct (negb (activeTLBIsVS2 r)).
    - unfold tlbLookupS1 in Hrun. unfold bind at 1, get at 1 in Hrun.
      unfold tlbLookupSv32, tlbLookupSv39, tlbLookupSv48 in Hrun.
      run_cases Hrun; apply tlbLookupSv_fault in Hrun; exact Hrun.
    - unfold tlbLookupS2 in Hrun. unfold bind at 1, get at 1 in Hrun.
      apply bind_inv in Hrun as ([exc e1] & r1 & Hw & H).
      destruct exc as [x1|]; [|inversion H].
      apply bind_inv in H as ([] & r2 & Hm & H).
      unfold modify in Hm. inversion Hm; subst r2. clear Hm.
      inversion H; subst. fields.
      unfold tlbLookupSv32x4, tlbLookupSv39x4, tlbLookupSv48x4 in Hw.
      run_cases Hw; apply tlbLookupSvx4_fault in Hw; exact Hw. }
  destruct H as (access & -> & Hb). exists access.
  split; [reflexivity|]. split; [|exact Hb].
  unfold faultOf.
  destruct (requiredPriv =? MEM_PRIV_R), (requiredPriv =? MEM_PRIV_W),
    access, (activeTLBIsVS2 r); reflexivity.
Qed.

(** X17. tlbLookup: the exception of a failing walk is of the kind of the access
    (load, store, or else instruction fetch).  It is an access fault only
    when the last access of the walk to a page table entry failed, and
    otherwise a page fault, which is a guest page fault exactly when the
    stage 2 TLB is the active one. *)
Theorem tlbLookup_fault mode entry requiredPriv attrs r x e' r'
    (Hrun : tlbLookup mode entry requiredPriv attrs r
            = Some ((Some x, e'), r')) :
  exists access,
    x = faultOf requiredPriv
          (riscvTLBId_eqb (activeTLB r) RISCV_TLB_VS2) access
    /\ isPageFault x = negb access
    /\ (access = true -> PTWBadAddr r' = true).
Proof. exact (tlbLookup_faultOf mode entry requiredPriv attrs r x e' r' Hrun). Qed.

(* ------------------------------------------------------------------------- *)
(** ** What the exception of a translation reports *)

(** The registers that describe a pending fault are kept. *)
Definition regsKept (r r' : riscv) : Prop :=
  s2Active r' = s2Active r /\ s1VA r' = s1VA r
  /\ GPA r' = GPA r /\ GVA r' = GVA r.

Lemma regsKept_refl r : regsKept r r.
Proof. repeat split. Qed.

Lemma regsKept_trans r1 r2 r3 :
  regsKept r1 r2 -> regsKept r2 r3 -> regsKept r1 r3.
Proof.
  intros (A1 & B1 & C1 & D1) (A2 & B2 & C2 & D2). repeat split; congruence.
Qed.

Lemma preserves_modify_regs (f : riscv -> riscv) :
  (forall r, regsKept r (f r)) -> preserves regsKept (modify f).
Proof. intros Hf r x r' H. inversion H; subst. apply Hf. Qed.

Lemma preserves_storeEntry_regs id p e : preserves regsKept (storeEntry id p e).
Proof.
  intros r x r' H. unfold storeEntry, bind, getTLB, modify in H.
  destruct (riscv_tlb r id); [|discriminate H]. inversion H; subst.
  repeat split.
Qed.

Lemma preserves_update_tlb_regs id (f : riscvTLB -> riscvTLB) :
  preserves regsKept (t <- getTLB id;; modify (set_tlb id (f t))).
Proof.
  intros r x r' H. unfold bind, getTLB, modify in H.
  destruct (riscv_tlb r id); [|discriminate H]. inversion H; subst.
  repeat split.
Qed.

Ltac regs_frame leaf :=
  preserve regsKept_refl regsKept_trans
    ltac:(first
      [ leaf
      | apply preserves_storeEntry_regs
      | match goal with
        | |- preserves _ (emit _) =>
            apply preserves_modify_regs; intros ?; repeat split
        | |- preserves _ (modify _) =>
            apply preserves_modify_regs; intros ?; repeat split
        end ]).

Lemma deleteTLBEntry_regs id p : preserves regsKept (deleteTLBEntry id p).
Proof.
  unfold deleteTLBEntry, reportDeleteTLBEntry, dumpTLBEntry, unmapTLBEntry,
    deleteTLBEntryMappingsMode.
  regs_frame ltac:(
    apply (preserves_update_tlb_regs id
        (fun t => {| entries := entries t;
                     lut := filter (fun q => negb (q =? p)%nat) (lut t);
                     free := p :: free t |}))).
Qed.

Lemma iterTLBEntries_regs {T} id ps (B : tlbEntryP -> M (option T)) :
  (forall p, preserves regsKept (B p)) ->
  preserves regsKept (iterTLBEntries id ps B).
Proof.
  intros HB. induction ps as [|p ps IH]; cbn [iterTLBEntries].
  - apply preserves_ret, regsKept_refl.
  - regs_frame ltac:(first [ apply deleteTLBEntry_regs | apply HB | apply IH ]).
Qed.

Lemma findTLBEntry_regs id VA : preserves regsKept (findTLBEntry id VA).
Proof.
  unfold findTLBEntry, ITER_TLB_ENTRY_RANGE.
  regs_frame ltac:(apply iterTLBEntries_regs; intros ?; regs_frame ltac:(fail)).
Qed.

Lemma validateTLBEntryPriv_regs mode entry requiredPriv attrs mi :
  preserves regsKept (validateTLBEntryPriv mode entry requiredPriv attrs mi).
Proof.
  unfold validateTLBEntryPriv. regs_frame ltac:(apply deleteTLBEntry_regs).
Qed.

Lemma handlePTWException_regs mode entry requiredPriv PTEAddr code :
  preserves regsKept (handlePTWException mode entry requiredPriv PTEAddr code).
Proof.
  unfold handlePTWException, getAccessChar, originalAccessFault.
  regs_frame ltac:(fail).
Qed.

Lemma ptwLoop_regs f mode attrs VA n : forall a PTEAddr0,
  preserves regsKept (ptwLoop f mode attrs VA n a PTEAddr0).
Proof.
  induction n as [|n IH]; intros a PTEAddr0; cbn [ptwLoop].
  - apply preserves_ret, regsKept_refl.
  - unfold readPageTableEntry, vmirtReadDomain.
    regs_frame ltac:(apply IH).
Qed.

Lemma tlbLookupSv_regs f mode entry requiredPriv attrs :
  preserves regsKept (tlbLookupSv f mode entry requiredPriv attrs).
Proof.
  unfold tlbLookupSv, getRootTableAddress, writePageTableEntry,
    vmirtWriteDomain.
  regs_frame ltac:(first
    [ apply handlePTWException_regs | apply ptwLoop_regs ]).
Qed.

Lemma tlbLookupSvx4_regs f shift mode entry requiredPriv attrs :
  preserves regsKept (tlbLookupSvx4 f shift mode entry requiredPriv attrs).
Proof.
  unfold tlbLookupSvx4.
  regs_frame ltac:(first
    [ apply handlePTWException_regs | apply tlbLookupSv_regs ]).
Qed.

(** The walk leaves the fault registers alone, but for the guest physical
    address, which a failing stage 2 walk sets to the address walked,
    shifted right by two bits. *)
Lemma tlbLookup_regs mode entry requiredPriv attrs r exc e' r' :
  tlbLookup mode entry requiredPriv attrs r = Some ((exc, e'), r') ->
  s2Active r' = s2Active r /\ s1VA r' = s1VA r /\ GVA r' = GVA r
  /\ GPA r' = match exc with
              | Some _ =>
                  if activeTLBIsVS2 r then Z.shiftr (lowVA entry) 2
                  else GPA r
              | None => GPA r
              end.
Proof.
  intros H. unfold tlbLookup in H. unfold bind at 1, gets at 1 in H.
  destruct (activeTLBIsVS2 r); cbn [negb] in H.
  - unfold tlbLookupS2 in H. unfold bind at 1, get at 1 in H.
    apply bind_inv in H as ([exc1 e1] & r1 & Hw & H).
    assert (K : regsKept r r1).
    { unfold tlbLookupSv32x4, tlbLookupSv39x4, tlbLookupSv48x4 in Hw.
      run_cases Hw; apply tlbLookupSvx4_regs in Hw; exact Hw. }
    destruct K as (K1 & K2 & K3 & K4).
    destruct exc1 as [x|].
    + apply bind_inv in H as ([] & r2 & Hm & H).
      unfold modify in Hm. inversion Hm; subst r2. clear Hm.
      inversion H; subst. fields. auto.
    + inversion H; subst. auto.
  - unfold tlbLookupS1 in H. unfold bind at 1, get at 1 in H.
    assert (K : regsKept r r').
    { unfold tlbLookupSv32, tlbLookupSv39, tlbLookupSv48 in H.
      run_cases H; apply tlbLookupSv_regs in H; exact H. }
    destruct K as (K1 & K2 & K3 & K4). destruct exc; auto.
Qed.

Lemma handleInvalidAccess_report VA attrs exc r :
  MEM_AA_IS_ARTIFACT_ACCESS attrs = false ->
  exists r',
    handleInvalidAccess VA attrs exc r = Some (tt, r')
    /\ trace r' =
       riscvTakeMemoryException exc (if s2Active r then s1VA r else VA)
         (activeTLBIsVirtual r) (GPA r) :: trace r
    /\ GPA r' = 0 /\ GVA r' = false
    /\ s2Active r' = s2Active r /\ s1VA r' = s1VA r.
Proof.
  intros Hna. unfold handleInvalidAccess. mon. rewrite Hna. cbn [negb].
  eexists. split; [reflexivity|]. fields. repeat split.
Qed.

Lemma activeTLBIsVirtual_ext r r' :
  activeTLB r' = activeTLB r -> activeTLBIsVirtual r' = activeTLBIsVirtual r.
Proof. unfold activeTLBIsVirtual. intros ->. reflexivity. Qed.

Lemma tlbEvents_silent evs : Forall tlbEvent evs -> Forall silentEvent evs.
Proof. apply Forall_impl. exact tlbEvent_silent. Qed.

Lemma walkEvents_silent ext evs :
  Forall (walkEvent ext) evs -> Forall silentEvent evs.
Proof. apply Forall_impl. exact (walkEvent_silent ext). Qed.

(** The lookup in one TLB that ends without an entry. *)
Lemma findOrCreateTLBEntry_faulted mode attrs mi r mi' r' :
  MEM_AA_IS_ARTIFACT_ACCESS attrs = false ->
  findOrCreateTLBEntry mode attrs mi r = Some ((None, mi'), r') ->
  exists access evs,
    trace r' =
    riscvTakeMemoryException
      (faultOf (mi_priv mi) (activeTLBIsVS2 r) access)
      (if s2Active r then s1VA r else mi_lowVA mi)
      (activeTLBIsVirtual r)
      (if activeTLBIsVS2 r then Z.shiftr (mi_lowVA mi) 2 else GPA r)
    :: evs ++ trace r
    /\ Forall silentEvent evs
    /\ GPA r' = 0 /\ GVA r' = false
    /\ s2Active r' = s2Active r /\ s1VA r' = s1VA r
    /\ activeTLB r' = activeTLB r.
Proof.
  intros Hna H. unfold findOrCreateTLBEntry in H.
  unfold bind at 1, gets at 1 in H.
  apply bind_inv in H as (entry0 & r1 & Hfind & H).
  pose proof (findTLBEntry_regs _ _ _ _ _ Hfind) as K1.
  apply findTLBEntry_frame in Hfind.
  apply bind_inv in H as ([entry1 mi1] & r2 & Hval & H).
  pose proof (validateTLBEntryPriv_regs _ _ _ _ _ _ _ _ Hval) as K2.
  pose proof (validateTLBEntryPriv_priv _ _ _ _ _ _ _ _ _ Hval) as Hmi.
  apply validateTLBEntryPriv_spec in Hval as [Fv _].
  rewrite (tlbFrame_active _ _ _ Hfind) in Fv.
  pose proof (tlbFrame_trans _ _ _ _ Hfind Fv) as F12.
  destruct (regsKept_trans _ _ _ K1 K2) as (Ks & Kv & Kg & _).
  destruct F12 as ((_ & A12 & evs1 & T1 & F1) & _).
  destruct entry1 as [p|]; [inversion H|]. subst mi1.
  apply bind_inv in H as ([exc tmp] & r3 & Hwalk & H).
  pose proof (tlbLookup_regs _ _ _ _ _ _ _ _ Hwalk) as (Ws & Wv & _ & Wg).
  pose proof (tlbLookup_spec _ _ _ _ _ _ _ _ Hwalk)
    as ((S3 & A3 & evs2 & T2 & F2) & _ & _ & _ & _ & Hok).
  destruct exc as [x|].
  - apply tlbLookup_faultOf in Hwalk as (access & -> & _).
    apply bind_inv in H as (entry2 & r4 & Hh & H).
    apply bind_inv in Hh as ([] & r5 & Hh & Hr). inversion Hr; subst.
    destruct (handleInvalidAccess_report (mi_lowVA mi) attrs
                (faultOf (mi_priv mi)
                   (riscvTLBId_eqb (activeTLB r2) RISCV_TLB_VS2) access)
                r3 Hna) as (r4' & Hh' & T4 & G4 & V4 & S4 & V4').
    rewrite Hh in Hh'. inversion Hh'; subst r4'. clear Hh'.
    cbn in H. inversion H; subst. clear H.
    assert (A4 : activeTLB r' = activeTLB r3).
    { apply handleInvalidAccess_spec in Hh. tauto. }
    exists access, (evs2 ++ evs1).
    split; [|split; [|split; [exact G4|split; [exact V4|]]]].
    + cbn [lowVA initialEntry] in Wg.
      rewrite T4, T2, T1, <- app_assoc.
      rewrite (activeTLBIsVirtual_ext r r3) by congruence.
      rewrite Ws, Wv, Ks, Kv, Wg, Kg.
      change (riscvTLBId_eqb (activeTLB r2) RISCV_TLB_VS2)
        with (activeTLBIsVS2 r2).
      rewrite (activeTLBIsVS2_ext r r2 A12). reflexivity.
    + apply Forall_app. split.
      * apply (walkEvents_silent true), F2.
      * apply tlbEvents_silent, F1.
    + split; [congruence|]. split; congruence.
  - destruct (Hok eq_refl) as (bytes & Hsucc).
    apply bind_inv in H as (entry2 & r4 & Ha & H).
    apply bind_inv in Ha as (p & r5 & Ha & Hr). inversion Hr; subst.
    apply allocateTLBEntry_spec in Ha as (Ea & Oa & Da & _).
    apply validateTLBEntryPriv_valid in H as [E _]; [discriminate E|].
    intros e He.
    assert (A4 : activeTLB r4 = activeTLB r2)
      by (rewrite (effect_active _ _ _ Ea); exact A3).
    rewrite A4, A12 in He. destruct (Da e r4 He) as (Ep & Eu & Ed).
    eapply walkSuccess_valid; eauto.
    eapply sameHart_trans; [exact S3|]. eapply effect_sameHart; eauto.
Qed.

Lemma getTLBStageEntry_faulted id mode mi attrs r mi' r' :
  MEM_AA_IS_ARTIFACT_ACCESS attrs = false ->
  getTLBStageEntry id mode mi attrs r = Some ((None, mi'), r') ->
  exists access evs,
    trace r' =
    riscvTakeMemoryException
      (faultOf (mi_priv mi) (riscvTLBId_eqb id RISCV_TLB_VS2) access)
      (if s2Active r then s1VA r else mi_lowVA mi)
      (negb (riscvTLBId_eqb id RISCV_TLB_HS))
      (if riscvTLBId_eqb id RISCV_TLB_VS2 then Z.shiftr (mi_lowVA mi) 2
       else GPA r)
    :: evs ++ trace r
    /\ Forall silentEvent evs
    /\ GPA r' = 0 /\ GVA r' = false
    /\ s2Active r' = s2Active r /\ s1VA r' = s1VA r.
Proof.
  intros Hna H. unfold getTLBStageEntry, activateTLB, deactivateTLB in H.
  unfold bind at 1, bind at 1, gets at 1, bind at 1, modify at 1, ret at 1
    in H.
  apply bind_inv in H as ([entry mi1] & rb & Hf & H).
  apply bind_inv in H as ([] & rc & Hpost & H).
  unfold bind, modify, ret in H. inversion H; subst entry mi1 r'. clear H.
  inversion Hpost; subst rc. clear Hpost.
  apply (findOrCreateTLBEntry_faulted _ _ _ _ _ _ Hna) in Hf
    as (access & evs & T & F & G0 & V0 & S0 & V1 & _).
  unfold activeTLBIsVS2, activeTLBIsVirtual in T. fields.
  exists access, evs. repeat split; assumption.
Qed.

Lemma getCurrentTLBId_cases r id r' :
  getCurrentTLBId r = Some (id, r') ->
  (id = RISCV_TLB_HS /\ inVMode r = false)
  \/ (id = RISCV_TLB_VS1 /\ inVMode r = true
      /\ z2b (vsatp_MODE (csr r)) = true)
  \/ (id = RISCV_TLB_VS2 /\ inVMode r = true
      /\ z2b (vsatp_MODE (csr r)) = false).
Proof.
  unfold getCurrentTLBId. mon. intros H.
  destruct (inVMode r); cbn [negb] in H.
  - destruct (z2b (vsatp_MODE (csr r))) eqn:Hv.
    + inversion H; subst. auto.
    + destruct (z2b (hgatp_MODE (csr r))); inversion H; subst. auto.
  - destruct (z2b (satp_MODE (csr r))); inversion H; subst. auto.
Qed.

Section Report.

Variables MEM_PRIV_USER MEM_PRIV_ALIGN : memPriv.

(** X18. tlbMiss: what the exception of a failing translation reports.  The
    exception is of the kind of the access; the address reported is the
    virtual address of the access, also when stage 2 of a two-stage
    translation fails; the GVA flag tells whether the hart is in a virtual
    machine; the guest physical address reported is the one in the register
    when stage 1 fails, and the guest physical address that was walked,
    shifted right by two bits, when stage 2 fails (the address obtained
    through the stage 1 entry in a two-stage translation).  Afterwards
    the pending guest physical address and the GVA flag are clear and stage 2
    is inactive. *)
Theorem tlbMiss_reports domain mode mi attrs r mi' r'
    (Hs2 : s2Active r = false)
    (Hna : MEM_AA_IS_ARTIFACT_ACCESS attrs = false)
    (Hrun : tlbMiss MEM_PRIV_USER MEM_PRIV_ALIGN domain mode mi attrs r
            = Some ((true, mi'), r')) :
  exists access S2 gpa,
    filter isException (newEvents r r')
    = [riscvTakeMemoryException (faultOf (mi_priv mi) S2 access)
         (mi_lowVA mi) (inVMode r) gpa]
    /\ (S2 = false -> gpa = GPA r)
    /\ (S2 = true ->
        inVMode r = true
        /\ exists g,
             gpa = Z.shiftr g 2
             /\ (z2b (vsatp_MODE (csr r)) = false -> g = mi_lowVA mi)
             /\ (z2b (vsatp_MODE (csr r)) = true ->
                 exists t1 p1 e1,
                   riscv_tlb r' RISCV_TLB_VS1 = Some t1
                   /\ nth_error (entries t1) p1 = Some e1
                   /\ g = Uns64 (mi_lowVA mi + PA e1 - lowVA e1)))
    /\ GPA r' = 0 /\ GVA r' = false /\ s2Active r' = false.
Proof.
  unfold tlbMiss in Hrun.
  apply bind_inv in Hrun as (id & r0 & Hid & H).
  pose proof (getCurrentTLBId_inv _ _ _ Hid) as ->.
  apply getCurrentTLBId_cases in Hid.
  apply bind_inv in H as ([entry1 mi1] & r1 & Hst1 & H).
  unfold bind at 1, get at 1 in H.
  destruct entry1 as [p1|].
  - pose proof (getTLBStageEntry_spec _ _ _ _ _ _ _ _ Hst1) as St1.
    cbv beta iota in St1.
    destruct (riscvTLBId_eqb id RISCV_TLB_VS1 && z2b (hgatp_MODE (csr r1)))
      eqn:Hs; [|unfold bind at 1, ret at 1 in H;
                apply bind_inv in H as (mi3 & r5 & _ & H); inversion H].
    apply andb_true_iff in Hs as [Hvs1 Hhg].
    apply riscvTLBId_eqb_eq in Hvs1. subst id.
    destruct Hid as [[E _]|[[_ [HV Hvs]]|[E _]]]; try discriminate E.
    apply bind_inv in H as ([[[e1' e2'] GPA'] mi2'] & r4 & Hs & H).
    apply bind_inv in Hs as ([] & ra & Hm & Hs).
    unfold modify in Hm. inversion Hm; subst ra. clear Hm.
    apply bind_inv in Hs as ([] & ra & Hm & Hs).
    unfold modify in Hm. inversion Hm; subst ra. clear Hm.
    apply bind_inv in Hs as (e1 & r2 & Hd & Hs).
    apply derefEntry_inv in Hd as (-> & t1 & Ht1 & He1). fields.
    apply bind_inv in Hs as ([entry2 mi2] & r3 & Hst2 & Hs).
    destruct entry2 as [p2|].
    { unfold bind, modify, ret in Hs. inversion Hs; subst.
      apply bind_inv in H as (mi3 & r5 & _ & H). inversion H. }
    pose proof (getTLBStageEntry_spec _ _ _ _ _ _ _ _ Hst2) as St2.
    cbv beta iota in St2. destruct St2 as (_ & _ & O2 & _).
    apply (getTLBStageEntry_faulted _ _ _ _ _ _ _ Hna) in Hst2
      as (access & evs2 & T2 & F2 & G2 & V2 & S2' & _).
    unfold bind, modify, ret in Hs. inversion Hs; subst. clear Hs.
    inversion H; subst. clear H. fields.
    cbn [mi_priv mi_lowVA riscvTLBId_eqb negb] in T2.
    destruct St1 as (S1 & A1 & O1 & evs1 & T1 & F1).
    destruct (silent_filters evs1 F1) as [_ Fx1].
    destruct (silent_filters evs2 F2) as [_ Fx2].
    exists access, true, (Z.shiftr (Uns64 (mi_lowVA mi + PA e1 - lowVA e1)) 2).
    split; [|split; [discriminate|split; [|auto]]].
    + assert (T : trace (set_s2Active false r3)
                  = (riscvTakeMemoryException
                       (faultOf (mi_priv mi) true access) (mi_lowVA mi) true
                       (Z.shiftr (Uns64 (mi_lowVA mi + PA e1 - lowVA e1)) 2)
                     :: evs2 ++ evs1) ++ trace r).
      { fields. rewrite T2. fields. rewrite T1. cbn [app].
        rewrite app_assoc. reflexivity. }
      rewrite (newEvents_app _ _ _ T). cbn [filter isException].
      rewrite filter_app, Fx1, Fx2, HV. reflexivity.
    + intros _. split; [exact HV|]. eexists. split; [reflexivity|]. split.
      * intros Hb. congruence.
      * intros _. exists t1, p1, e1. split; [|auto].
        fields. rewrite O2 by discriminate. fields. exact Ht1.
  - inversion H; subst. clear H.
    apply (getTLBStageEntry_faulted _ _ _ _ _ _ _ Hna) in Hst1
      as (access & evs & T & F & G0 & V0 & S0 & _).
    rewrite Hs2 in T. destruct (silent_filters evs F) as [_ Fx].
    assert (Tr : trace r' = (riscvTakeMemoryException
                    (faultOf (mi_priv mi)
                       (riscvTLBId_eqb id RISCV_TLB_VS2) access)
                    (mi_lowVA mi) (negb (riscvTLBId_eqb id RISCV_TLB_HS))
                    (if riscvTLBId_eqb id RISCV_TLB_VS2
                     then Z.shiftr (mi_lowVA mi) 2 else GPA r) :: evs)
                 ++ trace r) by exact T.
    rewrite (newEvents_app _ _ _ Tr). cbn [filter isException]. rewrite Fx.
    exists access, (riscvTLBId_eqb id RISCV_TLB_VS2),
      (if riscvTLBId_eqb id RISCV_TLB_VS2
       then Z.shiftr (mi_lowVA mi) 2 else GPA r).
    assert (Hgva : negb (riscvTLBId_eqb id RISCV_TLB_HS) = inVMode r).
    { destruct Hid as [[-> ->]|[[-> [-> _]]|[-> [-> _]]]]; reflexivity. }
    rewrite Hgva. split; [reflexivity|]. split; [intros ->; reflexivity|].
    split; [|split; [exact G0|split; [exact V0|congruence]]].
    intros HS2. rewrite HS2.
    destruct Hid as [[-> _]|[[-> _]|[-> [HV Hbare]]]]; try discriminate HS2.
    split; [exact HV|]. exists (mi_lowVA mi). split; [reflexivity|].
    split; [reflexivity|]. intros Hb. congruence.
Qed.

End Report.

(* ------------------------------------------------------------------------- *)
(** ** The extension check of Sv39x4 *)

Lemma Sv39x4_reduced gpa :
  0 <= gpa < 2 ^ 41 ->
  Uns64 (gpa - Uns64 (Z.shiftl (Z.shiftr gpa SV39x4_SHIFT) SV39x4_SHIFT))
  = gpa mod 2 ^ 39.
Proof.
  intros H. unfold SV39x4_SHIFT, Uns64.
  rewrite Z.shiftl_mul_pow2, Z.shiftr_div_pow2 by lia.
  pose proof (Z.div_mod gpa (2 ^ 39)).
  pose proof (Z.mod_pos_bound gpa (2 ^ 39)).
  assert (0 <= gpa / 2 ^ 39 < 4).
  { split; [apply Z.div_pos; lia|]. apply Z.div_lt_upper_bound; lia. }
  rewrite (Z.mod_small (gpa / 2 ^ 39 * 2 ^ 39)) by lia.
  rewrite Z.mod_small by lia. lia.
Qed.

Lemma signExtended_reduced gpa :
  signExtended (gpa mod 2 ^ 39) 38 <-> Z.testbit gpa 38 = false.
Proof.
  unfold signExtended. split.
  - intros H. specialize (H 39 ltac:(lia)).
    rewrite Z.mod_pow2_bits_high in H by lia.
    rewrite Z.mod_pow2_bits_low in H by lia. congruence.
  - intros H i Hi. rewrite Z.mod_pow2_bits_high by lia.
    rewrite Z.mod_pow2_bits_low by lia. congruence.
Qed.

(** X19. tlbLookupSv39x4: the walk of Sv39x4 accepts a guest physical address
    only if it is below [2 ^ 41] and its bit 38 is clear.  Any other address
    gives a page fault with the invalid extension message as the only call
    made, so that no page table entry is read; an address that is accepted
    never gives that message. *)
Theorem tlbLookupSv39x4_extension mode entry requiredPriv attrs r
    (Hreq : requiredPriv = MEM_PRIV_R \/ requiredPriv = MEM_PRIV_W
            \/ requiredPriv = MEM_PRIV_X)
    (Hva : 0 <= lowVA entry < 2 ^ 64) :
  let gpa := lowVA entry in
  (2 ^ 41 <= gpa \/ Z.testbit gpa 38 = true ->
   exists va c e' r',
     tlbLookupSv39x4 mode entry requiredPriv attrs r
     = Some ((Some (faultOf requiredPriv (activeTLBIsVS2 r) false), e'), r')
     /\ trace r' = vmiMessage "W" PTEE_VAEXTEND va 0 c :: trace r)
  /\ (gpa < 2 ^ 41 -> Z.testbit gpa 38 = false ->
      forall out r',
        tlbLookupSv39x4 mode entry requiredPriv attrs r = Some (out, r') ->
        forall s va a c,
          ~ In (vmiMessage s PTEE_VAEXTEND va a c) (newEvents r r')).
Proof.
  intros gpa.
  assert (Hx : (3 <? Z.shiftr gpa SV39x4_SHIFT) = true <-> 2 ^ 41 <= gpa).
  { unfold SV39x4_SHIFT. rewrite Z.ltb_lt, Z.shiftr_div_pow2 by lia. split.
    - intros H. pose proof (Z.div_mod gpa (2 ^ 39)).
      pose proof (Z.mod_pos_bound gpa (2 ^ 39)). lia.
    - intros H. assert (4 <= gpa / 2 ^ 39); [|lia].
      apply Z.div_le_lower_bound; lia. }
  assert (Herr : forall e r0,
            exists c,
              handlePTWException mode e requiredPriv 0 PTEE_VAEXTEND r0
              = Some (faultOf requiredPriv (activeTLBIsVS2 r0) false,
                      set_trace (vmiMessage "W" PTEE_VAEXTEND (lowVA e) 0 c
                                 :: trace r0) r0)).
  { intros e r0. unfold handlePTWException. cbn [pteErrorDesc]. mon.
    unfold faultOf.
    destruct Hreq as [-> | [-> | ->]]; cbn; eexists; reflexivity. }
  split.
  - intros Hbad. unfold tlbLookupSv39x4, tlbLookupSvx4.
    cbn [Sv39 svExtendBits Z.ltb Z.compare andb]. fold gpa.
    destruct (3 <? Z.shiftr gpa SV39x4_SHIFT) eqn:E.
    + destruct (Herr entry r) as (c & Hc).
      rewrite (bind_run _ _ _ _ _ Hc).
      eexists _, c, _, _. split; reflexivity.
    + assert (Hlt : gpa < 2 ^ 41).
      { destruct (Z.lt_ge_cases gpa (2 ^ 41)) as [Hl|Hg]; [exact Hl|].
        apply Hx in Hg. discriminate Hg. }
      destruct Hbad as [Hge|Hbit]; [lia|].
      unfold bind at 1, modify at 1.
      rewrite (Sv39x4_reduced gpa) by (unfold gpa in *; lia).
      set (e1 := entry_set_lowVA (gpa mod 2 ^ 39) entry).
      set (r1 := set_s2Offset _ r).
      assert (Hv : validVA (VA_VPN Sv39 (VA_raw Sv39 (lowVA e1)))
                     (VA_VPNextend Sv39 (VA_raw Sv39 (lowVA e1))) = false).
      { destruct (validVA _ _) eqn:Ev; [|reflexivity].
        apply validVA_Sv39 in Ev. cbn [e1 lowVA entry_set_lowVA
          entry_set_range] in Ev.
        apply signExtended_reduced in Ev. congruence. }
      assert (Hw : tlbLookupSv Sv39 mode e1 requiredPriv attrs r1
                   = walkError mode requiredPriv e1 0 PTEE_VAEXTEND r1).
      { unfold tlbLookupSv. rewrite Hv. reflexivity. }
      unfold bind at 1. rewrite Hw. unfold walkError.
      destruct (Herr e1 r1) as (c & Hc).
      rewrite (bind_run _ _ _ _ _ Hc). unfold ret at 1. cbv beta iota.
      eexists _, c, _, _. split; reflexivity.
  - intros Hlt Hbit [exc e'] r' H s va a c Hin.
    unfold tlbLookupSv39x4, tlbLookupSvx4 in H.
    cbn [Sv39 svExtendBits Z.ltb Z.compare andb] in H. fold gpa in H.
    destruct (3 <? Z.shiftr gpa SV39x4_SHIFT) eqn:E.
    { assert (2 ^ 41 <= gpa) by (apply Hx; reflexivity). lia. }
    apply bind_inv in H as ([] & r1 & Hm & H).
    unfold modify in Hm. inversion Hm; subst r1. clear Hm.
    rewrite (Sv39x4_reduced gpa) in H by (unfold gpa in *; lia).
    apply bind_inv in H as ([exc1 e1] & r2 & Hw & H).
    assert (Hr : r' = r2).
    { assert (Hs : option_map snd
                     (match exc1 with
                      | Some _ => ret (exc1, e1)
                      | None =>
                          ret (exc1,
                               entry_set_range
                                 (Uns64 (lowVA e1 + Uns64 (Z.shiftl
                                    (Z.shiftr gpa SV39x4_SHIFT) SV39x4_SHIFT)))
                                 (Uns64 (highVA e1 + Uns64 (Z.shiftl
                                    (Z.shiftr gpa SV39x4_SHIFT) SV39x4_SHIFT)))
                                 e1)
                      end r2) = Some r2)
        by (destruct exc1; reflexivity).
      rewrite H in Hs. cbn [option_map snd] in Hs. congruence. }
    subst r2. clear H.
    apply tlbLookupSv_spec in Hw as (Eff & _).
    cbn [lowVA entry_set_lowVA entry_set_range] in Eff.
    assert (Hv : validVA (VA_VPN Sv39 (VA_raw Sv39 (gpa mod 2 ^ 39)))
                   (VA_VPNextend Sv39 (VA_raw Sv39 (gpa mod 2 ^ 39))) = true)
      by (apply validVA_Sv39, signExtended_reduced; exact Hbit).
    rewrite Hv in Eff. cbn [Sv39 svExtendBits Z.ltb Z.compare andb negb] in Eff.
    destruct Eff as (_ & _ & evs & T & F). fields.
    rewrite (newEvents_app _ _ _ T) in Hin.
    rewrite Forall_forall in F. apply F in Hin. cbn in Hin. discriminate.
Qed.

(* ------------------------------------------------------------------------- *)
(** ** TLB maintenance: instances *)

(** A TLB that holds one entry is well-formed. *)
Lemma ex_tlbOf_WF id e : tlb e = id -> tlbWF id (ex_tlbOf e).
Proof.
  intros He. unfold tlbWF, ex_tlbOf. cbn [lut free entries length].
  split; [repeat constructor; intros []|]. split; [constructor|].
  split; [intros p _ []|]. split.
  - intros p. cbn [In]. split; [intros H; left; left; lia|].
    intros [[<-|[]]|[]]. lia.
  - intros p [<-|[]]. unfold testAt, tagged. cbn [entries nth_error].
    rewrite He. apply riscvTLBId_eqb_refl.
Defined.

Lemma ex_emptyTLB_WF id : tlbWF id ex_emptyTLB.
Proof.
  unfold tlbWF, ex_emptyTLB. cbn [lut free entries length].
  split; [constructor|]. split; [constructor|]. split; [intros p []|].
  split; [|intros p []].
  intros p. cbn [In]. split; [lia | intros [[]|[]]].
Defined.

(** The hart [ex_r7] with its stage 1 TLB active. *)
Definition ex_r7a : riscv := set_activeTLB RISCV_TLB_HS ex_r7.

Lemma findTLBEntry_sound_witness :
  (riscv_tlb ex_r7a RISCV_TLB_HS = Some (ex_tlbOf ex_e7)
   /\ findTLBEntry RISCV_TLB_HS 0x10 ex_r7a = Some (Some 0%nat, ex_r7a))
  /\ exists e,
       nth_error (entries (ex_tlbOf ex_e7)) 0 = Some e
       /\ artifact e = false /\ lowVA e <= 0x10 <= highVA e.
Proof.
  assert (Ht : riscv_tlb ex_r7a RISCV_TLB_HS = Some (ex_tlbOf ex_e7))
    by reflexivity.
  assert (Hrun : findTLBEntry RISCV_TLB_HS 0x10 ex_r7a
                 = Some (Some 0%nat, ex_r7a)) by (vm_compute; reflexivity).
  split; [auto|].
  destruct (findTLBEntry_sound RISCV_TLB_HS 0x10 ex_r7a (Some 0%nat) ex_r7a
              (ex_tlbOf ex_e7) Ht Hrun)
    as (t' & _ & _ & _ & e & _ & _ & He & Ha & Hr & _).
  exists e. auto.
Defined.

(** A second page of the stage 1 TLB. *)
Definition ex_e7b : tlbEntry :=
  ex_entry RISCV_TLB_HS 0x1000 0x1FFF 0x3000 ex_asid7 false.

Lemma allocateTLBEntry_wellformed_witness :
  (riscv_tlb ex_r7 RISCV_TLB_HS = Some (ex_tlbOf ex_e7)
   /\ tlbWF RISCV_TLB_HS (ex_tlbOf ex_e7)
   /\ tlb ex_e7b = RISCV_TLB_HS)
  /\ exists r' t',
       allocateTLBEntry RISCV_TLB_HS ex_e7b ex_attrs ex_r7 = Some (1%nat, r')
       /\ riscv_tlb r' RISCV_TLB_HS = Some t'
       /\ tlbWF RISCV_TLB_HS t' /\ lut t' = [1%nat; 0%nat].
Proof.
  assert (Ht : riscv_tlb ex_r7 RISCV_TLB_HS = Some (ex_tlbOf ex_e7))
    by reflexivity.
  assert (HW : tlbWF RISCV_TLB_HS (ex_tlbOf ex_e7))
    by (apply ex_tlbOf_WF; reflexivity).
  assert (Hb : tlb ex_e7b = RISCV_TLB_HS) by reflexivity.
  split; [auto|].
  destruct (allocateTLBEntry_wellformed RISCV_TLB_HS ex_e7b ex_attrs ex_r7
              (ex_tlbOf ex_e7) Ht HW Hb)
    as (p & r' & t' & Hrun & Ht' & W' & _ & Hl & _ & _ & Hf).
  cbn [ex_tlbOf free entries length] in Hf. destruct Hf as (-> & _).
  exists r', t'. auto.
Defined.

Lemma deleteTLBEntry_wellformed_witness :
  (riscv_tlb ex_r7 RISCV_TLB_HS = Some (ex_tlbOf ex_e7)
   /\ tlbWF RISCV_TLB_HS (ex_tlbOf ex_e7)
   /\ In 0%nat (lut (ex_tlbOf ex_e7))
   /\ RISCV_TLB_HS <> RISCV_TLB_LAST)
  /\ exists r' t',
       deleteTLBEntry RISCV_TLB_HS 0%nat ex_r7 = Some (tt, r')
       /\ riscv_tlb r' RISCV_TLB_HS = Some t'
       /\ tlbWF RISCV_TLB_HS t' /\ free t' = [0%nat].
Proof.
  assert (Ht : riscv_tlb ex_r7 RISCV_TLB_HS = Some (ex_tlbOf ex_e7))
    by reflexivity.
  assert (HW : tlbWF RISCV_TLB_HS (ex_tlbOf ex_e7))
    by (apply ex_tlbOf_WF; reflexivity).
  assert (Hp : In 0%nat (lut (ex_tlbOf ex_e7))) by (left; reflexivity).
  assert (Hid : RISCV_TLB_HS <> RISCV_TLB_LAST) by discriminate.
  split; [auto|].
  destruct (deleteTLBEntry_wellformed RISCV_TLB_HS 0%nat ex_r7
              (ex_tlbOf ex_e7) Ht HW Hp Hid)
    as (r' & t' & Hrun & Ht' & W' & _ & Hf & _).
  exists r', t'. auto.
Defined.

Lemma invalidateTLBEntriesRange_exact_witness :
  (riscv_tlb ex_r7 RISCV_TLB_HS = Some (ex_tlbOf ex_e7)
   /\ tlbWF RISCV_TLB_HS (ex_tlbOf ex_e7)
   /\ RISCV_TLB_HS <> RISCV_TLB_LAST)
  /\ exists r' t',
       invalidateTLBEntriesRange RISCV_TLB_HS 0x800 0x2000 MM_ANY 0 ex_r7
       = Some (tt, r')
       /\ riscv_tlb r' RISCV_TLB_HS = Some t'
       /\ rangeEntries t' 0x800 0x2000 = [].
Proof.
  assert (Ht : riscv_tlb ex_r7 RISCV_TLB_HS = Some (ex_tlbOf ex_e7))
    by reflexivity.
  assert (HW : tlbWF RISCV_TLB_HS (ex_tlbOf ex_e7))
    by (apply ex_tlbOf_WF; reflexivity).
  assert (Hid : RISCV_TLB_HS <> RISCV_TLB_LAST) by discriminate.
  split; [auto|].
  destruct (invalidateTLBEntriesRange_exact RISCV_TLB_HS 0x800 0x2000 MM_ANY 0
              ex_r7 (ex_tlbOf ex_e7) Ht HW Hid)
    as (r' & t' & Hrun & Ht' & _ & _ & _ & He & _).
  exists r', t'. auto.
Defined.

Lemma riscvVMInvalidate_then_miss_witness :
  (riscv_tlb ex_r7 (getS1TLBId ex_r7) = Some (ex_tlbOf ex_e7)
   /\ tlbWF (getS1TLBId ex_r7) (ex_tlbOf ex_e7))
  /\ exists r',
       riscvVMInvalidateVA 0x10 ex_r7 = Some (tt, r')
       /\ findTLBEntry RISCV_TLB_HS 0x10 r' = Some (None, r').
Proof.
  assert (Ht : riscv_tlb ex_r7 (getS1TLBId ex_r7) = Some (ex_tlbOf ex_e7))
    by reflexivity.
  assert (HW : tlbWF (getS1TLBId ex_r7) (ex_tlbOf ex_e7))
    by (apply ex_tlbOf_WF; reflexivity).
  split; [auto|].
  destruct (riscvVMInvalidate_then_miss ex_r7 (ex_tlbOf ex_e7) Ht HW)
    as (Hva & _).
  exact (Hva 0x10).
Defined.

(* ------------------------------------------------------------------------- *)
(** ** Translations: instances *)

(** The write of [ex_miW] on the hart [ex_rW], through [tlbMiss]: what is
    reported back. *)
Definition ex_miW' : tlbMapInfo :=
  {| mi_lowVA := 0xC0000000; mi_highVA := 0xFFFFFFFF; mi_priv := MEM_PRIV_RW |}.

Definition ex_rWm : riscv :=
  match tlbMiss 8 16 3%nat RISCV_MODE_U ex_miW ex_attrs ex_rW with
  | Some (_, r') => r'
  | None => ex_rW
  end.

Lemma ex_missW_run :
  tlbMiss 8 16 3%nat RISCV_MODE_U ex_miW ex_attrs ex_rW
  = Some ((false, ex_miW'), ex_rWm).
Proof. vm_compute. reflexivity. Defined.

Lemma tlbMiss_wellformed_witness :
  (riscv_tlb ex_rW RISCV_TLB_HS = Some ex_emptyTLB
   /\ tlbWF RISCV_TLB_HS ex_emptyTLB
   /\ tlbMiss 8 16 3%nat RISCV_MODE_U ex_miW ex_attrs ex_rW
      = Some ((false, ex_miW'), ex_rWm))
  /\ exists t', riscv_tlb ex_rWm RISCV_TLB_HS = Some t'
                /\ tlbWF RISCV_TLB_HS t'.
Proof.
  assert (Ht : riscv_tlb ex_rW RISCV_TLB_HS = Some ex_emptyTLB)
    by reflexivity.
  assert (HW : tlbWF RISCV_TLB_HS ex_emptyTLB) by apply ex_emptyTLB_WF.
  split; [split; [exact Ht|split; [exact HW|exact ex_missW_run]]|].
  exact (tlbMiss_wellformed 8 16 3%nat RISCV_MODE_U ex_miW ex_attrs ex_rW
           (false, ex_miW') ex_rWm RISCV_TLB_HS ex_emptyTLB Ht HW
           ex_missW_run).
Defined.

Lemma tlbMiss_mapped_witness :
  tlbMiss 8 16 3%nat RISCV_MODE_U ex_miW ex_attrs ex_rW
  = Some ((false, ex_miW'), ex_rWm)
  /\ filter isException (newEvents ex_rW ex_rWm) = []
  /\ exists domP lowPA highPA mask asid,
       filter isAlias (newEvents ex_rW ex_rWm)
       = [vmirtAliasMemoryVM domP 3%nat lowPA highPA 0xC0000000 MEM_PRIV_RW
            mask asid].
Proof.
  split; [exact ex_missW_run|].
  destruct (tlbMiss_mapped 8 16 3%nat RISCV_MODE_U ex_miW ex_attrs ex_rW
              ex_miW' ex_rWm ex_missW_run) as (Hx & Ha & _).
  split; [exact Hx | exact Ha].
Defined.

(** The same write through the stage of the HS TLB. *)
Definition ex_rWs : riscv :=
  match getTLBStageEntry RISCV_TLB_HS RISCV_MODE_U ex_miW ex_attrs ex_rW with
  | Some (_, r') => r'
  | None => ex_rW
  end.

Lemma ex_stageW_run :
  getTLBStageEntry RISCV_TLB_HS RISCV_MODE_U ex_miW ex_attrs ex_rW
  = Some ((Some 0%nat, mi_set_priv MEM_PRIV_RW ex_miW), ex_rWs).
Proof. vm_compute. reflexivity. Defined.

Lemma getTLBStageEntry_priv_witness :
  getTLBStageEntry RISCV_TLB_HS RISCV_MODE_U ex_miW ex_attrs ex_rW
  = Some ((Some 0%nat, mi_set_priv MEM_PRIV_RW ex_miW), ex_rWs)
  /\ exists t' e,
       riscv_tlb ex_rWs RISCV_TLB_HS = Some t' /\ In 0%nat (lut t')
       /\ nth_error (entries t') 0 = Some e /\ D e = true.
Proof.
  split; [exact ex_stageW_run|].
  destruct (getTLBStageEntry_priv RISCV_TLB_HS RISCV_MODE_U ex_miW ex_attrs
              ex_rW 0%nat (mi_set_priv MEM_PRIV_RW ex_miW) ex_rWs
              ex_stageW_run)
    as (t' & e & Ht' & Hin & He & _ & _ & _ & Hd & _).
  exists t', e. split; [exact Ht'|]. split; [exact Hin|].
  split; [exact He|]. apply Hd. reflexivity.
Defined.






(** The write as an artifact access. *)
Definition ex_rWart : riscv :=
  match tlbMiss 8 16 3%nat RISCV_MODE_U ex_miW ex_artifactAttrs
          (ex_artifact ex_rW) with
  | Some (_, r') => r'
  | None => ex_rW
  end.

Lemma ex_missA_run :
  tlbMiss 8 16 3%nat RISCV_MODE_U ex_miW ex_artifactAttrs (ex_artifact ex_rW)
  = Some ((false, ex_miW'), ex_rWart).
Proof. vm_compute. reflexivity. Defined.

Lemma tlbMiss_readOnly_witness :
  ((artifactAccess (ex_artifact ex_rW) = true
    \/ (updatePTEA (ex_artifact ex_rW) = false
        /\ updatePTED (ex_artifact ex_rW) = false))
   /\ tlbMiss 8 16 3%nat RISCV_MODE_U ex_miW ex_artifactAttrs
        (ex_artifact ex_rW)
      = Some ((false, ex_miW'), ex_rWart))
  /\ ptwMem ex_rWart = ptwMem (ex_artifact ex_rW)
  /\ filter isWrite (newEvents (ex_artifact ex_rW) ex_rWart) = [].
Proof.
  assert (Hfree : artifactAccess (ex_artifact ex_rW) = true
                  \/ (updatePTEA (ex_artifact ex_rW) = false
                      /\ updatePTED (ex_artifact ex_rW) = false))
    by (left; reflexivity).
  split; [split; [exact Hfree | exact ex_missA_run]|].
  destruct (tlbMiss_readOnly 8 16 3%nat RISCV_MODE_U ex_miW ex_artifactAttrs
              (ex_artifact ex_rW) (false, ex_miW') ex_rWart Hfree
              ex_missA_run) as (Hm & Hw & _).
  split; [exact Hm | exact Hw].
Defined.

(** The walk for a read on the hart [ex_r3], whose tables are empty. *)
Definition ex_r3a : riscv := set_activeTLB RISCV_TLB_HS ex_r3.

Definition ex_lookupR_state : riscv :=
  match tlbLookup RISCV_MODE_U (initialEntry 0xC0001000) MEM_PRIV_R ex_attrs
          ex_r3a with
  | Some (_, r') => r'
  | None => ex_r3a
  end.

Lemma ex_lookupR_run :
  tlbLookup RISCV_MODE_U (initialEntry 0xC0001000) MEM_PRIV_R ex_attrs ex_r3a
  = Some ((Some riscv_E_LoadPageFault, initialEntry 0xC0001000),
          ex_lookupR_state).
Proof. vm_compute. reflexivity. Defined.

Lemma tlbLookup_fault_witness :
  tlbLookup RISCV_MODE_U (initialEntry 0xC0001000) MEM_PRIV_R ex_attrs ex_r3a
  = Some ((Some riscv_E_LoadPageFault, initialEntry 0xC0001000),
          ex_lookupR_state)
  /\ exists access,
       riscv_E_LoadPageFault = faultOf MEM_PRIV_R false access
       /\ isPageFault riscv_E_LoadPageFault = negb access.
Proof.
  split; [exact ex_lookupR_run|].
  destruct (tlbLookup_fault RISCV_MODE_U (initialEntry 0xC0001000) MEM_PRIV_R
              ex_attrs ex_r3a riscv_E_LoadPageFault
              (initialEntry 0xC0001000) ex_lookupR_state ex_lookupR_run)
    as (access & Hx & Hp & _).
  exists access. split; [exact Hx | exact Hp].
Defined.

(** The failing read of [ex_miR] on the hart [ex_r3]. *)
Definition ex_rRf : riscv :=
  match tlbMiss 8 16 3%nat RISCV_MODE_U ex_miR ex_attrs ex_r3 with
  | Some (_, r') => r'
  | None => ex_r3
  end.

Lemma ex_missR_run :
  tlbMiss 8 16 3%nat RISCV_MODE_U ex_miR ex_attrs ex_r3
  = Some ((true, ex_miR), ex_rRf).
Proof. vm_compute. reflexivity. Defined.

Lemma tlbMiss_reports_witness :
  (s2Active ex_r3 = false
   /\ MEM_AA_IS_ARTIFACT_ACCESS ex_attrs = false
   /\ tlbMiss 8 16 3%nat RISCV_MODE_U ex_miR ex_attrs ex_r3
      = Some ((true, ex_miR), ex_rRf))
  /\ exists x gpa,
       filter isException (newEvents ex_r3 ex_rRf)
       = [riscvTakeMemoryException x 0xC0001000 false gpa]
       /\ GPA ex_rRf = 0.
Proof.
  assert (Hs2 : s2Active ex_r3 = false) by reflexivity.
  assert (Hna : MEM_AA_IS_ARTIFACT_ACCESS ex_attrs = false) by reflexivity.
  split; [split; [exact Hs2|split; [exact Hna | exact ex_missR_run]]|].
  destruct (tlbMiss_reports 8 16 3%nat RISCV_MODE_U ex_miR ex_attrs ex_r3
              ex_miR ex_rRf Hs2 Hna ex_missR_run)
    as (access & S2 & gpa & Hx & _ & _ & Hg & _).
  exists (faultOf (mi_priv ex_miR) S2 access), gpa.
  split; [exact Hx | exact Hg].
Defined.

Lemma tlbLookupSv39x4_extension_witness :
  ((MEM_PRIV_R = MEM_PRIV_R \/ MEM_PRIV_R = MEM_PRIV_W
    \/ MEM_PRIV_R = MEM_PRIV_X)
   /\ 0 <= lowVA (initialEntry 0x4000000000) < 2 ^ 64)
  /\ exists va c e' r',
       tlbLookupSv39x4 RISCV_MODE_U (initialEntry 0x4000000000) MEM_PRIV_R
         ex_attrs ex_r3
       = Some ((Some (faultOf MEM_PRIV_R (activeTLBIsVS2 ex_r3) false), e'),
               r')
       /\ trace r' = vmiMessage "W" PTEE_VAEXTEND va 0 c :: trace ex_r3.
Proof.
  assert (Hreq : MEM_PRIV_R = MEM_PRIV_R \/ MEM_PRIV_R = MEM_PRIV_W
                 \/ MEM_PRIV_R = MEM_PRIV_X) by (left; reflexivity).
  assert (Hva : 0 <= lowVA (initialEntry 0x4000000000) < 2 ^ 64)
    by (cbn [lowVA initialEntry]; lia).
  split; [auto|].
  destruct (tlbLookupSv39x4_extension RISCV_MODE_U (initialEntry 0x4000000000)
              MEM_PRIV_R ex_attrs ex_r3 Hreq Hva) as (Hbad & _).
  apply Hbad. right. reflexivity.
Defined.
